(** * Polyhedronisme: the mesh engine of [polyhedronisme.js], embedded in Rocq

    The development follows the source file section by section: the
    JavaScript values the code relies on (numbers, property keys, objects
    enumerated in property order), the vector kernel, the [polyhedron]
    class, the [polyflag] assembler, the Conway operators, the
    canonicalization routines and the triangulation routines.

    Conventions.
    - A JavaScript number is an IEEE binary64 value: Rocq's primitive
      [float].  Vertex indices and counters are the non-negative integers
      among them and are written in [N].
    - [undefined] is [None] wherever the code can produce it (a face entry,
      a successor that is missing from a flag map, a default argument).
    - A thrown [TypeError] (reading a property of [undefined], iterating
      [undefined]) is the outcome [Throw].
    - [console.log] is a list of messages, oldest first.
    - Property names that [Object.prototype] already defines
      ([constructor], [toString], ...) are outside the model: no operator
      builds them. *)

From Stdlib Require Import List String Ascii Bool NArith ZArith Lia.
From Stdlib Require Import DecimalString DecimalN.
From Stdlib Require Import Floats.
From Stdlib Require Uint63.
Import ListNotations.

Set Implicit Arguments.

(* The decimal literals of the source denote the nearest binary64 value. *)
#[local] Set Warnings "-inexact-float".

#[local] Open Scope string_scope.
#[local] Open Scope list_scope.
#[local] Open Scope N_scope.

(* ================================================================== *)
(** ** JavaScript values *)

Module JS.

(** [`${n}`] for a non-negative integer [n]: its decimal digits. *)
Definition show (n : N) : string := NilEmpty.string_of_uint (N.to_uint n).

(** An entry of a face: a vertex index, or [undefined]. *)
Definition vid := option N.

Definition show_vid (v : vid) : string :=
  match v with
  | Some n => show n
  | None => "undefined"
  end.

(** [a < b] on face entries; a comparison with [undefined] is false. *)
Definition vid_ltb (a b : vid) : bool :=
  match a, b with
  | Some x, Some y => x <? y
  | _, _ => false
  end.

(** [a === b] on face entries. *)
Definition vid_eqb (a b : vid) : bool :=
  match a, b with
  | Some x, Some y => x =? y
  | None, None => true
  | _, _ => false
  end.

(** The names handed to the flag assembler: numbers, strings, [undefined]. *)
Inductive jsval :=
| JNum (n : N)
| JStr (s : string)
| JUndef.

Definition of_vid (v : vid) : jsval :=
  match v with
  | Some n => JNum n
  | None => JUndef
  end.

(** ToString, which is also the conversion to a property key. *)
Definition to_key (v : jsval) : string :=
  match v with
  | JNum n => show n
  | JStr s => s
  | JUndef => "undefined"
  end.

(** Strict equality [===]: no conversion between numbers and strings. *)
Definition strict_eqb (a b : jsval) : bool :=
  match a, b with
  | JNum x, JNum y => x =? y
  | JStr s, JStr t => String.eqb s t
  | JUndef, JUndef => true
  | _, _ => false
  end.

(** A property key is an array index when it is the canonical decimal
    form of an integer below [2^32 - 1]. *)
Definition array_index (k : string) : option N :=
  match NilEmpty.uint_of_string k with
  | Some d =>
      let n := N.of_uint d in
      if String.eqb (show n) k && (n <? 4294967295) then Some n else None
  | None => None
  end.

(** [key_before k k']: in property order, a new key [k] is enumerated
    before the existing key [k']: array indices ascending, then every
    other key in insertion order. *)
Definition key_before (k k' : string) : bool :=
  match array_index k, array_index k' with
  | Some n, Some n' => n <? n'
  | Some _, None => true
  | None, _ => false
  end.

(** An object used as an associative array, kept in the order in which
    [for (k in o)] and [_.values(o)] enumerate it. *)
Definition obj (V : Type) := list (string * V).

Section Objects.
Context {V : Type}.

(** [o[k]], [None] when the property is absent. *)
Fixpoint obj_get (o : obj V) (k : string) : option V :=
  match o with
  | [] => None
  | (k', v) :: o' => if String.eqb k k' then Some v else obj_get o' k
  end.

(** [o[k] = v]: an existing property keeps its place. *)
Fixpoint obj_set (k : string) (v : V) (o : obj V) : obj V :=
  match o with
  | [] => [(k, v)]
  | (k', v') :: o' =>
      if String.eqb k k' then (k, v) :: o'
      else if key_before k k' then (k, v) :: (k', v') :: o'
      else (k', v') :: obj_set k v o'
  end.

Definition obj_keys (o : obj V) : list string := map fst o.
Definition obj_values (o : obj V) : list V := map snd o.
End Objects.

(** The names that every object inherits from [Object.prototype]: on
    such a name [o[k]] is not [undefined] although [o] has no property
    [k], and [o["__proto__"] = v] gives [o] no property.  An [obj] holds
    the properties an object has of its own, so it stands for the
    object of the source on every other name.  The names that the
    operators build (digits, or a fixed prefix followed by digits and
    separators) are never among these. *)
Definition inherited (k : string) : bool :=
  existsb (String.eqb k)
    [ "constructor"; "__proto__"; "hasOwnProperty"; "isPrototypeOf";
      "propertyIsEnumerable"; "toLocaleString"; "toString"; "valueOf";
      "__defineGetter__"; "__defineSetter__"; "__lookupGetter__";
      "__lookupSetter__" ]%string.

(** Outcome of a call: a value, or an exception.  [SparseFaces] stands
    for a call that does return, but a face array with holes or with a
    non-index key, which is no polyhedron anymore. *)
Inductive error := TypeError | SparseFaces.

Inductive res (A : Type) :=
| Ret (a : A)
| Throw (e : error).
Arguments Throw {A} e.

Definition bind {A B} (m : res A) (k : A -> res B) : res B :=
  match m with
  | Ret a => k a
  | Throw e => Throw e
  end.

(** [defined x]: using [x] where an object is required. *)
Definition defined {A} (x : option A) : res A :=
  match x with
  | Some a => Ret a
  | None => Throw TypeError
  end.

(** A loop whose body may throw. *)
Fixpoint foldM {A S} (body : S -> A -> res S) (l : list A) (s : S) : res S :=
  match l with
  | [] => Ret s
  | a :: l' => bind (body s a) (foldM body l')
  end.

Fixpoint mapM {A B} (f : A -> res B) (l : list A) : res (list B) :=
  match l with
  | [] => Ret []
  | a :: l' => bind (f a) (fun b => bind (mapM f l') (fun bs => Ret (b :: bs)))
  end.

(** [l[i]] for an array [l] and a face entry [i]. *)
Definition at_vid {A} (l : list A) (i : vid) : option A :=
  match i with
  | Some n => nth_error l (N.to_nat n)
  | None => None
  end.

(** [l.length] *)
Definition len {A} (l : list A) : N := N.of_nat (List.length l).

(** The indices [0 .. n-1] of a loop [for (i = 0; i < n; i++)]. *)
Definition range (n : N) : list N := map N.of_nat (seq 0 (N.to_nat n)).

(** An array with its indices: [for (i = 0; i < l.length; i++) l[i]]. *)
Definition indexed {A} (l : list A) : list (N * A) := combine (range (len l)) l.

End JS.
Import JS.

Notation "x <- m ;; k" := (bind m (fun x => k))
  (at level 61, m at next level, right associativity).

(* ================================================================== *)
(** ** Math / Vector Functions *)

Module Vec.
#[local] Open Scope float_scope.

Definition vec : Type := float * float * float.

Definition of_N (n : N) : float := PrimFloat.of_uint63 (Uint63.of_Z (Z.of_N n)).

Definition vx (v : vec) : float := fst (fst v).
Definition vy (v : vec) : float := snd (fst v).
Definition vz (v : vec) : float := snd v.

Definition zero3 : vec := (0, 0, 0).

Definition mult (c : float) (v : vec) : vec := (c * vx v, c * vy v, c * vz v).

Definition add (a b : vec) : vec := (vx a + vx b, vy a + vy b, vz a + vz b).

Definition sub (a b : vec) : vec := (vx a - vx b, vy a - vy b, vz a - vz b).

Definition dot (a b : vec) : float := (vx a * vx b) + (vy a * vy b) + (vz a * vz b).

Definition cross (d1 d2 : vec) : vec :=
  ((vy d1 * vz d2) - (vz d1 * vy d2),
   (vz d1 * vx d2) - (vx d1 * vz d2),
   (vx d1 * vy d2) - (vy d1 * vx d2)).

Definition mag (v : vec) : float := PrimFloat.sqrt (dot v v).

Definition mag2 (v : vec) : float := dot v v.

Definition unit (v : vec) : vec := mult (1 / PrimFloat.sqrt (mag2 v)) v.

Definition midpoint (a b : vec) : vec := mult (1 / 2) (add a b).

Definition tween (a b : vec) (t : float) : vec :=
  (((1 - t) * vx a) + (t * vx b),
   ((1 - t) * vy a) + (t * vy b),
   ((1 - t) * vz a) + (t * vz b)).

Definition oneThird (a b : vec) : vec := tween a b (1 / 3).

Definition reciprocal (v : vec) : vec := mult (1 / mag2 v) v.

Definition tangentPoint (v1 v2 : vec) : vec :=
  let d := sub v2 v1 in
  sub v1 (mult (dot d v1 / mag2 d) d).

Definition edgeDist (v1 v2 : vec) : float := PrimFloat.sqrt (mag2 (tangentPoint v1 v2)).

Definition orthogonal (v1 v2 v3 : vec) : vec :=
  let d1 := sub v2 v1 in
  let d2 := sub v3 v2 in
  cross d1 d2.

(** [calcCentroid]: running sum of the vertices over their number. *)
Definition calcCentroid (vertices : list vec) : vec :=
  mult (1 / of_N (len vertices)) (fold_left add vertices zero3).

End Vec.
Import Vec.

(** [normal]: sum of the cross products of successive edge pairs, made
    unit length.  The entries are the results of [vertices[v]] and may be
    [undefined]; [sub] on such an entry throws. *)
Definition slice2 {A} (l : list (option A)) : option A * option A :=
  match List.rev l with
  | b :: a :: _ => (a, b)
  | [a] => (a, None)
  | [] => (None, None)
  end.

Definition normal (vertices : list (option vec)) : res vec :=
  let '(v1, v2) := slice2 vertices in
  r <- foldM (fun (st : vec * option vec * option vec) v3 =>
                let '(normalV, v1, v2) := st in
                b <- defined v2 ;;
                a <- defined v1 ;;
                c <- defined v3 ;;
                Ret (add normalV (orthogonal a b c), v2, v3))
             vertices (zero3, v1, v2) ;;
  Ret (unit (fst (fst r))).

(* ================================================================== *)
(** ** Polyhedra Functions *)

(** The integers that a number of the source holds exactly, together
    with their neighbours: below [2^53] in size.  On these, [i++],
    [i--], [right + 1] and [right - 1] are the integer operations. *)
Definition safe_integer (z : Z) : Prop := (- 2 ^ 53 < z < 2 ^ 53)%Z.

(** [__range__(left, right, inclusive)], for bounds that are safe
    integers.  The loop
    [for (let i = left; ascending ? i < end : i > end; ascending ? i++ : i--)]
    takes one unit of [fuel] per turn; [None] is a loop that was cut short. *)
Fixpoint range_loop (fuel : nat) (ascending : bool) (end_ i : Z) : option (list Z) :=
  if (if ascending then i <? end_ else i >? end_)%Z then
    match fuel with
    | O => None
    | S fuel =>
        option_map (cons i)
                   (range_loop fuel ascending end_ (if ascending then i + 1 else i - 1)%Z)
    end
  else Some [].

Definition __range__ (fuel : nat) (left right : Z) (inclusive : bool) : option (list Z) :=
  let ascending := (left <? right)%Z in
  let end_ := if negb inclusive then right
              else if ascending then (right + 1)%Z else (right - 1)%Z in
  range_loop fuel ascending end_ left.

(** [faceToEdges]: the directed edges [[v1,v2]] of a face, starting with
    the edge from the last entry to the first. *)
Fixpoint edges_from (v1 : vid) (face : list vid) : list (vid * vid) :=
  match face with
  | [] => []
  | v2 :: rest => (v1, v2) :: edges_from v2 rest
  end.

Definition faceToEdges (face : list vid) : list (vid * vid) :=
  edges_from (last face None) face.

Record polyhedron := Polyhedron {
  vertices : list vec;
  faces : list (list vid);
  name : string;
  face_classes : option (list (option N))
}.

(** [new polyhedron(verts, faces, name)]: an empty name is falsy and
    becomes ["null polyhedron"]. *)
Definition new_polyhedron (verts : list vec) (fs : list (list vid)) (nm : string) :=
  Polyhedron verts fs (if String.eqb nm "" then "null polyhedron" else nm) None.

(** The property name under which [edges] files an edge: the pair with
    its smaller entry first. *)
Definition edge_key (e : vid * vid) : string :=
  let '(a, b) := if vid_ltb (fst e) (snd e) then (fst e, snd e) else (snd e, fst e) in
  show_vid a ++ "~" ++ show_vid b.

(** [edges()]: [uniqEdges[`${a}~${b}`] = e] for every edge of every face,
    then the values of [uniqEdges]. *)
Definition edges (p : polyhedron) : list (vid * vid) :=
  obj_values
    (fold_left (fun uniqEdges e => obj_set (edge_key e) e uniqEdges)
               (List.concat (map faceToEdges (faces p))) []).

(** [centers()] *)
Definition face_center (vs : list vec) (face : list vid) : res vec :=
  fcenter <- foldM (fun fcenter vidx => v <- defined (at_vid vs vidx) ;; Ret (add fcenter v))
                   face zero3 ;;
  Ret (mult (1 / of_N (len face))%float fcenter).

Definition centers (p : polyhedron) : res (list vec) :=
  mapM (face_center (vertices p)) (faces p).

(** [normals()] *)
Definition normals (p : polyhedron) : res (list vec) :=
  mapM (fun face => normal (map (at_vid (vertices p)) face)) (faces p).

(* ================================================================== *)
(** ** Primitive Polyhedra Seeds *)

Definition ids (l : list N) : list vid := map Some l.

Module Seeds.
#[local] Open Scope float_scope.

Definition tetrahedron : polyhedron :=
  Polyhedron
    [ (1, 1, 1); (1, -1, -1); (-1, 1, -1); (-1, -1, 1) ]
    (map ids [ [0;1;2]; [0;2;3]; [0;3;1]; [1;3;2] ]%N)
    "T" None.

Definition octahedron : polyhedron :=
  Polyhedron
    [ (0, 0, 1.4142135623730951); (1.4142135623730951, 0, 0);
      (0, 1.4142135623730951, 0); (-1.4142135623730951, 0, 0);
      (0, -1.4142135623730951, 0); (0, 0, -1.4142135623730951) ]
    (map ids [ [0;1;2]; [0;2;3]; [0;3;4]; [0;4;1];
               [1;4;5]; [1;5;2]; [2;5;3]; [3;5;4] ]%N)
    "O" None.

Definition cube : polyhedron :=
  Polyhedron
    [ (0.7071067811865475, 0.7071067811865475, 0.7071067811865475);
      (-0.7071067811865475, 0.7071067811865475, 0.7071067811865475);
      (-0.7071067811865475, -0.7071067811865475, 0.7071067811865475);
      (0.7071067811865475, -0.7071067811865475, 0.7071067811865475);
      (0.7071067811865475, -0.7071067811865475, -0.7071067811865475);
      (0.7071067811865475, 0.7071067811865475, -0.7071067811865475);
      (-0.7071067811865475, 0.7071067811865475, -0.7071067811865475);
      (-0.7071067811865475, -0.7071067811865475, -0.7071067811865475) ]
    (map ids [ [3;0;1;2]; [3;4;5;0]; [0;5;6;1]; [1;6;7;2]; [2;7;4;3]; [5;4;7;6] ]%N)
    "C" None.

Definition icosahedron : polyhedron :=
  Polyhedron
    [ (0, 0, 1.1755705045849463); (1.0514622242382672, 0, 0.5257311121191336);
      (0.32491969623290634, 1.0, 0.5257311121191336);
      (-0.85065080835204, 0.6180339887498949, 0.5257311121191336);
      (-0.85065080835204, -0.6180339887498949, 0.5257311121191336);
      (0.32491969623290634, -1.0, 0.5257311121191336);
      (0.85065080835204, 0.6180339887498949, -0.5257311121191336);
      (0.85065080835204, -0.6180339887498949, -0.5257311121191336);
      (-0.32491969623290634, 1.0, -0.5257311121191336);
      (-1.0514622242382672, 0, -0.5257311121191336);
      (-0.32491969623290634, -1.0, -0.5257311121191336);
      (0, 0, -1.1755705045849463) ]
    (map ids [ [0;1;2]; [0;2;3]; [0;3;4]; [0;4;5];
               [0;5;1]; [1;5;7]; [1;7;6]; [1;6;2];
               [2;6;8]; [2;8;3]; [3;8;9]; [3;9;4];
               [4;9;10]; [4;10;5]; [5;10;7]; [6;7;11];
               [6;11;8]; [7;10;11]; [8;11;9]; [9;11;10] ]%N)
    "I" None.

Definition dodecahedron : polyhedron :=
  Polyhedron
    [ (0, 0, 1.0704662693192697); (0.7136441795461799, 0, 0.7978784486061616);
      (-0.35682208977308993, 0.6180339887498949, 0.7978784486061616);
      (-0.35682208977308993, -0.6180339887498949, 0.7978784486061616);
      (0.7978784486061616, 0.6180339887498949, 0.35682208977308993);
      (0.7978784486061616, -0.6180339887498949, 0.35682208977308993);
      (-0.9341723589627158, 0.38196601125010515, 0.35682208977308993);
      (0.1362939103565541, 1.0, 0.35682208977308993);
      (0.1362939103565541, -1.0, 0.35682208977308993);
      (-0.9341723589627158, -0.38196601125010515, 0.35682208977308993);
      (0.9341723589627158, 0.38196601125010515, -0.35682208977308993);
      (0.9341723589627158, -0.38196601125010515, -0.35682208977308993);
      (-0.7978784486061616, 0.6180339887498949, -0.35682208977308993);
      (-0.1362939103565541, 1.0, -0.35682208977308993);
      (-0.1362939103565541, -1.0, -0.35682208977308993);
      (-0.7978784486061616, -0.6180339887498949, -0.35682208977308993);
      (0.35682208977308993, 0.6180339887498949, -0.7978784486061616);
      (0.35682208977308993, -0.6180339887498949, -0.7978784486061616);
      (-0.7136441795461799, 0, -0.7978784486061616); (0, 0, -1.0704662693192697) ]
    (map ids [ [0;1;4;7;2]; [0;2;6;9;3]; [0;3;8;5;1];
               [1;5;11;10;4]; [2;7;13;12;6]; [3;9;15;14;8];
               [4;10;16;13;7]; [5;8;14;17;11]; [6;12;18;15;9];
               [10;11;17;19;16]; [12;13;16;19;18]; [14;15;18;19;17] ]%N)
    "D" None.

End Seeds.
Import Seeds.


(* ================================================================== *)
(** ** Polyhedron Flagset Construct *)

(** What the code writes to the console. *)
Inductive logmsg :=
| Log (text : string)
| LogBadFlag (i : string) (face : obj jsval)
    (* "Bad flag spec, have a neverending face:", i, this.flags[i] *)
| LogCanon (maxChange : float)
    (* `[canonicalization done, last |deltaV|=${maxChange}]` *)
| LogPoly (text : string) (p : polyhedron).

Definition MAX_FACE_SIDEDNESS : nat := 1000.

(** The three objects of a [polyflag].  [vertidxs] and [vertices] are
    written together, under the same key, by [newV] only: they are kept
    as one object whose values are the pairs (index, coordinates). *)
Record polyflag := Polyflag {
  flags : obj (obj jsval);
  verts : obj (N * vec)
}.

Definition new_polyflag : polyflag := Polyflag [] [].

(** [newV(vertName, coordinates)]: the first declaration of a name wins.
    The test [this.vertidxs[vertName] === undefined] is the lookup of an
    own property, which it is for every name that is not [inherited]. *)
Definition newV (vertName : jsval) (coordinates : vec) (fl : polyflag) : polyflag :=
  match obj_get (verts fl) (to_key vertName) with
  | None => Polyflag (flags fl) (obj_set (to_key vertName) (0, coordinates) (verts fl))
  | Some _ => fl
  end.

(** [newFlag(faceName, vertName1, vertName2)], for names that are not
    [inherited]. *)
Definition newFlag (faceName vertName1 vertName2 : jsval) (fl : polyflag) : polyflag :=
  let face :=
    match obj_get (flags fl) (to_key faceName) with
    | None => []
    | Some face => face
    end in
  Polyflag (obj_set (to_key faceName) (obj_set (to_key vertName1) vertName2 face) (flags fl))
           (verts fl).

Section Topoly.
(** [vertidxs], once the vertices are numbered. *)
Variable vertidxs : obj N.
(** The name [i] of the face and its successor map [this.flags[i]]. *)
Variable i : string.
Variable face : obj jsval.
Variable v0 : jsval.

(** [this.flags[i][v]] *)
Definition next_vertex (v : jsval) : jsval :=
  match obj_get face (to_key v) with
  | Some w => w
  | None => JUndef
  end.

(** [this.vertidxs[v]] *)
Definition vertex_index (v : jsval) : vid := obj_get vertidxs (to_key v).

(** The loop [while (v !== v0)].  The counter [faceCTR] is kept as
    [budget = MAX_FACE_SIDEDNESS - faceCTR]: after [faceCTR++] the guard
    [faceCTR > MAX_FACE_SIDEDNESS] holds exactly when [budget] was [0].
    The result is the face and what was logged. *)
Fixpoint walk (budget : nat) (v : jsval) (f : list vid) : list vid * list logmsg :=
  if strict_eqb v v0 then (f, [])
  else
    let f := f ++ [vertex_index v] in
    let v := next_vertex v in
    match budget with
    | O => (f, [LogBadFlag i face])
    | S budget => walk budget v f
    end.

Definition trace_face : list vid * list logmsg :=
  let v := v0 in
  let f := [vertex_index v] in
  let v := next_vertex v in
  walk MAX_FACE_SIDEDNESS v f.
End Topoly.

(** First loop of [topoly]: number the vertices in property order. *)
Definition number_vertices (vs : obj (N * vec)) : obj (N * vec) :=
  map (fun '(ctr, (k, (_, xyz))) => (k, (ctr, xyz))) (indexed vs).

(** The starting vertex: [for (let j in face) { v0 = face[j]; break; }].
    [v0] is a [var] of the enclosing function: a face without any
    property leaves it as it was. *)
Definition first_value (face : obj jsval) (v0 : jsval) : jsval :=
  match face with
  | (_, w) :: _ => w
  | [] => v0
  end.

(** The body of the second loop of [topoly]: one more face, walked from
    its starting vertex. *)
Definition topoly_step (vertidxs : obj N)
    (st : list (list vid) * jsval * list logmsg) (entry : string * obj jsval)
  : list (list vid) * jsval * list logmsg :=
  let '(i, face) := entry in
  let '(poly_faces, v0, log) := st in
  let v0 := first_value face v0 in
  let '(f, l) := trace_face vertidxs i face v0 in
  (poly_faces ++ [f], v0, log ++ l).

(** [topoly()] *)
Definition topoly (fl : polyflag) : polyhedron * list logmsg :=
  let numbered := number_vertices (verts fl) in
  let vertidxs := map (fun '(k, (ctr, _)) => (k, ctr)) numbered in
  let poly_vertices := map (fun '(_, (_, xyz)) => xyz) numbered in
  let '(poly_faces, _, log) :=
    fold_left (topoly_step vertidxs) (flags fl) ([], JUndef, []) in
  (Polyhedron poly_vertices poly_faces "unknown polyhedron" None, log).

(** [midName]: the same name for both directions of an edge. *)
Definition midName (v1 v2 : vid) : string :=
  if vid_ltb v1 v2 then show_vid v1 ++ "_" ++ show_vid v2
  else show_vid v2 ++ "_" ++ show_vid v1.

(* ================================================================== *)
(** ** Polyhedron Operators *)

Module Ops.
(* Names are built by string concatenation throughout this part. *)
#[local] Open Scope string_scope.

Definition set_name (nm : string) (p : polyhedron) : polyhedron :=
  Polyhedron (vertices p) (faces p) nm (face_classes p).

(** [flag.topoly()] followed by the renaming of the result. *)
Definition assemble (fl : polyflag) (nm : string) (log : list logmsg)
  : res (polyhedron * list logmsg) :=
  let '(newpoly, l) := topoly fl in
  Ret (set_name nm newpoly, (log ++ l)%list).

(** [`${n === 0 ? "" : n}`] *)
Definition show_sides (n : N) : string := if N.eqb n 0 then "" else show n.

(** [if (!n) { n = 0; }] for an absent or integer argument. *)
Definition default_n (n : option N) : N :=
  match n with
  | Some k => k
  | None => 0
  end.

(** [if (x === undefined) { x = d; }] *)
Definition default_arg (x : option float) (d : float) : float :=
  match x with
  | Some y => y
  | None => d
  end.

(** [for (i = 0; i < poly.vertices.length; i++) flag.newV(`v${i}`, g(p))] *)
Definition old_vertices (g : vec -> vec) (p : polyhedron) (fl : polyflag) : polyflag :=
  fold_left (fun fl '(i, xyz) => newV (JStr ("v" ++ show i)) (g xyz) fl)
            (indexed (vertices p)) fl.

(** *** Kis(N) *)

Definition kisN_face (n : N) (apexdist : float)
    (st : polyflag * bool) (row : N * (list vid * (vec * vec))) : polyflag * bool :=
  let '(i, (f, (normal_i, center_i))) := row in
  let v1 := "v" ++ show_vid (last f None) in
  let '(fl, foundAny, _) :=
    fold_left
      (fun (st : polyflag * bool * string) v =>
         let '(fl, foundAny, v1) := st in
         let v2 := "v" ++ show_vid v in
         if N.eqb (len f) n || N.eqb n 0 then
           let apex := "apex" ++ show i in
           let fname := show i ++ v1 in
           let fl := newV (JStr apex) (add center_i (mult apexdist normal_i)) fl in
           let fl := newFlag (JStr fname) (JStr v1) (JStr v2) fl in
           let fl := newFlag (JStr fname) (JStr v2) (JStr apex) fl in
           let fl := newFlag (JStr fname) (JStr apex) (JStr v1) fl in
           (fl, true, v2)
         else
           (newFlag (JStr (show i)) (JStr v1) (JStr v2) fl, foundAny, v2))
      f (fst st, snd st, v1) in
  (fl, foundAny).

Definition kisN (poly : polyhedron) (n : option N) (apexdist : option float)
  : res (polyhedron * list logmsg) :=
  let n := default_n n in
  let apexdist := default_arg apexdist 0.1%float in
  let log := [Log ("Taking kis of " ++ show_sides n ++ "-sided faces of " ++ name poly ++ "...")] in
  let fl := old_vertices (fun xyz => xyz) poly new_polyflag in
  normals <- normals poly ;;
  centers <- centers poly ;;
  let '(fl, foundAny) :=
    fold_left (kisN_face n apexdist)
              (indexed (combine (faces poly) (combine normals centers))) (fl, false) in
  let log :=
    if foundAny then log
    else (log ++ [Log ("No " ++ show n ++ "-fold components were found.")])%list in
  assemble fl ("k" ++ show_sides n ++ name poly) log.

(** *** Ambo *)

Definition ambo_face (vs : list vec) (fl : polyflag) (row : N * list vid) : res polyflag :=
  let '(i, f) := row in
  let '(v1, v2) := slice2 f in
  r <- foldM
         (fun (st : polyflag * vid * vid) v3 =>
            let '(fl, v1, v2) := st in
            fl <- (if vid_ltb v1 v2 then
                     a <- defined (at_vid vs v1) ;;
                     b <- defined (at_vid vs v2) ;;
                     Ret (newV (JStr (midName v1 v2)) (midpoint a b) fl)
                   else Ret fl) ;;
            let fl := newFlag (JStr ("orig" ++ show i))
                              (JStr (midName v1 v2)) (JStr (midName v2 v3)) fl in
            let fl := newFlag (JStr ("dual" ++ show_vid v2))
                              (JStr (midName v2 v3)) (JStr (midName v1 v2)) fl in
            Ret (fl, v2, v3))
         f (fl, v1, v2) ;;
  Ret (fst (fst r)).

Definition ambo (poly : polyhedron) : res (polyhedron * list logmsg) :=
  let log := [Log ("Taking ambo of " ++ name poly ++ "...")] in
  fl <- foldM (ambo_face (vertices poly)) (indexed (faces poly)) new_polyflag ;;
  assemble fl ("a" ++ name poly) log.

(** *** Gyro *)

(** [v1+"~"+v2] *)
Definition tilde (v1 v2 : vid) : string := show_vid v1 ++ "~" ++ show_vid v2.

Definition gyro_face (vs : list vec) (fl : polyflag) (row : N * list vid) : res polyflag :=
  let '(i, f) := row in
  let '(v1, v2) := slice2 f in
  let center := JStr ("center" ++ show i) in
  r <- foldM
         (fun (st : polyflag * vid * vid) v =>
            let '(fl, v1, v2) := st in
            let v3 := v in
            a <- defined (at_vid vs v1) ;;
            b <- defined (at_vid vs v2) ;;
            let fl := newV (JStr (tilde v1 v2)) (oneThird a b) fl in
            let fname := JStr (show i ++ "f" ++ show_vid v1) in
            let fl := newFlag fname center (JStr (tilde v1 v2)) fl in
            let fl := newFlag fname (JStr (tilde v1 v2)) (JStr (tilde v2 v1)) fl in
            let fl := newFlag fname (JStr (tilde v2 v1)) (JStr ("v" ++ show_vid v2)) fl in
            let fl := newFlag fname (JStr ("v" ++ show_vid v2)) (JStr (tilde v2 v3)) fl in
            let fl := newFlag fname (JStr (tilde v2 v3)) center fl in
            Ret (fl, v2, v3))
         f (fl, v1, v2) ;;
  Ret (fst (fst r)).

Definition gyro (poly : polyhedron) : res (polyhedron * list logmsg) :=
  let log := [Log ("Taking gyro of " ++ name poly ++ "...")] in
  let fl := old_vertices unit poly new_polyflag in
  centers <- centers poly ;;
  let fl := fold_left (fun fl '(i, c) => newV (JStr ("center" ++ show i)) (unit c) fl)
                      (indexed centers) fl in
  fl <- foldM (gyro_face (vertices poly)) (indexed (faces poly)) fl ;;
  assemble fl ("g" ++ name poly) log.

(** *** Propellor *)

Definition propellor_face (vs : list vec) (fl : polyflag) (row : N * list vid) : res polyflag :=
  let '(i, f) := row in
  let '(v1, v2) := slice2 f in
  r <- foldM
         (fun (st : polyflag * vid * vid) v =>
            let '(fl, v1, v2) := st in
            let v3 := v in
            a <- defined (at_vid vs v1) ;;
            b <- defined (at_vid vs v2) ;;
            let fl := newV (JStr (tilde v1 v2)) (oneThird a b) fl in
            let fname := JStr (show i ++ "f" ++ show_vid v2) in
            let fl := newFlag (JStr ("v" ++ show i)) (JStr (tilde v1 v2)) (JStr (tilde v2 v3)) fl in
            let fl := newFlag fname (JStr (tilde v1 v2)) (JStr (tilde v2 v1)) fl in
            let fl := newFlag fname (JStr (tilde v2 v1)) (JStr ("v" ++ show_vid v2)) fl in
            let fl := newFlag fname (JStr ("v" ++ show_vid v2)) (JStr (tilde v2 v3)) fl in
            let fl := newFlag fname (JStr (tilde v2 v3)) (JStr (tilde v1 v2)) fl in
            Ret (fl, v2, v3))
         f (fl, v1, v2) ;;
  Ret (fst (fst r)).

Definition propellor (poly : polyhedron) : res (polyhedron * list logmsg) :=
  let log := [Log ("Taking propellor of " ++ name poly ++ "...")] in
  let fl := old_vertices unit poly new_polyflag in
  fl <- foldM (propellor_face (vertices poly)) (indexed (faces poly)) fl ;;
  assemble fl ("p" ++ name poly) log.

(** *** Reflection *)

(** [reflect]: every vertex goes through the origin and every face is
    reversed.  The polyhedron is changed in place, and returned. *)
Definition reflect (poly : polyhedron) : res (polyhedron * list logmsg) :=
  let log := [Log ("Taking reflection of " ++ name poly ++ "...")] in
  Ret (Polyhedron (map (mult (-1)%float) (vertices poly))
                  (map (@List.rev vid) (faces poly))
                  ("r" ++ name poly) (face_classes poly),
       log).

(** *** Dual *)

(** [intersect]: the first element common to three sets, [null] ([None])
    when there is none; a set that is [undefined] throws when its loop is
    entered. *)
Fixpoint intersect2 (s1 : vid) (set2 : list vid) (set3 : option (list vid)) : res bool :=
  match set2 with
  | [] => Ret false
  | s2 :: rest =>
      if vid_eqb s1 s2 then
        s3 <- defined set3 ;;
        if existsb (vid_eqb s1) s3 then Ret true else intersect2 s1 rest set3
      else intersect2 s1 rest set3
  end.

Fixpoint intersect1 (set1 : list vid) (set2 set3 : option (list vid)) : res (option vid) :=
  match set1 with
  | [] => Ret None
  | s1 :: rest =>
      s2 <- defined set2 ;;
      found <- intersect2 s1 s2 set3 ;;
      if found then Ret (Some s1) else intersect1 rest set2 set3
  end.

Definition intersect (set1 set2 set3 : option (list vid)) : res (option vid) :=
  s1 <- defined set1 ;;
  intersect1 s1 set2 set3.

(** [a[k] = x] on an array that may have holes; the array grows when [k]
    is past its end. *)
Fixpoint array_set {A} (l : list (option A)) (k : nat) (x : A) : list (option A) :=
  match k, l with
  | O, [] => [Some x]
  | O, _ :: rest => Some x :: rest
  | S k', [] => None :: array_set [] k' x
  | S k', y :: rest => y :: array_set rest k' x
  end.

(** The array as a face list, when it has no hole. *)
Fixpoint dense {A} (l : list (option A)) : res (list A) :=
  match l with
  | [] => Ret []
  | Some x :: rest => xs <- dense rest ;; Ret (x :: xs)
  | None :: rest => Throw SparseFaces
  end.

(** [face[v1][k] = x] in the table [face] of one object per vertex. *)
Definition table_set (face : list (obj string)) (v1 : vid) (k x : string)
  : res (list (obj string)) :=
  match v1 with
  | Some n =>
      match nth_error face (N.to_nat n) with
      | Some o =>
          Ret (firstn (N.to_nat n) face ++ obj_set k x o :: skipn (S (N.to_nat n)) face)%list
      | None => Throw TypeError
      end
  | None => Throw TypeError
  end.

(** [f[j]] for a face [f] *)
Definition entry (f : list vid) (j : nat) : vid :=
  match nth_error f j with
  | Some v => v
  | None => None
  end.

Definition dual_table (poly : polyhedron) : res (list (obj string)) :=
  foldM
    (fun face '(i, f) =>
       r <- foldM (fun (st : list (obj string) * vid) v2 =>
                     let '(face, v1) := st in
                     face <- table_set face v1 ("v" ++ show_vid v2) (show i) ;;
                     Ret (face, v2))
                  f (face, last f None) ;;
       Ret (fst r))
    (indexed (faces poly))
    (map (fun _ => []) (vertices poly)).

Definition dual_flags (poly : polyhedron) (face : list (obj string)) (fl : polyflag)
  : res polyflag :=
  foldM
    (fun fl '(i, f) =>
       r <- foldM (fun (st : polyflag * vid) v2 =>
                     let '(fl, v1) := st in
                     o <- defined (at_vid face v2) ;;
                     let across :=
                       match obj_get o ("v" ++ show_vid v1) with
                       | Some s => JStr s
                       | None => JUndef
                       end in
                     Ret (newFlag (of_vid v1) across (JStr (show i)) fl, v2))
                  f (fl, last f None) ;;
       Ret (fst r))
    (indexed (faces poly)) fl.

(** The name of the dual: a leading ["d"] is removed, or one is added. *)
Definition dual_name (nm : string) : string :=
  match nm with
  | String c rest => if Ascii.eqb c "d" then rest else "d" ++ nm
  | EmptyString => "d" ++ nm
  end.

Definition dual (poly : polyhedron) : res (polyhedron * list logmsg) :=
  let log := [Log ("Taking dual of " ++ name poly ++ "...")] in
  face <- dual_table poly ;;
  centers <- centers poly ;;
  let fl := fold_left (fun fl '(i, c) => newV (JStr (show i)) c fl)
                      (indexed centers) new_polyflag in
  fl <- dual_flags poly face fl ;;
  let '(dpoly, l) := topoly fl in
  sortF <- foldM
             (fun sortF f =>
                k <- intersect (at_vid (faces poly) (entry f 0))
                               (at_vid (faces poly) (entry f 1))
                               (at_vid (faces poly) (entry f 2)) ;;
                match k with
                | Some (Some n) => Ret (array_set sortF (N.to_nat n) f)
                | _ => Ret sortF   (* sortF[null], sortF[undefined]: not an index *)
                end)
             (faces dpoly) [] ;;
  fs <- dense sortF ;;
  Ret (Polyhedron (vertices dpoly) fs (dual_name (name poly)) None, (log ++ l)%list).

(** *** Chamfer *)

(** [!dist] for an absent or numeric argument: [undefined], [0], [NaN]. *)
Definition falsy (x : option float) : bool :=
  match x with
  | Some y => PrimFloat.eqb y 0 || PrimFloat.is_nan y
  | None => true
  end.

Definition chamfer_face (vs : list vec) (dist : float)
    (fl : polyflag) (row : N * (list vid * vec)) : res polyflag :=
  let '(i, (f, normal_i)) := row in
  let v1 := last f None in
  let v1new := show i ++ "_" ++ show_vid v1 in
  r <- foldM
         (fun (st : polyflag * vid * string) v2 =>
            let '(fl, v1, v1new) := st in
            p2 <- defined (at_vid vs v2) ;;
            let fl := newV (of_vid v2) (mult (1 + dist)%float p2) fl in
            let v2new := show i ++ "_" ++ show_vid v2 in
            let fl := newV (JStr v2new) (add p2 (mult (dist * 1.5)%float normal_i)) fl in
            let fl := newFlag (JStr ("orig" ++ show i)) (JStr v1new) (JStr v2new) fl in
            let facename :=
              JStr (if vid_ltb v1 v2 then "hex" ++ show_vid v1 ++ "_" ++ show_vid v2
                    else "hex" ++ show_vid v2 ++ "_" ++ show_vid v1) in
            let fl := newFlag facename (of_vid v2) (JStr v2new) fl in
            let fl := newFlag facename (JStr v2new) (JStr v1new) fl in
            let fl := newFlag facename (JStr v1new) (of_vid v1) fl in
            Ret (fl, v2, v2new))
         f (fl, v1, v1new) ;;
  Ret (fst (fst r)).

Definition chamfer (poly : polyhedron) (dist : option float)
  : res (polyhedron * list logmsg) :=
  let log := [Log ("Taking chamfer of " ++ name poly ++ "...")] in
  let dist := if falsy dist then 0.5%float else default_arg dist 0.5%float in
  normals <- normals poly ;;
  fl <- foldM (chamfer_face (vertices poly) dist)
              (indexed (combine (faces poly) normals)) new_polyflag ;;
  assemble fl ("c" ++ name poly) log.

(** *** Whirl *)

Definition whirl_face (vs : list vec)
    (fl : polyflag) (row : N * (list vid * vec)) : res polyflag :=
  let '(i, (f, center_i)) := row in
  let '(v1, v2) := slice2 f in
  r <- foldM
         (fun (st : polyflag * vid * vid) v =>
            let '(fl, v1, v2) := st in
            let v3 := v in
            a <- defined (at_vid vs v1) ;;
            b <- defined (at_vid vs v2) ;;
            let v1_2 := oneThird a b in
            let fl := newV (JStr (tilde v1 v2)) v1_2 fl in
            let cv1name := JStr ("center" ++ show i ++ "~" ++ show_vid v1) in
            let cv2name := JStr ("center" ++ show i ++ "~" ++ show_vid v2) in
            let fl := newV cv1name (unit (oneThird center_i v1_2)) fl in
            let fname := JStr (show i ++ "f" ++ show_vid v1) in
            let fl := newFlag fname cv1name (JStr (tilde v1 v2)) fl in
            let fl := newFlag fname (JStr (tilde v1 v2)) (JStr (tilde v2 v1)) fl in
            let fl := newFlag fname (JStr (tilde v2 v1)) (JStr ("v" ++ show_vid v2)) fl in
            let fl := newFlag fname (JStr ("v" ++ show_vid v2)) (JStr (tilde v2 v3)) fl in
            let fl := newFlag fname (JStr (tilde v2 v3)) cv2name fl in
            let fl := newFlag fname cv2name cv1name fl in
            let fl := newFlag (JStr ("c" ++ show i)) cv1name cv2name fl in
            Ret (fl, v2, v3))
         f (fl, v1, v2) ;;
  Ret (fst (fst r)).

Definition whirl (poly : polyhedron) (n : option N) : res (polyhedron * list logmsg) :=
  let log := [Log ("Taking whirl of " ++ name poly ++ "...")] in
  let fl := old_vertices unit poly new_polyflag in
  centers <- centers poly ;;
  fl <- foldM (whirl_face (vertices poly))
              (indexed (combine (faces poly) centers)) fl ;;
  assemble fl ("w" ++ name poly) log.

(** *** Quinto *)

Definition quinto_face (vs : list vec) (fl : polyflag) (row : N * list vid) : res polyflag :=
  let '(i, f) := row in
  coords <- mapM (fun idx => defined (at_vid vs idx)) f ;;
  let centroid := calcCentroid coords in
  let '(v1, v2) := slice2 f in
  let inner v w := JStr ("inner_" ++ show i ++ "_" ++ midName v w) in
  r <- foldM
         (fun (st : polyflag * vid * vid) v3 =>
            let '(fl, v1, v2) := st in
            a <- defined (at_vid vs v1) ;;
            b <- defined (at_vid vs v2) ;;
            let midpt := midpoint a b in
            let innerpt := midpoint midpt centroid in
            let fl := newV (JStr (midName v1 v2)) midpt fl in
            let fl := newV (inner v1 v2) innerpt fl in
            let fl := newV (JStr (show_vid v2)) b fl in
            let fname := JStr ("f" ++ show i ++ "_" ++ show_vid v2) in
            let fl := newFlag fname (inner v1 v2) (JStr (midName v1 v2)) fl in
            let fl := newFlag fname (JStr (midName v1 v2)) (JStr (show_vid v2)) fl in
            let fl := newFlag fname (JStr (show_vid v2)) (JStr (midName v2 v3)) fl in
            let fl := newFlag fname (JStr (midName v2 v3)) (inner v2 v3) fl in
            let fl := newFlag fname (inner v2 v3) (inner v1 v2) fl in
            let fl := newFlag (JStr ("f_in_" ++ show i)) (inner v1 v2) (inner v2 v3) fl in
            Ret (fl, v2, v3))
         f (fl, v1, v2) ;;
  Ret (fst (fst r)).

Definition quinto (poly : polyhedron) : res (polyhedron * list logmsg) :=
  let log := [Log ("Taking quinto of " ++ name poly ++ "...")] in
  fl <- foldM (quinto_face (vertices poly)) (indexed (faces poly)) new_polyflag ;;
  assemble fl ("q" ++ name poly) log.

(** *** inset / extrude / "Loft" *)

Definition inset_vertices (vs : list vec) (n : N) (inset_dist popout_dist : float)
    (fl : polyflag) (row : N * (list vid * (vec * vec))) : res polyflag :=
  let '(i, (f, (normal_i, center_i))) := row in
  if N.eqb (len f) n || N.eqb n 0 then
    foldM (fun fl v =>
             p <- defined (at_vid vs v) ;;
             Ret (newV (JStr ("f" ++ show i ++ "v" ++ show_vid v))
                       (add (tween p center_i inset_dist) (mult popout_dist normal_i)) fl))
          f fl
  else Ret fl.

Definition inset_face (n : N) (st : polyflag * bool) (row : N * list vid) : polyflag * bool :=
  let '(i, f) := row in
  let v1 := "v" ++ show_vid (last f None) in
  let '(fl, foundAny, _) :=
    fold_left
      (fun (st : polyflag * bool * string) v =>
         let '(fl, foundAny, v1) := st in
         let v2 := "v" ++ show_vid v in
         if N.eqb (len f) n || N.eqb n 0 then
           let fname := JStr (show i ++ v1) in
           let fl := newFlag fname (JStr v1) (JStr v2) fl in
           let fl := newFlag fname (JStr v2) (JStr ("f" ++ show i ++ v2)) fl in
           let fl := newFlag fname (JStr ("f" ++ show i ++ v2)) (JStr ("f" ++ show i ++ v1)) fl in
           let fl := newFlag fname (JStr ("f" ++ show i ++ v1)) (JStr v1) fl in
           let fl := newFlag (JStr ("ex" ++ show i))
                             (JStr ("f" ++ show i ++ v1)) (JStr ("f" ++ show i ++ v2)) fl in
           (fl, true, v2)
         else
           (newFlag (JNum i) (JStr v1) (JStr v2) fl, foundAny, v2))
      f (fst st, snd st, v1) in
  (fl, foundAny).

Definition insetN (poly : polyhedron) (n : option N) (inset_dist popout_dist : option float)
  : res (polyhedron * list logmsg) :=
  let n := default_n n in
  let inset_dist := default_arg inset_dist 0.5%float in
  let popout_dist := default_arg popout_dist (-0.2)%float in
  let log := [Log ("Taking inset of " ++ show_sides n ++ "-sided faces of " ++ name poly ++ "...")] in
  let fl := old_vertices (fun xyz => xyz) poly new_polyflag in
  normals <- normals poly ;;
  centers <- centers poly ;;
  fl <- foldM (inset_vertices (vertices poly) n inset_dist popout_dist)
              (indexed (combine (faces poly) (combine normals centers))) fl ;;
  let '(fl, foundAny) := fold_left (inset_face n) (indexed (faces poly)) (fl, false) in
  let log :=
    if foundAny then log
    else (log ++ [Log ("No " ++ show n ++ "-fold components were found.")])%list in
  assemble fl ("n" ++ show_sides n ++ name poly) log.




(** *** Hollow (skeletonize) *)

Definition hollow_vertices (vs : list vec) (inset_dist thickness : float)
    (fl : polyflag) (row : N * (list vid * (vec * vec))) : res polyflag :=
  let '(i, (f, (normal_i, center_i))) := row in
  foldM (fun fl v =>
           p <- defined (at_vid vs v) ;;
           let fl := newV (JStr ("fin" ++ show i ++ "v" ++ show_vid v))
                          (tween p center_i inset_dist) fl in
           Ret (newV (JStr ("findown" ++ show i ++ "v" ++ show_vid v))
                     (add (tween p center_i inset_dist)
                          (mult (-1 * thickness)%float normal_i)) fl))
        f fl.

Definition hollow_face (fl : polyflag) (row : N * list vid) : polyflag :=
  let '(i, f) := row in
  let v1 := "v" ++ show_vid (last f None) in
  let fin v := JStr ("fin" ++ show i ++ v) in
  let findown v := JStr ("findown" ++ show i ++ v) in
  let down v := JStr ("down" ++ v) in
  fst (fold_left
         (fun (st : polyflag * string) v =>
            let '(fl, v1) := st in
            let v2 := "v" ++ show_vid v in
            let fname := JStr (show i ++ v1) in
            let fl := newFlag fname (JStr v1) (JStr v2) fl in
            let fl := newFlag fname (JStr v2) (fin v2) fl in
            let fl := newFlag fname (fin v2) (fin v1) fl in
            let fl := newFlag fname (fin v1) (JStr v1) fl in
            let fname := JStr ("sides" ++ show i ++ v1) in
            let fl := newFlag fname (fin v1) (fin v2) fl in
            let fl := newFlag fname (fin v2) (findown v2) fl in
            let fl := newFlag fname (findown v2) (findown v1) fl in
            let fl := newFlag fname (findown v1) (fin v1) fl in
            let fname := JStr ("bottom" ++ show i ++ v1) in
            let fl := newFlag fname (down v2) (down v1) fl in
            let fl := newFlag fname (down v1) (findown v1) fl in
            let fl := newFlag fname (findown v1) (findown v2) fl in
            let fl := newFlag fname (findown v2) (down v2) fl in
            (fl, v2))
         f (fl, v1)).

Definition hollow (poly : polyhedron) (inset_dist thickness : option float)
  : res (polyhedron * list logmsg) :=
  let inset_dist := default_arg inset_dist 0.5%float in
  let thickness := default_arg thickness 0.2%float in
  let log := [Log ("Hollowing " ++ name poly ++ "...")] in
  (* [dual(poly).normals()]: a face array with a hole makes [normals] throw *)
  d <- match dual poly with
       | Ret d => Ret d
       | Throw _ => Throw TypeError
       end ;;
  let log := (log ++ snd d)%list in
  dualnormals <- normals (fst d) ;;
  normals <- normals poly ;;
  centers <- centers poly ;;
  fl <- foldM (fun fl '(i, p) =>
                 let fl := newV (JStr ("v" ++ show i)) p fl in
                 dn <- defined (nth_error dualnormals (N.to_nat i)) ;;
                 Ret (newV (JStr ("downv" ++ show i))
                           (add p (mult (-1 * thickness)%float dn)) fl))
              (indexed (vertices poly)) new_polyflag ;;
  fl <- foldM (hollow_vertices (vertices poly) inset_dist thickness)
              (indexed (combine (faces poly) (combine normals centers))) fl ;;
  let fl := fold_left hollow_face (indexed (faces poly)) fl in
  assemble fl ("H" ++ name poly) log.

(** *** Perspectiva 1 *)

(** [f[f.length-2]] *)
Definition penultimate (f : list vid) : vid :=
  match List.rev f with
  | _ :: a :: _ => a
  | _ => None
  end.

Definition perspectiva1_face (vs : list vec)
    (fl : polyflag) (row : N * (list vid * vec)) : res polyflag :=
  let '(i, (f, center_i)) := row in
  let v1 := "v" ++ show_vid (penultimate f) in
  let v2 := "v" ++ show_vid (last f None) in
  let vert1 := at_vid vs (penultimate f) in
  let vert2 := at_vid vs (last f None) in
  r <- foldM
         (fun (st : polyflag * (string * string) * (option vec * option vec)) v =>
            let '(fl, (v1, v2), (vert1, vert2)) := st in
            let v3 := "v" ++ show_vid v in
            let vert3 := at_vid vs v in
            let v12 := v1 ++ "~" ++ v2 in
            let v21 := v2 ++ "~" ++ v1 in
            let v23 := v2 ++ "~" ++ v3 in
            a <- defined vert1 ;;
            b <- defined vert2 ;;
            let fl := newV (JStr v12) (midpoint (midpoint a b) center_i) fl in
            let fl := newFlag (JStr ("in" ++ show i)) (JStr v12) (JStr v23) fl in
            let fl := newFlag (JStr ("f" ++ show i ++ v2)) (JStr v23) (JStr v12) fl in
            let fl := newFlag (JStr ("f" ++ show i ++ v2)) (JStr v12) (JStr v2) fl in
            let fl := newFlag (JStr ("f" ++ show i ++ v2)) (JStr v2) (JStr v23) fl in
            let fl := newFlag (JStr ("f" ++ v12)) (JStr v1) (JStr v21) fl in
            let fl := newFlag (JStr ("f" ++ v12)) (JStr v21) (JStr v12) fl in
            let fl := newFlag (JStr ("f" ++ v12)) (JStr v12) (JStr v1) fl in
            Ret (fl, (v2, v3), (vert2, vert3)))
         f (fl, (v1, v2), (vert1, vert2)) ;;
  Ret (fst (fst r)).

Definition perspectiva1 (poly : polyhedron) : res (polyhedron * list logmsg) :=
  let log := [Log ("Taking stella of " ++ name poly ++ "...")] in
  centers <- centers poly ;;
  let fl := old_vertices (fun xyz => xyz) poly new_polyflag in
  fl <- foldM (perspectiva1_face (vertices poly))
              (indexed (combine (faces poly) centers)) fl ;;
  assemble fl ("P" ++ name poly) log.

(* ================================================================== *)
(** ** Goldberg-Coxeter Operators *)

(** [`v${fn}-${i}-${j}`] *)
Definition grid_name (fn i j : N) : string :=
  "v" ++ show fn ++ "-" ++ show i ++ "-" ++ show j.

(** The redundant grid of one triangle: [(n+1)(n+2)/2] points, each
    recorded in [vmap] under its grid name. *)
Definition trisub_grid (vs : list vec) (n : N)
    (st : list vec * obj N) (row : N * list vid) : res (list vec * obj N) :=
  let '(fn, f) := row in
  v1 <- defined (at_vid vs (entry f 0)) ;;
  v2 <- defined (at_vid vs (entry f 1)) ;;
  v3 <- defined (at_vid vs (entry f 2)) ;;
  let v21 := sub v2 v1 in
  let v31 := sub v3 v1 in
  Ret (fold_left
         (fun st i =>
            fold_left
              (fun (st : list vec * obj N) j =>
                 let '(newVs, vmap) := st in
                 let v := add (add v1 (mult (of_N i * 1 / of_N n)%float v21))
                              (mult (of_N j * 1 / of_N n)%float v31) in
                 ((newVs ++ [v])%list, obj_set (grid_name fn i j) (len newVs) vmap))
              (range (n + 1 - i)%N) st)
         (range (n + 1)%N) st).

Definition EPSILON_CLOSE : float := 1.0e-8%float.

(** The index map into the list of unique points: points closer than
    [EPSILON_CLOSE] to an earlier one take its index. *)
Definition trisub_uniq (newVs : list vec) : list vec * obj N :=
  let '(uniqVs, _, uniqmap) :=
    fold_left
      (fun (st : list vec * N * obj N) '(i, v) =>
         let '(uniqVs, newpos, uniqmap) := st in
         match obj_get uniqmap (show i) with
         | Some _ => st
         | None =>
             let uniqmap := obj_set (show i) newpos uniqmap in
             let uniqmap :=
               fold_left
                 (fun uniqmap '(j, w) =>
                    if (N.ltb i j && PrimFloat.ltb (mag (sub v w)) EPSILON_CLOSE)%bool
                    then obj_set (show j) newpos uniqmap
                    else uniqmap)
                 (indexed newVs) uniqmap in
             ((uniqVs ++ [v])%list, (newpos + 1)%N, uniqmap)
         end)
      (indexed newVs) ([], 0%N, []) in
  (uniqVs, uniqmap).

Definition trisub_faces (n : N) (vmap uniqmap : obj N) (fn : N) : list (list vid) :=
  let um (i j : N) : vid :=
    match obj_get vmap (grid_name fn i j) with
    | Some pos => obj_get uniqmap (show pos)
    | None => obj_get uniqmap "undefined"
    end in
  (flat_map (fun i => map (fun j => [um i j; um (i + 1)%N j; um i (j + 1)%N])
                          (range (n - i)%N))
            (range n)
   ++
   flat_map (fun i => map (fun j => [um i j; um i (j + 1)%N; um (i - 1)%N (j + 1)%N])
                          (range (n - i)%N))
            (tl (range n)))%list.

Definition trisub (poly : polyhedron) (n : option N) : res (polyhedron * list logmsg) :=
  let log := [Log ("Taking trisub of " ++ name poly ++ "...")] in
  let n := match n with Some 0%N | None => 2%N | Some k => k end in
  if existsb (fun f => negb (N.eqb (len f) 3)) (faces poly) then Ret (poly, log)
  else
    g <- foldM (trisub_grid (vertices poly) n) (indexed (faces poly)) ([], []) ;;
    let '(newVs, vmap) := g in
    let '(uniqVs, uniqmap) := trisub_uniq newVs in
    let fs := flat_map (trisub_faces n vmap uniqmap) (range (len (faces poly))) in
    Ret (Polyhedron uniqVs fs ("u" ++ show n ++ name poly) None, log).

End Ops.
Import Ops.

(* ================================================================== *)
(** ** Canonicalization Algorithms *)

Module Canon.
#[local] Open Scope float_scope.

(** [a[i] = x] for an index [i] inside the array. *)
Fixpoint list_set {A} (l : list A) (i : nat) (x : A) : list A :=
  match l, i with
  | [], _ => []
  | _ :: rest, O => x :: rest
  | y :: rest, S i' => y :: list_set rest i' x
  end.

(** [newVs[v] = add(newVs[v], c)]; reading an entry that is missing throws. *)
Definition bump (newVs : list vec) (v : vid) (c : vec) : res (list vec) :=
  match v with
  | Some n =>
      x <- defined (nth_error newVs (N.to_nat n)) ;;
      Ret (list_set newVs (N.to_nat n) (add x c))
  | None => Throw TypeError
  end.

Definition tangentify (vertices : list vec) (edges : list (vid * vid)) : res (list vec) :=
  let STABILITY_FACTOR := 0.1 in
  foldM (fun newVs (e : vid * vid) =>
           a <- defined (at_vid newVs (fst e)) ;;
           b <- defined (at_vid newVs (snd e)) ;;
           let t := tangentPoint a b in
           let c := mult (((STABILITY_FACTOR * 1) / 2) * (1 - PrimFloat.sqrt (dot t t))) t in
           newVs <- bump newVs (fst e) c ;;
           bump newVs (snd e) c)
        edges vertices.

Definition recenter (vertices : list vec) (edges : list (vid * vid)) : res (list vec) :=
  edgecenters <- mapM (fun e : vid * vid =>
                         a <- defined (at_vid vertices (fst e)) ;;
                         b <- defined (at_vid vertices (snd e)) ;;
                         Ret (tangentPoint a b))
                      edges ;;
  let polycenter := fold_left add edgecenters zero3 in
  let polycenter := mult (1 / of_N (len edges)) polycenter in
  Ret (map (fun x => sub x polycenter) vertices).

Definition rescale_sphere (vertices : list vec) : list vec :=
  map (fun x => (vx x / mag x, vy x / mag x, vz x / mag x)) vertices.

Definition planarize (vertices : list vec) (fs : list (list vid)) : res (list vec) :=
  let STABILITY_FACTOR := 0.1 in
  foldM (fun newVs f =>
           n <- normal (map (at_vid vertices) f) ;;
           coords <- mapM (fun v => defined (at_vid vertices v)) f ;;
           let c := calcCentroid coords in
           let n := if dot n c <? 0 then mult (-1) n else n in
           foldM (fun newVs v =>
                    x <- defined (at_vid vertices v) ;;
                    bump newVs v (mult (dot (mult STABILITY_FACTOR n) (sub c x)) n))
                 f newVs)
        fs vertices.

(** Underscore's [_.max] of an array of numbers: [-Infinity] for the
    empty array; an entry is taken when it is [>] the running result. *)
Definition underscore_max (l : list float) : float :=
  fold_left (fun result value => if result <? value then value else result) l neg_infinity.

(** One pass of the loop of [canonicalize], with its [maxChange]. *)
Definition relax (fs : list (list vid)) (edges : list (vid * vid)) (newVs : list vec)
  : res (list vec * float) :=
  let oldVs := newVs in
  newVs <- tangentify newVs edges ;;
  newVs <- recenter newVs edges ;;
  newVs <- planarize newVs fs ;;
  let maxChange := underscore_max (map (fun xy => mag (sub (fst xy) (snd xy)))
                                       (combine newVs oldVs)) in
  Ret (newVs, maxChange).

(** The loop [for (i = 0; i <= Niter; i++)], [todo] being the number of
    values of [i] that are left when the body is entered. *)
Fixpoint relax_loop (fs : list (list vid)) (edges : list (vid * vid))
    (todo : nat) (newVs : list vec) (maxChange : float) : res (list vec * float) :=
  match todo with
  | O => Ret (newVs, maxChange)
  | S todo =>
      r <- relax fs edges newVs ;;
      let '(newVs, maxChange) := r in
      if maxChange <? 1e-8 then Ret (newVs, maxChange)
      else relax_loop fs edges todo newVs maxChange
  end.

(** [if (!Niter) { Niter = 1; }] for an absent or integer argument. *)
Definition default_iterations (Niter : option Z) : Z :=
  match Niter with
  | None | Some 0%Z => 1%Z
  | Some k => k
  end.

Definition canonicalize (poly : polyhedron) (Niter : option Z)
  : res (polyhedron * list logmsg) :=
  let Niter := default_iterations Niter in
  let log := [Log ("Canonicalizing " ++ name poly ++ "...")] in
  let fs := faces poly in
  let edges := edges poly in
  r <- relax_loop fs edges (Z.to_nat (Niter + 1)) (vertices poly) 1.0 ;;
  let '(newVs, maxChange) := r in
  let newpoly := new_polyhedron newVs (faces poly) (name poly) in
  Ret (newpoly, (log ++ [LogCanon maxChange; LogPoly "canonicalize" newpoly])%list).

(** [reciprocalC]: the loop assigns to its own variable [c]; the array
    [centers] is what the loop leaves. *)
Definition reciprocalC (poly : polyhedron) : res (list vec) :=
  centers <- centers poly ;;
  let centers :=
    fold_left (fun (centers : list vec) c =>
                 let c := mult (1.0 / dot c c) c in
                 centers)
              centers centers in
  Ret centers.

Definition reciprocalN (poly : polyhedron) : res (list vec) :=
  let vs := vertices poly in
  mapM (fun f =>
          let '(v1, v2) := slice2 f in
          r <- foldM
                 (fun (st : vec * vec * float * vid * vid) v3 =>
                    let '(centroid, normalV, avgEdgeDist, v1, v2) := st in
                    c <- defined (at_vid vs v3) ;;
                    let centroid := add centroid c in
                    b <- defined (at_vid vs v2) ;;
                    a <- defined (at_vid vs v1) ;;
                    let normalV := add normalV (orthogonal a b c) in
                    let avgEdgeDist := avgEdgeDist + edgeDist a b in
                    Ret (centroid, normalV, avgEdgeDist, v2, v3))
                 f (zero3, zero3, 0.0, v1, v2) ;;
          let '(centroid, normalV, avgEdgeDist, _, _) := r in
          let centroid := mult (1.0 / of_N (len f)) centroid in
          let normalV := unit normalV in
          let avgEdgeDist := avgEdgeDist / of_N (len f) in
          let tmp := reciprocal (mult (dot centroid normalV) normalV) in
          Ret (mult ((1 + avgEdgeDist) / 2) tmp))
       (faces poly).

Definition set_vertices (vs : list vec) (p : polyhedron) : polyhedron :=
  Polyhedron vs (faces p) (name p) (face_classes p).

(** The loop shared by [canonicalXYZ] and [adjustXYZ]:
    [dpoly.vertices = recip(poly); poly.vertices = recip(dpoly)].
    A dual whose face array has a hole makes [recip(dpoly)] throw. *)
Fixpoint reciprocate (recip : polyhedron -> res (list vec)) (count : nat)
    (poly : polyhedron) (dpoly : res polyhedron) : res polyhedron :=
  match count with
  | O => Ret poly
  | S count =>
      dv <- recip poly ;;
      d <- match dpoly with
           | Ret d => Ret d
           | Throw _ => Throw TypeError
           end ;;
      let d := set_vertices dv d in
      pv <- recip d ;;
      reciprocate recip count (set_vertices pv poly) (Ret d)
  end.

Definition reciprocal_relaxation (recip : polyhedron -> res (list vec)) (banner : string)
    (poly : polyhedron) (nIterations : option Z) : res (polyhedron * list logmsg) :=
  let nIterations := default_iterations nIterations in
  match dual poly with
  | Throw TypeError => Throw TypeError
  | d =>
      let dlog := match d with Ret (_, l) => l
                  | Throw _ => [Log ("Taking dual of " ++ name poly ++ "...")] end in
      let dpoly := match d with Ret (dp, _) => Ret dp | Throw e => Throw e end in
      let log := (dlog ++ [Log (banner ++ name poly ++ "...")])%list in
      p <- reciprocate recip (Z.to_nat nIterations) poly dpoly ;;
      Ret (new_polyhedron (vertices p) (faces p) (name p), log)
  end.

Definition canonicalXYZ := reciprocal_relaxation reciprocalN "Pseudo-canonicalizing ".

Definition adjustXYZ := reciprocal_relaxation reciprocalC "Planarizing ".

Definition spherize (poly : polyhedron) : res (polyhedron * list logmsg) :=
  let log := [Log ("Spherizing " ++ name poly ++ "...")] in
  let vs := rescale_sphere (vertices poly) in
  Ret (new_polyhedron vs (faces poly) (name poly), log).

End Canon.
Import Canon.

(* ================================================================== *)
(** ** Triangulation *)

Module Tri.
#[local] Open Scope float_scope.

(** [x - v0] where [x] and [v0] are arrays of three numbers (or
    [undefined]): each operand converts to [NaN]. *)
Definition array_minus (x v0 : option vec) : float := nan.

(** [dot(n, v)] where [v] is a number: [v[0]], [v[1]], [v[2]] are
    [undefined], which a product converts to [NaN]. *)
Definition dot_number (n : vec) (v : float) : float :=
  (vx n * nan) + (vy n * nan) + (vz n * nan).

(** [project2dface] *)
Definition project2dface (verts : list (option vec)) : res (list (float * float)) :=
  let tmpverts := verts in
  let v0 := match verts with v :: _ => v | [] => None end in
  let tmpverts := map (fun x => array_minus x v0) tmpverts in
  n <- normal verts ;;
  coords <- mapM defined verts ;;
  let c := unit (calcCentroid coords) in
  let p := cross n c in
  Ret (map (fun v => (dot_number n v, dot_number p v)) tmpverts).

Definition point := (float * float)%type.

Definition XOR (x y : bool) : bool := (x || y) && negb (x && y).

Definition Area2 (Va Vb Vc : point) : float :=
  ((fst Vb - fst Va) * (snd Vc - snd Va)) - ((fst Vc - fst Va) * (snd Vb - snd Va)).

Definition Left (Va Vb Vc : point) : bool := 0 <? Area2 Va Vb Vc.
Definition LeftOn (Va Vb Vc : point) : bool := 0 <=? Area2 Va Vb Vc.
Definition Collinear (Va Vb Vc : point) : bool := Area2 Va Vb Vc =? 0.

Definition IntersectProp (Va Vb Vc Vd : point) : bool :=
  if Collinear Va Vb Vc || Collinear Va Vb Vd || Collinear Vc Vd Va || Collinear Vc Vd Vb
  then false
  else XOR (Left Va Vb Vc) (Left Va Vb Vd) && XOR (Left Vc Vd Va) (Left Vc Vd Vb).

Section Diagonals.
Variable verts : list point.
Variable facelen : N.

(** [verts[a]], used as a point *)
Definition vert (a : N) : res point := defined (nth_error verts (N.to_nat a)).

(** [(a+1+facelen)%facelen] and [((a-1)+facelen)%facelen] *)
Definition next (a : N) : N := ((a + 1 + facelen) mod facelen)%N.
Definition prev (a : N) : N := ((a + facelen - 1) mod facelen)%N.

Definition InCone (a b : N) : res bool :=
  let a1 := next a in
  let a0 := prev a in
  pa <- vert a ;; pa1 <- vert a1 ;; pa0 <- vert a0 ;;
  if LeftOn pa pa1 pa0 then
    pb <- vert b ;;
    if Left pa pb pa0 then Ret (Left pb pa pa1) else Ret false
  else
    pb <- vert b ;;
    if LeftOn pa pb pa1 then Ret (negb (LeftOn pb pa pa0)) else Ret true.

(** The loop of [Diagonalie] over [c = 0 .. facelen-1]. *)
Fixpoint Diagonalie_from (cs : list N) (a b : N) : res bool :=
  match cs with
  | [] => Ret true
  | c :: rest =>
      let c1 := next c in
      if (negb (c =? a) && negb (c1 =? a) && negb (c =? b) && negb (c1 =? b))%N then
        pa <- vert a ;; pb <- vert b ;; pc <- vert c ;; pc1 <- vert c1 ;;
        if IntersectProp pa pb pc pc1 then Ret false else Diagonalie_from rest a b
      else Diagonalie_from rest a b
  end.

Definition Diagonalie (a b : N) : res bool := Diagonalie_from (range facelen) a b.

Definition Diagonal (a b : N) : res bool :=
  i1 <- InCone a b ;;
  if i1 then
    i2 <- InCone b a ;;
    if i2 then Diagonalie a b else Ret false
  else Ret false.
End Diagonals.

(** The variables of [getDiagonals] that its loops update. *)
Record clip_state := Clip {
  c_verts : list point;
  c_origIdx : list N;
  c_ear : list (option bool);
  c_facelen : N;
  c_head : N;
  c_n : N;
  c_diagonals : list (vid * vid)
}.

(** [ear[v]] as a condition: a missing entry is falsy. *)
Definition is_ear (ear : list (option bool)) (v : N) : bool :=
  match nth_error ear (N.to_nat v) with
  | Some (Some b) => b
  | _ => false
  end.

(** [a.slice(0, v2 + 1).concat(a.slice(v3))] *)
Definition splice {A} (a : list A) (v2 v3 : N) : list A :=
  firstn (N.to_nat v2 + 1) a ++ skipn (N.to_nat v3) a.

(** The body of the inner loop when [ear[v2]] holds. *)
Definition clip_ear (s : clip_state) (v2 : N) : res clip_state :=
  let facelen := c_facelen s in
  let verts := c_verts s in
  let v3 := next facelen v2 in
  let v4 := next facelen v3 in
  let v1 := prev facelen v2 in
  let v0 := prev facelen v1 in
  let diagonals :=
    c_diagonals s ++ [(nth_error (c_origIdx s) (N.to_nat v1),
                       nth_error (c_origIdx s) (N.to_nat v3))] in
  e1 <- Diagonal verts facelen v0 v3 ;;
  let ear := array_set (c_ear s) (N.to_nat v1) e1 in
  e3 <- Diagonal verts facelen v1 v4 ;;
  let ear := array_set ear (N.to_nat v3) e3 in
  let verts := splice verts v2 v3 in
  let origIdx := splice (c_origIdx s) v2 v3 in
  let v3 := if (v2 <? v3)%N then (v3 - 1)%N else v3 in
  Ret (Clip verts origIdx ear (facelen - 1)%N v3 (c_n s - 1)%N diagonals).

(** The inner [while (true)] loop, [y] counted down from [limiter];
    [budget] is the number of passes that leave [y > 0]. *)
Fixpoint find_ear (budget : nat) (s : clip_state) (v2 : N) : res clip_state :=
  if is_ear (c_ear s) v2 then clip_ear s v2
  else
    let v2 := next (c_facelen s) v2 in
    match budget with
    | O => Ret s
    | S budget => if (v2 =? c_head s)%N then Ret s else find_ear budget s v2
    end.

Definition limiter : nat := 999.

(** The outer loop [while ((z > 0) && (n > 3))], [z] counted down. *)
Fixpoint clip_loop (z : nat) (s : clip_state) : res clip_state :=
  match z with
  | O => Ret s
  | S z =>
      if (3 <? c_n s)%N then
        s <- find_ear (limiter - 1) s (c_head s) ;;
        clip_loop z s
      else Ret s
  end.

Definition getDiagonals (verts : list point) : res (list (vid * vid)) :=
  let facelen := len verts in
  ear <- foldM (fun ear v1 =>
                  let v2 := next facelen v1 in
                  let v0 := prev facelen v1 in
                  e <- Diagonal verts facelen v0 v2 ;;
                  Ret (array_set ear (N.to_nat v1) e))
               (range facelen) [] ;;
  let origIdx := range facelen in
  s <- clip_loop limiter (Clip verts origIdx ear facelen 0 facelen []) ;;
  Ret (c_diagonals s).

(** [triEq]: two triples that can be rotated into each other. *)
Definition triple := (vid * vid * vid)%type.

Definition triEq (tri1 tri2 : triple) : bool :=
  let '(a0, a1, a2) := tri1 in
  let '(b0, b1, b2) := tri2 in
  (vid_eqb a0 b0 && vid_eqb a1 b1 && vid_eqb a2 b2)
  || (vid_eqb a0 b1 && vid_eqb a1 b2 && vid_eqb a2 b0)
  || (vid_eqb a0 b2 && vid_eqb a1 b0 && vid_eqb a2 b1).

(** [edges[i].push(x)]; [edges[i]] must be there. *)
Definition push_at (edges : list (list vid)) (i x : vid) : res (list (list vid)) :=
  match i with
  | Some n =>
      l <- defined (nth_error edges (N.to_nat n)) ;;
      Ret (list_set edges (N.to_nat n) (l ++ [x]))
  | None => Throw TypeError
  end.

(** The triangles on one side of a diagonal: [[p, q, e1]] for every
    [e1] after [q] that is also before [p]. *)
Definition meet (p q : vid) (after_q before_p : list vid) : list triple :=
  flat_map (fun e1 => flat_map (fun e2 => if vid_eqb e1 e2 then [(p, q, e1)] else [])
                               before_p)
           after_q.

(** The filter that drops repeated triangles. *)
Definition add_unique (uniques : list triple) (tri : triple) : list triple :=
  if existsb (triEq tri) uniques then uniques else uniques ++ [tri].

Definition diagsToTris (f : list vid) (diags : list (vid * vid)) : res (list (option triple)) :=
  let n := len f in
  let edges := map (fun i => [Some ((i + 1) mod n)%N]) (range n) in
  let redges := map (fun i => [Some ((i + n - 1) mod n)%N]) (range n) in
  er <- foldM (fun (er : list (list vid) * list (list vid)) (d : vid * vid) =>
                 let '(edges, redges) := er in
                 edges <- push_at edges (fst d) (snd d) ;;
                 edges <- push_at edges (snd d) (fst d) ;;
                 redges <- push_at redges (fst d) (snd d) ;;
                 redges <- push_at redges (snd d) (fst d) ;;
                 Ret (edges, redges))
              diags (edges, redges) ;;
  let '(edges, redges) := er in
  tris <- foldM (fun tris (d : vid * vid) =>
                   e_d1 <- defined (at_vid edges (snd d)) ;;
                   r_d0 <- defined (at_vid redges (fst d)) ;;
                   e_d0 <- defined (at_vid edges (fst d)) ;;
                   r_d1 <- defined (at_vid redges (snd d)) ;;
                   Ret (tris ++ meet (fst d) (snd d) e_d1 r_d0
                             ++ meet (snd d) (fst d) e_d0 r_d1))
                diags [] ;;
  match List.rev tris with
  | [] => Ret [None]       (* [tris.pop()] of an empty array *)
  | last_tri :: before =>
      Ret (map Some (fold_left add_unique (List.rev before) [last_tri]))
  end.

(** [[f[tri[0]], f[tri[1]], f[tri[2]]]] *)
Definition pick (f : list vid) (i : vid) : vid :=
  match at_vid f i with
  | Some v => v
  | None => None
  end.

Definition triangulate_face (poly : polyhedron) (f : list vid) : res (list (list vid)) :=
  if (3 <? len f)%N then
    TwoDface <- project2dface (map (at_vid (vertices poly)) f) ;;
    diags <- getDiagonals TwoDface ;;
    tris <- diagsToTris f diags ;;
    mapM (fun t : option triple =>
            tri <- defined t ;;
            let '(t0, t1, t2) := tri in
            Ret [pick f t0; pick f t1; pick f t2])
         tris
  else Ret [[entry f 0; entry f 1; entry f 2]].

Definition triangulate (poly : polyhedron) (colors : bool) : res (polyhedron * list logmsg) :=
  let log := [Log ("Triangulating faces of " ++ name poly ++ "...")] in
  r <- foldM (fun (st : list (list vid) * list (option N)) '(i, f) =>
                let '(newfaces, classes) := st in
                tris <- triangulate_face poly f ;;
                classes <- (if colors then
                              cl <- defined (face_classes poly) ;;
                              let c := match nth_error cl (N.to_nat i) with
                                       | Some c => c
                                       | None => None
                                       end in
                              Ret (classes ++ map (fun _ => c) tris)
                            else Ret classes) ;;
                Ret (newfaces ++ tris, classes))
             (indexed (faces poly)) ([], []) ;;
  Ret (Polyhedron (vertices poly) (fst r) (name poly) (Some (snd r)), log).
End Tri.
Import Tri.

(* ================================================================== *)
(** ** Parser Routines *)

Module Parser.
#[local] Open Scope string_scope.

(** [s] starts with the word [pat]. *)
Fixpoint starts_with (pat s : string) : bool :=
  match pat, s with
  | EmptyString, _ => true
  | String a pat', String b s' => Ascii.eqb a b && starts_with pat' s'
  | String _ _, EmptyString => false
  end.

(** [s.replace(/pat/g, rep)] for a pattern that is a plain word of one
    character or more, and a replacement without [$]: the matches are
    taken from left to right and do not overlap.  [skip] counts the
    characters of the current match that are still to be passed. *)
Fixpoint replace_word (pat rep : string) (skip : nat) (s : string) : string :=
  match s with
  | EmptyString => ""
  | String c s' =>
      match skip with
      | S k => replace_word pat rep k s'
      | O =>
          if starts_with pat s
          then rep ++ replace_word pat rep (String.length pat - 1) s'
          else String c (replace_word pat rep 0 s')
      end
  end.

(** [\d] *)
Definition is_digit (c : ascii) : bool :=
  (48 <=? nat_of_ascii c)%nat && (nat_of_ascii c <=? 57)%nat.

(** The replacement of /t(\d<star>)/g by ["dk$1d"], where <star> is the
    star of the regular expression: every [t], with the digits [$1] that
    follow it, becomes [dk], the digits, [d].  [inside] holds while the
    digits are copied. *)
Fixpoint replace_t (inside : bool) (s : string) : string :=
  match s with
  | EmptyString => if inside then "d" else ""
  | String c s' =>
      if inside && is_digit c then String c (replace_t true s')
      else
        (if inside then "d" else "")
        ++ (if Ascii.eqb c "t" then "dk" ++ replace_t true s'
            else String c (replace_t false s'))
  end.

(** An entry of [specreplacements]. *)
Inductive replacement :=
| Word (orig equiv : string)
| Truncation.          (* the rule for [t] and its digits *)

Definition specreplacements : list replacement :=
  [Word "e" "aa"; Word "b" "ta"; Word "o" "jj"; Word "m" "kj";
   Truncation;
   Word "j" "dad"; Word "s" "dgd";
   Word "dd" ""; Word "ad" "a"; Word "gd" "g";
   Word "aO" "aC"; Word "aI" "aD"; Word "gO" "gC"; Word "gI" "gD"].

(** [expanded.replace(orig, equiv)] *)
Definition replace (r : replacement) (expanded : string) : string :=
  match r with
  | Word orig equiv => replace_word orig equiv 0 expanded
  | Truncation => replace_t false expanded
  end.

(** [getOps(notation)], with what it logs. *)
Definition getOps (notation : string) : string * list logmsg :=
  let expanded := fold_left (fun expanded r => replace r expanded) specreplacements notation in
  (expanded, [Log (notation ++ " executed as " ++ expanded)]).

End Parser.
Import Parser.

(* ================================================================== *)
(** * Properties *)

Unset Implicit Arguments.

(** ** Vocabulary of the statements *)

(** [V - E + F], with [E] the number of edges that [edges()] returns. *)
Definition euler (p : polyhedron) : Z :=
  Z.of_nat (List.length (vertices p)) - Z.of_nat (List.length (edges p))
  + Z.of_nat (List.length (faces p)).

Definition directed_edges (p : polyhedron) : list (vid * vid) :=
  List.concat (map faceToEdges (faces p)).

Definition edge_eqb (e1 e2 : vid * vid) : bool :=
  vid_eqb (fst e1) (fst e2) && vid_eqb (snd e1) (snd e2).

Definition occurrences (e : vid * vid) (l : list (vid * vid)) : nat :=
  List.length (filter (edge_eqb e) l).

(** Every entry of every face is a vertex index of the polyhedron. *)
Definition ids_in_range (p : polyhedron) : Prop :=
  forall f v, In f (faces p) -> In v f -> exists n, v = Some n /\ n < len (vertices p).

Definition ids_in_range_b (p : polyhedron) : bool :=
  forallb (forallb (fun v : vid =>
                      match v with
                      | Some n => n <? len (vertices p)
                      | None => false
                      end))
          (faces p).

(** A closed, consistently oriented mesh: faces of three or more
    vertex indices in range, and every directed edge of a face occurs in
    exactly one face, its reverse in exactly one face too. *)
Definition closed_oriented (p : polyhedron) : bool :=
  ids_in_range_b p
  && forallb (fun f => 3 <=? len f) (faces p)
  && forallb (fun e => Nat.eqb (occurrences e (directed_edges p)) 1
                       && Nat.eqb (occurrences (snd e, fst e) (directed_edges p)) 1)
             (directed_edges p).

(** [g] is the cycle [f], started at another place. *)
Definition rotate {A} (k : nat) (f : list A) : list A := skipn k f ++ firstn k f.

Definition same_cycle (f g : list vid) : Prop := exists k, g = rotate k f.

Fixpoint face_eqb (f g : list vid) : bool :=
  match f, g with
  | [], [] => true
  | a :: f', b :: g' => vid_eqb a b && face_eqb f' g'
  | _, _ => false
  end.

Definition same_cycle_b (f g : list vid) : bool :=
  existsb (fun k => face_eqb g (rotate k f)) (seq 0 (S (List.length f))).

Lemma vid_eqb_eq (a b : vid) : vid_eqb a b = true <-> a = b.
Proof.
  destruct a as [x|], b as [y|]; simpl; split; intro H;
    try discriminate; try reflexivity.
  - apply N.eqb_eq in H. now subst.
  - injection H as ->. apply N.eqb_refl.
Qed.

Lemma face_eqb_eq (f g : list vid) : face_eqb f g = true <-> f = g.
Proof.
  revert g. induction f as [|a f IH]; intros [|b g]; simpl; split; intro H;
    try discriminate; try reflexivity.
  - apply andb_true_iff in H as [H1 H2].
    apply vid_eqb_eq in H1. apply IH in H2. now subst.
  - injection H as -> ->. apply andb_true_iff. split.
    + now apply vid_eqb_eq.
    + now apply IH.
Qed.

Lemma same_cycle_b_sound (f g : list vid) : same_cycle_b f g = true -> same_cycle f g.
Proof.
  unfold same_cycle_b, same_cycle. intro H.
  apply existsb_exists in H as (k & _ & Hk).
  exists k. symmetry. apply face_eqb_eq.
  rewrite <- Hk. clear. generalize (rotate k f). intro l.
  destruct (face_eqb g l) eqn:E1, (face_eqb l g) eqn:E2; try reflexivity.
  - apply face_eqb_eq in E1. subst. assert (face_eqb l l = true) by now apply face_eqb_eq.
    congruence.
  - apply face_eqb_eq in E2. subst. assert (face_eqb g g = true) by now apply face_eqb_eq.
    congruence.
Qed.

Lemma nth_error_combine {A B} (l : list A) (l' : list B) i a b :
  nth_error l i = Some a -> nth_error l' i = Some b -> In (a, b) (combine l l').
Proof.
  revert l' i. induction l as [|x l IH]; intros [|y l'] [|i] Ha Hb;
    simpl in *; try discriminate.
  - injection Ha as ->. injection Hb as ->. now left.
  - right. eapply IH; eassumption.
Qed.

(** The five seed solids with fixed coordinate tables. *)
Definition platonic : list polyhedron :=
  [tetrahedron; cube; octahedron; icosahedron; dodecahedron].

(** ** C5: chamfer of the cube *)

(** C5. [chamfer(cube, 0.5)], on the cube of 8 vertices, 6 faces and 12
    edges, returns a polyhedron with [8 + 2*12 = 32] vertices and 18
    faces: 12 hexagons and 6 four-sided faces. *)
Theorem chamfer_cube_counts :
  List.length (vertices cube) = 8%nat /\
  List.length (faces cube) = 6%nat /\
  List.length (edges cube) = 12%nat /\
  exists newpoly log,
    chamfer cube (Some 0.5%float) = Ret (newpoly, log) /\
    List.length (vertices newpoly) = (8 + 2 * 12)%nat /\
    List.length (faces newpoly) = 18%nat /\
    List.length (filter (fun f => len f =? 6) (faces newpoly)) = 12%nat /\
    List.length (filter (fun f => len f =? 4) (faces newpoly)) = 6%nat.
Proof.
  repeat split; try reflexivity.
  destruct (chamfer cube (Some 0.5%float)) as [[newpoly log]|e] eqn:E.
  - exists newpoly, log. split; [reflexivity|].
    vm_compute in E. injection E as <- <-.
    repeat split; vm_compute; reflexivity.
  - vm_compute in E. discriminate.
Qed.

(** ** C1: Euler's relation after an operator *)








(** ** C3: the dual of the dual *)

Definition dual_dual_ok (p : polyhedron) : bool :=
  match dual p with
  | Ret (d, _) =>
      match dual d with
      | Ret (dd, _) =>
          Nat.eqb (List.length (vertices dd)) (List.length (vertices p))
          && Nat.eqb (List.length (faces dd)) (List.length (faces p))
          && forallb (fun fg : list vid * list vid => same_cycle_b (fst fg) (snd fg))
                     (combine (faces p) (faces dd))
      | Throw _ => false
      end
  | Throw _ => false
  end.

(** On the five seed solids the dual of the dual is the solid again:
    same counts, and each face the same vertex cycle. *)
Lemma dual_dual_on_platonic : forallb dual_dual_ok platonic = true.
Proof. vm_compute. reflexivity. Qed.

(** A closed, consistently oriented sphere with 8 vertices, 13 edges
    and 7 faces, every vertex on three faces or more.  Vertices 0 and 7
    are joined by an edge and by two chains; the three faces around
    vertex 7 (faces 0, 1, 2) all contain vertex 0 as well. *)
Definition two_pole_mesh : polyhedron :=
  Polyhedron
    [ (0, 0, -1); (1, 0.25, 0); (0.75, 0.5, -0.5); (0.75, -0.25, -0.5);
      (-1, 0.25, 0); (-0.75, 0.5, -0.5); (-0.75, -0.25, -0.5); (0, 0, 1) ]%float
    (map ids [ [0;7;4;5]; [0;3;1;7]; [0;6;4;7;1;2];
               [1;3;2]; [2;3;0]; [4;6;5]; [5;6;0] ])
    "M" None.

(** C3, at the failing input.  [two_pole_mesh] is a closed,
    consistently oriented sphere.  [dual] sorts its faces with
    [intersect] on the first three faces around a vertex; around vertex
    7 these are faces 0, 1 and 2, which have vertex 0 in common as
    well, and [intersect] finds vertex 0 first.  So [dual] files two
    faces under index 0 and returns 7 faces for 8 vertices, against its
    own comment that every vertex of the original becomes a face of the
    dual; the dual of that result throws. *)
Theorem dual_dual_two_pole_mesh :
  closed_oriented two_pole_mesh = true /\
  euler two_pole_mesh = 2%Z /\
  List.length (vertices two_pole_mesh) = 8%nat /\
  exists d log,
    dual two_pole_mesh = Ret (d, log) /\
    List.length (faces d) = 7%nat /\
    dual d = Throw TypeError.
Proof.
  split; [vm_compute; reflexivity|].
  split; [vm_compute; reflexivity|].
  split; [reflexivity|].
  destruct (dual two_pole_mesh) as [[d log]|e] eqn:E.
  - exists d, log. split; [reflexivity|].
    vm_compute in E. injection E as <- <-.
    split; vm_compute; reflexivity.
  - vm_compute in E. discriminate.
Qed.

(** ** C8: canonicalization leaves the faces alone *)

Inductive entry_point := Canonicalize | CanonicalXYZ | AdjustXYZ | Spherize.

Definition run_entry (e : entry_point) (poly : polyhedron) (iterations : option Z)
  : res (polyhedron * list logmsg) :=
  match e with
  | Canonicalize => canonicalize poly iterations
  | CanonicalXYZ => canonicalXYZ poly iterations
  | AdjustXYZ => adjustXYZ poly iterations
  | Spherize => spherize poly
  end.

Lemma reciprocate_faces recip count :
  forall poly dpoly p,
    reciprocate recip count poly dpoly = Ret p -> faces p = faces poly.
Proof.
  induction count as [|count IH]; intros poly dpoly p H; simpl in H.
  - now injection H as <-.
  - destruct (recip poly) as [dv|]; simpl in H; [|discriminate].
    destruct dpoly as [d|]; simpl in H; [|discriminate].
    destruct (recip (set_vertices dv d)) as [pv|]; simpl in H; [|discriminate].
    apply IH in H. exact H.
Qed.

Lemma reciprocal_relaxation_faces recip banner poly n p log :
  reciprocal_relaxation recip banner poly n = Ret (p, log) -> faces p = faces poly.
Proof.
  unfold reciprocal_relaxation. intro H.
  destruct (dual poly) as [[dp dl]|[|]]; try discriminate.
  - destruct (reciprocate recip _ poly (Ret dp)) as [q|] eqn:E; simpl in H; [|discriminate].
    injection H as <- _. simpl. eapply reciprocate_faces. eassumption.
  - destruct (reciprocate recip _ poly (Throw SparseFaces)) as [q|] eqn:E;
      simpl in H; [|discriminate].
    injection H as <- _. simpl. eapply reciprocate_faces. eassumption.
Qed.

(** C8. Whatever [canonicalize], [canonicalXYZ], [adjustXYZ] or
    [spherize] returns has the face list of the polyhedron it was given:
    the same faces, with the same entries, in the same order. *)
Theorem canonicalization_keeps_faces :
  forall e poly iterations newpoly log,
    run_entry e poly iterations = Ret (newpoly, log) -> faces newpoly = faces poly.
Proof.
  intros [] poly n newpoly log H; simpl in H.
  - unfold canonicalize in H.
    destruct (relax_loop _ _ _ _ _) as [[newVs maxChange]|]; simpl in H; [|discriminate].
    injection H as <- _. reflexivity.
  - eapply reciprocal_relaxation_faces. exact H.
  - eapply reciprocal_relaxation_faces. exact H.
  - unfold spherize in H. injection H as <- _. reflexivity.
Qed.

Definition returns_with_faces_of (e : entry_point) (poly : polyhedron) : Prop :=
  exists newpoly log,
    run_entry e poly (Some 1%Z) = Ret (newpoly, log) /\ faces newpoly = faces poly.

Lemma canonicalization_keeps_faces_witness :
  returns_with_faces_of Canonicalize cube /\ returns_with_faces_of CanonicalXYZ cube /\
  returns_with_faces_of AdjustXYZ cube /\ returns_with_faces_of Spherize cube.
Proof.
  repeat split;
    match goal with
    | |- returns_with_faces_of ?e cube =>
        destruct (run_entry e cube (Some 1%Z)) as [[newpoly log]|err] eqn:E;
        [ exists newpoly, log; split;
          [ exact E | exact (canonicalization_keeps_faces e cube (Some 1%Z) newpoly log E) ]
        | vm_compute in E; discriminate ]
    end.
Defined.

(** ** C9: the reciprocals of [adjustXYZ] *)

Lemma fold_left_const {A B} (g : B -> B) (l : list B) (a : A) :
  fold_left (fun (acc : A) (c : B) => let c := g c in acc) l a = a.
Proof. induction l as [|x l IH]; simpl; auto. Qed.

(** C9, at the failing input.  [reciprocalC] returns the face centers
    themselves, for every polyhedron: its loop rescales a copy of each
    center and drops it.  On the cube the first replacement point is the
    center [(0, 0, 0.707...)] of face 0, not its spherical reciprocal
    [(0, 0, 1.414...)], and one round of [adjustXYZ] shrinks the cube by
    a factor 3 instead of keeping it. *)
Theorem reciprocalC_returns_centers :
  (forall poly, reciprocalC poly = centers poly) /\
  exists c rest,
    reciprocalC cube = Ret (c :: rest) /\
    c = (0, 0, 0.70710678118654746)%float /\
    mult (1.0 / dot c c)%float c = (0, 0, 1.4142135623730951)%float /\
    exists newpoly log v vs,
      adjustXYZ cube (Some 1%Z) = Ret (newpoly, log) /\
      vertices newpoly = v :: vs /\
      v = (0.23570226039551581, 0.23570226039551581, 0.23570226039551581)%float.
Proof.
  split.
  - intro poly. unfold reciprocalC.
    destruct (centers poly) as [cs|e]; simpl; [|reflexivity].
    now rewrite (fold_left_const (fun c => mult (1.0 / dot c c)%float c)).
  - destruct (reciprocalC cube) as [[|c rest]|e] eqn:E;
      try (vm_compute in E; discriminate).
    exists c, rest. split; [reflexivity|].
    vm_compute in E. injection E as <- <-.
    split; [reflexivity|]. split; [vm_compute; reflexivity|].
    destruct (adjustXYZ cube (Some 1%Z)) as [[newpoly log]|e] eqn:E;
      [|vm_compute in E; discriminate].
    destruct (vertices newpoly) as [|v vs] eqn:Ev.
    + vm_compute in E. injection E as <- <-. discriminate.
    + exists newpoly, log, v, vs. split; [reflexivity|]. split; [exact Ev|].
      vm_compute in E. injection E as <- <-. now injection Ev as <- <-.
Qed.

(** ** C7: the number of passes of [canonicalize] *)

Lemma ret_pair_inv {A B} (a c : A) (b d : B) :
  Ret (a, b) = Ret (c, d) -> c = a /\ d = b.
Proof. intro H. injection H as -> ->. split; reflexivity. Qed.

(** [k] passes of the relaxation, never stopped. *)
Fixpoint passes (fs : list (list vid)) (es : list (vid * vid)) (k : nat)
    (vs : list vec) (m : float) : res (list vec * float) :=
  match k with
  | O => Ret (vs, m)
  | S k => r <- relax fs es vs ;; passes fs es k (fst r) (snd r)
  end.

(** C7, at the failing input.  On the dual of the cube, asked for one
    iteration, [canonicalize] runs two passes: the first one moves a
    vertex by [0.036 > 1e-8], the loop [for (i = 0; i <= Niter; i++)]
    goes on, and the polyhedron returned holds the vertices of the second
    pass, with the displacement [0.0355...] of that pass in the log. *)
Theorem canonicalize_runs_one_more_pass :
  exists dC l,
    dual cube = Ret (dC, l) /\
    exists vs1 m1 vs2 m2 log,
      passes (faces dC) (edges dC) 1 (vertices dC) 1.0%float = Ret (vs1, m1) /\
      PrimFloat.ltb m1 1e-8%float = false /\
      passes (faces dC) (edges dC) 2 (vertices dC) 1.0%float = Ret (vs2, m2) /\
      vs2 <> vs1 /\
      canonicalize dC (Some 1%Z) = Ret (new_polyhedron vs2 (faces dC) (name dC), log) /\
      In (LogCanon m2) log.
Proof.
  destruct (dual cube) as [[dC l]|e] eqn:E; [|vm_compute in E; discriminate].
  exists dC, l. split; [reflexivity|].
  vm_compute in E. injection E as <- <-.
  match goal with
  | |- context [passes ?fs ?es 1 ?vs ?m] =>
      destruct (passes fs es 1 vs m) as [[vs1 m1]|e] eqn:E1;
      [|vm_compute in E1; discriminate];
      destruct (passes fs es 2 vs m) as [[vs2 m2]|e] eqn:E2;
      [|vm_compute in E2; discriminate]
  end.
  vm_compute in E1. apply ret_pair_inv in E1 as [-> ->].
  vm_compute in E2. apply ret_pair_inv in E2 as [-> ->].
  eexists _, _, _, _, _.
  split; [reflexivity|]. split; [vm_compute; reflexivity|].
  split; [reflexivity|].
  split.
  - intro H.
    apply (f_equal (fun vs : list vec => option_map (fun v => Prim2SF (vz v)) (hd_error vs))) in H.
    vm_compute in H. discriminate.
  - split; [vm_compute; reflexivity|]. simpl. right. left. reflexivity.
Qed.

(** ** C10: [edges()] lists every undirected edge once *)

(** *** Names and property keys *)

Fixpoint tilde_free (s : string) : bool :=
  match s with
  | EmptyString => true
  | String c s' => negb (Ascii.eqb c "~") && tilde_free s'
  end.

Lemma digits_tilde_free s d : NilEmpty.uint_of_string s = Some d -> tilde_free s = true.
Proof.
  revert d. induction s as [|c s IH]; intros d H; simpl in *; [reflexivity|].
  destruct (NilEmpty.uint_of_string s) as [d'|]; [|discriminate].
  rewrite (IH d' eq_refl), andb_true_r.
  apply uint_of_char_spec in H.
  destruct H as [[-> _]|[[-> _]|[[-> _]|[[-> _]|[[-> _]|[[-> _]|[[-> _]|[[-> _]|[[-> _]|[-> _]]]]]]]]]];
    reflexivity.
Qed.

Lemma show_digits n : NilEmpty.uint_of_string (show n) = Some (N.to_uint n).
Proof. apply NilEmpty.usu. Qed.

Lemma show_inj n m : show n = show m -> n = m.
Proof.
  intro H. apply DecimalN.Unsigned.to_uint_inj.
  pose proof (show_digits n) as Hn. rewrite H, show_digits in Hn. now injection Hn.
Qed.

Lemma show_vid_tilde_free v : tilde_free (show_vid v) = true.
Proof.
  destruct v as [n|]; simpl; [|reflexivity].
  eapply digits_tilde_free, show_digits.
Qed.

Lemma show_vid_inj a b : show_vid a = show_vid b -> a = b.
Proof.
  destruct a as [n|], b as [m|]; simpl; intro H.
  - f_equal. now apply show_inj.
  - pose proof (show_digits n) as Hn. rewrite H in Hn. discriminate.
  - pose proof (show_digits m) as Hm. rewrite <- H in Hm. discriminate.
  - reflexivity.
Qed.

(** A name ends at its first ["~"]. *)
Lemma tilde_split s1 s1' s2 s2' :
  tilde_free s1 = true -> tilde_free s1' = true ->
  (s1 ++ String "~" s2 = s1' ++ String "~" s2')%string -> s1 = s1' /\ s2 = s2'.
Proof.
  revert s1'. induction s1 as [|c s1 IH]; intros [|c' s1'] H1 H1' E; simpl in *.
  - injection E as ->. auto.
  - injection E as <- _. simpl in H1'. discriminate.
  - injection E as -> _. simpl in H1. discriminate.
  - injection E as -> E.
    apply andb_true_iff in H1 as [_ H1]. apply andb_true_iff in H1' as [_ H1'].
    destruct (IH s1' H1 H1' E) as [-> ->]. auto.
Qed.

Lemma tilde_not_index s1 s2 : array_index (s1 ++ String "~" s2) = None.
Proof.
  unfold array_index.
  assert (H : NilEmpty.uint_of_string (s1 ++ String "~" s2) = None).
  { induction s1 as [|c s1 IH]; simpl.
    - destruct (NilEmpty.uint_of_string s2); reflexivity.
    - rewrite IH. reflexivity. }
  now rewrite H.
Qed.

(** The pair under which [edges] files an edge. *)
Definition canon (e : vid * vid) : vid * vid :=
  if vid_ltb (fst e) (snd e) then e else (snd e, fst e).

Lemma edge_key_canon e :
  edge_key e = (show_vid (fst (canon e)) ++ "~" ++ show_vid (snd (canon e)))%string.
Proof. unfold edge_key, canon. destruct e as [a b]; simpl. destruct (vid_ltb a b); reflexivity. Qed.

Lemma edge_key_inj e e' : edge_key e = edge_key e' -> canon e = canon e'.
Proof.
  rewrite !edge_key_canon. intro H.
  apply tilde_split in H; try apply show_vid_tilde_free.
  destruct H as [H1 H2]. apply show_vid_inj in H1. apply show_vid_inj in H2.
  destruct (canon e), (canon e'); simpl in *. congruence.
Qed.

Lemma edge_key_not_index e : array_index (edge_key e) = None.
Proof. rewrite edge_key_canon. apply tilde_not_index. Qed.

Lemma canon_swap a b : canon (Some a, Some b) = canon (Some b, Some a).
Proof.
  unfold canon; simpl.
  destruct (N.ltb_spec a b), (N.ltb_spec b a); try reflexivity; try lia.
  assert (a = b) by lia. now subst.
Qed.

Lemma canon_cases e : canon e = e \/ canon e = (snd e, fst e).
Proof. unfold canon. destruct (vid_ltb (fst e) (snd e)); auto. Qed.

(** *** Objects whose keys are not array indices *)

Section PlainKeys.
Context {V : Type}.
Implicit Types (o : obj V) (k : string) (v : V).

Lemma key_before_plain k k' : array_index k = None -> key_before k k' = false.
Proof. unfold key_before. now intros ->. Qed.

Lemma obj_set_in k v o : In (k, v) (obj_set k v o).
Proof.
  induction o as [|[k' v'] o IH]; simpl; [now left|].
  destruct (String.eqb k k'); [now left|].
  destruct (key_before k k'); [now left|]. now right.
Qed.

Lemma obj_set_inv k v o k' v' :
  In (k', v') (obj_set k v o) -> (k' = k /\ v' = v) \/ In (k', v') o.
Proof.
  induction o as [|[k0 v0] o IH]; simpl.
  - intros [H|[]]. injection H as <- <-. auto.
  - destruct (String.eqb k k0).
    + intros [H|H]; [injection H as <- <-; auto | auto].
    + destruct (key_before k k0).
      * intros [H|H]; [injection H as <- <-; auto | auto].
      * intros [H|H]; [auto|]. destruct (IH H); auto.
Qed.

Lemma obj_set_keys_grow k v o k' : In k' (obj_keys o) -> In k' (obj_keys (obj_set k v o)).
Proof.
  unfold obj_keys. induction o as [|[k0 v0] o IH]; simpl; [tauto|].
  destruct (String.eqb k k0) eqn:E.
  - apply String.eqb_eq in E. subst. simpl. tauto.
  - destruct (key_before k k0); simpl; [tauto|]. intros [H|H]; auto.
Qed.

Lemma obj_set_plain_keys k v o :
  array_index k = None -> NoDup (obj_keys o) -> NoDup (obj_keys (obj_set k v o)).
Proof.
  intros Hk. unfold obj_keys. induction o as [|[k0 v0] o IH]; simpl; intro Hnd.
  - constructor; [tauto | constructor].
  - destruct (String.eqb k k0) eqn:E.
    + apply String.eqb_eq in E. subst. exact Hnd.
    + rewrite (key_before_plain k k0 Hk). simpl.
      apply String.eqb_neq in E.
      inversion Hnd as [|? ? Hnot Hnd']; subst.
      constructor; [|now apply IH].
      intro Hin. apply Hnot.
      apply in_map_iff in Hin as ([k1 v1] & Hk1 & Hin). simpl in Hk1. subst k1.
      apply obj_set_inv in Hin as [[-> _]|Hin]; [congruence|].
      apply in_map_iff. now exists (k0, v1).
Qed.
End PlainKeys.

(** *** The table [uniqEdges] *)

Definition file_edge (uniqEdges : obj (vid * vid)) (e : vid * vid) : obj (vid * vid) :=
  obj_set (edge_key e) e uniqEdges.

(** Every entry is filed under its own key, and comes from [es]. *)
Definition filed (es : list (vid * vid)) (o : obj (vid * vid)) : Prop :=
  NoDup (obj_keys o) /\ forall k e, In (k, e) o -> k = edge_key e /\ In e es.

Lemma file_edge_filed es o e : In e es -> filed es o -> filed es (file_edge o e).
Proof.
  intros He [Hnd Hall]. split.
  - apply obj_set_plain_keys; [apply edge_key_not_index | exact Hnd].
  - intros k e' Hin. apply obj_set_inv in Hin as [[-> ->]|Hin]; auto.
Qed.

Lemma fold_file_filed es l o :
  (forall e, In e l -> In e es) -> filed es o -> filed es (fold_left file_edge l o).
Proof.
  revert o. induction l as [|e l IH]; intros o Hl Ho; simpl; [exact Ho|].
  apply IH; [intros; apply Hl; now right|].
  apply file_edge_filed; [apply Hl; now left | exact Ho].
Qed.

Lemma fold_file_keys_grow l o k :
  In k (obj_keys o) -> In k (obj_keys (fold_left file_edge l o)).
Proof.
  revert o. induction l as [|e l IH]; intros o H; simpl; [exact H|].
  apply IH. now apply obj_set_keys_grow.
Qed.

Lemma fold_file_covers l o e :
  In e l -> In (edge_key e) (obj_keys (fold_left file_edge l o)).
Proof.
  revert o. induction l as [|e' l IH]; intros o H; simpl; [destruct H|].
  destruct H as [<-|H].
  - apply fold_file_keys_grow. unfold obj_keys.
    apply in_map_iff. exists (edge_key e', e'). split; [reflexivity|apply obj_set_in].
  - now apply IH.
Qed.

Lemma edges_from_entries v1 f a b :
  In (a, b) (edges_from v1 f) -> (a = v1 \/ In a f) /\ In b f.
Proof.
  revert v1. induction f as [|v2 f IH]; intros v1 H; simpl in *; [tauto|].
  destruct H as [H|H].
  - injection H as <- <-. auto.
  - apply IH in H as [[->|Ha] Hb]; auto.
Qed.

Lemma faceToEdges_entries f a b : In (a, b) (faceToEdges f) -> In a f /\ In b f.
Proof.
  unfold faceToEdges. intro H.
  destruct f as [|v f]; [destruct H|].
  apply edges_from_entries in H as [[->|Ha] Hb]; split; auto.
  clear. generalize v. induction f as [|x f IH]; intro y; simpl.
  - now left.
  - right. destruct f; [now left|]. apply (IH x).
Qed.

Lemma nth_error_map_Some_inv {A B} (g : A -> B) l i y :
  nth_error (map g l) i = Some y -> exists x, nth_error l i = Some x /\ g x = y.
Proof.
  rewrite nth_error_map. destruct (nth_error l i) as [x|]; simpl; [|discriminate].
  intros [= <-]. eauto.
Qed.

(** What [edges()] makes of the list that [faceToEdges] gives it. *)
Lemma edges_file_the_directed_edges (p : polyhedron) :
  (forall f v, In f (faces p) -> In v f -> v <> None) ->
  (forall e, In e (edges p) -> In e (directed_edges p)) /\
  (forall a b, In (a, b) (directed_edges p) -> In (a, b) (edges p) \/ In (b, a) (edges p)) /\
  (forall i j a b,
      nth_error (edges p) i = Some (a, b) ->
      nth_error (edges p) j = Some (a, b) \/ nth_error (edges p) j = Some (b, a) ->
      i = j).
Proof.
  intro Hids.
  unfold edges. fold (directed_edges p). fold file_edge.
  set (o := fold_left file_edge (directed_edges p) []).
  assert (Ho : filed (directed_edges p) o).
  { apply fold_file_filed; [auto|]. split; [constructor | intros ? ? []]. }
  destruct Ho as [Hnd Hall].
  assert (Hnum : forall a b, In (a, b) (directed_edges p) ->
                             exists x y, a = Some x /\ b = Some y).
  { intros a b H. unfold directed_edges in H.
    apply in_concat in H as (l & Hl & H).
    apply in_map_iff in Hl as (f & <- & Hf).
    apply faceToEdges_entries in H as [Ha Hb].
    pose proof (Hids f a Hf Ha). pose proof (Hids f b Hf Hb).
    destruct a as [x|], b as [y|]; try congruence. eauto. }
  split; [|split].
  - intros e He. unfold obj_values in He.
    apply in_map_iff in He as ([k e'] & <- & Hin). simpl. now apply Hall in Hin.
  - intros a b Hab.
    pose proof (fold_file_covers (directed_edges p) [] (a, b) Hab) as Hk.
    fold o in Hk. unfold obj_keys in Hk.
    apply in_map_iff in Hk as ([k e] & Hk & Hin). simpl in Hk. subst k.
    destruct (Hall _ _ Hin) as [Hkey _].
    apply edge_key_inj in Hkey.
    assert (He : In e (obj_values o)).
    { unfold obj_values. apply in_map_iff. now exists (edge_key (a, b), e). }
    destruct (canon_cases (a, b)) as [E1|E1], (canon_cases e) as [E2|E2];
      rewrite E1, E2 in Hkey; simpl in Hkey; destruct e as [x y]; simpl in *.
    + left. congruence.
    + right. injection Hkey as -> ->. exact He.
    + right. injection Hkey as -> ->. exact He.
    + left. injection Hkey as -> ->. exact He.
  - intros i j a b Hi Hj.
    unfold obj_values in Hi, Hj.
    apply nth_error_map_Some_inv in Hi as ([ki ei] & Hi & Ei). simpl in Ei. subst ei.
    assert (Hkj : exists kj ej, nth_error o j = Some (kj, ej) /\ canon ej = canon (a, b)).
    { assert (Hin : In (a, b) (directed_edges p)).
      { apply nth_error_In in Hi. now apply Hall in Hi. }
      destruct (Hnum a b Hin) as (x & y & -> & ->).
      destruct Hj as [Hj|Hj];
        apply nth_error_map_Some_inv in Hj as ([kj ej] & Hj & Ej); simpl in Ej; subst ej;
        exists kj; eexists; (split; [exact Hj|]); [reflexivity | apply canon_swap]. }
    destruct Hkj as (kj & ej & Hj' & Hc).
    pose proof (nth_error_In _ _ Hi) as Ini. pose proof (nth_error_In _ _ Hj') as Inj.
    destruct (Hall _ _ Ini) as [Eki _]. destruct (Hall _ _ Inj) as [Ekj _].
    assert (Ek : ki = kj).
    { subst ki kj. rewrite !edge_key_canon. now rewrite Hc. }
    subst kj.
    assert (Hki : nth_error (obj_keys o) i = Some ki).
    { unfold obj_keys. rewrite nth_error_map, Hi. reflexivity. }
    assert (Hkj : nth_error (obj_keys o) j = Some ki).
    { unfold obj_keys. rewrite nth_error_map, Hj'. simpl. congruence. }
    eapply NoDup_nth_error; [exact Hnd | | congruence].
    apply nth_error_Some. congruence.
Qed.

(** Following the spec's words: a side of a face is a pair of entries
    that follow each other in the face, the last entry being followed
    by the first. *)
Definition side_of (f : list vid) (a b : vid) : Prop :=
  exists j, nth_error f j = Some a /\ nth_error f (S j mod List.length f) = Some b.

Definition side (p : polyhedron) (a b : vid) : Prop :=
  exists f, In f (faces p) /\ side_of f a b.

Lemma in_edges_from v f a b :
  In (a, b) (edges_from v f)
  <-> exists k, nth_error (v :: f) k = Some a /\ nth_error f k = Some b.
Proof.
  revert v. induction f as [|x f IH]; intro v; cbn [edges_from In].
  - split; [intros [] | intros ([|k] & _ & H); discriminate].
  - rewrite IH. split.
    + intros [H|(k & Ha & Hb)].
      * injection H as <- <-. now exists 0%nat.
      * now exists (S k).
    + intros ([|k] & Ha & Hb); cbn [nth_error] in Ha, Hb.
      * left. congruence.
      * right. now exists k.
Qed.

Lemma nth_error_last {A} (f : list A) (d : A) :
  f <> [] -> nth_error f (List.length f - 1) = Some (last f d).
Proof.
  induction f as [|x f IH]; intro Hf; [contradiction|].
  destruct f as [|y f]; [reflexivity|].
  cbn [List.length last] in *. rewrite <- IH by discriminate.
  replace (S (S (List.length f)) - 1)%nat with (S (S (List.length f) - 1)) by lia.
  reflexivity.
Qed.

(** The pairs that [faceToEdges] lists are the sides of the face. *)
Lemma faceToEdges_sides (f : list vid) a b : In (a, b) (faceToEdges f) <-> side_of f a b.
Proof.
  unfold faceToEdges, side_of. rewrite in_edges_from. split.
  - intros ([|k] & Ha & Hb); cbn [nth_error] in Ha.
    + assert (Hf : f <> []) by (intro E; subst f; discriminate).
      exists (List.length f - 1)%nat. split.
      * rewrite (nth_error_last f None Hf). exact Ha.
      * assert (0 < List.length f)%nat by (destruct f; [contradiction | cbn; lia]).
        replace (S (List.length f - 1)) with (List.length f) by lia.
        now rewrite Nat.Div0.mod_same.
    + exists k. split; [exact Ha|].
      assert (S k < List.length f)%nat by (apply nth_error_Some; congruence).
      now rewrite Nat.mod_small.
  - intros (j & Ha & Hb).
    assert (Hj : (j < List.length f)%nat) by (apply nth_error_Some; congruence).
    destruct (Nat.eq_dec (S j) (List.length f)) as [E|E].
    + exists 0%nat. rewrite E, Nat.Div0.mod_same in Hb. split; [|exact Hb].
      cbn [nth_error]. rewrite <- (nth_error_last f None) by (intro; subst f; cbn in Hj; lia).
      rewrite <- Ha. f_equal. lia.
    + exists (S j). rewrite Nat.mod_small in Hb by lia. now split.
Qed.

Lemma directed_edges_sides p a b : In (a, b) (directed_edges p) <-> side p a b.
Proof.
  unfold directed_edges, side. rewrite in_concat. split.
  - intros (l & Hl & H). apply in_map_iff in Hl as (f & <- & Hf).
    exists f. split; [exact Hf | now apply faceToEdges_sides].
  - intros (f & Hf & H). exists (faceToEdges f).
    split; [now apply in_map | now apply faceToEdges_sides].
Qed.

(** C10. For every polyhedron whose face entries are vertex indices:
    every pair that [edges()] returns is a side of a face, two entries
    that follow each other in it; every side of every face is there, in
    one direction or the other; and no undirected edge is at two places
    of the list, whatever the number of faces that have it. *)
Theorem edges_lists_each_edge_once (p : polyhedron) :
  (forall f v, In f (faces p) -> In v f -> v <> None) ->
  (forall a b, In (a, b) (edges p) -> side p a b) /\
  (forall a b, side p a b -> In (a, b) (edges p) \/ In (b, a) (edges p)) /\
  (forall i j a b,
      nth_error (edges p) i = Some (a, b) ->
      nth_error (edges p) j = Some (a, b) \/ nth_error (edges p) j = Some (b, a) ->
      i = j).
Proof.
  intro Hids. destruct (edges_file_the_directed_edges p Hids) as (Hin & Hall & Honce).
  split; [|split].
  - intros a b H. now apply directed_edges_sides, Hin.
  - intros a b H. now apply Hall, directed_edges_sides.
  - exact Honce.
Qed.

Lemma edges_lists_each_edge_once_witness :
  (forall a b, In (a, b) (edges cube) -> side cube a b) /\
  (forall a b, side cube a b -> In (a, b) (edges cube) \/ In (b, a) (edges cube)) /\
  (forall i j a b,
      nth_error (edges cube) i = Some (a, b) ->
      nth_error (edges cube) j = Some (a, b) \/ nth_error (edges cube) j = Some (b, a) ->
      i = j).
Proof.
  apply (edges_lists_each_edge_once cube).
  intros f v Hf Hv.
  simpl in Hf.
  repeat (destruct Hf as [<-|Hf];
          [simpl in Hv; repeat (destruct Hv as [<-|Hv]; [discriminate|]); destruct Hv|]).
  destruct Hf.
Defined.

(** ** C4: [topoly] walks every face a bounded number of steps *)

Section FaceWalk.
Variable vertidxs : obj N.
Variable i : string.
Variable face : obj jsval.
Variable v0 : jsval.

(** The vertex reached from [v] by following [this.flags[i]] [k] times. *)
Fixpoint follow (k : nat) (v : jsval) : jsval :=
  match k with
  | O => v
  | S k => follow k (next_vertex face v)
  end.

(** The first [n] vertices met from [v] on. *)
Fixpoint orbit (n : nat) (v : jsval) : list jsval :=
  match n with
  | O => []
  | S n => v :: orbit n (next_vertex face v)
  end.

(** After [k + 1] steps from [v0] the walk is back at [v0]. *)
Definition back_after (k : nat) : bool := strict_eqb (follow (S k) v0) v0.

(** What the traversal of one face can produce. *)
Inductive face_outcome : list vid * list logmsg -> Prop :=
| Closed (k : nat) :
    (k <= MAX_FACE_SIDEDNESS)%nat ->
    back_after k = true ->
    (forall j, (j < k)%nat -> back_after j = false) ->
    face_outcome (map (vertex_index vertidxs) (orbit (S k) v0), [])
| Abandoned :
    (forall k, (k <= MAX_FACE_SIDEDNESS)%nat -> back_after k = false) ->
    face_outcome (map (vertex_index vertidxs) (orbit (S (S MAX_FACE_SIDEDNESS)) v0),
                  [LogBadFlag i face]).

Lemma walk_outcome budget :
  forall v f,
    (exists k, (k <= budget)%nat /\
               strict_eqb (follow k v) v0 = true /\
               (forall j, (j < k)%nat -> strict_eqb (follow j v) v0 = false) /\
               walk vertidxs i face v0 budget v f
               = (f ++ map (vertex_index vertidxs) (orbit k v), []))
    \/
    ((forall k, (k <= budget)%nat -> strict_eqb (follow k v) v0 = false) /\
     walk vertidxs i face v0 budget v f
     = (f ++ map (vertex_index vertidxs) (orbit (S budget) v), [LogBadFlag i face])).
Proof.
  induction budget as [|budget IH]; intros v f; simpl;
    destruct (strict_eqb v v0) eqn:E.
  - left. exists 0%nat. simpl. rewrite app_nil_r. repeat split; auto. intros j Hj. lia.
  - right. split; [|reflexivity].
    intros k Hk. assert (k = 0)%nat as -> by lia. exact E.
  - left. exists 0%nat. simpl. rewrite app_nil_r. repeat split; auto; try lia.
  - destruct (IH (next_vertex face v) (f ++ [vertex_index vertidxs v]))
      as [(k & Hk & Hback & Hmin & Hw)|[Hnever Hw]].
    + left. exists (S k). simpl. rewrite Hw, <- app_assoc. simpl.
      repeat split; auto; try lia.
      intros [|j] Hj; simpl; [exact E | apply Hmin; lia].
    + right. rewrite Hw, <- app_assoc. simpl. split; [|reflexivity].
      intros [|k] Hk; simpl; [exact E | apply Hnever; lia].
Qed.

Lemma trace_face_outcome : face_outcome (trace_face vertidxs i face v0).
Proof.
  unfold trace_face.
  destruct (walk_outcome MAX_FACE_SIDEDNESS (next_vertex face v0) [vertex_index vertidxs v0])
    as [(k & Hk & Hback & Hmin & Hw)|[Hnever Hw]]; rewrite Hw.
  - apply (Closed k); assumption.
  - apply Abandoned. assumption.
Qed.

Lemma face_outcome_length out :
  face_outcome out -> (List.length (fst out) <= MAX_FACE_SIDEDNESS + 2)%nat.
Proof.
  assert (Hlen : forall n v, List.length (orbit n v) = n).
  { induction n as [|n IH]; intro v; simpl; [reflexivity | now rewrite IH]. }
  intros [k Hk _ _|_]; cbn [fst]; rewrite length_map, Hlen; lia.
Qed.
End FaceWalk.

(** [vertidxs] once [topoly] has numbered the vertices. *)
Definition numbered_vertidxs (fl : polyflag) : obj N :=
  map (fun '(k, (ctr, _)) => (k, ctr)) (number_vertices (verts fl)).

(** The starting vertex of a face is the value of its first property. *)
Definition starts_at (face : obj jsval) (v0 : jsval) : Prop :=
  forall j w rest, face = (j, w) :: rest -> v0 = w.

Lemma topoly_step_trace vertidxs fs v log i face :
  topoly_step vertidxs (fs, v, log) (i, face)
  = (fs ++ [fst (trace_face vertidxs i face (first_value face v))],
     first_value face v,
     log ++ snd (trace_face vertidxs i face (first_value face v))).
Proof.
  unfold topoly_step.
  now destruct (trace_face vertidxs i face (first_value face v)).
Qed.

(** The face traced from the first value of a flag row. *)
Lemma head_outcome vertidxs i face v :
  exists v0, starts_at face v0 /\
     face_outcome vertidxs i face v0 (trace_face vertidxs i face (first_value face v)).
Proof.
  exists (first_value face v). split.
  - intros j w rest ->. reflexivity.
  - apply trace_face_outcome.
Qed.

(** A left fold whose step appends one product per element. *)
Section FoldOutcomes.
Variables E S F L : Type.
Variable step : list F * S * list L -> E -> list F * S * list L.
Variable advance : E -> S -> S.
Variable produce : E -> S -> F * list L.
Variable good : E -> F * list L -> Prop.
Hypothesis step_produce : forall fs v log e,
  step (fs, v, log) e
  = (fs ++ [fst (produce e v)], advance e v, log ++ snd (produce e v)).
Hypothesis produce_good : forall e v, good e (produce e v).

Lemma fold_outcomes fls :
  forall fs v log,
    exists outs v',
      fold_left step fls (fs, v, log)
      = (fs ++ map fst outs, v', log ++ List.concat (map snd outs))
      /\ Forall2 good fls outs.
Proof.
  induction fls as [|e fls IH]; intros fs v log.
  - exists [], v. cbn [fold_left map List.concat]. rewrite !app_nil_r.
    split; [reflexivity | constructor].
  - cbn [fold_left]. rewrite step_produce.
    destruct (IH (fs ++ [fst (produce e v)]) (advance e v) (log ++ snd (produce e v)))
      as (outs & v' & Hfold & Hall).
    exists (produce e v :: outs), v'. split.
    + rewrite Hfold. cbn [map List.concat]. rewrite <- !app_assoc. reflexivity.
    + constructor; [apply produce_good | exact Hall].
Qed.
End FoldOutcomes.

Lemma topoly_loop_outcomes vertidxs fls :
  forall fs v log,
    exists outs v',
      fold_left (topoly_step vertidxs) fls (fs, v, log)
      = (fs ++ map fst outs, v', log ++ List.concat (map snd outs))
      /\ Forall2 (fun (entry : string * obj jsval) out =>
                    exists v0, starts_at (snd entry) v0 /\
                               face_outcome vertidxs (fst entry) (snd entry) v0 out)
                 fls outs.
Proof.
  apply fold_outcomes
    with (advance := fun e v => first_value (snd e) v)
         (produce := fun e v =>
                       trace_face vertidxs (fst e) (snd e) (first_value (snd e) v)).
  - intros fs v log [i face]. apply topoly_step_trace.
  - intros [i face] v. apply head_outcome.
Qed.

(** Every name of the flag set, of a face, of a vertex or of a
    successor, is a name that the objects do not inherit. *)
Definition own_names (fl : polyflag) : Prop :=
  (forall k, In k (obj_keys (verts fl)) -> inherited k = false) /\
  (forall i face, In (i, face) (flags fl) ->
     inherited i = false /\
     forall a b, In (a, b) face -> inherited a = false /\ inherited (to_key b) = false).

Definition own_names_b (fl : polyflag) : bool :=
  forallb (fun k => negb (inherited k)) (obj_keys (verts fl))
  && forallb (fun row : string * obj jsval =>
                negb (inherited (fst row))
                && forallb (fun ab : string * jsval =>
                              negb (inherited (fst ab)) && negb (inherited (to_key (snd ab))))
                           (snd row))
             (flags fl).

Lemma own_names_b_sound fl : own_names_b fl = true -> own_names fl.
Proof.
  unfold own_names_b. intro H. apply andb_true_iff in H as [Hv Hf]. split.
  - intros k Hk. rewrite forallb_forall in Hv. now apply negb_true_iff, Hv.
  - intros i face Hin. rewrite forallb_forall in Hf. specialize (Hf _ Hin).
    cbn [fst snd] in Hf. apply andb_true_iff in Hf as [Hi Hface].
    split; [now apply negb_true_iff|]. intros a b Hab.
    rewrite forallb_forall in Hface. specialize (Hface _ Hab). cbn [fst snd] in Hface.
    apply andb_true_iff in Hface as [Ha Hb]. split; now apply negb_true_iff.
Qed.

(** C4, as the code has it.  [topoly] returns for every flag set (of
    names that are not inherited ones).  Each face is walked from the
    value of its first property along its successor map, and comes out
    in one of two ways: closed, when the walk is back at its start
    after at most [MAX_FACE_SIDEDNESS] passes of the loop, with one
    entry per vertex met, at most [MAX_FACE_SIDEDNESS + 1], and nothing
    on the console; or abandoned in pass [MAX_FACE_SIDEDNESS + 1], when
    none of the first [MAX_FACE_SIDEDNESS + 1] successors is the start,
    with [MAX_FACE_SIDEDNESS + 2] entries and the message "Bad flag
    spec" that carries the name of the face and its successor map.  The
    console holds exactly the messages of the abandoned faces.  The
    face is the walk and nothing else: flags of the face that the walk
    does not meet leave no trace. *)
Theorem topoly_bounded_and_reported (fl : polyflag) :
  own_names fl ->
  exists outs,
    faces (fst (topoly fl)) = map fst outs /\
    snd (topoly fl) = List.concat (map snd outs) /\
    Forall2 (fun (entry : string * obj jsval) out =>
               exists v0, starts_at (snd entry) v0 /\
                          face_outcome (numbered_vertidxs fl) (fst entry) (snd entry) v0 out)
            (flags fl) outs /\
    Forall (fun f => (List.length f <= MAX_FACE_SIDEDNESS + 2)%nat) (faces (fst (topoly fl))).
Proof.
  intros _. unfold topoly. fold (numbered_vertidxs fl).
  destruct (topoly_loop_outcomes (numbered_vertidxs fl) (flags fl) [] JUndef [])
    as (outs & v' & Hfold & Hall).
  rewrite Hfold. simpl.
  exists outs. split; [reflexivity|]. split; [reflexivity|]. split; [exact Hall|].
  clear Hfold. induction Hall as [|entry out fls outs (v0 & _ & Ho) _ IH]; simpl.
  - constructor.
  - constructor; [|exact IH].
    eapply face_outcome_length. exact Ho.
Qed.

(** Following the spec's words: the successor map of a face closes
    into a single cycle within [bound] steps when a walk of at most
    [bound] steps is back at its start and has met every vertex that
    has a successor in the map. *)
Definition single_cycle (face : obj jsval) (bound : nat) : Prop :=
  exists v0 n,
    (0 < n <= bound)%nat /\ follow face n v0 = v0 /\
    forall a, In a (obj_keys face) ->
              exists j, (j < n)%nat /\ to_key (follow face j v0) = a.

(** One face whose flags make two cycles, [a -> b -> a] and
    [c -> d -> c]. *)
Definition two_cycles : polyflag :=
  let declare (nm : string) (fl : polyflag) := newV (JStr nm) zero3 fl in
  let flag (a b : string) (fl : polyflag) := newFlag (JStr "f") (JStr a) (JStr b) fl in
  flag "d" "c" (flag "c" "d" (flag "b" "a" (flag "a" "b"
    (declare "d" (declare "c" (declare "b" (declare "a" new_polyflag))))))).

Lemma topoly_bounded_and_reported_witness :
  exists outs,
    faces (fst (topoly two_cycles)) = map fst outs /\
    snd (topoly two_cycles) = List.concat (map snd outs) /\
    Forall2 (fun (entry : string * obj jsval) out =>
               exists v0, starts_at (snd entry) v0 /\
                          face_outcome (numbered_vertidxs two_cycles)
                                       (fst entry) (snd entry) v0 out)
            (flags two_cycles) outs /\
    Forall (fun f => (List.length f <= MAX_FACE_SIDEDNESS + 2)%nat)
           (faces (fst (topoly two_cycles))).
Proof.
  apply (topoly_bounded_and_reported two_cycles).
  apply own_names_b_sound. vm_compute. reflexivity.
Defined.

(** C4, as stated, fails on [two_cycles]: the successor map of its face
    does not close into a single cycle, yet [topoly] returns the face
    with the two vertices of the cycle it started on and reports
    nothing; the flags [c -> d] and [d -> c] are dropped. *)
Lemma topoly_drops_second_cycle :
  own_names two_cycles /\
  exists face,
    flags two_cycles = [("f"%string, face)] /\
    List.length face = 4%nat /\
    ~ single_cycle face MAX_FACE_SIDEDNESS /\
    faces (fst (topoly two_cycles)) = [[Some 1; Some 0]] /\
    snd (topoly two_cycles) = [].
Proof.
  split; [apply own_names_b_sound; vm_compute; reflexivity|].
  eexists. split; [vm_compute; reflexivity|]. split; [reflexivity|].
  split; [|split; vm_compute; reflexivity].
  set (face := [("a", JStr "b"); ("b", JStr "a"); ("c", JStr "d"); ("d", JStr "c")]%string).
  set (on_first := fun v : jsval => String.eqb (to_key v) "a" || String.eqb (to_key v) "b").
  assert (Hnext : forall v, on_first (next_vertex face v) = on_first v).
  { intro v. unfold on_first, next_vertex, face. cbn [obj_get].
    destruct (String.eqb (to_key v) "a"); [reflexivity|].
    destruct (String.eqb (to_key v) "b"); [reflexivity|].
    destruct (String.eqb (to_key v) "c"); [reflexivity|].
    destruct (String.eqb (to_key v) "d"); reflexivity. }
  assert (Hfollow : forall k v, on_first (follow face k v) = on_first v).
  { induction k as [|k IH]; intro v; cbn [follow]; [reflexivity|].
    now rewrite IH, Hnext. }
  intros (v0 & n & _ & _ & Hall).
  destruct (Hall "a"%string) as (j & _ & Ha); [now left|].
  destruct (Hall "c"%string) as (j' & _ & Hc); [right; right; now left|].
  pose proof (Hfollow j v0) as H1. pose proof (Hfollow j' v0) as H2.
  unfold on_first at 1 in H1. unfold on_first at 1 in H2.
  rewrite Ha in H1. rewrite Hc in H2. cbn in H1, H2. congruence.
Qed.

(** ** C6: a selector that matches no face *)

(** *** Names of vertices and of faces *)

(** [`v${x}`] *)
Definition vname (x : vid) : string := ("v" ++ show_vid x)%string.

Lemma vname_inj a b : vname a = vname b -> a = b.
Proof. unfold vname. simpl. intros [= H]. now apply show_vid_inj. Qed.

Lemma vname_not_index x : array_index (vname x) = None.
Proof.
  unfold array_index, vname. simpl.
  destruct (NilEmpty.uint_of_string (show_vid x)); reflexivity.
Qed.

Lemma array_index_show n :
  array_index (show n) = if n <? 4294967295 then Some n else None.
Proof.
  unfold array_index. rewrite show_digits, DecimalN.Unsigned.of_to.
  now rewrite String.eqb_refl.
Qed.

(** A face name [`${i}`] never goes before the name of an earlier face. *)
Lemma key_before_show i j : j < i -> key_before (show i) (show j) = false.
Proof.
  intro H. unfold key_before. rewrite !array_index_show.
  destruct (N.ltb_spec i 4294967295); [|reflexivity].
  destruct (N.ltb_spec j 4294967295); [|lia].
  apply N.ltb_ge. lia.
Qed.

(** *** Appending to an object *)

Section Append.
Context {V : Type}.
Implicit Types (o : obj V) (k : string) (v : V).

Lemma obj_get_absent o k : ~ In k (obj_keys o) -> obj_get o k = None.
Proof.
  unfold obj_keys. induction o as [|[k' v'] o IH]; simpl; intro H; [reflexivity|].
  destruct (String.eqb_spec k k') as [->|_]; [tauto|]. apply IH. tauto.
Qed.

Lemma obj_get_last o k v : ~ In k (obj_keys o) -> obj_get (o ++ [(k, v)]) k = Some v.
Proof.
  unfold obj_keys. induction o as [|[k' v'] o IH]; simpl; intro H.
  - now rewrite String.eqb_refl.
  - destruct (String.eqb_spec k k') as [->|_]; [tauto|]. apply IH. tauto.
Qed.

Lemma obj_set_append o k v :
  ~ In k (obj_keys o) ->
  (forall k', In k' (obj_keys o) -> key_before k k' = false) ->
  obj_set k v o = o ++ [(k, v)].
Proof.
  unfold obj_keys. induction o as [|[k' v'] o IH]; simpl; intros Hk Hb; [reflexivity|].
  destruct (String.eqb_spec k k') as [->|_]; [tauto|].
  rewrite (Hb k') by auto. f_equal. apply IH; [tauto | auto].
Qed.

Lemma obj_set_last o k v v' :
  ~ In k (obj_keys o) ->
  (forall k', In k' (obj_keys o) -> key_before k k' = false) ->
  obj_set k v' (o ++ [(k, v)]) = o ++ [(k, v')].
Proof.
  unfold obj_keys. induction o as [|[k0 v0] o IH]; simpl; intros Hk Hb.
  - now rewrite String.eqb_refl.
  - destruct (String.eqb_spec k k0) as [->|_]; [tauto|].
    rewrite (Hb k0) by auto. f_equal. apply IH; [tauto | auto].
Qed.
End Append.

(** *** The flags of an untouched face *)

(** [flag.newFlag(i, v1, v2)] for every edge of face [i]. *)
Definition plain_face (i : N) (f : list vid) (fl : polyflag) : polyflag :=
  fst (fold_left (fun (st : polyflag * string) v =>
                    (newFlag (JNum i) (JStr (snd st)) (JStr (vname v)) (fst st), vname v))
                 f (fl, vname (last f None))).

(** The successor map that these flags build. *)
Definition face_map (es : list (vid * vid)) : obj jsval :=
  map (fun e => (vname (fst e), JStr (vname (snd e)))) es.

Lemma newFlag_first fl K k a b :
  to_key K = k ->
  ~ In k (obj_keys (flags fl)) ->
  (forall k', In k' (obj_keys (flags fl)) -> key_before k k' = false) ->
  newFlag K (JStr a) b fl = Polyflag (flags fl ++ [(k, [(a, b)])]) (verts fl).
Proof.
  intros <- Hk Hb. unfold newFlag. simpl.
  rewrite (obj_get_absent _ _ Hk). simpl.
  now rewrite obj_set_append.
Qed.

Lemma newFlag_more F0 vs K k cur a b :
  to_key K = k ->
  ~ In k (obj_keys F0) ->
  (forall k', In k' (obj_keys F0) -> key_before k k' = false) ->
  ~ In a (obj_keys cur) -> array_index a = None ->
  newFlag K (JStr a) b (Polyflag (F0 ++ [(k, cur)]) vs)
  = Polyflag (F0 ++ [(k, cur ++ [(a, b)])]) vs.
Proof.
  intros <- Hk Hb Ha Hidx. unfold newFlag. simpl.
  rewrite (obj_get_last _ _ _ Hk).
  rewrite obj_set_last by assumption.
  rewrite (obj_set_append cur a b Ha); [reflexivity|].
  intros k' _. now apply key_before_plain.
Qed.

Lemma face_map_app es es' : face_map (es ++ es') = face_map es ++ face_map es'.
Proof. unfold face_map. apply map_app. Qed.

Lemma face_map_keys es : obj_keys (face_map es) = map vname (map fst es).
Proof. unfold obj_keys, face_map. rewrite !map_map. reflexivity. Qed.

Lemma vname_not_in a l : ~ In a l -> ~ In (vname a) (map vname l).
Proof.
  intros H Hin. apply in_map_iff in Hin as (b & E & Hb).
  apply vname_inj in E. now subst.
Qed.

(** The flags of the edges that follow the first one. *)
Lemma plain_face_rest i F0 vs :
  ~ In (show i) (obj_keys F0) ->
  (forall k', In k' (obj_keys F0) -> key_before (show i) k' = false) ->
  forall rest a es,
    NoDup (map fst es ++ map fst (edges_from a rest)) ->
    fst (fold_left (fun (st : polyflag * string) v =>
                      (newFlag (JNum i) (JStr (snd st)) (JStr (vname v)) (fst st), vname v))
                   rest (Polyflag (F0 ++ [(show i, face_map es)]) vs, vname a))
    = Polyflag (F0 ++ [(show i, face_map (es ++ edges_from a rest))]) vs.
Proof.
  intros Hk Hb. induction rest as [|r rest IH]; intros a es Hnd; cbn [fold_left fst snd].
  - simpl. now rewrite app_nil_r.
  - rewrite (newFlag_more F0 vs (JNum i) (show i) (face_map es) (vname a) (JStr (vname r)));
      auto.
    + replace (face_map es ++ [(vname a, JStr (vname r))]) with (face_map (es ++ [(a, r)]))
        by (rewrite face_map_app; reflexivity).
      rewrite IH.
      * now rewrite <- app_assoc.
      * rewrite map_app, <- app_assoc. exact Hnd.
    + rewrite face_map_keys. apply vname_not_in.
      simpl in Hnd. apply NoDup_remove_2 in Hnd.
      intro Hin. apply Hnd. apply in_or_app. now left.
    + apply vname_not_index.
Qed.

Lemma edges_from_sources a l x : In x (map fst (edges_from a l)) -> In x (a :: l).
Proof.
  intro H. apply in_map_iff in H as ([u w] & <- & H). simpl.
  apply edges_from_entries in H as [[->|H] _]; [now left | now right].
Qed.

Lemma last_in {A} (a : A) l d : In (last (a :: l) d) (a :: l).
Proof.
  revert a. induction l as [|b l IH]; intro a; [now left|].
  right. apply (IH b).
Qed.

Lemma face_keys_nodup a l :
  NoDup (a :: l) -> NoDup (last (a :: l) None :: map fst (edges_from a l)).
Proof.
  revert a. induction l as [|r l IH]; intros a Hnd.
  - simpl. constructor; [tauto | constructor].
  - inversion Hnd as [|? ? Ha Hnd']; subst.
    specialize (IH r Hnd'). inversion IH as [|? ? Hlast Hks]; subst.
    change (last (a :: r :: l) None) with (last (r :: l) None).
    simpl edges_from. simpl map.
    constructor; [|constructor; [|exact Hks]].
    + intros [E|Hin]; [|tauto].
      apply Ha. rewrite E. apply last_in.
    + intro Hin. apply Ha. now apply edges_from_sources.
Qed.

Lemma plain_face_flags i f fl :
  f <> [] -> NoDup f ->
  ~ In (show i) (obj_keys (flags fl)) ->
  (forall k', In k' (obj_keys (flags fl)) -> key_before (show i) k' = false) ->
  plain_face i f fl
  = Polyflag (flags fl ++ [(show i, face_map (faceToEdges f))]) (verts fl).
Proof.
  intros Hne Hnd Hk Hb. destruct f as [|f0 rest]; [congruence|].
  unfold plain_face, faceToEdges.
  set (L := last (f0 :: rest) None).
  cbn [fold_left fst snd edges_from].
  rewrite (newFlag_first fl (JNum i) (show i) (vname L) (JStr (vname f0))); auto.
  change [(vname L, JStr (vname f0))] with (face_map [(L, f0)]).
  apply (plain_face_rest i (flags fl) (verts fl) Hk Hb rest f0 [(L, f0)]).
  simpl. now apply face_keys_nodup.
Qed.

(** Two loops that keep related states. *)
Lemma fold_left_related {A S T} (R : S -> T -> Prop) (f : S -> A -> S) (g : T -> A -> T) l :
  (forall s t a, R s t -> R (f s a) (g t a)) ->
  forall s t, R s t -> R (fold_left f l s) (fold_left g l t).
Proof.
  intro Hstep. induction l as [|a l IH]; intros s t H; simpl; [exact H|].
  apply IH. now apply Hstep.
Qed.

(** A face whose number of sides is not [n], for [n <> 0]. *)
Definition unmatched (n : N) (f : list vid) : Prop :=
  N.eqb (len f) n || N.eqb n 0 = false.

Lemma kisN_face_unmatched n apexdist fl b i f normal_i center_i :
  unmatched n f ->
  kisN_face n apexdist (fl, b) (i, (f, (normal_i, center_i))) = (plain_face i f fl, b).
Proof.
  unfold unmatched, kisN_face, plain_face. intro H.
  destruct (N.eqb (len f) n || N.eqb n 0); [discriminate|]. cbn [fst snd].
  set (F := fun (st : polyflag * bool * string) (v : vid) => _).
  set (G := fun (st : polyflag * string) (v : vid) => _).
  assert (Hrel : fold_left F f (fl, b, vname (last f None))
                 = (fst (fold_left G f (fl, vname (last f None))), b,
                    snd (fold_left G f (fl, vname (last f None))))).
  { apply (fold_left_related (fun s t => s = (fst t, b, snd t)) F G f); [|reflexivity].
    intros s [t1 t2] v ->. reflexivity. }
  change ("v" ++ show_vid (last f None))%string with (vname (last f None)).
  rewrite Hrel. reflexivity.
Qed.

Lemma inset_face_unmatched n fl b i f :
  unmatched n f -> inset_face n (fl, b) (i, f) = (plain_face i f fl, b).
Proof.
  unfold unmatched, inset_face, plain_face. intro H.
  destruct (N.eqb (len f) n || N.eqb n 0); [discriminate|]. cbn [fst snd].
  set (F := fun (st : polyflag * bool * string) (v : vid) => _).
  set (G := fun (st : polyflag * string) (v : vid) => _).
  assert (Hrel : fold_left F f (fl, b, vname (last f None))
                 = (fst (fold_left G f (fl, vname (last f None))), b,
                    snd (fold_left G f (fl, vname (last f None))))).
  { apply (fold_left_related (fun s t => s = (fst t, b, snd t)) F G f); [|reflexivity].
    intros s [t1 t2] v ->. reflexivity. }
  change ("v" ++ show_vid (last f None))%string with (vname (last f None)).
  rewrite Hrel. reflexivity.
Qed.

(** The faces numbered from [start] on. *)
Definition numbered_from {A} (start : nat) (l : list A) : list (N * A) :=
  combine (map N.of_nat (seq start (List.length l))) l.

Lemma indexed_numbered {A} (l : list A) : indexed l = numbered_from 0 l.
Proof. unfold indexed, numbered_from, range, len. now rewrite Nat2N.id. Qed.

Lemma numbered_from_cons {A} start (a : A) l :
  numbered_from start (a :: l) = (N.of_nat start, a) :: numbered_from (S start) l.
Proof. reflexivity. Qed.

Definition plain_faces (rows : list (N * list vid)) (fl : polyflag) : polyflag :=
  fold_left (fun fl (row : N * list vid) => plain_face (fst row) (snd row) fl) rows fl.

Definition plain_flags (rows : list (N * list vid)) : obj (obj jsval) :=
  map (fun row : N * list vid => (show (fst row), face_map (faceToEdges (snd row)))) rows.

Lemma plain_faces_flags fs :
  (forall f, In f fs -> f <> [] /\ NoDup f) ->
  forall start fl,
    (forall k, In k (obj_keys (flags fl)) -> exists j, j < N.of_nat start /\ k = show j) ->
    plain_faces (numbered_from start fs) fl
    = Polyflag (flags fl ++ plain_flags (numbered_from start fs)) (verts fl).
Proof.
  induction fs as [|f fs IH]; intros Hfs start fl Hkeys.
  - simpl. rewrite app_nil_r. now destruct fl.
  - rewrite numbered_from_cons. unfold plain_faces. simpl fold_left.
    destruct (Hfs f (or_introl eq_refl)) as [Hne Hnd].
    rewrite plain_face_flags; auto.
    + fold (plain_faces (numbered_from (S start) fs)
                        (Polyflag (flags fl ++ [(show (N.of_nat start),
                                                 face_map (faceToEdges f))]) (verts fl))).
      rewrite IH.
      * simpl. now rewrite <- app_assoc.
      * intros f' Hf'. apply Hfs. now right.
      * simpl. intros k Hk. unfold obj_keys in Hk. rewrite map_app in Hk.
        apply in_app_or in Hk as [Hk|[<-|[]]].
        -- destruct (Hkeys k Hk) as (j & Hj & ->). exists j. split; [lia|reflexivity].
        -- exists (N.of_nat start). split; [lia|reflexivity].
    + intro Hin. destruct (Hkeys _ Hin) as (j & Hj & E).
      apply show_inj in E. lia.
    + intros k' Hk'. destruct (Hkeys _ Hk') as (j & Hj & ->).
      now apply key_before_show.
Qed.

Lemma kisN_rows_unmatched n apexdist fs :
  (forall f, In f fs -> unmatched n f) ->
  forall idxs (ncs : list (vec * vec)) fl,
    List.length ncs = List.length fs ->
    fold_left (kisN_face n apexdist) (combine idxs (combine fs ncs)) (fl, false)
    = (plain_faces (combine idxs fs) fl, false).
Proof.
  unfold plain_faces.
  induction fs as [|f fs IH]; intros Hfs idxs ncs fl Hlen.
  - destruct idxs; reflexivity.
  - destruct ncs as [|[ni ci] ncs]; [discriminate|].
    destruct idxs as [|i idxs]; [reflexivity|].
    cbn [fold_left combine]. rewrite kisN_face_unmatched by (apply Hfs; now left).
    apply IH; [intros; apply Hfs; now right | simpl in Hlen; lia].
Qed.

Lemma inset_rows_unmatched n rows :
  (forall row, In row rows -> unmatched n (snd row)) ->
  forall fl, fold_left (inset_face n) rows (fl, false) = (plain_faces rows fl, false).
Proof.
  unfold plain_faces.
  induction rows as [|[i f] rows IH]; intros Hrows fl; [reflexivity|].
  cbn [fold_left]. rewrite inset_face_unmatched by (apply (Hrows (i, f)); now left).
  apply IH. intros; apply Hrows; now right.
Qed.

(** *** The vertices [`v${i}`] *)

Definition old_names (rows : list (N * vec)) : obj (N * vec) :=
  map (fun row : N * vec => (vname (Some (fst row)), (0, snd row))) rows.

Lemma newV_fresh fl K k xyz :
  to_key K = k -> ~ In k (obj_keys (verts fl)) -> array_index k = None ->
  newV K xyz fl = Polyflag (flags fl) (verts fl ++ [(k, (0, xyz))]).
Proof.
  intros <- Hk Hidx. unfold newV. rewrite (obj_get_absent _ _ Hk).
  rewrite obj_set_append; auto.
  intros k' _. now apply key_before_plain.
Qed.

Lemma old_vertices_from vs :
  forall start fl,
    (forall k, In k (obj_keys (verts fl)) -> exists j, j < N.of_nat start /\ k = vname (Some j)) ->
    fold_left (fun fl '(i, xyz) => newV (JStr ("v" ++ show i)) xyz fl)
              (numbered_from start vs) fl
    = Polyflag (flags fl) (verts fl ++ old_names (numbered_from start vs)).
Proof.
  induction vs as [|p vs IH]; intros start fl Hkeys.
  - simpl. rewrite app_nil_r. now destruct fl.
  - rewrite numbered_from_cons. cbn [fold_left].
    change ("v" ++ show (N.of_nat start))%string with (vname (Some (N.of_nat start))).
    assert (Hnew : ~ In (vname (Some (N.of_nat start))) (obj_keys (verts fl))).
    { intro Hin. destruct (Hkeys _ Hin) as (j & Hj & E).
      apply vname_inj in E. injection E as E. lia. }
    rewrite (newV_fresh fl (JStr (vname (Some (N.of_nat start))))
                        (vname (Some (N.of_nat start))) p eq_refl Hnew
                        (vname_not_index _)).
    rewrite IH.
    + cbn [flags verts old_names map fst snd]. now rewrite <- app_assoc.
    + cbn [verts]. intros k Hk. unfold obj_keys in Hk. rewrite map_app in Hk.
      apply in_app_or in Hk as [Hk|[<-|[]]].
      * destruct (Hkeys k Hk) as (j & Hj & ->). exists j. split; [lia|reflexivity].
      * exists (N.of_nat start). split; [lia|reflexivity].
Qed.

Lemma numbered_from_map {A B} (h : A -> B) l start :
  numbered_from start (map h l)
  = map (fun row => (fst row, h (snd row))) (numbered_from start l).
Proof.
  revert start. induction l as [|a l IH]; intro start; [reflexivity|].
  simpl map at 1. rewrite !numbered_from_cons. simpl. now rewrite IH.
Qed.

Lemma numbered_from_twice {A} (l : list A) start :
  numbered_from start (numbered_from start l)
  = map (fun row => (fst row, row)) (numbered_from start l).
Proof.
  revert start. induction l as [|a l IH]; intro start; [reflexivity|].
  rewrite (numbered_from_cons start a l).
  rewrite (numbered_from_cons start (N.of_nat start, a)).
  cbn [map fst]. f_equal. apply IH.
Qed.

Lemma numbered_from_snd {A} (l : list A) start : map snd (numbered_from start l) = l.
Proof.
  revert start. induction l as [|a l IH]; intro start; [reflexivity|].
  rewrite numbered_from_cons. simpl. now rewrite IH.
Qed.

Lemma numbered_from_fst {A} (l : list A) start :
  map fst (numbered_from start l) = map N.of_nat (seq start (List.length l)).
Proof.
  revert start. induction l as [|a l IH]; intro start; [reflexivity|].
  rewrite numbered_from_cons. simpl. now rewrite IH.
Qed.

(** What [topoly] makes of the vertices [`v${i}`]. *)
Lemma number_old_vertices vs :
  number_vertices (old_names (indexed vs))
  = map (fun row : N * vec => (vname (Some (fst row)), (fst row, snd row))) (indexed vs).
Proof.
  unfold number_vertices, old_names.
  rewrite (indexed_numbered (map _ _)), indexed_numbered.
  rewrite numbered_from_map, numbered_from_twice, !map_map.
  apply map_ext. intros [j p]. reflexivity.
Qed.

Definition old_vertidxs (vs : list vec) : obj N :=
  map (fun row : N * vec => (vname (Some (fst row)), fst row)) (indexed vs).

Lemma named_rows_get {A} (rows : list (N * A)) x :
  In x (map fst rows) ->
  obj_get (map (fun row : N * A => (vname (Some (fst row)), fst row)) rows) (vname (Some x))
  = Some x.
Proof.
  induction rows as [|[j p] rows IH]; intro Hin; [destruct Hin|].
  cbn [map obj_get fst].
  destruct (String.eqb_spec (vname (Some x)) (vname (Some j))) as [E|E].
  - apply vname_inj in E. congruence.
  - apply IH. destruct Hin as [Hin|Hin]; [|exact Hin].
    simpl in Hin. subst. congruence.
Qed.

Lemma old_vertidxs_get vs x :
  x < len vs -> obj_get (old_vertidxs vs) (vname (Some x)) = Some x.
Proof.
  intro Hx. unfold old_vertidxs. apply named_rows_get.
  rewrite indexed_numbered, numbered_from_fst.
  apply in_map_iff. exists (N.to_nat x). split; [apply N2Nat.id|].
  apply in_seq. unfold len in Hx. lia.
Qed.

(** *** Walking an untouched face *)

Lemma face_map_first a y post :
  obj_get (face_map (edges_from a (y :: post))) (vname a) = Some (JStr (vname y)).
Proof. cbn [edges_from face_map map obj_get fst snd]. now rewrite String.eqb_refl. Qed.

Lemma face_map_later pre :
  forall a x y post,
    ~ In x (a :: pre) ->
    obj_get (face_map (edges_from a (pre ++ x :: y :: post))) (vname x)
    = Some (JStr (vname y)).
Proof.
  induction pre as [|p pre IH]; intros a x y post Hx;
    cbn [app edges_from face_map map obj_get fst snd];
    destruct (String.eqb_spec (vname x) (vname a)) as [E|_].
  - apply vname_inj in E. subst. exfalso. apply Hx. now left.
  - now rewrite String.eqb_refl.
  - apply vname_inj in E. subst. exfalso. apply Hx. now left.
  - apply IH. intro H. apply Hx. now right.
Qed.

Lemma last_app_cons {A} (l : list A) x l' d : last (l ++ x :: l') d = last (x :: l') d.
Proof.
  induction l as [|a l IH]; [reflexivity|].
  rewrite <- IH. cbn [app]. 
  destruct (l ++ x :: l') eqn:E; [destruct l; discriminate | reflexivity].
Qed.

Lemma walk_at_start vertidxs i fm v0 budget v f :
  strict_eqb v v0 = true -> walk vertidxs i fm v0 budget v f = (f, []).
Proof. intro H. destruct budget; cbn [walk]; now rewrite H. Qed.

Section PlainWalk.
Variable vertidxs : obj N.
Variable i : string.
Variable f0 : vid.
Variable rest : list vid.
Let f := f0 :: rest.
Let fm := face_map (faceToEdges f).
Let v0 := JStr (vname f0).

Hypothesis f_nodup : NoDup f.
Hypothesis f_known : forall v, In v f -> vertex_index vertidxs (JStr (vname v)) = v.

Lemma plain_next_last pre x :
  rest = pre ++ [x] -> next_vertex fm (JStr (vname x)) = v0.
Proof.
  intro E. unfold next_vertex, fm, faceToEdges, f. cbn [to_key].
  rewrite E. change (f0 :: pre ++ [x]) with ((f0 :: pre) ++ [x]).
  rewrite last_last. cbn [app edges_from face_map map obj_get fst snd].
  now rewrite String.eqb_refl.
Qed.

Lemma plain_next_inner pre x y post :
  rest = pre ++ x :: y :: post -> next_vertex fm (JStr (vname x)) = JStr (vname y).
Proof.
  intro E. unfold next_vertex, fm, faceToEdges, f. cbn [to_key].
  assert (Hnd : NoDup (f0 :: pre ++ x :: y :: post)) by (rewrite <- E; exact f_nodup).
  rewrite E. change (f0 :: pre ++ x :: y :: post) with ((f0 :: pre) ++ x :: y :: post) at 1.
  rewrite last_app_cons.
  set (L := last (x :: y :: post) None).
  cbn [edges_from face_map map obj_get fst snd].
  assert (HL : In L (y :: post)) by apply (last_in y post None).
  inversion Hnd as [|? ? Hf0 Hnd']; subst.
  apply NoDup_remove in Hnd' as [_ Hx].
  destruct (String.eqb_spec (vname x) (vname L)) as [EL|_].
  - apply vname_inj in EL. exfalso. apply Hx. apply in_or_app. right. now rewrite EL.
  - fold (face_map (edges_from f0 (pre ++ x :: y :: post))).
    rewrite face_map_later; [reflexivity|].
    intros [<-|Hin].
    + apply Hf0. apply in_or_app. right. now left.
    + apply Hx. apply in_or_app. now left.
Qed.

Lemma plain_walk post :
  forall pre x budget,
    rest = pre ++ x :: post ->
    (List.length post < budget)%nat ->
    walk vertidxs i fm v0 budget (JStr (vname x)) (f0 :: pre) = (f, []).
Proof.
  induction post as [|y post IH]; intros pre x budget E Hb.
  - destruct budget as [|budget]; [simpl in Hb; lia|].
    cbn [walk].
    assert (Hx : strict_eqb (JStr (vname x)) v0 = false).
    { unfold v0. cbn [strict_eqb]. apply String.eqb_neq. intro Ev.
      apply vname_inj in Ev. subst x.
      pose proof f_nodup as Hnd. unfold f in Hnd. rewrite E in Hnd.
      inversion Hnd as [|? ? Hf0 _]. apply Hf0. apply in_or_app. right. now left. }
    rewrite Hx. rewrite (plain_next_last pre x E).
    rewrite f_known by (unfold f; right; rewrite E; apply in_or_app; right; now left).
    rewrite walk_at_start.
    + unfold f. now rewrite E.
    + unfold v0. cbn [strict_eqb]. apply String.eqb_refl.
  - destruct budget as [|budget]; [simpl in Hb; lia|].
    cbn [walk].
    assert (Hx : strict_eqb (JStr (vname x)) v0 = false).
    { unfold v0. cbn [strict_eqb]. apply String.eqb_neq. intro Ev.
      apply vname_inj in Ev. subst x.
      pose proof f_nodup as Hnd. unfold f in Hnd. rewrite E in Hnd.
      inversion Hnd as [|? ? Hf0 _]. apply Hf0. apply in_or_app. right. now left. }
    rewrite Hx. rewrite (plain_next_inner pre x y post E).
    rewrite f_known by (unfold f; right; rewrite E; apply in_or_app; right; now left).
    change ((f0 :: pre) ++ [x]) with (f0 :: (pre ++ [x])).
    apply IH; [rewrite E, <- app_assoc; reflexivity | simpl in Hb; lia].
Qed.

Lemma plain_next_first y post :
  rest = y :: post -> next_vertex fm v0 = JStr (vname y).
Proof.
  intro E. unfold next_vertex, fm, faceToEdges, f, v0. cbn [to_key].
  pose proof f_nodup as Hnd. unfold f in Hnd. rewrite E in Hnd. rewrite E.
  set (L := last (f0 :: y :: post) None).
  cbn [edges_from face_map map obj_get fst snd].
  assert (HL : In L (y :: post)) by apply (last_in y post None).
  inversion Hnd as [|? ? Hf0 _]; subst.
  destruct (String.eqb_spec (vname f0) (vname L)) as [EL|_].
  - apply vname_inj in EL. exfalso. apply Hf0. now rewrite EL.
  - now rewrite String.eqb_refl.
Qed.

Lemma plain_next_alone : rest = [] -> next_vertex fm v0 = v0.
Proof.
  intro E. unfold next_vertex, fm, faceToEdges, f, v0. rewrite E.
  cbn [to_key last edges_from face_map map obj_get fst snd].
  now rewrite String.eqb_refl.
Qed.

Lemma plain_trace :
  (List.length f <= MAX_FACE_SIDEDNESS + 1)%nat ->
  trace_face vertidxs i fm v0 = (f, []).
Proof.
  intro Hlen. unfold trace_face. cbv zeta.
  change (vertex_index vertidxs v0) with (vertex_index vertidxs (JStr (vname f0))).
  rewrite f_known by (unfold f; now left).
  assert (Hcases : rest = [] \/ exists y post, rest = y :: post).
  { destruct rest as [|y post]; [now left | right; eauto]. }
  destruct Hcases as [E|(y & post & E)].
  - rewrite (plain_next_alone E). rewrite walk_at_start.
    + unfold f. now rewrite E.
    + unfold v0. cbn [strict_eqb]. apply String.eqb_refl.
  - rewrite (plain_next_first y post E).
    apply (plain_walk post [] y); [exact E|].
    unfold f in Hlen. rewrite E in Hlen. cbn [List.length] in Hlen. lia.
Qed.
End PlainWalk.

(** *** [topoly] on untouched faces *)

(** A face that [topoly] gives back as it is: a simple cycle of vertex
    indices that the walk can close. *)
Definition plain_ok (vs : list vec) (f : list vid) : Prop :=
  NoDup f /\ (3 <= List.length f <= MAX_FACE_SIDEDNESS + 1)%nat /\
  forall v, In v f -> exists n, v = Some n /\ n < len vs.

Lemma topoly_step_plain vs j f acc v log :
  plain_ok vs f ->
  exists v',
    topoly_step (old_vertidxs vs) (acc, v, log) (show j, face_map (faceToEdges f))
    = (acc ++ [f], v', log).
Proof.
  intros (Hnd & Hlen & Hids).
  destruct f as [|f0 rest]; [cbn [List.length] in Hlen; lia|].
  exists (JStr (vname f0)).
  rewrite topoly_step_trace.
  assert (Hfirst : first_value (face_map (faceToEdges (f0 :: rest))) v = JStr (vname f0))
    by reflexivity.
  rewrite Hfirst.
  rewrite (plain_trace (old_vertidxs vs) (show j) f0 rest Hnd).
  - cbn [fst snd]. now rewrite app_nil_r.
  - intros x Hx. destruct (Hids x Hx) as (n & -> & Hn).
    unfold vertex_index. cbn [to_key]. now apply old_vertidxs_get.
  - lia.
Qed.

Lemma topoly_loop_plain vs rows :
  (forall row, In row rows -> plain_ok vs (snd row)) ->
  forall acc v log,
    exists v',
      fold_left (topoly_step (old_vertidxs vs)) (plain_flags rows) (acc, v, log)
      = (acc ++ map snd rows, v', log).
Proof.
  generalize (topoly_step_plain vs).
  generalize (topoly_step (old_vertidxs vs)). intros step Hstep.
  induction rows as [|[j f] rows IH]; intros Hrows acc v log.
  - exists v. cbn [plain_flags map fold_left]. now rewrite app_nil_r.
  - cbn [plain_flags map fold_left fst snd].
    destruct (Hstep j f acc v log) as (v1 & ->).
    { apply (Hrows (j, f)). now left. }
    destruct (IH (fun row H => Hrows row (or_intror H)) (acc ++ [f]) v1 log)
      as (v' & Hfold).
    exists v'. fold (plain_flags rows). rewrite Hfold.
    now rewrite <- app_assoc.
Qed.

Lemma topoly_plain vs fs :
  (forall f, In f fs -> plain_ok vs f) ->
  topoly (Polyflag (plain_flags (indexed fs)) (old_names (indexed vs)))
  = (Polyhedron vs fs "unknown polyhedron" None, []).
Proof.
  intro Hfs. unfold topoly. cbn [flags verts].
  rewrite number_old_vertices, !map_map.
  assert (Hidx : map (fun row : N * vec =>
                        let '(k, (ctr, _)) := (vname (Some (fst row)), (fst row, snd row)) in
                        (k, ctr)) (indexed vs) = old_vertidxs vs) by reflexivity.
  rewrite Hidx.
  destruct (topoly_loop_plain vs (indexed fs)) with (acc := @nil (list vid))
                                                    (v := JUndef) (log := @nil logmsg)
    as (v' & Hfold).
  { intros [j f] Hin. apply Hfs. simpl.
    apply in_map with (f := snd) in Hin.
    now rewrite indexed_numbered, numbered_from_snd in Hin. }
  rewrite Hfold. cbn [app].
  rewrite (indexed_numbered fs), numbered_from_snd.
  f_equal. f_equal.
  rewrite <- (numbered_from_snd vs 0) at 2. rewrite <- indexed_numbered.
  apply map_ext. intros [j p]. reflexivity.
Qed.

(** *** [centers()] and [normals()] on faces of vertex indices *)

Lemma foldM_invariant {A S} (P : S -> Prop) (body : S -> A -> res S) l :
  (forall s a, P s -> In a l -> exists s', body s a = Ret s' /\ P s') ->
  forall s, P s -> exists s', foldM body l s = Ret s' /\ P s'.
Proof.
  induction l as [|a l IH]; intros Hbody s Hs; simpl.
  - eauto.
  - destruct (Hbody s a Hs (or_introl eq_refl)) as (s1 & -> & Hs1). simpl.
    apply IH; [|exact Hs1]. intros s2 b H2 Hb. apply Hbody; [exact H2 | now right].
Qed.

Lemma mapM_defined {A B} (g : A -> res B) l :
  (forall a, In a l -> exists b, g a = Ret b) ->
  exists bs, mapM g l = Ret bs /\ List.length bs = List.length l.
Proof.
  induction l as [|a l IH]; intro H; simpl.
  - exists []. auto.
  - destruct (H a (or_introl eq_refl)) as (b & ->). simpl.
    destruct IH as (bs & -> & Hlen); [intros; apply H; now right|]. simpl.
    exists (b :: bs). simpl. auto.
Qed.

Lemma at_vid_in_range {A} (vs : list A) v :
  (exists n, v = Some n /\ n < len vs) -> exists p, at_vid vs v = Some p.
Proof.
  intros (n & -> & Hn). simpl.
  destruct (nth_error vs (N.to_nat n)) as [p|] eqn:E; [eauto|].
  apply nth_error_None in E. unfold len in Hn. lia.
Qed.

Lemma normal_defined (l : list (option vec)) :
  (2 <= List.length l)%nat -> (forall x, In x l -> exists p, x = Some p) ->
  exists nv, normal l = Ret nv.
Proof.
  intros Hlen Hall. unfold normal.
  assert (Hs : exists a b, slice2 l = (Some a, Some b)).
  { unfold slice2.
    assert (Hrev : forall x, In x (List.rev l) -> exists p, x = Some p)
      by (intros x Hx; apply Hall; now apply in_rev).
    assert (Hl : List.length (List.rev l) = List.length l) by apply length_rev.
    destruct (List.rev l) as [|b [|a r]]; simpl in Hl; try lia.
    destruct (Hrev b) as (pb & ->); [now left|].
    destruct (Hrev a) as (pa & ->); [right; now left|]. eauto. }
  destruct Hs as (a & b & ->).
  destruct (foldM_invariant
              (fun st : vec * option vec * option vec =>
                 exists nv p q, st = (nv, Some p, Some q))
              (fun (st : vec * option vec * option vec) v3 =>
                 let '(normalV, v1, v2) := st in
                 b <- defined v2 ;;
                 a <- defined v1 ;;
                 c <- defined v3 ;;
                 Ret (add normalV (orthogonal a b c), v2, v3)) l)
    with (s := (zero3, Some a, Some b)) as (s' & -> & _).
  - intros s x (nv & p & q & ->) Hx. destruct (Hall x Hx) as (c & ->). simpl. eauto 6.
  - eauto.
  - simpl. eauto.
Qed.

Lemma normals_defined poly :
  ids_in_range poly -> (forall f, In f (faces poly) -> (2 <= List.length f)%nat) ->
  exists ns, normals poly = Ret ns /\ List.length ns = List.length (faces poly).
Proof.
  intros Hids Hlen. unfold normals. apply mapM_defined.
  intros f Hf. apply normal_defined.
  - rewrite length_map. now apply Hlen.
  - intros x Hx. apply in_map_iff in Hx as (v & <- & Hv).
    apply at_vid_in_range. now apply (Hids f).
Qed.

Lemma centers_defined poly :
  ids_in_range poly ->
  exists cs, centers poly = Ret cs /\ List.length cs = List.length (faces poly).
Proof.
  intros Hids. unfold centers. apply mapM_defined.
  intros f Hf. unfold face_center.
  destruct (foldM_invariant (fun _ : vec => True)
              (fun fcenter vidx => v <- defined (at_vid (vertices poly) vidx) ;;
                                   Ret (add fcenter v)) f)
    with (s := zero3) as (s' & -> & _); auto.
  - intros s v _ Hv. destruct (at_vid_in_range (vertices poly) v (Hids f v Hf Hv)) as (p & ->).
    simpl. eauto.
  - simpl. eauto.
Qed.
(** *** The selector-parameterized operators on unmatched selectors *)

(** Every face is a simple cycle of at least three of the vertices. *)
Definition simple_faces (poly : polyhedron) : Prop :=
  forall f, In f (faces poly) ->
    NoDup f /\ (3 <= List.length f)%nat /\
    forall v, In v f -> exists n, v = Some n /\ n < len (vertices poly).

(** ... and none is too long for the walk of [topoly] to close it. *)
Definition walkable (poly : polyhedron) : Prop :=
  simple_faces poly /\
  forall f, In f (faces poly) -> (List.length f <= MAX_FACE_SIDEDNESS + 1)%nat.

(** The selector [n] asks for one side count, and no face has it. *)
Definition no_match (n : N) (poly : polyhedron) : Prop :=
  n <> 0 /\ forall f, In f (faces poly) -> len f <> n.

(** The flags that stand for the polyhedron itself: one successor map
    per face, over the vertices [`v${i}`]. *)
Definition own_flags (poly : polyhedron) : polyflag :=
  Polyflag (plain_flags (indexed (faces poly))) (old_names (indexed (vertices poly))).

Lemma walkable_plain poly :
  walkable poly -> forall f, In f (faces poly) -> plain_ok (vertices poly) f.
Proof.
  intros [Hs Hmax] f Hf. destruct (Hs f Hf) as (Hnd & Hmin & Hids).
  specialize (Hmax f Hf). repeat split; auto.
Qed.

Lemma no_match_unmatched n poly :
  no_match n poly -> forall f, In f (faces poly) -> unmatched n f.
Proof.
  intros [Hn Hfs] f Hf. unfold unmatched.
  apply orb_false_iff. split; apply N.eqb_neq; [now apply Hfs | exact Hn].
Qed.

Lemma simple_faces_ids poly : simple_faces poly -> ids_in_range poly.
Proof. intros H f v Hf Hv. now apply (H f Hf). Qed.

Lemma old_vertices_plain poly :
  Ops.old_vertices (fun xyz => xyz) poly new_polyflag
  = Polyflag [] (old_names (indexed (vertices poly))).
Proof.
  unfold Ops.old_vertices. rewrite indexed_numbered.
  rewrite (old_vertices_from (vertices poly) 0 new_polyflag); [reflexivity|].
  intros k [].
Qed.

Lemma indexed_combine {A B} (l : list A) (l' : list B) :
  List.length l' = List.length l ->
  indexed (combine l l') = combine (map fst (indexed l)) (combine l l').
Proof.
  intro H. unfold indexed at 1. f_equal.
  rewrite indexed_numbered, numbered_from_fst. unfold range, len.
  rewrite Nat2N.id, length_combine, H, Nat.min_id. reflexivity.
Qed.

Lemma indexed_again {A} (l : list A) : combine (map fst (indexed l)) l = indexed l.
Proof. now rewrite indexed_numbered, numbered_from_fst. Qed.

Lemma plain_rows poly :
  simple_faces poly ->
  plain_faces (indexed (faces poly)) (Polyflag [] (old_names (indexed (vertices poly))))
  = own_flags poly.
Proof.
  intro Hs. unfold own_flags. rewrite (indexed_numbered (faces poly)).
  rewrite plain_faces_flags; [reflexivity| |intros k []].
  intros f Hf. destruct (Hs f Hf) as (Hnd & Hlen & _). split; [|exact Hnd].
  intros ->. cbn [List.length] in Hlen. lia.
Qed.

Lemma inset_vertices_unmatched vs n d1 d2 (rows : list (N * (list vid * (vec * vec)))) :
  (forall row, In row rows -> unmatched n (fst (snd row))) ->
  forall fl, foldM (Ops.inset_vertices vs n d1 d2) rows fl = Ret fl.
Proof.
  induction rows as [|[i [f [ni ci]]] rows IH]; intros Hrows fl; [reflexivity|].
  cbn [foldM]. unfold Ops.inset_vertices at 1.
  rewrite (Hrows (i, (f, (ni, ci))) (or_introl eq_refl)). cbn [bind].
  apply IH. intros row Hrow. apply Hrows. now right.
Qed.

(** With no face matched, both operators hand the flags of the
    polyhedron itself to [topoly]. *)
Lemma unmatched_selector_flags poly n apexdist inset_dist popout_dist :
  simple_faces poly -> no_match n poly ->
  Ops.kisN poly (Some n) apexdist
  = Ops.assemble (own_flags poly) ("k" ++ show n ++ name poly)
      [Log ("Taking kis of " ++ show n ++ "-sided faces of " ++ name poly ++ "...");
       Log ("No " ++ show n ++ "-fold components were found.")]
  /\
  Ops.insetN poly (Some n) inset_dist popout_dist
  = Ops.assemble (own_flags poly) ("n" ++ show n ++ name poly)
      [Log ("Taking inset of " ++ show n ++ "-sided faces of " ++ name poly ++ "...");
       Log ("No " ++ show n ++ "-fold components were found.")].
Proof.
  intros Hs Hn.
  assert (Hsides : Ops.show_sides n = show n).
  { unfold Ops.show_sides. destruct Hn as [Hn _]. apply N.eqb_neq in Hn. now rewrite Hn. }
  destruct (normals_defined poly (simple_faces_ids poly Hs)) as (ns & Hns & Hnl).
  { intros f Hf. destruct (Hs f Hf) as (_ & Hlen & _). lia. }
  destruct (centers_defined poly (simple_faces_ids poly Hs)) as (cs & Hcs & Hcl).
  assert (Hcomb : List.length (combine ns cs) = List.length (faces poly)).
  { rewrite length_combine. lia. }
  split.
  - unfold Ops.kisN. cbn [Ops.default_n]. rewrite Hsides, Hns, Hcs. cbn [bind].
    rewrite old_vertices_plain, (indexed_combine _ _ Hcomb).
    rewrite kisN_rows_unmatched; [|now apply no_match_unmatched | exact Hcomb].
    rewrite indexed_again, (plain_rows poly Hs). reflexivity.
  - unfold Ops.insetN. cbn [Ops.default_n]. rewrite Hsides, Hns, Hcs. cbn [bind].
    rewrite old_vertices_plain, inset_vertices_unmatched.
    + cbn [bind]. rewrite inset_rows_unmatched.
      * rewrite (plain_rows poly Hs). reflexivity.
      * intros [i f] Hin. apply (no_match_unmatched n poly Hn).
        apply in_combine_r in Hin. exact Hin.
    + intros [i [f nc]] Hin. apply (no_match_unmatched n poly Hn).
      apply in_combine_r, in_combine_l in Hin. exact Hin.
Qed.

Lemma assemble_plain poly nm log :
  walkable poly ->
  Ops.assemble (own_flags poly) nm log
  = Ret (Polyhedron (vertices poly) (faces poly) nm None, log).
Proof.
  intro Hw. unfold Ops.assemble, own_flags.
  rewrite (topoly_plain _ _ (walkable_plain poly Hw)).
  unfold Ops.set_name. cbn [vertices faces face_classes]. now rewrite app_nil_r.
Qed.

(** C6. On a polyhedron whose faces are simple cycles of 3 to 1001 of
    its vertices, [kisN] and [insetN] called with a side count [n <> 0]
    that no face has return the vertices and the faces of the input, as
    they are, under the new name, and log, after the announcement of the
    operation, that no [n]-fold component was found. *)
Theorem unmatched_selector_keeps_mesh poly n apexdist inset_dist popout_dist :
  walkable poly -> no_match n poly ->
  Ops.kisN poly (Some n) apexdist
  = Ret (Polyhedron (vertices poly) (faces poly) ("k" ++ show n ++ name poly) None,
         [Log ("Taking kis of " ++ show n ++ "-sided faces of " ++ name poly ++ "...");
          Log ("No " ++ show n ++ "-fold components were found.")])
  /\
  Ops.insetN poly (Some n) inset_dist popout_dist
  = Ret (Polyhedron (vertices poly) (faces poly) ("n" ++ show n ++ name poly) None,
         [Log ("Taking inset of " ++ show n ++ "-sided faces of " ++ name poly ++ "...");
          Log ("No " ++ show n ++ "-fold components were found.")]).
Proof.
  intros Hw Hn.
  destruct (unmatched_selector_flags poly n apexdist inset_dist popout_dist (proj1 Hw) Hn)
    as [-> ->].
  split; apply (assemble_plain poly _ _ Hw).
Qed.

(** The conditions, as checks that can be run. *)
Fixpoint distinct (l : list vid) : bool :=
  match l with
  | [] => true
  | x :: r => negb (existsb (vid_eqb x) r) && distinct r
  end.

Definition simple_faces_b (poly : polyhedron) : bool :=
  forallb (fun f => distinct f
                    && (3 <=? List.length f)%nat
                    && forallb (fun v : vid =>
                                  match v with
                                  | Some n => n <? len (vertices poly)
                                  | None => false
                                  end) f)
          (faces poly).

Definition walkable_b (poly : polyhedron) : bool :=
  simple_faces_b poly
  && forallb (fun f => (List.length f <=? MAX_FACE_SIDEDNESS + 1)%nat) (faces poly).

Definition no_match_b (n : N) (poly : polyhedron) : bool :=
  negb (N.eqb n 0) && forallb (fun f => negb (N.eqb (len f) n)) (faces poly).

Lemma distinct_NoDup l : distinct l = true -> NoDup l.
Proof.
  induction l as [|x r IH]; simpl; intro H; constructor;
    apply andb_prop in H as [Hx Hr]; [|now apply IH].
  intro Hin. apply negb_true_iff in Hx.
  assert (existsb (vid_eqb x) r = true); [|congruence].
  apply existsb_exists. exists x. split; [exact Hin | now apply vid_eqb_eq].
Qed.

Lemma simple_faces_b_sound poly : simple_faces_b poly = true -> simple_faces poly.
Proof.
  unfold simple_faces_b. intros H f Hf.
  rewrite forallb_forall in H. specialize (H f Hf).
  apply andb_prop in H as [H Hids]. apply andb_prop in H as [Hnd Hmin].
  split; [now apply distinct_NoDup|]. split.
  - now apply Nat.leb_le in Hmin.
  - intros v Hv. rewrite forallb_forall in Hids. specialize (Hids v Hv).
    destruct v as [n|]; [|discriminate]. exists n. split; [reflexivity|].
    now apply N.ltb_lt.
Qed.

Lemma walkable_b_sound poly : walkable_b poly = true -> walkable poly.
Proof.
  unfold walkable_b. intro H. apply andb_prop in H as [Hs Hmax].
  split; [now apply simple_faces_b_sound|].
  intros f Hf. rewrite forallb_forall in Hmax. now apply Nat.leb_le, Hmax.
Qed.

Lemma no_match_b_sound n poly : no_match_b n poly = true -> no_match n poly.
Proof.
  unfold no_match_b. intro H. apply andb_prop in H as [Hn Hfs]. split.
  - apply negb_true_iff in Hn. now apply N.eqb_neq.
  - intros f Hf. rewrite forallb_forall in Hfs. specialize (Hfs f Hf).
    apply negb_true_iff in Hfs. now apply N.eqb_neq.
Qed.

Lemma unmatched_selector_keeps_mesh_witness :
  Ops.kisN Seeds.cube (Some 3) None
  = Ret (Polyhedron (vertices Seeds.cube) (faces Seeds.cube) "k3C" None,
         [Log "Taking kis of 3-sided faces of C...";
          Log "No 3-fold components were found."])
  /\
  Ops.insetN Seeds.cube (Some 3) None None
  = Ret (Polyhedron (vertices Seeds.cube) (faces Seeds.cube) "n3C" None,
         [Log "Taking inset of 3-sided faces of C...";
          Log "No 3-fold components were found."]).
Proof.
  apply (unmatched_selector_keeps_mesh Seeds.cube 3 None None None).
  - apply walkable_b_sound. vm_compute. reflexivity.
  - apply no_match_b_sound. vm_compute. reflexivity.
Defined.

(** [prism(n)] as to its faces, over a convex [n]-gon whose corners lie
    on a parabola: [prism] itself places them on a circle. *)
Definition prism_faces (n : nat) : list (list vid) :=
  let top := List.rev (map (fun i => Some (N.of_nat i)) (seq 0 n)) in
  let bottom := map (fun i => Some (N.of_nat i)) (seq n n) in
  let sides :=
    map (fun i => [Some (N.of_nat i);
                   Some (N.of_nat ((i + 1) mod n));
                   Some (N.of_nat ((i + 1) mod n + n));
                   Some (N.of_nat (i + n))]) (seq 0 n) in
  top :: bottom :: sides.

Definition parabola_prism (n : nat) : polyhedron :=
  let corner (z : float) (i : nat) : vec :=
    (of_N (N.of_nat i), of_N (N.of_nat i * N.of_nat i), z) in
  Polyhedron (map (corner (-1)%float) (seq 0 n) ++ map (corner 1%float) (seq 0 n))
             (prism_faces n) ("P" ++ show (N.of_nat n)) None.

Definition face_sizes (p : polyhedron) : list nat := map (@List.length vid) (faces p).

(** The sizes of the faces of the result of an operator. *)
Definition result_sizes (r : res (polyhedron * list logmsg)) : option (list nat) :=
  match r with
  | Ret (q, _) => Some (face_sizes q)
  | Throw _ => None
  end.

Lemma result_sizes_assemble fl nm log :
  result_sizes (Ops.assemble fl nm log) = Some (face_sizes (fst (topoly fl))).
Proof. unfold Ops.assemble. now destruct (topoly fl). Qed.

(** A prism whose two bases have 1003 sides. *)
Definition wide_prism : polyhedron := parabola_prism 1003.

Lemma wide_prism_simple : simple_faces wide_prism /\ no_match 5 wide_prism.
Proof.
  split.
  - apply simple_faces_b_sound. vm_compute. reflexivity.
  - apply no_match_b_sound. vm_compute. reflexivity.
Qed.

Lemma wide_prism_topoly :
  firstn 2 (face_sizes (fst (topoly (own_flags wide_prism)))) = [1002; 1002]%nat.
Proof. vm_compute. reflexivity. Qed.

(** C6, the case left out: the walk of [topoly] gives up after 1002
    vertices, so the two 1003-sided bases of the prism come back one
    vertex short from [kisN] and [insetN], although no face has 5 sides. *)
Lemma unmatched_selector_cuts_wide_face :
  simple_faces wide_prism /\ no_match 5 wide_prism /\
  firstn 2 (face_sizes wide_prism) = [1003; 1003]%nat /\
  option_map (firstn 2) (result_sizes (Ops.kisN wide_prism (Some 5) None))
  = Some [1002; 1002]%nat /\
  option_map (firstn 2) (result_sizes (Ops.insetN wide_prism (Some 5) None None))
  = Some [1002; 1002]%nat.
Proof.
  destruct wide_prism_simple as [Hs Hn].
  destruct (unmatched_selector_flags wide_prism 5 None None None Hs Hn) as [-> ->].
  split; [exact Hs|]. split; [exact Hn|]. split; [vm_compute; reflexivity|].
  split; rewrite result_sizes_assemble; unfold option_map;
    now rewrite wide_prism_topoly.
Qed.

(* ================================================================== *)
(** * Further properties of the source *)

(** ** Helper arrays *)

(** The count [n] of turns and the values [i, i + 1, ...] of an ascending
    loop, [i, i - 1, ...] of a descending one. *)
Definition steps_from (ascending : bool) (i : Z) (n : nat) : list Z :=
  map (fun k => if ascending then (i + Z.of_nat k)%Z else (i - Z.of_nat k)%Z) (seq 0 n).

Lemma steps_from_S ascending i n :
  steps_from ascending i (S n)
  = i :: steps_from ascending (if ascending then i + 1 else i - 1)%Z n.
Proof.
  unfold steps_from. cbn [seq map]. f_equal.
  - destruct ascending; f_equal; lia.
  - rewrite <- seq_shift, map_map. apply map_ext. intro k.
    destruct ascending; lia.
Qed.

Lemma range_loop_steps (ascending : bool) (end_ : Z) :
  forall n fuel i,
    (n <= fuel)%nat ->
    (if ascending then end_ - i else i - end_)%Z = Z.of_nat n ->
    range_loop fuel ascending end_ i = Some (steps_from ascending i n).
Proof.
  induction n as [|n IH]; intros fuel i Hfuel Hn.
  - assert (Hstop : (if ascending then (i <? end_)%Z else (i >? end_)%Z) = false).
    { destruct ascending; [|rewrite Z.gtb_ltb]; apply Z.ltb_ge; lia. }
    destruct fuel; cbn [range_loop]; rewrite Hstop; reflexivity.
  - assert (Hgo : (if ascending then (i <? end_)%Z else (i >? end_)%Z) = true).
    { destruct ascending; [|rewrite Z.gtb_ltb]; apply Z.ltb_lt; lia. }
    destruct fuel as [|fuel]; [lia|]. rewrite steps_from_S.
    cbn [range_loop]. rewrite Hgo.
    rewrite (IH fuel); [reflexivity | lia |]. destruct ascending; lia.
Qed.

(** X1. For bounds that are integers below [2^53] in size, where the
    numbers of the source count exactly,
    [__range__(left, right, inclusive)] lists the integers from [left]
    towards [right], upwards when [left < right] and downwards
    otherwise; [right] itself is listed exactly when [inclusive].  So the
    inclusive range has [|right - left| + 1] entries, also for
    [right < left]: [__range__(0, -1, true)] is [[0, -1]], not empty.
    Every number that the loop computes stays within [2^53]. *)
Theorem range_lists_the_interval fuel left right inclusive :
  safe_integer left -> safe_integer right ->
  (Z.to_nat (Z.abs (right - left)) + 1 <= fuel)%nat ->
  __range__ fuel left right inclusive
  = Some (steps_from (left <? right)%Z left
            (Z.to_nat (Z.abs (right - left)) + (if inclusive then 1 else 0)))
  /\ (forall i, In i (steps_from (left <? right)%Z left
                        (Z.to_nat (Z.abs (right - left)) + (if inclusive then 1 else 0))) ->
                safe_integer i).
Proof.
  intros Hl Hr Hfuel. split.
  - unfold __range__.
    apply range_loop_steps; [destruct inclusive; lia|].
    destruct (Z.ltb_spec left right), inclusive; cbn [negb]; lia.
  - intros i Hi. unfold steps_from in Hi. apply in_map_iff in Hi as (k & <- & Hk).
    apply in_seq in Hk. unfold safe_integer in *.
    destruct (Z.ltb_spec left right), inclusive; lia.
Qed.

Lemma range_lists_the_interval_witness :
  __range__ 2 0 (-1) true = Some [0; -1]%Z.
Proof.
  apply (range_lists_the_interval 2 0 (-1) true).
  - unfold safe_integer. split; reflexivity.
  - unfold safe_integer. split; reflexivity.
  - vm_compute. lia.
Defined.

(** ** Faces and their edges *)

Lemma edges_from_ends v1 face :
  map snd (edges_from v1 face) = face /\
  map fst (edges_from v1 face) = removelast (v1 :: face).
Proof.
  revert v1. induction face as [|v2 rest IH]; intro v1; [split; reflexivity|].
  destruct (IH v2) as [Hsnd Hfst]. cbn [edges_from map fst snd]. split.
  - now rewrite Hsnd.
  - rewrite Hfst. reflexivity.
Qed.

(** X2. [faceToEdges(face)] has one edge per entry of the face: the edge
    that ends at this entry.  The edges end at the entries in the order
    of the face, and they start at the entries in the same order, moved
    by one place: the first edge starts at the last entry. *)
Theorem faceToEdges_walks_the_face face :
  map snd (faceToEdges face) = face /\
  map fst (faceToEdges face) = removelast (last face None :: face) /\
  List.length (faceToEdges face) = List.length face.
Proof.
  unfold faceToEdges.
  destruct (edges_from_ends (last face None) face) as [Hsnd Hfst].
  repeat split; [exact Hsnd | exact Hfst |].
  rewrite <- (length_map snd). now rewrite Hsnd.
Qed.

(** ** [intersect] *)

Lemma intersect2_found s1 set2 set3 :
  intersect2 s1 set2 (Some set3)
  = Ret (existsb (vid_eqb s1) set2 && existsb (vid_eqb s1) set3).
Proof.
  induction set2 as [|s2 rest IH]; [reflexivity|].
  cbn [intersect2 existsb]. destruct (vid_eqb s1 s2); cbn [defined bind orb andb].
  - destruct (existsb (vid_eqb s1) set3); [reflexivity|].
    rewrite IH. now rewrite andb_false_r.
  - exact IH.
Qed.

(** X3. On three arrays, [intersect] returns the first entry of [set1]
    that is also ([===]) an entry of [set2] and of [set3], and [null]
    when [set1] has no such entry.  With an empty [set1] it returns
    [null] whatever the other two arguments are; with [set1] undefined it
    throws. *)
Theorem intersect_finds_first_common set1 set2 set3 :
  intersect (Some set1) (Some set2) (Some set3)
  = Ret (find (fun s => existsb (vid_eqb s) set2 && existsb (vid_eqb s) set3) set1)
  /\ (forall s2 s3, intersect (Some []) s2 s3 = Ret None)
  /\ (forall s2 s3, intersect None s2 s3 = Throw TypeError).
Proof.
  split; [|split; reflexivity].
  unfold intersect. cbn [defined bind].
  induction set1 as [|s1 rest IH]; [reflexivity|].
  cbn [intersect1 find defined bind]. rewrite intersect2_found. cbn [bind].
  destruct (existsb (vid_eqb s1) set2 && existsb (vid_eqb s1) set3); [reflexivity | exact IH].
Qed.

(** ** Names built from vertex indices *)

(** [sep_free c s]: the character [c] does not occur in [s]. *)
Fixpoint sep_free (c : ascii) (s : string) : bool :=
  match s with
  | EmptyString => true
  | String c' s' => negb (Ascii.eqb c' c) && sep_free c s'
  end.

(** A decimal numeral holds digits only. *)
Lemma digits_sep_free c s d :
  NilEmpty.uint_of_string s = Some d ->
  (forall d', NilEmpty.uint_of_string (String c EmptyString) = Some d' -> False) ->
  sep_free c s = true.
Proof.
  intros H Hc. revert d H. induction s as [|c' s IH]; intros d H; [reflexivity|].
  cbn [sep_free]. cbn [NilEmpty.uint_of_string] in H.
  destruct (NilEmpty.uint_of_string s) as [d'|] eqn:E; [|discriminate].
  rewrite (IH d' eq_refl), andb_true_r.
  destruct (Ascii.eqb_spec c' c) as [->|]; [|reflexivity].
  exfalso. cbn [NilEmpty.uint_of_string] in Hc.
  destruct (uint_of_char c (Some Decimal.Nil)) as [d''|] eqn:E'; [now apply (Hc d'')|].
  unfold uint_of_char in *.
  destruct c as [[] [] [] [] [] [] [] []]; cbn in E', H; discriminate.
Qed.

Lemma show_sep_free c n :
  (forall d', NilEmpty.uint_of_string (String c EmptyString) = Some d' -> False) ->
  sep_free c (show n) = true.
Proof. intro Hc. apply (digits_sep_free c _ _ (show_digits n) Hc). Qed.

(** A name ends at the first occurrence of its separator. *)
Lemma sep_split c s1 s1' s2 s2' :
  sep_free c s1 = true -> sep_free c s1' = true ->
  (s1 ++ String c s2 = s1' ++ String c s2')%string -> s1 = s1' /\ s2 = s2'.
Proof.
  revert s1'. induction s1 as [|a s1 IH]; intros [|a' s1'] H1 H1' E; cbn in *.
  - injection E as ->. auto.
  - injection E as <- _. rewrite Ascii.eqb_refl in H1'. discriminate.
  - injection E as -> _. rewrite Ascii.eqb_refl in H1. discriminate.
  - injection E as -> E.
    apply andb_true_iff in H1 as [_ H1]. apply andb_true_iff in H1' as [_ H1'].
    destruct (IH s1' H1 H1' E) as [-> ->]. auto.
Qed.

Lemma underscore_no_digit d' :
  NilEmpty.uint_of_string (String "_" EmptyString) = Some d' -> False.
Proof. discriminate. Qed.

(** X4. For two vertex indices, [midName] gives the edge between them
    one name, whichever end comes first, and edges with different ends
    get different names. *)
Theorem midName_names_the_edge (a b c d : N) :
  midName (Some a) (Some b) = midName (Some b) (Some a) /\
  (midName (Some a) (Some b) = midName (Some c) (Some d) ->
   (a = c /\ b = d) \/ (a = d /\ b = c)).
Proof.
  unfold midName, vid_ltb, show_vid. split.
  - destruct (N.ltb_spec a b), (N.ltb_spec b a); try reflexivity; try lia.
    assert (a = b) by lia. now subst.
  - intro E.
    assert (Hsplit : forall x y z w : N,
               (show x ++ "_" ++ show y = show z ++ "_" ++ show w)%string ->
               x = z /\ y = w).
    { intros x y z w H.
      apply sep_split in H; try (apply show_sep_free, underscore_no_digit).
      destruct H as [H1 H2]. split; now apply show_inj. }
    destruct (N.ltb_spec a b), (N.ltb_spec c d);
      apply Hsplit in E; destruct E; subst; auto.
Qed.

Lemma midName_names_the_edge_witness :
  midName (Some 1) (Some 2) = midName (Some 2) (Some 1) /\
  ((1 = 2 /\ 2 = 1) \/ (1 = 1 /\ 2 = 2)).
Proof.
  destruct (midName_names_the_edge 1 2 2 1) as [H1 H2].
  split; [exact H1 | apply H2; reflexivity].
Defined.

(** ** [normal] *)

(** X5. On the coordinates of a face, [normal] throws exactly when the
    face has a single vertex: the second of its two trailing vertices is
    then [undefined].  For no vertex at all the loop is not entered, and
    for two or more every vertex it reads is there. *)
Theorem normal_throws_on_single_vertex (vs : list vec) :
  (List.length vs = 1%nat -> normal (map Some vs) = Throw TypeError) /\
  (List.length vs <> 1%nat -> exists nv, normal (map Some vs) = Ret nv).
Proof.
  split.
  - destruct vs as [|a [|b vs]]; try discriminate. reflexivity.
  - intro Hlen. destruct vs as [|a [|b vs]]; [eexists; reflexivity | now exfalso |].
    apply normal_defined.
    + cbn [map List.length]. lia.
    + intros x Hx. apply in_map_iff in Hx as (p & <- & _). eauto.
Qed.

Lemma normal_throws_on_single_vertex_witness :
  normal (map Some [(1, 0, 0)%float]) = Throw TypeError /\
  exists nv, normal (map Some [(1, 0, 0); (0, 1, 0); (0, 0, 1)]%float) = Ret nv.
Proof.
  destruct (normal_throws_on_single_vertex [(1, 0, 0)%float]) as [H1 _].
  destruct (normal_throws_on_single_vertex [(1, 0, 0); (0, 1, 0); (0, 0, 1)]%float)
    as [_ H3].
  split; [apply H1; reflexivity | apply H3; discriminate].
Defined.

(** ** The flag assembler *)

Section ObjectLaws.
Context {V : Type}.

Lemma obj_get_set_same (o : obj V) k v : obj_get (obj_set k v o) k = Some v.
Proof.
  induction o as [|[k' v'] o IH]; cbn [obj_set obj_get].
  - now rewrite String.eqb_refl.
  - destruct (String.eqb k k') eqn:E; cbn [obj_get].
    + now rewrite String.eqb_refl.
    + destruct (key_before k k'); cbn [obj_get].
      * now rewrite String.eqb_refl.
      * now rewrite E.
Qed.

Lemma obj_get_set_other (o : obj V) k v k2 :
  String.eqb k2 k = false -> obj_get (obj_set k v o) k2 = obj_get o k2.
Proof.
  intro Hk. induction o as [|[k' v'] o IH]; cbn [obj_set obj_get].
  - now rewrite Hk.
  - destruct (String.eqb k k') eqn:E; cbn [obj_get].
    + apply String.eqb_eq in E. subst k'. now rewrite Hk.
    + destruct (key_before k k'); cbn [obj_get].
      * now rewrite Hk.
      * now rewrite IH.
Qed.
End ObjectLaws.

(** X6. A vertex name that is not an inherited one is declared once:
    after [newV(name, c)], a call [newV(name', c')] whose name is the
    same property key (the number [1] and the string ["1"] are) changes
    nothing, and the name stands for the coordinates of the first
    declaration that was made of it. *)
Theorem newV_first_wins K K' c c' fl :
  inherited (to_key K) = false ->
  to_key K' = to_key K ->
  newV K' c' (newV K c fl) = newV K c fl /\
  option_map snd (obj_get (verts (newV K c fl)) (to_key K))
  = match obj_get (verts fl) (to_key K) with
    | Some old => Some (snd old)
    | None => Some c
    end.
Proof.
  intros _ HK. unfold newV at 2 3 4.
  destruct (obj_get (verts fl) (to_key K)) as [old|] eqn:E.
  - split; [|now rewrite E]. unfold newV. now rewrite HK, E.
  - cbn [verts]. split.
    + unfold newV. cbn [verts]. now rewrite HK, obj_get_set_same.
    + now rewrite obj_get_set_same.
Qed.

Lemma newV_first_wins_witness :
  newV (JStr "1") (0, 0, 1)%float (newV (JNum 1) (1, 0, 0)%float new_polyflag)
  = newV (JNum 1) (1, 0, 0)%float new_polyflag /\
  option_map snd (obj_get (verts (newV (JNum 1) (1, 0, 0)%float new_polyflag)) "1")
  = Some (1, 0, 0)%float.
Proof. apply (newV_first_wins (JNum 1) (JStr "1")); reflexivity. Defined.

(** [this.flags[faceName][vertName]] *)
Definition flag_at (fl : polyflag) (faceName vertName : jsval) : option jsval :=
  match obj_get (flags fl) (to_key faceName) with
  | Some face => obj_get face (to_key vertName)
  | None => None
  end.

(** X7. For names that are not inherited ones, [newFlag(f, v1, v2)]
    makes [v2] the successor of [v1] in the face [f], in place of the
    successor [v1] had there, and changes no other successor of any
    face; it leaves the vertices alone. *)
Theorem newFlag_sets_one_successor f v1 v2 fl f' v' :
  inherited (to_key f) = false -> inherited (to_key v1) = false ->
  inherited (to_key f') = false -> inherited (to_key v') = false ->
  flag_at (newFlag f v1 v2 fl) f' v'
  = (if String.eqb (to_key f') (to_key f) && String.eqb (to_key v') (to_key v1)
     then Some v2 else flag_at fl f' v')
  /\ verts (newFlag f v1 v2 fl) = verts fl.
Proof.
  intros _ _ _ _.
  split; [|reflexivity]. unfold flag_at, newFlag. cbn [flags].
  destruct (String.eqb (to_key f') (to_key f)) eqn:Hf; cbn [andb].
  - apply String.eqb_eq in Hf. rewrite Hf, obj_get_set_same.
    destruct (String.eqb (to_key v') (to_key v1)) eqn:Hv.
    + apply String.eqb_eq in Hv. rewrite Hv. apply obj_get_set_same.
    + rewrite (obj_get_set_other _ _ _ _ Hv).
      now destruct (obj_get (flags fl) (to_key f)).
  - now rewrite (obj_get_set_other _ _ _ _ Hf).
Qed.

Lemma newFlag_sets_one_successor_witness :
  flag_at (newFlag (JStr "f") (JNum 1) (JNum 3)
                   (newFlag (JStr "f") (JNum 1) (JNum 2) new_polyflag))
          (JStr "f") (JStr "1")
  = Some (JNum 3).
Proof.
  apply (newFlag_sets_one_successor (JStr "f") (JNum 1) (JNum 3)
           (newFlag (JStr "f") (JNum 1) (JNum 2) new_polyflag) (JStr "f") (JStr "1"));
    reflexivity.
Defined.

(** ** [reflect] *)

(** The successive pairs of a list. *)
Definition pairs (l : list vid) : list (vid * vid) :=
  match l with
  | [] => []
  | x :: r => edges_from x r
  end.

Definition swap (e : vid * vid) : vid * vid := (snd e, fst e).

Lemma last_cons_default (y : vid) r v : last (y :: r) v = last r y.
Proof.
  revert y v. induction r as [|z r IH]; intros y v; [reflexivity|].
  change (last (y :: z :: r) v) with (last (z :: r) v). now rewrite !IH.
Qed.

Lemma edges_from_snoc v f x :
  edges_from v (f ++ [x]) = edges_from v f ++ [(last f v, x)].
Proof.
  revert v. induction f as [|y r IH]; intro v; [reflexivity|].
  cbn [app edges_from]. now rewrite IH, last_cons_default.
Qed.

Lemma pairs_rev l : pairs (List.rev l) = map swap (List.rev (pairs l)).
Proof.
  induction l as [|a l IH]; [reflexivity|].
  destruct l as [|h t]; [reflexivity|].
  change (List.rev (a :: h :: t)) with (List.rev (h :: t) ++ [a]).
  assert (Hne : exists y s, List.rev (h :: t) = y :: s).
  { destruct (List.rev (h :: t)) as [|y s] eqn:E; [|eauto].
    apply (f_equal (@List.length vid)) in E. rewrite length_rev in E. discriminate. }
  destruct Hne as (y & s & E).
  assert (Hlast : last s y = h).
  { rewrite <- (last_cons_default y s None), <- E.
    cbn [List.rev]. apply last_last. }
  rewrite E in IH |- *. cbn [app pairs] in *.
  rewrite edges_from_snoc, IH, Hlast.
  cbn [edges_from List.rev]. now rewrite map_app.
Qed.

(** The edges of the reversed face are the edges of the face, reversed. *)
Lemma faceToEdges_rev f e :
  In e (faceToEdges (List.rev f)) <-> In (swap e) (faceToEdges f).
Proof.
  destruct f as [|x r]; [reflexivity|].
  assert (Hrev : faceToEdges (List.rev (x :: r)) = pairs (List.rev ((x :: r) ++ [x]))).
  { unfold faceToEdges. rewrite rev_app_distr. cbn [List.rev app pairs].
    now rewrite last_last. }
  rewrite Hrev, pairs_rev. cbn [app pairs]. rewrite edges_from_snoc.
  unfold faceToEdges. rewrite (last_cons_default x r None).
  cbn [edges_from]. rewrite in_map_iff. split.
  - intros ([a b] & <- & Hin). apply in_rev, in_app_or in Hin. cbn [swap fst snd].
    destruct Hin as [Hin|[Hin|[]]]; [now right | left; exact Hin].
  - intro Hin. exists (swap e). split; [now destruct e|].
    apply -> in_rev. apply in_or_app.
    destruct Hin as [Hin|Hin]; [right; left; exact Hin | now left].
Qed.

Lemma directed_edges_rev fs e :
  In e (List.concat (map faceToEdges (map (@List.rev vid) fs)))
  <-> In (swap e) (List.concat (map faceToEdges fs)).
Proof.
  rewrite !in_concat. split.
  - intros (l & Hl & He). rewrite map_map in Hl.
    apply in_map_iff in Hl as (f & <- & Hf).
    exists (faceToEdges f). split; [now apply in_map | now apply faceToEdges_rev].
  - intros (l & Hl & He). apply in_map_iff in Hl as (f & <- & Hf).
    exists (faceToEdges (List.rev f)). split.
    + rewrite map_map. now apply (in_map (fun f => faceToEdges (List.rev f))).
    + now apply faceToEdges_rev.
Qed.

(** [uniqEdges] has one key per name of an edge. *)
Lemma filed_keys es :
  let o := fold_left file_edge es [] in
  NoDup (obj_keys o) /\ forall k, In k (obj_keys o) <-> exists e, In e es /\ k = edge_key e.
Proof.
  intro o.
  assert (Ho : filed es o).
  { apply fold_file_filed; [auto|]. split; [constructor | intros ? ? []]. }
  destruct Ho as [Hnd Hall]. split; [exact Hnd|].
  intro k. split.
  - intro Hk. unfold obj_keys in Hk. apply in_map_iff in Hk as ([k' e] & <- & Hin).
    destruct (Hall _ _ Hin) as [-> He]. eauto.
  - intros (e & He & ->). now apply fold_file_covers.
Qed.

Lemma swap_edge_key (a b : N) : edge_key (swap (Some a, Some b)) = edge_key (Some a, Some b).
Proof.
  rewrite !edge_key_canon. unfold swap. cbn [fst snd].
  pose proof (canon_swap b a) as H. unfold vid in *. now rewrite H.
Qed.

(** X8. [reflect] returns a polyhedron with as many vertices, faces and
    edges as its argument, hence with the same Euler characteristic,
    when the faces are made of vertex indices; its faces are the faces of
    the argument, each one reversed, so that reflecting twice gives the
    faces back. *)
Theorem reflect_keeps_the_counts (p : polyhedron) :
  (forall f v, In f (faces p) -> In v f -> v <> None) ->
  exists q log,
    reflect p = Ret (q, log) /\
    map (@List.rev vid) (faces q) = faces p /\
    List.length (vertices q) = List.length (vertices p) /\
    List.length (faces q) = List.length (faces p) /\
    List.length (edges q) = List.length (edges p) /\
    euler q = euler p.
Proof.
  intro Hids. eexists. eexists. split; [reflexivity|].
  cbn [faces vertices].
  assert (Hfaces : map (@List.rev vid) (map (@List.rev vid) (faces p)) = faces p).
  { rewrite map_map. rewrite <- (map_id (faces p)) at 2.
    apply map_ext. intro f. apply rev_involutive. }
  assert (Hedges : List.length (edges (Polyhedron (map (mult (-1)%float) (vertices p))
                                         (map (@List.rev vid) (faces p))
                                         ("r" ++ name p) (face_classes p)))
                   = List.length (edges p)).
  { unfold edges. cbn [faces]. fold file_edge. unfold obj_values. rewrite !length_map.
    destruct (filed_keys (List.concat (map faceToEdges (map (@List.rev vid) (faces p)))))
      as [Hnd1 Hk1].
    destruct (filed_keys (List.concat (map faceToEdges (faces p)))) as [Hnd2 Hk2].
    rewrite <- !(length_map fst). fold (@obj_keys (vid * vid)).
    assert (Hnum : forall e, In e (List.concat (map faceToEdges (faces p))) ->
                             exists a b, e = (Some a, Some b)).
    { intros [a b] H. apply in_concat in H as (l & Hl & H).
      apply in_map_iff in Hl as (f & <- & Hf).
      apply faceToEdges_entries in H as [Ha Hb].
      pose proof (Hids f a Hf Ha). pose proof (Hids f b Hf Hb).
      destruct a as [x|], b as [y|]; try congruence. eauto. }
    apply Nat.le_antisymm; apply NoDup_incl_length; try assumption; intros k Hk.
    - apply Hk1 in Hk as (e & He & ->). apply directed_edges_rev in He.
      destruct (Hnum _ He) as (a & b & Hab). apply Hk2. exists (swap e). split; [exact He|].
      destruct e as [x y]. cbn [swap fst snd] in Hab. injection Hab as -> ->.
      symmetry. apply (swap_edge_key b a).
    - apply Hk2 in Hk as (e & He & ->).
      destruct (Hnum _ He) as (a & b & ->). apply Hk1. exists (swap (Some a, Some b)).
      split; [|symmetry; apply swap_edge_key].
      apply directed_edges_rev. exact He. }
  repeat split.
  - exact Hfaces.
  - apply length_map.
  - apply length_map.
  - exact Hedges.
  - unfold euler. rewrite Hedges. cbn [vertices faces]. now rewrite !length_map.
Qed.

Lemma reflect_keeps_the_counts_witness :
  exists q log,
    reflect cube = Ret (q, log) /\
    map (@List.rev vid) (faces q) = faces cube /\
    List.length (vertices q) = List.length (vertices cube) /\
    List.length (faces q) = List.length (faces cube) /\
    List.length (edges q) = List.length (edges cube) /\
    euler q = euler cube.
Proof.
  apply (reflect_keeps_the_counts cube).
  intros f v Hf Hv ->.
  assert (H : existsb (existsb (vid_eqb None)) (faces cube) = true).
  { apply existsb_exists. exists f. split; [exact Hf|].
    apply existsb_exists. exists None. now split. }
  vm_compute in H. discriminate.
Defined.

(** ** [getOps] *)

(** The character [c] occurs in [s]. *)
Fixpoint occurs (c : ascii) (s : string) : bool :=
  match s with
  | EmptyString => false
  | String c' s' => Ascii.eqb c' c || occurs c s'
  end.

Lemma occurs_app c s t : occurs c (s ++ t) = occurs c s || occurs c t.
Proof. induction s as [|a s IH]; cbn; [reflexivity | now rewrite IH, orb_assoc]. Qed.

(** A replacement brings in no character beyond those of [equiv]. *)
Lemma replace_word_chars pat rep c s :
  forall skip, occurs c (replace_word pat rep skip s) = true ->
               occurs c s = true \/ occurs c rep = true.
Proof.
  induction s as [|a s IH]; intros skip H; cbn [replace_word] in H; [discriminate|].
  cbn [occurs]. destruct skip as [|k].
  - destruct (starts_with pat (String a s)).
    + rewrite occurs_app in H. apply orb_true_iff in H as [H|H]; [now right|].
      destruct (IH _ H) as [H'|H']; [left; now rewrite H', orb_true_r | now right].
    + cbn [occurs] in H. apply orb_true_iff in H as [H|H]; [left; now rewrite H|].
      destruct (IH _ H) as [H'|H']; [left; now rewrite H', orb_true_r | now right].
  - destruct (IH _ H) as [H'|H']; [left; now rewrite H', orb_true_r | now right].
Qed.

(** A replacement of the single character [x] leaves no [x]. *)
Lemma replace_word_clears x rep s :
  occurs x rep = false -> occurs x (replace_word (String x "") rep 0 s) = false.
Proof.
  intro Hrep. induction s as [|a s IH]; [reflexivity|].
  cbn [replace_word starts_with String.length Nat.sub].
  destruct (Ascii.eqb x a) eqn:E; cbn [andb].
  - destruct s; now rewrite occurs_app, Hrep, IH.
  - cbn [occurs]. rewrite IH, orb_false_r.
    rewrite Ascii.eqb_sym. exact E.
Qed.

Lemma replace_t_chars c s :
  forall inside, occurs c (replace_t inside s) = true ->
                 occurs c s = true \/ c = "d"%char \/ c = "k"%char.
Proof.
  induction s as [|a s IH]; intros inside H; cbn [replace_t] in H.
  - destruct inside; [|discriminate]. cbn [occurs] in H. rewrite orb_false_r in H.
    apply Ascii.eqb_eq in H. auto.
  - cbn [occurs].
    assert (Hrec : forall b, occurs c (replace_t b s) = true ->
                             Ascii.eqb a c || occurs c s = true \/ c = "d"%char \/ c = "k"%char).
    { intros b Hb. destruct (IH _ Hb) as [H'|H']; [left; now rewrite H', orb_true_r | now right]. }
    destruct (inside && is_digit a).
    + cbn [occurs] in H. apply orb_true_iff in H as [H|H]; [left; now rewrite H | eauto].
    + rewrite occurs_app in H. apply orb_true_iff in H as [H|H].
      * destruct inside; [|discriminate]. cbn [occurs] in H. rewrite orb_false_r in H.
        apply Ascii.eqb_eq in H. auto.
      * destruct (Ascii.eqb a "t").
        -- cbn [append occurs] in H.
           apply orb_true_iff in H as [H|H]; [apply Ascii.eqb_eq in H; auto|].
           apply orb_true_iff in H as [H|H]; [apply Ascii.eqb_eq in H; auto|]. eauto.
        -- cbn [occurs] in H. apply orb_true_iff in H as [H|H]; [left; now rewrite H | eauto].
Qed.

Lemma replace_t_clears s : forall inside, occurs "t" (replace_t inside s) = false.
Proof.
  induction s as [|a s IH]; intro inside; cbn [replace_t].
  - now destruct inside.
  - destruct (inside && is_digit a) eqn:E.
    + cbn [occurs]. rewrite IH, orb_false_r.
      apply andb_prop in E as [_ E]. destruct (Ascii.eqb_spec a "t") as [->|]; [discriminate|reflexivity].
    + rewrite occurs_app. destruct (Ascii.eqb a "t") eqn:Et.
      * cbn [append occurs]. rewrite IH. now destruct inside.
      * cbn [occurs]. rewrite Et, IH. now destruct inside.
Qed.

(** What one entry of [specreplacements] can bring in, and what it
    removes for good. *)
Definition introduces (r : replacement) (c : ascii) : bool :=
  match r with
  | Word _ equiv => occurs c equiv
  | Truncation => Ascii.eqb c "d" || Ascii.eqb c "k"
  end.

Definition clears (r : replacement) (c : ascii) : bool :=
  match r with
  | Word orig equiv => String.eqb orig (String c "") && negb (occurs c equiv)
  | Truncation => Ascii.eqb c "t"
  end.

Fixpoint gone (rs : list replacement) (c : ascii) (present : bool) : bool :=
  match rs with
  | [] => negb present
  | r :: rs' => gone rs' c (if clears r c then false else present || introduces r c)
  end.

Lemma gone_sound c rs :
  forall s present,
    (occurs c s = true -> present = true) ->
    gone rs c present = true ->
    occurs c (fold_left (fun expanded r => replace r expanded) rs s) = false.
Proof.
  induction rs as [|r rs IH]; intros s present Hs Hgone; cbn [gone fold_left] in *.
  - destruct (occurs c s); [|reflexivity]. rewrite Hs in Hgone by reflexivity. discriminate.
  - eapply IH; [|exact Hgone]. intro H.
    destruct (clears r c) eqn:Hc.
    + exfalso. destruct r as [orig equiv|]; cbn [clears replace] in *.
      * apply andb_prop in Hc as [Ho He]. apply String.eqb_eq in Ho. subst orig.
        apply negb_true_iff in He. now rewrite replace_word_clears in H.
      * apply Ascii.eqb_eq in Hc. subst c. now rewrite replace_t_clears in H.
    + destruct r as [orig equiv|]; cbn [introduces replace] in *.
      * apply replace_word_chars in H as [H|H]; [rewrite (Hs H) | rewrite H, orb_true_r];
          reflexivity.
      * apply replace_t_chars in H as [H|[->| ->]]; [now rewrite (Hs H) | |];
          apply orb_true_r.
Qed.

(** The letters that abbreviate a chain of operators. *)
Definition abbreviations : list ascii := ["e"; "b"; "o"; "m"; "t"; "j"; "s"]%char.

(** X9. Whatever the notation, the recipe that [getOps] hands to the
    parser holds none of the letters [e], [b], [o], [m], [t], [j], [s]:
    every abbreviation is expanded, also those that an earlier expansion
    has brought in. *)
Theorem getOps_expands_every_abbreviation notation c :
  In c abbreviations -> occurs c (fst (getOps notation)) = false.
Proof.
  intro Hc. unfold getOps. cbn [fst].
  apply (gone_sound c specreplacements notation true); [reflexivity|].
  unfold abbreviations in Hc. cbn [In] in Hc.
  destruct Hc as [<-|[<-|[<-|[<-|[<-|[<-|[<-|[]]]]]]]]; vm_compute; reflexivity.
Qed.

Lemma getOps_expands_every_abbreviation_witness :
  occurs "t" (fst (getOps "t5bC")) = false.
Proof.
  apply (getOps_expands_every_abbreviation "t5bC" "t").
  unfold abbreviations. cbn [In]. auto 10.
Defined.

(** The word [pat] occurs in [s]. *)
Fixpoint contains (pat s : string) : bool :=
  starts_with pat s ||
  match s with
  | EmptyString => false
  | String _ s' => contains pat s'
  end.

Definition first_is (c : ascii) (s : string) : bool :=
  match s with
  | String a _ => Ascii.eqb a c
  | EmptyString => false
  end.

Lemma contains_dd_cons a s :
  contains "dd" (String a s)
  = (Ascii.eqb a "d" && first_is "d" s) || contains "dd" s.
Proof.
  cbn [contains starts_with]. f_equal.
  rewrite (Ascii.eqb_sym "d" a). f_equal.
  destruct s as [|b s]; cbn [first_is]; [reflexivity|].
  now rewrite andb_true_r, Ascii.eqb_sym.
Qed.

(** Induction over a string, two characters at a time. *)
Lemma string_pair_ind (P : string -> Prop) :
  P "" -> (forall a, P (String a "")) ->
  (forall a b s, P s -> P (String b s) -> P (String a (String b s))) ->
  forall s, P s.
Proof.
  intros H0 H1 H2 s.
  assert (H : P s /\ forall a, P (String a s)); [|apply H].
  induction s as [|b s [IH IH']]; split; auto.
Qed.

(** What [replace_word] does for a word of two characters. *)
Lemma replace_two a b rep c c' s :
  replace_word (String a (String b "")) rep 0 (String c (String c' s))
  = if Ascii.eqb a c && Ascii.eqb b c'
    then (rep ++ replace_word (String a (String b "")) rep 0 s)%string
    else String c (replace_word (String a (String b "")) rep 0 (String c' s)).
Proof.
  cbn [replace_word starts_with String.length Nat.sub].
  now rewrite andb_true_r.
Qed.

Lemma replace_two_single a b rep c :
  replace_word (String a (String b "")) rep 0 (String c "") = String c "".
Proof. cbn [replace_word starts_with]. now rewrite andb_false_r. Qed.

(** Once every [dd] is taken out, none is left. *)
Lemma no_dd_after_removal s :
  contains "dd" (replace_word "dd" "" 0 s) = false /\
  (first_is "d" (replace_word "dd" "" 0 s) = true -> first_is "d" s = true).
Proof.
  induction s as [| a | a b s [IHs Hs] [IHb Hb]] using string_pair_ind.
  - split; [reflexivity | discriminate].
  - rewrite replace_two_single. split; [|auto].
    rewrite contains_dd_cons. cbn. now rewrite andb_false_r.
  - rewrite replace_two. cbn [first_is].
    destruct (Ascii.eqb_spec "d" a) as [<-|Ha]; cbn [andb].
    + destruct (Ascii.eqb_spec "d" b) as [<-|Hb'].
      * cbn [append]. split; [exact IHs | reflexivity].
      * split; [|reflexivity]. rewrite contains_dd_cons, IHb, orb_false_r.
        destruct (first_is "d" (replace_word "dd" "" 0 (String b s))) eqn:E;
          [|apply andb_false_r].
        specialize (Hb eq_refl). cbn [first_is] in Hb. apply Ascii.eqb_eq in Hb. congruence.
    + split.
      * rewrite contains_dd_cons, IHb, orb_false_r.
        destruct (Ascii.eqb_spec a "d"); [congruence | reflexivity].
      * cbn [first_is]. auto.
Qed.

(** The later entries put [a] or [g] where they take two characters
    out, and no [d]. *)
Lemma no_dd_kept a b rest s :
  a <> "d"%char -> contains "dd" (String a rest) = false ->
  (forall t, contains "dd" t = false -> contains "dd" (String a rest ++ t) = false) ->
  contains "dd" s = false ->
  contains "dd" (replace_word (String a (String b "")) (String a rest) 0 s) = false /\
  first_is "d" (replace_word (String a (String b "")) (String a rest) 0 s) = first_is "d" s.
Proof.
  intros Ha Hrest Happ.
  induction s as [| c | c c' s IHs IHc] using string_pair_ind; intro Hs.
  - split; reflexivity.
  - rewrite replace_two_single. split; [exact Hs | reflexivity].
  - rewrite replace_two.
    rewrite contains_dd_cons in Hs. apply orb_false_iff in Hs as [Hhead Hs].
    destruct (IHc Hs) as [IHc1 IHc2].
    destruct (Ascii.eqb_spec a c) as [<-|Hac]; cbn [andb].
    + destruct (Ascii.eqb b c') eqn:Hb.
      * rewrite contains_dd_cons in Hs. apply orb_false_iff in Hs as [_ Hs].
        destruct (IHs Hs) as [IHs1 _]. split; [now apply Happ|].
        cbn [append first_is]. reflexivity.
      * split; [|reflexivity].
        rewrite contains_dd_cons, IHc1, orb_false_r.
        destruct (Ascii.eqb_spec a "d"); [congruence | reflexivity].
    + split; [|reflexivity].
      rewrite contains_dd_cons, IHc1, orb_false_r, IHc2. exact Hhead.
Qed.

(** X10. Whatever the notation, the recipe that [getOps] returns never
    holds [dd]: two duals in a row are always cancelled, also when an
    expansion ([t], [j], [s]) has put them side by side. *)
Theorem getOps_cancels_double_duals notation :
  contains "dd" (fst (getOps notation)) = false.
Proof.
  unfold getOps, specreplacements. cbn [fst fold_left replace].
  set (x := replace_word "s" "dgd" 0 _).
  pose proof (proj1 (no_dd_after_removal x)) as H.
  assert (Hstep : forall a b rest s,
             a <> "d"%char -> contains "dd" (String a rest) = false ->
             (forall t, contains "dd" t = false ->
                        contains "dd" (String a rest ++ t) = false) ->
             contains "dd" s = false ->
             contains "dd" (replace_word (String a (String b "")) (String a rest) 0 s)
             = false).
  { intros a b rest s Ha Hr Happ Hs. now apply no_dd_kept. }
  assert (Hone : forall a t, a <> "d"%char -> contains "dd" t = false ->
                             contains "dd" (String a "" ++ t) = false).
  { intros a t Ha Ht. cbn [append]. rewrite contains_dd_cons, Ht, orb_false_r.
    destruct (Ascii.eqb_spec a "d"); [congruence | reflexivity]. }
  assert (Htwo : forall a c t, a <> "d"%char -> c <> "d"%char -> contains "dd" t = false ->
                               contains "dd" (String a (String c "") ++ t) = false).
  { intros a c t Ha Hc Ht. pose proof (Hone c t Hc Ht) as H1.
    cbn [append] in *. rewrite contains_dd_cons, H1, orb_false_r.
    destruct (Ascii.eqb_spec a "d"); [congruence | reflexivity]. }
  repeat (apply Hstep;
          [discriminate | reflexivity
           | intros t Ht; (apply Hone || apply Htwo); (discriminate || exact Ht) |]).
  exact H.
Qed.

(** ** The relaxation passes of [canonicalize] *)

Lemma foldM_preserves {A S} (P : S -> Prop) (body : S -> A -> res S) l :
  (forall s a s', P s -> body s a = Ret s' -> P s') ->
  forall s s', P s -> foldM body l s = Ret s' -> P s'.
Proof.
  intro Hbody. induction l as [|a l IH]; intros s s' Hs H; cbn [foldM] in H.
  - now injection H as <-.
  - destruct (body s a) as [s1|e] eqn:E; [|discriminate]. cbn [bind] in H.
    exact (IH s1 s' (Hbody s a s1 Hs E) H).
Qed.

Lemma list_set_length {A} (l : list A) i x : List.length (list_set l i x) = List.length l.
Proof.
  revert i. induction l as [|y l IH]; intro i; [reflexivity|].
  destruct i; cbn [list_set List.length]; [reflexivity | now rewrite IH].
Qed.

Lemma bump_length newVs v c newVs' :
  bump newVs v c = Ret newVs' -> List.length newVs' = List.length newVs.
Proof.
  unfold bump. destruct v as [n|]; [|discriminate].
  destruct (nth_error newVs (N.to_nat n)); [|discriminate]. cbn [defined bind].
  intros [= <-]. apply list_set_length.
Qed.

Lemma tangentify_length vs es vs' :
  tangentify vs es = Ret vs' -> List.length vs' = List.length vs.
Proof.
  unfold tangentify.
  apply (foldM_preserves (fun l : list vec => List.length l = List.length vs)); [|reflexivity].
  intros s e s' Hs H.
  destruct (at_vid s (fst e)); [|discriminate].
  destruct (at_vid s (snd e)); [|discriminate]. cbn [defined bind] in H.
  match type of H with
  | bind (bump s ?v ?c) _ = _ => destruct (bump s v c) as [s1|] eqn:E1; [|discriminate]
  end.
  cbn [bind] in H. apply bump_length in H. apply bump_length in E1. congruence.
Qed.

Lemma recenter_length vs es vs' :
  recenter vs es = Ret vs' -> List.length vs' = List.length vs.
Proof.
  unfold recenter. destruct (mapM _ es); [|discriminate]. cbn [bind].
  intros [= <-]. apply length_map.
Qed.

Lemma planarize_length vs fs vs' :
  planarize vs fs = Ret vs' -> List.length vs' = List.length vs.
Proof.
  unfold planarize.
  apply (foldM_preserves (fun l : list vec => List.length l = List.length vs)); [|reflexivity].
  intros s f s' Hs H.
  destruct (normal (map (at_vid vs) f)); [|discriminate]. cbn [bind] in H.
  destruct (mapM _ f); [|discriminate]. cbn [bind] in H.
  revert H. apply (foldM_preserves (fun l : list vec => List.length l = List.length vs));
    [|exact Hs].
  intros t v t' Ht H. destruct (at_vid vs v); [|discriminate]. cbn [defined bind] in H.
  apply bump_length in H. congruence.
Qed.

Lemma relax_length fs es vs vs' m :
  relax fs es vs = Ret (vs', m) -> List.length vs' = List.length vs.
Proof.
  unfold relax.
  destruct (tangentify vs es) as [v1|] eqn:E1; [|discriminate]. cbn [bind].
  destruct (recenter v1 es) as [v2|] eqn:E2; [|discriminate]. cbn [bind].
  destruct (planarize v2 fs) as [v3|] eqn:E3; [|discriminate]. cbn [bind].
  intro H. apply ret_pair_inv in H as [<- _].
  apply tangentify_length in E1. apply recenter_length in E2.
  apply planarize_length in E3. congruence.
Qed.

Lemma relax_loop_length fs es todo :
  forall vs m vs' m',
    relax_loop fs es todo vs m = Ret (vs', m') -> List.length vs' = List.length vs.
Proof.
  induction todo as [|todo IH]; intros vs m vs' m' H; cbn [relax_loop] in H.
  - apply ret_pair_inv in H as [<- _]. reflexivity.
  - destruct (relax fs es vs) as [[v1 m1]|] eqn:E; [|discriminate]. cbn [bind] in H.
    apply relax_length in E.
    destruct (PrimFloat.ltb m1 1e-8).
    + apply ret_pair_inv in H as [<- _]. exact E.
    + apply IH in H. congruence.
Qed.

(** X11. When [canonicalize] returns, the polyhedron it returns has as
    many vertices as its argument: no pass of [tangentify], [recenter]
    or [planarize] adds or drops a vertex. *)
Theorem canonicalize_keeps_the_vertex_count p Niter q log :
  canonicalize p Niter = Ret (q, log) ->
  List.length (vertices q) = List.length (vertices p).
Proof.
  unfold canonicalize.
  destruct (relax_loop _ _ _ _ _) as [[vs m]|] eqn:E; [|discriminate]. cbn [bind].
  intro H. apply relax_loop_length in E.
  apply (f_equal (fun r => match r with
                           | Ret (q, _) => List.length (vertices q)
                           | Throw _ => 0%nat
                           end)) in H.
  cbn [new_polyhedron vertices] in H. congruence.
Qed.

Lemma canonicalize_keeps_the_vertex_count_witness :
  exists q log,
    canonicalize cube (Some 1%Z) = Ret (q, log) /\
    List.length (vertices q) = List.length (vertices cube).
Proof.
  destruct (canonicalize cube (Some 1%Z)) as [[q log]|err] eqn:E.
  - exists q, log. split; [reflexivity|].
    exact (canonicalize_keeps_the_vertex_count cube (Some 1%Z) q log E).
  - vm_compute in E. discriminate.
Defined.

(** ** Triangulation *)

Lemma mul_nan x : (x * nan)%float = nan.
Proof.
  apply Prim2SF_inj. rewrite mul_spec.
  change (Prim2SF nan) with S754_nan.
  destruct (Prim2SF x); reflexivity.
Qed.

Lemma add_nan_r x : (x + nan)%float = nan.
Proof.
  apply Prim2SF_inj. rewrite add_spec.
  change (Prim2SF nan) with S754_nan.
  destruct (Prim2SF x); reflexivity.
Qed.

Lemma dot_number_nan n v : dot_number n v = nan.
Proof. unfold dot_number. now rewrite !mul_nan, !add_nan_r. Qed.

(** The "projection" of a face: one point [(NaN, NaN)] per vertex. *)
Lemma project2dface_nan verts :
  project2dface verts
  = (n <- normal verts ;;
     coords <- mapM defined verts ;;
     Ret (repeat (nan, nan) (List.length verts))).
Proof.
  assert (Hmap : forall (g : option vec -> float) n p (l : list (option vec)),
             map (fun v => (dot_number n v, dot_number p v)) (map g l)
             = repeat (nan, nan) (List.length l)).
  { intros g n p l. induction l as [|v l IH]; [reflexivity|].
    cbn [map List.length repeat]. now rewrite !dot_number_nan, IH. }
  unfold project2dface.
  destruct (normal verts) as [n|]; [|reflexivity]. cbn [bind].
  destruct (mapM defined verts) as [coords|]; [|reflexivity]. cbn [bind].
  f_equal. apply Hmap.
Qed.

Lemma mapM_defined_map {A} (vs : list A) (f : list vid) :
  (forall v, In v f -> exists n, v = Some n /\ n < len vs) ->
  exists coords, mapM defined (map (at_vid vs) f) = Ret coords.
Proof.
  intro Hf.
  destruct (mapM_defined defined (map (at_vid vs) f)) as (cs & -> & _); [|eauto].
  intros x Hx. apply in_map_iff in Hx as (v & <- & Hv).
  destruct (at_vid_in_range vs v (Hf v Hv)) as (p & ->). now exists p.
Qed.

Lemma project2dface_of_face (vs : list vec) (f : list vid) :
  (2 <= List.length f)%nat ->
  (forall v, In v f -> exists n, v = Some n /\ n < len vs) ->
  project2dface (map (at_vid vs) f) = Ret (repeat (nan, nan) (List.length f)).
Proof.
  intros Hlen Hf. rewrite project2dface_nan.
  destruct (normal_defined (map (at_vid vs) f)) as (nv & ->).
  - now rewrite length_map.
  - intros x Hx. apply in_map_iff in Hx as (v & <- & Hv).
    now apply at_vid_in_range, Hf.
  - destruct (mapM_defined_map vs f Hf) as (coords & ->).
    cbn [bind]. now rewrite length_map.
Qed.

Lemma triangulate_face_same p p' (f : list vid) :
  (forall v, In v f -> exists n, v = Some n /\ n < len (vertices p)) ->
  (forall v, In v f -> exists n, v = Some n /\ n < len (vertices p')) ->
  triangulate_face p f = triangulate_face p' f.
Proof.
  intros Hp Hp'. unfold triangulate_face.
  destruct (N.ltb_spec 3 (len f)) as [Hlen|]; [|reflexivity].
  assert (2 <= List.length f)%nat by (unfold len in Hlen; lia).
  now rewrite !project2dface_of_face.
Qed.

Lemma foldM_ext_in {A S} (g h : S -> A -> res S) l :
  (forall s a, In a l -> g s a = h s a) -> forall s, foldM g l s = foldM h l s.
Proof.
  induction l as [|a l IH]; intros Hgh s; [reflexivity|].
  cbn [foldM]. rewrite (Hgh s a (or_introl eq_refl)).
  destruct (h s a); [|reflexivity]. cbn [bind].
  apply IH. intros; apply Hgh; now right.
Qed.

(** What [triangulate] returns, its vertices and its name apart. *)
Definition cut_of (r : res (polyhedron * list logmsg))
  : res (list (list vid) * option (list (option N))) :=
  match r with
  | Ret (q, _) => Ret (faces q, face_classes q)
  | Throw e => Throw e
  end.

(** X12. [triangulate] never looks at where the vertices are: two
    polyhedra with the same faces and face classes, each with all the
    vertices its faces name, are cut into the same triangles (or fail
    alike), wherever their vertices lie.  [project2dface] subtracts
    arrays, which gives [NaN], so that every face is "projected" onto the
    points [(NaN, NaN)]. *)
Theorem triangulate_ignores_the_geometry p p' colors :
  faces p = faces p' -> face_classes p = face_classes p' ->
  ids_in_range p -> ids_in_range p' ->
  cut_of (triangulate p colors) = cut_of (triangulate p' colors).
Proof.
  intros Hf Hc Hp Hp'. unfold triangulate. rewrite <- Hf, <- Hc.
  match goal with
  | |- cut_of (bind (foldM ?g ?l ?s) _) = cut_of (bind (foldM ?h ?l ?s) _) =>
      rewrite (foldM_ext_in g h l)
  end.
  - destruct (foldM _ _ _) as [r|]; reflexivity.
  - intros [newfaces classes] [i f] Hin.
    assert (Hin' : In f (faces p)).
    { apply in_combine_r in Hin. exact Hin. }
    rewrite (triangulate_face_same p p' f); [reflexivity | |].
    + intros v Hv. exact (Hp f v Hin' Hv).
    + intros v Hv. rewrite Hf in Hin'. exact (Hp' f v Hin' Hv).
Qed.

Lemma ids_in_range_b_sound p : ids_in_range_b p = true -> ids_in_range p.
Proof.
  unfold ids_in_range_b. intros H f v Hf Hv.
  rewrite forallb_forall in H. specialize (H f Hf).
  rewrite forallb_forall in H. specialize (H v Hv).
  destruct v as [n|]; [|discriminate]. exists n. split; [reflexivity | now apply N.ltb_lt].
Qed.

(** The cube, with all its corners moved to the origin. *)
Definition collapsed_cube : polyhedron :=
  Polyhedron (map (fun _ => zero3) (vertices cube)) (faces cube) "C" None.

Lemma triangulate_ignores_the_geometry_witness :
  cut_of (triangulate cube false) = cut_of (triangulate collapsed_cube false).
Proof.
  apply (triangulate_ignores_the_geometry cube collapsed_cube false);
    try reflexivity; apply ids_in_range_b_sound; vm_compute; reflexivity.
Defined.

Lemma triangulate_small_faces p :
  forall (rows : list (N * list vid)) newfaces classes,
    (forall row, In row rows -> len (snd row) <= 3) ->
    foldM (fun (st : list (list vid) * list (option N)) '(i, f) =>
             let '(newfaces, classes) := st in
             tris <- triangulate_face p f ;;
             classes <- Ret classes ;;
             Ret (newfaces ++ tris, classes))
          rows (newfaces, classes)
    = Ret (newfaces ++ map (fun row => [entry (snd row) 0; entry (snd row) 1; entry (snd row) 2])
                           rows,
           classes).
Proof.
  induction rows as [|[i f] rows IH]; intros newfaces classes Hrows.
  - cbn [foldM map]. now rewrite app_nil_r.
  - cbn [foldM]. unfold triangulate_face at 1.
    assert (Hf : (3 <? len f) = false).
    { apply N.ltb_ge. apply (Hrows (i, f)). now left. }
    rewrite Hf. cbn [bind]. rewrite IH by (intros; apply Hrows; now right).
    cbn [map snd]. now rewrite <- app_assoc.
Qed.

(** X13. On a polyhedron with no face of more than three entries,
    [triangulate] (without colors) keeps the vertices and the name and
    returns every face as the triple of its first three entries: a
    triangle as it is, a shorter face filled up with [undefined]. *)
Theorem triangulate_passes_triangles p :
  (forall f, In f (faces p) -> len f <= 3) ->
  triangulate p false
  = Ret (Polyhedron (vertices p)
                    (map (fun f => [entry f 0; entry f 1; entry f 2]) (faces p))
                    (name p) (Some []),
         [Log ("Triangulating faces of " ++ name p ++ "...")])
  /\ (forall f : list vid, len f = 3 -> [entry f 0; entry f 1; entry f 2] = f).
Proof.
  intro Hfs. split.
  - unfold triangulate.
    rewrite (triangulate_small_faces p (indexed (faces p)) [] []).
    + cbn [bind fst snd app]. do 3 f_equal.
      rewrite <- (map_map snd (fun f => [entry f 0; entry f 1; entry f 2])).
      now rewrite indexed_numbered, numbered_from_snd.
    + intros [i f] Hin. apply Hfs. apply in_combine_r in Hin. exact Hin.
  - intros f Hlen. unfold len in Hlen.
    destruct f as [|a [|b [|c [|d f]]]]; cbn [List.length] in Hlen; try lia.
    reflexivity.
Qed.

Lemma triangulate_passes_triangles_witness :
  triangulate tetrahedron false
  = Ret (Polyhedron (vertices tetrahedron)
                    (map (fun f => [entry f 0; entry f 1; entry f 2]) (faces tetrahedron))
                    (name tetrahedron) (Some []),
         [Log ("Triangulating faces of " ++ name tetrahedron ++ "...")]).
Proof.
  apply (triangulate_passes_triangles tetrahedron).
  intros f Hf.
  assert (H : forallb (fun f : list vid => len f <=? 3) (faces tetrahedron) = true)
    by (vm_compute; reflexivity).
  rewrite forallb_forall in H. now apply N.leb_le, H.
Defined.

(** ** The vertices of the dual *)

Lemma newV_appended fl K k xyz :
  to_key K = k -> ~ In k (obj_keys (verts fl)) ->
  (forall k', In k' (obj_keys (verts fl)) -> key_before k k' = false) ->
  newV K xyz fl = Polyflag (flags fl) (verts fl ++ [(k, (0, xyz))]).
Proof.
  intros <- Hk Hb. unfold newV. rewrite (obj_get_absent _ _ Hk).
  now rewrite obj_set_append.
Qed.

(** The vertices [`${i}`] that [dual] declares, one per face center. *)
Definition center_names (rows : list (N * vec)) : obj (N * vec) :=
  map (fun row : N * vec => (show (fst row), (0, snd row))) rows.

Lemma dual_vertices_from cs :
  forall start fl,
    (forall k, In k (obj_keys (verts fl)) -> exists j, j < N.of_nat start /\ k = show j) ->
    fold_left (fun fl '(i, c) => newV (JStr (show i)) c fl) (numbered_from start cs) fl
    = Polyflag (flags fl) (verts fl ++ center_names (numbered_from start cs)).
Proof.
  induction cs as [|c cs IH]; intros start fl Hkeys.
  - cbn. rewrite app_nil_r. now destruct fl.
  - rewrite numbered_from_cons. cbn [fold_left].
    rewrite (newV_appended fl (JStr (show (N.of_nat start))) (show (N.of_nat start)) c eq_refl).
    + rewrite IH.
      * cbn [flags verts center_names map fst snd]. now rewrite <- app_assoc.
      * cbn [verts]. intros k Hk. unfold obj_keys in Hk. rewrite map_app in Hk.
        apply in_app_or in Hk as [Hk|[<-|[]]].
        -- destruct (Hkeys k Hk) as (j & Hj & ->). exists j. split; [lia|reflexivity].
        -- exists (N.of_nat start). split; [lia|reflexivity].
    + intro Hin. destruct (Hkeys _ Hin) as (j & Hj & E). apply show_inj in E. lia.
    + intros k' Hk'. destruct (Hkeys _ Hk') as (j & Hj & ->). now apply key_before_show.
Qed.

Lemma newFlag_verts f a b fl : verts (newFlag f a b fl) = verts fl.
Proof. reflexivity. Qed.

Lemma dual_flags_verts poly face fl fl' :
  dual_flags poly face fl = Ret fl' -> verts fl' = verts fl.
Proof.
  unfold dual_flags.
  apply (foldM_preserves (fun s : polyflag => verts s = verts fl)); [|reflexivity].
  intros s [i f] s' Hs H.
  destruct (foldM _ f (s, last f None)) as [[s1 v]|] eqn:E; [|discriminate].
  cbn [bind fst] in H. injection H as <-.
  change (verts (fst (s1, v)) = verts fl).
  revert E.
  apply foldM_preserves with (P := fun st : polyflag * vid => verts (fst st) = verts fl);
    [|exact Hs].
  intros [t v1] v2 [t' v'] Ht H.
  destruct (at_vid face v2); [|discriminate]. cbn [defined bind] in H.
  injection H as <- _. exact Ht.
Qed.

Lemma topoly_vertices fl :
  vertices (fst (topoly fl)) = map (fun e => snd (snd e)) (verts fl).
Proof.
  unfold topoly.
  destruct (fold_left _ (flags fl) _) as [[fs v] log]. cbn [fst vertices].
  unfold number_vertices. rewrite map_map, indexed_numbered.
  generalize 0%nat. induction (verts fl) as [|[k [c xyz]] o IH]; intro start; [reflexivity|].
  rewrite numbered_from_cons. cbn [map snd]. now rewrite IH.
Qed.

Lemma mapM_length {A B} (g : A -> res B) l bs :
  mapM g l = Ret bs -> List.length bs = List.length l.
Proof.
  revert bs. induction l as [|a l IH]; intros bs H; cbn [mapM] in H.
  - now injection H as <-.
  - destruct (g a); [|discriminate]. cbn [bind] in H.
    destruct (mapM g l) as [bs'|]; [|discriminate]. cbn [bind] in H.
    injection H as <-. cbn [List.length]. now rewrite (IH bs' eq_refl).
Qed.

(** X14. When [dual] returns, the vertices of the polyhedron it returns
    are the centers of the faces of its argument, in the order of the
    faces: every face has become a vertex. *)
Theorem dual_vertices_are_face_centers poly dpoly log :
  dual poly = Ret (dpoly, log) ->
  centers poly = Ret (vertices dpoly) /\
  List.length (vertices dpoly) = List.length (faces poly).
Proof.
  unfold dual. intro H.
  destruct (dual_table poly) as [face|]; [|discriminate]. cbn [bind] in H.
  destruct (centers poly) as [cs|] eqn:Hcs; [|discriminate]. cbn [bind] in H.
  rewrite indexed_numbered in H.
  rewrite (dual_vertices_from cs 0 new_polyflag) in H by (intros k []).
  cbn [flags verts new_polyflag app] in H.
  destruct (dual_flags poly face _) as [fl|] eqn:Hfl; [|discriminate]. cbn [bind] in H.
  apply dual_flags_verts in Hfl. cbn [verts] in Hfl.
  pose proof (topoly_vertices fl) as Hv.
  destruct (topoly fl) as [dp l]. cbn [fst] in Hv.
  destruct (foldM _ (faces dp) []) as [sortF|]; [|discriminate]. cbn [bind] in H.
  destruct (dense sortF) as [fs|]; [|discriminate]. cbn [bind] in H.
  apply ret_pair_inv in H as [-> _]. cbn [vertices].
  assert (Hcenters : vertices dp = cs).
  { rewrite Hv, Hfl. unfold center_names. rewrite map_map. cbn [snd].
    apply numbered_from_snd. }
  rewrite Hcenters. split; [reflexivity|].
  unfold centers in Hcs. now apply mapM_length in Hcs.
Qed.

Lemma dual_vertices_are_face_centers_witness :
  exists dpoly log,
    dual cube = Ret (dpoly, log) /\
    centers cube = Ret (vertices dpoly) /\
    List.length (vertices dpoly) = List.length (faces cube).
Proof.
  destruct (dual cube) as [[dpoly log]|err] eqn:E.
  - exists dpoly, log. split; [reflexivity|].
    exact (dual_vertices_are_face_centers cube dpoly log E).
  - vm_compute in E. discriminate.
Defined.

(** ** The vertices of [kisN] *)

Lemma obj_get_none_absent {V} (o : obj V) k : obj_get o k = None -> ~ In k (obj_keys o).
Proof.
  unfold obj_keys. induction o as [|[k' v'] o IH]; cbn [obj_get map fst In]; [tauto|].
  destruct (String.eqb_spec k k') as [->|Hk]; [discriminate|].
  intros H [E|Hin]; [congruence | now apply IH].
Qed.

(** A vertex with a name that is no array index is added at the end, or
    not at all. *)
Lemma newV_plain fl K xyz :
  array_index (to_key K) = None ->
  verts (newV K xyz fl)
  = match obj_get (verts fl) (to_key K) with
    | Some _ => verts fl
    | None => verts fl ++ [(to_key K, (0, xyz))]
    end.
Proof.
  intro Hidx. unfold newV.
  destruct (obj_get (verts fl) (to_key K)) eqn:E; [reflexivity|].
  cbn [verts]. apply obj_set_append; [now apply obj_get_none_absent|].
  intros k' _. now apply key_before_plain.
Qed.

Lemma fold_left_invariant {A S} (P : S -> Prop) (F : S -> A -> S) l :
  (forall s a, P s -> P (F s a)) -> forall s, P s -> P (fold_left F l s).
Proof.
  intro HF. induction l as [|a l IH]; intros s Hs; [exact Hs|].
  cbn [fold_left]. apply IH, HF, Hs.
Qed.

Definition apex_name (i : N) : string := ("apex" ++ show i)%string.

Lemma apex_not_index i : array_index (apex_name i) = None.
Proof.
  unfold array_index, apex_name. cbn [append NilEmpty.uint_of_string].
  destruct (NilEmpty.uint_of_string (show i)) as [d|]; [|reflexivity].
  cbn. destruct (uint_of_char "x" (Some d)); reflexivity.
Qed.

(** The faces that [kisN] raises: those with [n] sides, all of them for
    [n = 0]; a face without any vertex gets no apex. *)
Definition raised (n : N) (f : list vid) : bool :=
  (N.eqb (len f) n || N.eqb n 0) && negb (N.eqb (len f) 0).

(** One face of [kisN], as to the vertices. *)
Lemma kisN_face_verts n apexdist fl b i (f : list vid) normal_i center_i :
  obj_get (verts fl) (apex_name i) = None ->
  verts (fst (kisN_face n apexdist (fl, b) (i, (f, (normal_i, center_i)))))
  = if raised n f
    then verts fl ++ [(apex_name i, (0, add center_i (mult apexdist normal_i)))]
    else verts fl.
Proof.
  intro Hnew. unfold kisN_face, raised. cbn [fst snd].
  set (F := fun (st : polyflag * bool * string) (v : vid) => _).
  set (apex := (apex_name i, (0, add center_i (mult apexdist normal_i)))).
  destruct (N.eqb (len f) n || N.eqb n 0) eqn:Hit; cbn [andb].
  - assert (Hkeep : forall s v, verts (fst (fst s)) = verts fl ++ [apex] ->
                                verts (fst (fst (F s v))) = verts fl ++ [apex]).
    { intros [[fl0 b0] v1] v H0. unfold F. cbn [fst newFlag verts].
      rewrite newV_plain by apply apex_not_index. cbn [to_key].
      fold (apex_name i). cbn [fst] in H0. rewrite H0. unfold apex.
      rewrite obj_get_last by (now apply obj_get_none_absent). reflexivity. }
    destruct f as [|v f]; [reflexivity|].
    replace (N.eqb (len (v :: f)) 0) with false
      by (symmetry; apply N.eqb_neq; unfold len; cbn [List.length]; lia).
    cbn [negb fold_left].
    pose proof (fold_left_invariant
                  (fun s => verts (fst (fst s)) = verts fl ++ [apex]) F f Hkeep
                  (F (fl, b, ("v" ++ show_vid (last (v :: f) None))%string) v)) as H.
    destruct (fold_left F f _) as [[fl1 b1] w]. cbn [fst] in *. apply H.
    unfold F. cbn [fst newFlag verts].
    rewrite newV_plain by apply apex_not_index. cbn [to_key].
    fold (apex_name i). now rewrite Hnew.
  - assert (Hkeep : forall s v, verts (fst (fst s)) = verts fl ->
                                verts (fst (fst (F s v))) = verts fl).
    { intros [[fl0 b0] v1] v H0. unfold F. exact H0. }
    pose proof (fold_left_invariant
                  (fun s => verts (fst (fst s)) = verts fl) F f Hkeep
                  (fl, b, ("v" ++ show_vid (last f None))%string) eq_refl) as H.
    destruct (fold_left F f _) as [[fl1 b1] w]. exact H.
Qed.

(** The apexes of the raised faces, by name and by place. *)
Definition apex_of (apexdist : float) (row : N * (list vid * (vec * vec))) : vec :=
  add (snd (snd (snd row))) (mult apexdist (fst (snd (snd row)))).

Definition apex_rows (n : N) (apexdist : float) (rows : list (N * (list vid * (vec * vec))))
  : obj (N * vec) :=
  map (fun row => (apex_name (fst row), (0, apex_of apexdist row)))
      (filter (fun row => raised n (fst (snd row))) rows).

Lemma apex_name_inj i j : apex_name i = apex_name j -> i = j.
Proof. unfold apex_name. cbn [append]. intros [= H]. now apply show_inj. Qed.

Lemma apex_not_vname i x : apex_name i <> vname x.
Proof. unfold apex_name, vname. cbn [append]. discriminate. Qed.

Lemma kisN_rows_verts n apexdist (l : list (list vid * (vec * vec))) :
  forall start fl b,
    (forall k, In k (obj_keys (verts fl)) ->
               (exists x, k = vname x) \/ (exists j, j < N.of_nat start /\ k = apex_name j)) ->
    verts (fst (fold_left (kisN_face n apexdist) (numbered_from start l) (fl, b)))
    = verts fl ++ apex_rows n apexdist (numbered_from start l).
Proof.
  induction l as [|[f [ni ci]] l IH]; intros start fl b Hkeys.
  - cbn. now rewrite app_nil_r.
  - rewrite numbered_from_cons. cbn [fold_left].
    assert (Hnew : obj_get (verts fl) (apex_name (N.of_nat start)) = None).
    { apply obj_get_absent. intro Hin.
      destruct (Hkeys _ Hin) as [(x & E)|(j & Hj & E)].
      - now apply apex_not_vname in E.
      - apply apex_name_inj in E. lia. }
    pose proof (kisN_face_verts n apexdist fl b (N.of_nat start) f ni ci Hnew) as Hface.
    destruct (kisN_face n apexdist (fl, b) (N.of_nat start, (f, (ni, ci)))) as [fl1 b1].
    cbn [fst] in Hface. rewrite IH.
    + unfold apex_rows. cbn [filter fst snd]. rewrite Hface.
      destruct (raised n f); cbn [map]; [|reflexivity].
      now rewrite <- app_assoc.
    + intros k Hk. rewrite Hface in Hk.
      assert (Hold : In k (obj_keys (verts fl)) ->
                     (exists x, k = vname x) \/
                     (exists j, j < N.of_nat (S start) /\ k = apex_name j)).
      { intro H. destruct (Hkeys k H) as [?|(j & Hj & ->)]; [now left|].
        right. exists j. split; [lia | reflexivity]. }
      destruct (raised n f); [|now apply Hold].
      unfold obj_keys in Hk. rewrite map_app in Hk.
      apply in_app_or in Hk as [Hk|[<-|[]]]; [now apply Hold|].
      right. exists (N.of_nat start). split; [lia | reflexivity].
Qed.

(** X15. [kisN] keeps the vertices of its argument, in their order and
    at their coordinates, and adds behind them one apex for every face it
    raises, in the order of the faces: the face center moved by
    [apexdist] along the face normal.  The faces it raises are those of
    [n] sides (all of them when [n] is 0 or absent) that have a vertex. *)
Theorem kisN_adds_one_apex_per_face poly n apexdist ns cs :
  normals poly = Ret ns -> centers poly = Ret cs ->
  exists newpoly log,
    kisN poly n apexdist = Ret (newpoly, log) /\
    vertices newpoly
    = vertices poly
      ++ map (apex_of (default_arg apexdist 0.1%float))
             (filter (fun row => raised (default_n n) (fst (snd row)))
                     (indexed (combine (faces poly) (combine ns cs)))).
Proof.
  intros Hns Hcs. unfold kisN. rewrite Hns, Hcs. cbn [bind].
  rewrite old_vertices_plain, indexed_numbered.
  pose proof (kisN_rows_verts (default_n n) (default_arg apexdist 0.1%float)
                (combine (faces poly) (combine ns cs)) 0
                (Polyflag [] (old_names (indexed (vertices poly)))) false) as Hverts.
  destruct (fold_left _ _ _) as [fl found].
  cbn [fst verts] in Hverts.
  unfold assemble.
  pose proof (topoly_vertices fl) as Hv.
  destruct (topoly fl) as [q l]. cbn [fst] in Hv.
  eexists. eexists. split; [reflexivity|].
  unfold set_name. cbn [vertices]. rewrite Hv, Hverts.
  - rewrite map_app. f_equal.
    + unfold old_names. rewrite map_map. cbn [snd].
      rewrite indexed_numbered. apply numbered_from_snd.
    + unfold apex_rows. rewrite map_map. reflexivity.
  - intros k Hk. left. unfold obj_keys, old_names in Hk. rewrite map_map in Hk.
    apply in_map_iff in Hk as (row & <- & _). cbn [fst]. eauto.
Qed.

Lemma kisN_adds_one_apex_per_face_witness :
  exists ns cs newpoly log,
    normals cube = Ret ns /\ centers cube = Ret cs /\
    kisN cube (Some 4) None = Ret (newpoly, log) /\
    vertices newpoly
    = vertices cube
      ++ map (apex_of 0.1%float)
             (filter (fun row => raised 4 (fst (snd row)))
                     (indexed (combine (faces cube) (combine ns cs)))).
Proof.
  destruct (normals cube) as [ns|] eqn:Hns; [|vm_compute in Hns; discriminate].
  destruct (centers cube) as [cs|] eqn:Hcs; [|vm_compute in Hcs; discriminate].
  destruct (kisN_adds_one_apex_per_face cube (Some 4) None ns cs Hns Hcs)
    as (newpoly & log & Hk & Hv).
  exists ns, cs, newpoly, log. auto.
Defined.

(** ** The vertices of [ambo] *)

(** The keys of an object that only gets keys that are no array index:
    a new key goes to the end. *)
Definition add_key (ks : list string) (k : string) : list string :=
  if existsb (String.eqb k) ks then ks else ks ++ [k].

Lemma obj_get_keys {V} (o : obj V) k :
  existsb (String.eqb k) (obj_keys o) = match obj_get o k with Some _ => true | None => false end.
Proof.
  unfold obj_keys. induction o as [|[k' v'] o IH]; [reflexivity|].
  cbn [map fst existsb obj_get]. now destruct (String.eqb k k').
Qed.

Lemma newV_keys fl K xyz :
  array_index (to_key K) = None ->
  obj_keys (verts (newV K xyz fl)) = add_key (obj_keys (verts fl)) (to_key K).
Proof.
  intro Hidx. rewrite (newV_plain fl K xyz Hidx). unfold add_key.
  rewrite obj_get_keys. destruct (obj_get (verts fl) (to_key K)); [reflexivity|].
  unfold obj_keys. now rewrite map_app.
Qed.

Lemma add_keys_in ks : forall init k,
  In k (fold_left add_key ks init) <-> In k init \/ In k ks.
Proof.
  induction ks as [|x ks IH]; intros init k; cbn [fold_left In]; [tauto|].
  rewrite IH. unfold add_key.
  destruct (existsb (String.eqb x) init) eqn:E.
  - destruct (proj1 (existsb_exists _ _) E) as (y & Hy & Exy).
    apply String.eqb_eq in Exy. subst x.
    split; [tauto|]. intros [H|[<-|H]]; auto.
  - rewrite in_app_iff. cbn [In]. tauto.
Qed.

Lemma add_keys_nodup ks : forall init, NoDup init -> NoDup (fold_left add_key ks init).
Proof.
  induction ks as [|x ks IH]; intros init Hnd; [exact Hnd|].
  cbn [fold_left]. apply IH. unfold add_key.
  destruct (existsb (String.eqb x) init) eqn:E; [exact Hnd|].
  apply NoDup_app; [exact Hnd | repeat constructor; intros [] |].
  intros y Hy [<-|[]].
  assert (existsb (String.eqb x) init = true); [|congruence].
  apply existsb_exists. exists x. split; [exact Hy | apply String.eqb_refl].
Qed.

Definition mid_name (e : vid * vid) : string := midName (fst e) (snd e).

Definition ascending (e : vid * vid) : bool := vid_ltb (fst e) (snd e).

Lemma mid_name_not_index e : array_index (mid_name e) = None.
Proof.
  unfold mid_name, midName.
  assert (H : forall s t, array_index (s ++ "_" ++ t)%string = None).
  { intros s t. unfold array_index.
    assert (H : NilEmpty.uint_of_string (s ++ "_" ++ t)%string = None).
    { induction s as [|c s IH]; simpl.
      - destruct (NilEmpty.uint_of_string t); reflexivity.
      - simpl in IH. rewrite IH. reflexivity. }
    now rewrite H. }
  destruct (vid_ltb (fst e) (snd e)); apply H.
Qed.

(** The pairs [(v1, v2)] that the loop of [ambo] over a face visits. *)
Definition visited (f : list vid) : list (vid * vid) :=
  let '(v1, v2) := slice2 f in removelast (edges_from v1 (v2 :: f)).

Lemma ambo_inner_keys (vs : list vec) i (l : list vid) :
  forall fl v1 v2 r,
    foldM (fun (st : polyflag * vid * vid) v3 =>
             let '(fl, v1, v2) := st in
             fl <- (if vid_ltb v1 v2 then
                      a <- defined (at_vid vs v1) ;;
                      b <- defined (at_vid vs v2) ;;
                      Ret (newV (JStr (midName v1 v2)) (midpoint a b) fl)
                    else Ret fl) ;;
             let fl := newFlag (JStr ("orig" ++ show i))
                               (JStr (midName v1 v2)) (JStr (midName v2 v3)) fl in
             let fl := newFlag (JStr ("dual" ++ show_vid v2))
                               (JStr (midName v2 v3)) (JStr (midName v1 v2)) fl in
             Ret (fl, v2, v3))
          l (fl, v1, v2) = Ret r ->
    obj_keys (verts (fst (fst r)))
    = fold_left add_key
        (map mid_name (filter ascending (removelast (edges_from v1 (v2 :: l)))))
        (obj_keys (verts fl)).
Proof.
  induction l as [|v3 l IH]; intros fl v1 v2 r H.
  - cbn [foldM] in H. injection H as <-. reflexivity.
  - cbn [foldM] in H.
    change (removelast (edges_from v1 (v2 :: v3 :: l)))
      with ((v1, v2) :: removelast (edges_from v2 (v3 :: l))).
    cbn [filter]. unfold ascending at 1. cbn [fst snd].
    destruct (vid_ltb v1 v2).
    + destruct (at_vid vs v1); [|discriminate]. cbn [defined bind] in H.
      destruct (at_vid vs v2); [|discriminate]. cbn [defined bind] in H.
      apply IH in H. rewrite H. cbn [newFlag verts map fold_left].
      rewrite newV_keys by apply (mid_name_not_index (v1, v2)). reflexivity.
    + cbn [bind] in H. apply IH in H. rewrite H. reflexivity.
Qed.

Lemma ambo_face_keys vs fl i f fl' :
  ambo_face vs fl (i, f) = Ret fl' ->
  obj_keys (verts fl')
  = fold_left add_key (map mid_name (filter ascending (visited f))) (obj_keys (verts fl)).
Proof.
  unfold ambo_face, visited. destruct (slice2 f) as [v1 v2].
  match goal with
  | |- bind ?m _ = _ -> _ => destruct m as [r|] eqn:E; [|discriminate]
  end.
  cbn [bind]. intros [= <-]. now apply ambo_inner_keys in E.
Qed.

Lemma ambo_faces_keys vs (rows : list (N * list vid)) :
  forall fl fl',
    foldM (ambo_face vs) rows fl = Ret fl' ->
    obj_keys (verts fl')
    = fold_left add_key
        (map mid_name (filter ascending (List.concat (map (fun row => visited (snd row)) rows))))
        (obj_keys (verts fl)).
Proof.
  induction rows as [|[i f] rows IH]; intros fl fl' H; cbn [foldM] in H.
  - now injection H as <-.
  - destruct (ambo_face vs fl (i, f)) as [fl1|] eqn:E; [|discriminate]. cbn [bind] in H.
    apply IH in H. apply ambo_face_keys in E.
    cbn [map List.concat snd]. rewrite filter_app, map_app, fold_left_app, <- E. exact H.
Qed.

(** The loop visits the edges of the face, from another start. *)
Lemma visited_edges (f : list vid) e :
  (2 <= List.length f)%nat -> In e (visited f) <-> In e (faceToEdges f).
Proof.
  intro Hlen.
  assert (Hf : exists r a b, f = (r ++ [a]) ++ [b]).
  { destruct (List.rev f) as [|b [|a r]] eqn:E;
      try (apply (f_equal (@List.length vid)) in E; rewrite length_rev in E;
           cbn [List.length] in E; lia).
    exists (List.rev r), a, b. rewrite <- (rev_involutive f), E. reflexivity. }
  destruct Hf as (r & a & b & ->).
  unfold visited, slice2, faceToEdges.
  rewrite !rev_app_distr. cbn [List.rev app]. rewrite last_last.
  cbn [edges_from]. rewrite !edges_from_snoc, last_last.
  change ((a, b) :: (edges_from b r ++ [(last r b, a)]) ++ [(a, b)])
    with (((a, b) :: edges_from b r ++ [(last r b, a)]) ++ [(a, b)]).
  rewrite removelast_last. cbn [In].
  assert (Happ : forall x y : list (vid * vid), In e (x ++ y) <-> In e x \/ In e y)
    by (intros; apply in_app_iff).
  rewrite !Happ. cbn [In]. tauto.
Qed.

Lemma mid_name_canon e :
  mid_name e = (show_vid (fst (canon e)) ++ "_" ++ show_vid (snd (canon e)))%string.
Proof. unfold mid_name, midName, canon. now destruct (vid_ltb (fst e) (snd e)). Qed.

Lemma show_vid_underscore_free v : sep_free "_" (show_vid v) = true.
Proof.
  destruct v as [n|]; [|reflexivity]. apply show_sep_free, underscore_no_digit.
Qed.

Lemma mid_name_key e e' : mid_name e = mid_name e' <-> edge_key e = edge_key e'.
Proof.
  rewrite !mid_name_canon, !edge_key_canon. split; intro H.
  - apply sep_split in H; try apply show_vid_underscore_free.
    destruct H as [H1 H2]. now rewrite H1, H2.
  - apply tilde_split in H; try apply show_vid_tilde_free.
    destruct H as [H1 H2]. now rewrite H1, H2.
Qed.

(** Two lists without repetition that hold the images of the same
    elements, under two maps that identify the same elements. *)
Lemma image_count {E} (g1 g2 : E -> string) (D : list E) l1 l2 :
  NoDup l1 -> NoDup l2 ->
  (forall k, In k l1 <-> exists e, In e D /\ k = g1 e) ->
  (forall k, In k l2 <-> exists e, In e D /\ k = g2 e) ->
  (forall e e', g1 e = g1 e' <-> g2 e = g2 e') ->
  List.length l1 = List.length l2.
Proof.
  intros Hnd1 Hnd2 H1 H2 Hsame.
  assert (Hlen : forall g l, NoDup l -> (forall k, In k l <-> exists e, In e D /\ k = g e) ->
                             List.length l = List.length (nodup string_dec (map g D))).
  { intros g l Hnd Hl.
    apply Nat.le_antisymm; apply NoDup_incl_length;
      try assumption; try apply NoDup_nodup; intros k Hk.
    - apply nodup_In, in_map_iff. apply Hl in Hk as (e & He & ->). eauto.
    - apply nodup_In, in_map_iff in Hk as (e & <- & He). apply Hl. eauto. }
  rewrite (Hlen g1 l1 Hnd1 H1), (Hlen g2 l2 Hnd2 H2).
  clear - Hsame. induction D as [|e D IH]; [reflexivity|].
  cbn [map nodup].
  assert (Hin : In (g1 e) (map g1 D) <-> In (g2 e) (map g2 D)).
  { rewrite !in_map_iff. split; intros (e' & Eq & He'); exists e'; split; auto;
      now apply Hsame. }
  destruct (in_dec string_dec (g1 e) (map g1 D)), (in_dec string_dec (g2 e) (map g2 D));
    cbn [List.length]; tauto || now rewrite IH.
Qed.

(** Every edge of a face joins two different vertices and is an edge of
    a face in the other direction too. *)
Definition two_sided (p : polyhedron) : Prop :=
  forall a b, In (a, b) (directed_edges p) ->
              (exists x y, a = Some x /\ b = Some y /\ x <> y) /\
              In (b, a) (directed_edges p).

(** X16. On a polyhedron whose edges all join two different vertices
    and are edges of faces in both directions, [ambo], when it returns,
    returns one vertex for every edge that [edges()] lists: as many
    vertices as the argument has edges. *)
Theorem ambo_has_one_vertex_per_edge p q log :
  two_sided p -> ambo p = Ret (q, log) ->
  List.length (vertices q) = List.length (edges p).
Proof.
  intros Hp H. unfold ambo in H.
  destruct (foldM _ (indexed (faces p)) new_polyflag) as [fl|] eqn:E; [|discriminate].
  cbn [bind] in H. unfold assemble in H.
  pose proof (topoly_vertices fl) as Hv.
  destruct (topoly fl) as [q0 l]. cbn [fst] in Hv.
  apply ret_pair_inv in H as [-> _]. cbn [set_name vertices]. rewrite Hv, length_map.
  apply ambo_faces_keys in E. cbn [verts new_polyflag obj_keys map] in E.
  rewrite <- (length_map fst). fold (obj_keys (verts fl)). rewrite E.
  unfold edges. fold file_edge. fold (directed_edges p).
  unfold obj_values. rewrite length_map, <- (length_map fst). fold (@obj_keys (vid * vid)).
  destruct (filed_keys (directed_edges p)) as [Hnd2 Hk2].
  assert (Hface : forall f e, In f (faces p) -> In e (visited f) <-> In e (faceToEdges f)).
  { intros f e Hf. destruct f as [|a [|b f]].
    - reflexivity.
    - exfalso. destruct (Hp a a) as [(x & y & -> & Hy & Hxy) _].
      + unfold directed_edges. apply in_concat. exists (faceToEdges [a]).
        split; [now apply in_map | now left].
      + injection Hy as ->. now apply Hxy.
    - apply visited_edges. cbn [List.length]. lia. }
  assert (Hall : forall e,
             In e (List.concat (map (fun row : N * list vid => visited (snd row))
                                    (indexed (faces p))))
             <-> In e (directed_edges p)).
  { intro e. unfold directed_edges. rewrite !in_concat. split.
    - intros (es & Hl & He). apply in_map_iff in Hl as ([i f] & <- & Hin).
      apply in_combine_r in Hin. exists (faceToEdges f).
      split; [now apply in_map | now apply Hface].
    - intros (es & Hl & He). apply in_map_iff in Hl as (f & <- & Hf).
      exists (visited f). split; [|now apply Hface].
      apply in_map_iff.
      assert (Hrow : In f (map snd (indexed (faces p))))
        by (now rewrite indexed_numbered, numbered_from_snd).
      apply in_map_iff in Hrow as (row & <- & Hrow). now exists row. }
  apply (image_count mid_name edge_key (directed_edges p)).
  - apply add_keys_nodup. constructor.
  - exact Hnd2.
  - intro k. rewrite add_keys_in. cbn [In]. rewrite in_map_iff. split.
    + intros [[]|(e & <- & He)]. apply filter_In in He as [He _].
      exists e. split; [now apply Hall | reflexivity].
    + intros (e & He & ->). right.
      destruct e as [a b]. destruct (Hp a b He) as [(x & y & -> & -> & Hxy) Hrev].
      destruct (N.ltb_spec x y) as [Hlt|Hge].
      * exists (Some x, Some y). split; [reflexivity|].
        apply filter_In. split; [now apply Hall|].
        unfold ascending. cbn [fst snd vid_ltb]. now apply N.ltb_lt.
      * exists (Some y, Some x). split.
        -- apply mid_name_key. rewrite !edge_key_canon.
           pose proof (canon_swap y x) as Hc. unfold vid in *. now rewrite Hc.
        -- apply filter_In. split; [now apply Hall|].
           unfold ascending. cbn [fst snd vid_ltb]. apply N.ltb_lt. lia.
  - exact Hk2.
  - apply mid_name_key.
Qed.

Definition two_sided_b (p : polyhedron) : bool :=
  forallb (fun e : vid * vid =>
             match e with
             | (Some x, Some y) =>
                 negb (x =? y) && existsb (edge_eqb (snd e, fst e)) (directed_edges p)
             | _ => false
             end)
          (directed_edges p).

Lemma two_sided_b_sound p : two_sided_b p = true -> two_sided p.
Proof.
  unfold two_sided_b. intros H a b Hab.
  rewrite forallb_forall in H. specialize (H (a, b) Hab).
  destruct a as [x|], b as [y|]; try discriminate.
  apply andb_prop in H as [Hxy Hrev]. split.
  - exists x, y. repeat split. apply negb_true_iff, N.eqb_neq in Hxy. exact Hxy.
  - apply existsb_exists in Hrev as ([c d] & Hin & E).
    unfold edge_eqb in E. cbn [fst snd] in E. apply andb_prop in E as [E1 E2].
    apply vid_eqb_eq in E1, E2. now subst.
Qed.

Lemma ambo_has_one_vertex_per_edge_witness :
  exists q log,
    ambo cube = Ret (q, log) /\ List.length (vertices q) = List.length (edges cube).
Proof.
  destruct (ambo cube) as [[q log]|err] eqn:E.
  - exists q, log. split; [reflexivity|].
    apply (ambo_has_one_vertex_per_edge cube q log); [|exact E].
    apply two_sided_b_sound. vm_compute. reflexivity.
  - vm_compute in E. discriminate.
Defined.

(** ** The vertices of [gyro] and [propellor] *)

Definition tilde_name (e : vid * vid) : string := tilde (fst e) (snd e).

Lemma tilde_name_not_index e : array_index (tilde_name e) = None.
Proof. apply tilde_not_index. Qed.

Lemma tilde_name_inj e e' : tilde_name e = tilde_name e' -> e = e'.
Proof.
  unfold tilde_name, tilde. intro H.
  apply tilde_split in H; try apply show_vid_tilde_free.
  destruct H as [H1 H2]. apply show_vid_inj in H1, H2.
  destruct e, e'; cbn [fst snd] in *. congruence.
Qed.

(** A loop over a face that declares the vertex [v1~v2] for every pair
    it visits and then only sets flags. *)
Lemma tilde_inner_keys (vs : list vec)
    (step : polyflag -> vid -> vid -> vid -> polyflag) (l : list vid) :
  (forall fl v1 v2 v3, verts (step fl v1 v2 v3) = verts fl) ->
  forall fl v1 v2 r,
    foldM (fun (st : polyflag * vid * vid) v3 =>
             let '(fl, v1, v2) := st in
             a <- defined (at_vid vs v1) ;;
             b <- defined (at_vid vs v2) ;;
             Ret (step (newV (JStr (tilde v1 v2)) (oneThird a b) fl) v1 v2 v3, v2, v3))
          l (fl, v1, v2) = Ret r ->
    obj_keys (verts (fst (fst r)))
    = fold_left add_key (map tilde_name (removelast (edges_from v1 (v2 :: l))))
                (obj_keys (verts fl)).
Proof.
  intro Hstep. induction l as [|v3 l IH]; intros fl v1 v2 r H.
  - cbn [foldM] in H. injection H as <-. reflexivity.
  - cbn [foldM] in H.
    change (removelast (edges_from v1 (v2 :: v3 :: l)))
      with ((v1, v2) :: removelast (edges_from v2 (v3 :: l))).
    destruct (at_vid vs v1); [|discriminate]. cbn [defined bind] in H.
    destruct (at_vid vs v2); [|discriminate]. cbn [defined bind] in H.
    apply IH in H. rewrite H, Hstep. cbn [map fold_left].
    rewrite newV_keys by apply (tilde_name_not_index (v1, v2)). reflexivity.
Qed.

Lemma gyro_face_keys vs fl i f fl' :
  gyro_face vs fl (i, f) = Ret fl' ->
  obj_keys (verts fl')
  = fold_left add_key (map tilde_name (visited f)) (obj_keys (verts fl)).
Proof.
  unfold gyro_face, visited. destruct (slice2 f) as [v1 v2].
  match goal with
  | |- bind ?m _ = _ -> _ => destruct m as [r|] eqn:E; [|discriminate]
  end.
  cbn [bind]. intros [= <-].
  apply (tilde_inner_keys vs
           (fun fl v1 v2 v3 =>
              let center := JStr ("center" ++ show i) in
              let fname := JStr (show i ++ "f" ++ show_vid v1) in
              let fl := newFlag fname center (JStr (tilde v1 v2)) fl in
              let fl := newFlag fname (JStr (tilde v1 v2)) (JStr (tilde v2 v1)) fl in
              let fl := newFlag fname (JStr (tilde v2 v1)) (JStr ("v" ++ show_vid v2)) fl in
              let fl := newFlag fname (JStr ("v" ++ show_vid v2)) (JStr (tilde v2 v3)) fl in
              newFlag fname (JStr (tilde v2 v3)) center fl) f);
    [reflexivity | exact E].
Qed.

Lemma propellor_face_keys vs fl i f fl' :
  propellor_face vs fl (i, f) = Ret fl' ->
  obj_keys (verts fl')
  = fold_left add_key (map tilde_name (visited f)) (obj_keys (verts fl)).
Proof.
  unfold propellor_face, visited. destruct (slice2 f) as [v1 v2].
  match goal with
  | |- bind ?m _ = _ -> _ => destruct m as [r|] eqn:E; [|discriminate]
  end.
  cbn [bind]. intros [= <-].
  apply (tilde_inner_keys vs
           (fun fl v1 v2 v3 =>
              let fname := JStr (show i ++ "f" ++ show_vid v2) in
              let fl := newFlag (JStr ("v" ++ show i))
                                (JStr (tilde v1 v2)) (JStr (tilde v2 v3)) fl in
              let fl := newFlag fname (JStr (tilde v1 v2)) (JStr (tilde v2 v1)) fl in
              let fl := newFlag fname (JStr (tilde v2 v1)) (JStr ("v" ++ show_vid v2)) fl in
              let fl := newFlag fname (JStr ("v" ++ show_vid v2)) (JStr (tilde v2 v3)) fl in
              newFlag fname (JStr (tilde v2 v3)) (JStr (tilde v1 v2)) fl) f);
    [reflexivity | exact E].
Qed.

Lemma faces_keys (face_step : polyflag -> N * list vid -> res polyflag)
    (rows : list (N * list vid)) :
  (forall fl i f fl', face_step fl (i, f) = Ret fl' ->
     obj_keys (verts fl')
     = fold_left add_key (map tilde_name (visited f)) (obj_keys (verts fl))) ->
  forall fl fl',
    foldM face_step rows fl = Ret fl' ->
    obj_keys (verts fl')
    = fold_left add_key
        (map tilde_name (List.concat (map (fun row => visited (snd row)) rows)))
        (obj_keys (verts fl)).
Proof.
  intro Hstep. induction rows as [|[i f] rows IH]; intros fl fl' H; cbn [foldM] in H.
  - now injection H as <-.
  - destruct (face_step fl (i, f)) as [fl1|] eqn:E; [|discriminate]. cbn [bind] in H.
    apply IH in H. apply Hstep in E.
    cbn [map List.concat snd]. rewrite map_app, fold_left_app, <- E. exact H.
Qed.

(** Declaring names that are all new adds them all. *)
Lemma add_keys_fresh ks :
  forall init, NoDup (init ++ ks) -> fold_left add_key ks init = init ++ ks.
Proof.
  induction ks as [|k ks IH]; intros init Hnd; cbn [fold_left].
  - now rewrite app_nil_r.
  - assert (Hk : existsb (String.eqb k) init = false).
    { destruct (existsb (String.eqb k) init) eqn:E; [|reflexivity].
      apply existsb_exists in E as (x & Hx & Ex). apply String.eqb_eq in Ex. subst x.
      apply NoDup_remove_2 in Hnd. exfalso. apply Hnd. apply in_or_app. now left. }
    unfold add_key at 2. rewrite Hk.
    rewrite IH; rewrite <- app_assoc; [reflexivity | exact Hnd].
Qed.

Lemma NoDup_map_inj {A B} (g : A -> B) l :
  (forall a b, g a = g b -> a = b) -> NoDup l -> NoDup (map g l).
Proof.
  intros Hg Hnd. induction Hnd as [|a l Ha Hnd IH]; cbn [map]; constructor; [|exact IH].
  intro Hin. apply in_map_iff in Hin as (b & E & Hb). apply Hg in E. now subst.
Qed.

Lemma old_vertices_keys g p :
  obj_keys (verts (old_vertices g p new_polyflag))
  = map (fun i => vname (Some i)) (range (len (vertices p))).
Proof.
  unfold old_vertices.
  assert (H : forall (rows : list (N * vec)) fl,
             obj_keys (verts (fold_left
                                (fun fl '(i, xyz) => newV (JStr ("v" ++ show i)) (g xyz) fl)
                                rows fl))
             = fold_left add_key (map (fun row => vname (Some (fst row))) rows)
                         (obj_keys (verts fl))).
  { induction rows as [|[i xyz] rows IH]; intro fl; [reflexivity|].
    cbn [fold_left map fst]. rewrite IH.
    rewrite newV_keys by apply (vname_not_index (Some i)). reflexivity. }
  rewrite H. cbn [verts new_polyflag obj_keys map].
  assert (Hidx : map (fun row : N * vec => vname (Some (fst row))) (indexed (vertices p))
                 = map (fun i => vname (Some i)) (range (len (vertices p)))).
  { rewrite <- (map_map fst (fun i => vname (Some i))).
    rewrite indexed_numbered, numbered_from_fst.
    unfold range, len. now rewrite Nat2N.id. }
  rewrite Hidx, add_keys_fresh; [reflexivity|]. cbn [app].
  apply NoDup_map_inj.
  - intros a b Hab. apply vname_inj in Hab. now injection Hab.
  - unfold range. apply NoDup_map_inj; [|apply seq_NoDup].
    intros a b. apply Nat2N.inj.
Qed.

Lemma visited_shape (f : list vid) :
  (2 <= List.length f)%nat ->
  exists x R, visited f = x :: R /\ faceToEdges f = R ++ [x].
Proof.
  intro Hlen.
  assert (Hf : exists r a b, f = (r ++ [a]) ++ [b]).
  { destruct (List.rev f) as [|b [|a r]] eqn:E;
      try (apply (f_equal (@List.length vid)) in E; rewrite length_rev in E;
           cbn [List.length] in E; lia).
    exists (List.rev r), a, b. rewrite <- (rev_involutive f), E. reflexivity. }
  destruct Hf as (r & a & b & ->).
  exists (a, b), (edges_from b r ++ [(last r b, a)]).
  unfold visited, slice2, faceToEdges.
  rewrite !rev_app_distr. cbn [List.rev app]. rewrite last_last.
  cbn [edges_from]. rewrite !edges_from_snoc, last_last.
  change ((a, b) :: (edges_from b r ++ [(last r b, a)]) ++ [(a, b)])
    with (((a, b) :: edges_from b r ++ [(last r b, a)]) ++ [(a, b)]).
  rewrite removelast_last. split; reflexivity.
Qed.

Lemma visited_length (f : list vid) : List.length (visited f) = List.length f.
Proof.
  unfold visited. destruct (slice2 f) as [v1 v2].
  assert (H : forall v (l : list vid), List.length (edges_from v l) = List.length l).
  { intros v l. revert v. induction l as [|x l IH]; intro v; cbn; [reflexivity | now rewrite IH]. }
  assert (Hr : forall (l : list (vid * vid)), l <> [] ->
                 S (List.length (removelast l)) = List.length l).
  { intros l Hl. destruct (exists_last Hl) as (l' & x & ->).
    rewrite removelast_last, length_app. cbn [List.length]. lia. }
  specialize (Hr (edges_from v1 (v2 :: f))). rewrite H in Hr. cbn [List.length] in Hr.
  assert (Hne : edges_from v1 (v2 :: f) <> []) by discriminate.
  specialize (Hr Hne). lia.
Qed.

Lemma NoDup_app_parts {A} (l r : list A) :
  NoDup (l ++ r) <-> NoDup l /\ NoDup r /\ forall x, In x l -> ~ In x r.
Proof.
  induction l as [|a l IH]; cbn [app].
  - split; [intro H; repeat split; auto; constructor | tauto].
  - rewrite !NoDup_cons_iff, IH, in_app_iff. cbn [In]. split.
    + intros (Ha & Hl & Hr & Hd). repeat split; auto.
      intros x [<-|Hx]; auto.
    + intros ((Ha & Hl) & Hr & Hd). repeat split; auto.
      intros [H|H]; [auto | apply (Hd a); auto].
Qed.

(** With every side of every face a different directed edge, the pairs
    that the loops visit are all different. *)
Lemma visited_all_different fs :
  (forall f : list vid, In f fs -> List.length f <> 1%nat) ->
  NoDup (List.concat (map faceToEdges fs)) ->
  NoDup (List.concat (map visited fs)).
Proof.
  intro Hfs. induction fs as [|f fs IH]; cbn [map List.concat]; [constructor|].
  intro Hnd. apply NoDup_app_parts in Hnd as (Hf & Hrest & Hdis).
  assert (Hsame : forall e, In e (visited f) <-> In e (faceToEdges f)).
  { intro e. destruct f as [|a [|b f]]; [reflexivity | |].
    - exfalso. apply (Hfs [a]); [now left | reflexivity].
    - apply visited_edges. cbn [List.length]. lia. }
  assert (Hothers : forall e, In e (List.concat (map visited fs)) ->
                              In e (List.concat (map faceToEdges fs))).
  { intros e He. apply in_concat in He as (l & Hl & He).
    apply in_map_iff in Hl as (f' & <- & Hf').
    apply in_concat. exists (faceToEdges f'). split; [now apply in_map|].
    destruct f' as [|a [|b f']]; [exact He | |].
    - exfalso. apply (Hfs [a]); [now right | reflexivity].
    - apply visited_edges; [cbn [List.length]; lia | exact He]. }
  apply NoDup_app_parts. split; [|split].
  - destruct f as [|a [|b f]]; [constructor | |].
    + exfalso. apply (Hfs [a]); [now left | reflexivity].
    + destruct (visited_shape (a :: b :: f)) as (x & R & Hv & He);
        [cbn [List.length]; lia|].
      rewrite Hv. rewrite He in Hf. apply NoDup_app_parts in Hf as (HR & _ & Hx).
      constructor; [|exact HR]. intro Hin. apply (Hx x Hin). now left.
  - apply IH; [|exact Hrest]. intros f' Hf'. apply Hfs. now right.
  - intros e He Hin. apply (Hdis e); [now apply Hsame | now apply Hothers].
Qed.

Lemma visited_rows (fs : list (list vid)) :
  List.concat (map (fun row : N * list vid => visited (snd row)) (indexed fs))
  = List.concat (map visited fs).
Proof.
  f_equal. rewrite <- (map_map snd visited).
  now rewrite indexed_numbered, numbered_from_snd.
Qed.

Lemma concat_length_sum (fs : list (list vid)) :
  List.length (List.concat (map visited fs))
  = List.length (List.concat (map faceToEdges fs)).
Proof.
  induction fs as [|f fs IH]; [reflexivity|].
  cbn [map List.concat]. rewrite !length_app, IH, visited_length.
  f_equal. unfold faceToEdges.
  rewrite <- (length_map snd (edges_from (last f None) f)).
  now rewrite (proj1 (edges_from_ends (last f None) f)).
Qed.

(** The number of sides of the faces, all faces together. *)
Definition sides (p : polyhedron) : nat := List.length (directed_edges p).

(** No face has a single vertex, and no directed edge is a side of two
    faces, or twice a side of one. *)
Definition well_oriented (p : polyhedron) : Prop :=
  (forall f, In f (faces p) -> List.length f <> 1%nat) /\ NoDup (directed_edges p).

Lemma vname_no_tilde x e : vname x <> tilde_name e.
Proof.
  intro H. assert (Hf : tilde_free (vname x) = true).
  { unfold vname. cbn [append tilde_free]. apply show_vid_tilde_free. }
  rewrite H in Hf. unfold tilde_name, tilde in Hf.
  clear H. revert Hf. generalize (show_vid (fst e)). intro s.
  induction s as [|c s IH]; cbn [append tilde_free]; [discriminate|].
  intro H. apply andb_prop in H as [_ H]. now apply IH.
Qed.

Definition center_name (i : N) : string := ("center" ++ show i)%string.

Lemma center_name_facts i :
  (array_index (center_name i) = None) /\ (tilde_free (center_name i) = true) /\
  (forall x, center_name i <> vname x) /\
  (forall j, center_name i = center_name j -> i = j).
Proof.
  unfold center_name. repeat split.
  - unfold array_index. cbn [append NilEmpty.uint_of_string].
    destruct (NilEmpty.uint_of_string (show i)) as [d|]; [|reflexivity].
    cbn. destruct (uint_of_char "r" (Some d)); reflexivity.
  - cbn [append tilde_free]. apply (show_vid_tilde_free (Some i)).
  - intros x. unfold vname. cbn [append]. discriminate.
  - intros j H. cbn [append] in H. injection H as H. now apply show_inj.
Qed.

Lemma center_no_tilde i e : center_name i <> tilde_name e.
Proof.
  intro H. destruct (center_name_facts i) as (_ & Hf & _).
  rewrite H in Hf. unfold tilde_name, tilde in Hf.
  clear H. revert Hf. generalize (show_vid (fst e)). intro s.
  induction s as [|c s IH]; cbn [append tilde_free]; [discriminate|].
  intro H. apply andb_prop in H as [_ H]. now apply IH.
Qed.

(** X17. On a polyhedron where no directed edge is a side twice and no
    face has a single vertex, [propellor], when it returns, returns one
    vertex for every vertex and one for every side of every face of its
    argument; [gyro] returns, besides, one for every face. *)
Theorem gyro_and_propellor_vertex_counts p :
  well_oriented p ->
  (forall q log, propellor p = Ret (q, log) ->
     List.length (vertices q) = (List.length (vertices p) + sides p)%nat) /\
  (forall q log, gyro p = Ret (q, log) ->
     List.length (vertices q)
     = (List.length (vertices p) + List.length (faces p) + sides p)%nat).
Proof.
  intros [Hfs Hnd].
  pose proof (visited_all_different (faces p) Hfs Hnd) as Hvis.
  assert (Htilde : NoDup (map tilde_name (List.concat (map visited (faces p))))).
  { apply NoDup_map_inj; [apply tilde_name_inj | exact Hvis]. }
  assert (Hvn : NoDup (map (fun i => vname (Some i)) (range (len (vertices p))))).
  { apply NoDup_map_inj.
    - intros a b Hab. apply vname_inj in Hab. now injection Hab.
    - unfold range. apply NoDup_map_inj; [apply Nat2N.inj | apply seq_NoDup]. }
  assert (Hcount : forall q fl l,
             topoly fl = (q, l) ->
             List.length (vertices q) = List.length (obj_keys (verts fl))).
  { intros q fl l Ht. pose proof (topoly_vertices fl) as Hv. rewrite Ht in Hv.
    cbn [fst] in Hv. unfold obj_keys. now rewrite Hv, !length_map. }
  assert (Hsides : List.length (map tilde_name (List.concat (map visited (faces p))))
                   = sides p).
  { rewrite length_map, concat_length_sum. reflexivity. }
  assert (Hvlen : List.length (map (fun i => vname (Some i)) (range (len (vertices p))))
                  = List.length (vertices p)).
  { unfold range, len. now rewrite !length_map, length_seq, Nat2N.id. }
  split; intros q log H.
  - unfold propellor in H.
    destruct (foldM _ (indexed (faces p)) _) as [fl|] eqn:E; [|discriminate].
    cbn [bind] in H. unfold assemble in H.
    destruct (topoly fl) as [q0 l] eqn:Ht.
    apply ret_pair_inv in H as [-> _]. cbn [set_name vertices].
    rewrite (Hcount q0 fl l Ht).
    apply (faces_keys _ _ (propellor_face_keys (vertices p))) in E.
    rewrite E, old_vertices_keys, visited_rows, add_keys_fresh.
    + now rewrite length_app, Hvlen, Hsides.
    + apply NoDup_app_parts. repeat split; [exact Hvn | exact Htilde |].
      intros k Hk Hk'. apply in_map_iff in Hk as (i & <- & _).
      apply in_map_iff in Hk' as (e & Ee & _). symmetry in Ee. now apply vname_no_tilde in Ee.
  - unfold gyro in H.
    destruct (centers p) as [cs|] eqn:Hcs; [|discriminate]. cbn [bind] in H.
    destruct (foldM _ (indexed (faces p)) _) as [fl|] eqn:E; [|discriminate].
    cbn [bind] in H. unfold assemble in H.
    destruct (topoly fl) as [q0 l] eqn:Ht.
    apply ret_pair_inv in H as [-> _]. cbn [set_name vertices].
    rewrite (Hcount q0 fl l Ht).
    apply (faces_keys _ _ (gyro_face_keys (vertices p))) in E.
    assert (Hcenters : forall (rows : list (N * vec)) fl0,
               obj_keys (verts (fold_left
                                  (fun fl '(i, c) => newV (JStr ("center" ++ show i)) (unit c) fl)
                                  rows fl0))
               = fold_left add_key (map (fun row => center_name (fst row)) rows)
                           (obj_keys (verts fl0))).
    { induction rows as [|[i c] rows IH]; intro fl0; [reflexivity|].
      cbn [fold_left map fst]. rewrite IH.
      rewrite newV_keys by apply (center_name_facts i). reflexivity. }
    rewrite E, Hcenters, old_vertices_keys, visited_rows.
    assert (Hcn : map (fun row : N * vec => center_name (fst row)) (indexed cs)
                  = map center_name (range (len cs))).
    { rewrite <- (map_map fst center_name).
      rewrite indexed_numbered, numbered_from_fst. unfold range, len. now rewrite Nat2N.id. }
    assert (Hcnd : NoDup (map center_name (range (len cs)))).
    { apply NoDup_map_inj; [intros a b; apply center_name_facts|].
      unfold range. apply NoDup_map_inj; [apply Nat2N.inj | apply seq_NoDup]. }
    assert (Hclen : List.length (map center_name (range (len cs))) = List.length (faces p)).
    { unfold range, len. rewrite !length_map, length_seq, Nat2N.id.
      unfold centers in Hcs. now apply mapM_length in Hcs. }
    rewrite Hcn.
    rewrite (add_keys_fresh (map center_name (range (len cs)))).
    + rewrite add_keys_fresh.
      * now rewrite !length_app, Hvlen, Hclen, Hsides.
      * apply NoDup_app_parts. repeat split; [|exact Htilde|].
        -- apply NoDup_app_parts. repeat split; [exact Hvn | exact Hcnd |].
           intros k Hk Hk'. apply in_map_iff in Hk as (i & <- & _).
           apply in_map_iff in Hk' as (j & Ej & _).
           now apply (proj1 (proj2 (proj2 (center_name_facts j))) (Some i)).
        -- intros k Hk Hk'. apply in_map_iff in Hk' as (e & Ee & _). symmetry in Ee.
           apply in_app_or in Hk as [Hk|Hk]; apply in_map_iff in Hk as (i & <- & _).
           ++ now apply vname_no_tilde in Ee.
           ++ now apply center_no_tilde in Ee.
    + apply NoDup_app_parts. repeat split; [exact Hvn | exact Hcnd |].
      intros k Hk Hk'. apply in_map_iff in Hk as (i & <- & _).
      apply in_map_iff in Hk' as (j & Ej & _).
      now apply (proj1 (proj2 (proj2 (center_name_facts j))) (Some i)).
Qed.

Fixpoint distinct_edges (l : list (vid * vid)) : bool :=
  match l with
  | [] => true
  | e :: r => negb (existsb (edge_eqb e) r) && distinct_edges r
  end.

Definition well_oriented_b (p : polyhedron) : bool :=
  forallb (fun f : list vid => negb (Nat.eqb (List.length f) 1)) (faces p)
  && distinct_edges (directed_edges p).

Lemma distinct_edges_NoDup l : distinct_edges l = true -> NoDup l.
Proof.
  induction l as [|e r IH]; cbn [distinct_edges]; intro H; constructor;
    apply andb_prop in H as [He Hr]; [|now apply IH].
  intro Hin. apply negb_true_iff in He.
  assert (existsb (edge_eqb e) r = true); [|congruence].
  apply existsb_exists. exists e. split; [exact Hin|].
  unfold edge_eqb. apply andb_true_intro. split; now apply vid_eqb_eq.
Qed.

Lemma well_oriented_b_sound p : well_oriented_b p = true -> well_oriented p.
Proof.
  unfold well_oriented_b. intro H. apply andb_prop in H as [Hf Hd]. split.
  - intros f Hin. rewrite forallb_forall in Hf. specialize (Hf f Hin).
    apply negb_true_iff, Nat.eqb_neq in Hf. exact Hf.
  - now apply distinct_edges_NoDup.
Qed.

Lemma gyro_and_propellor_vertex_counts_witness :
  exists q log q' log',
    propellor cube = Ret (q, log) /\
    List.length (vertices q) = (List.length (vertices cube) + sides cube)%nat /\
    gyro cube = Ret (q', log') /\
    List.length (vertices q')
    = (List.length (vertices cube) + List.length (faces cube) + sides cube)%nat.
Proof.
  assert (Hcube : well_oriented cube)
    by (apply well_oriented_b_sound; vm_compute; reflexivity).
  destruct (gyro_and_propellor_vertex_counts cube Hcube) as [Hp Hg].
  destruct (propellor cube) as [[q log]|err] eqn:E; [|vm_compute in E; discriminate].
  destruct (gyro cube) as [[q' log']|err] eqn:E'; [|vm_compute in E'; discriminate].
  exists q, log, q', log'. repeat split; [now apply (Hp q log) | now apply (Hg q' log')].
Defined.

(** ** The faces of [trisub] *)

Lemma range_length n : List.length (range n) = N.to_nat n.
Proof. unfold range. now rewrite length_map, length_seq. Qed.

Lemma list_sum_cons a l : list_sum (a :: l) = (a + list_sum l)%nat.
Proof. reflexivity. Qed.

Lemma flat_map_length_sum {A B} (g : A -> list B) l :
  List.length (flat_map g l) = list_sum (map (fun a => List.length (g a)) l).
Proof.
  induction l as [|a l IH]; [reflexivity|].
  cbn [flat_map map]. rewrite list_sum_cons. now rewrite length_app, IH.
Qed.

(** The rows [d, d - 1, ..., d - m + 1] of a triangle. *)
Lemma rows_sum k : forall m start d,
  (start + d = k)%nat -> (m <= d)%nat ->
  (2 * list_sum (map (fun i => k - i) (seq start m)) + m * m = m * (2 * d + 1))%nat.
Proof.
  induction m as [|m IH]; intros start d Hk Hm; [reflexivity|].
  cbn [seq map]. rewrite list_sum_cons.
  specialize (IH (S start) (d - 1)%nat ltac:(lia) ltac:(lia)).
  replace (k - start)%nat with d by lia.
  destruct d as [|d']; [lia|]. replace (S d' - 1)%nat with d' in IH by lia.
  set (X := list_sum _) in *. clearbody X. nia.
Qed.

Lemma trisub_faces_length n vmap uniqmap fn :
  List.length (trisub_faces n vmap uniqmap fn) = (N.to_nat n * N.to_nat n)%nat.
Proof.
  unfold trisub_faces. rewrite length_app, !flat_map_length_sum.
  assert (Hrow : forall (g : N -> N -> list vid) l,
             map (fun i => List.length (map (g i) (range (n - i)))) l
             = map (fun i => (N.to_nat n - N.to_nat i)%nat) l).
  { intros g l. apply map_ext. intro i. rewrite length_map, range_length. lia. }
  rewrite !Hrow. unfold range.
  destruct (N.to_nat n) as [|k] eqn:E; [reflexivity|].
  cbn [seq map tl]. rewrite <- seq_shift, !map_map.
  assert (Hnat : forall l, map (fun x => (S k - N.to_nat (N.of_nat x))%nat) l
                           = map (fun i => (S k - i)%nat) l).
  { intro l. apply map_ext. intro x. now rewrite Nat2N.id. }
  assert (Hnat' : forall l, map (fun x => (S k - N.to_nat (N.of_nat (S x)))%nat) l
                            = map (fun i => (k - i)%nat) l).
  { intro l. apply map_ext. intro x. rewrite Nat2N.id. lia. }
  rewrite list_sum_cons, Nat2N.id, !Hnat', Nat.sub_0_r.
  pose proof (rows_sum k k 0 k ltac:(lia) ltac:(lia)) as H. nia.
Qed.

(** X18. [trisub] leaves a mesh that has a face of another size than 3
    as it is; every other mesh it cuts into [n * n] triangles for each
    face ([n] is 2 when it is 0 or absent). *)
Theorem trisub_cuts_each_face_in_n_squared poly n newpoly log :
  trisub poly n = Ret (newpoly, log) ->
  let side := match n with Some 0 | None => 2 | Some k => k end in
  if existsb (fun f : list vid => negb (N.eqb (len f) 3)) (faces poly)
  then newpoly = poly
  else List.length (faces newpoly)
       = (N.to_nat side * N.to_nat side * List.length (faces poly))%nat.
Proof.
  intro H. cbv zeta. unfold trisub in H.
  set (side := match n with Some 0 | None => 2 | Some k => k end) in *.
  destruct (existsb _ (faces poly)).
  - now apply ret_pair_inv in H as [-> _].
  - destruct (foldM _ (indexed (faces poly)) _) as [[newVs vmap]|]; [|discriminate].
    cbn [bind] in H. destruct (trisub_uniq newVs) as [uniqVs uniqmap].
    apply ret_pair_inv in H as [-> _]. cbn [faces].
    rewrite flat_map_length_sum.
    rewrite (map_ext _ (fun _ => (N.to_nat side * N.to_nat side)%nat))
      by (intro fn; apply trisub_faces_length).
    generalize (range (len (faces poly))) (range_length (len (faces poly))).
    unfold len. rewrite Nat2N.id. intros l <-.
    induction l as [|a l IH]; [cbn; lia|].
    cbn [map List.length]. rewrite list_sum_cons. lia.
Qed.

Lemma trisub_cuts_each_face_in_n_squared_witness :
  exists newpoly log,
    trisub tetrahedron (Some 3) = Ret (newpoly, log) /\
    List.length (faces newpoly) = (3 * 3 * 4)%nat.
Proof.
  destruct (trisub tetrahedron (Some 3)) as [[newpoly log]|err] eqn:E.
  - exists newpoly, log. split; [reflexivity|].
    exact (trisub_cuts_each_face_in_n_squared tetrahedron (Some 3) newpoly log E).
  - vm_compute in E. discriminate.
Defined.

(** ** The vertices of [insetN] *)

Definition inset_name (iv : N * vid) : string :=
  ("f" ++ show (fst iv) ++ "v" ++ show_vid (snd iv))%string.

(** The faces that the selector [n] picks. *)
Definition picked (n : N) (f : list vid) : bool := N.eqb (len f) n || N.eqb n 0.

Lemma v_no_digit d' : NilEmpty.uint_of_string (String "v" EmptyString) = Some d' -> False.
Proof. discriminate. Qed.

Lemma inset_name_facts iv :
  (array_index (inset_name iv) = None) /\
  (forall x, inset_name iv <> vname x) /\
  (forall jw, inset_name iv = inset_name jw -> iv = jw).
Proof.
  unfold inset_name. repeat split.
  - unfold array_index.
    assert (H : NilEmpty.uint_of_string
                  ("f" ++ show (fst iv) ++ "v" ++ show_vid (snd iv))%string = None).
    { cbn [append NilEmpty.uint_of_string].
      destruct (NilEmpty.uint_of_string _) as [d|]; reflexivity. }
    now rewrite H.
  - intros x. unfold vname. cbn [append]. discriminate.
  - intros jw H. cbn [append] in H. injection H as H.
    apply sep_split in H; try (apply show_sep_free, v_no_digit).
    destruct H as [H1 H2]. apply show_inj in H1. apply show_vid_inj in H2.
    destruct iv, jw; cbn [fst snd] in *. congruence.
Qed.

(** The inset vertices, in the order in which they are declared. *)
Definition inset_pairs (n : N) (rows : list (N * (list vid * (vec * vec)))) : list (N * vid) :=
  flat_map (fun row => if picked n (fst (snd row))
                       then map (pair (fst row)) (fst (snd row)) else [])
           rows.

Lemma inset_pairs_cons n i f nc rows :
  inset_pairs n ((i, (f, nc)) :: rows)
  = (if picked n f then map (pair i) f else []) ++ inset_pairs n rows.
Proof. reflexivity. Qed.

Lemma newV_flags K xyz fl : flags (newV K xyz fl) = flags fl.
Proof. unfold newV. now destruct (obj_get (verts fl) (to_key K)). Qed.

Lemma inset_corner_keys (vs : list vec) i (ni ci : vec) d1 d2 (f : list vid) :
  forall fl fl1,
    foldM (fun fl v =>
             p <- defined (at_vid vs v) ;;
             Ret (newV (JStr ("f" ++ show i ++ "v" ++ show_vid v))
                       (add (tween p ci d1) (mult d2 ni)) fl))
          f fl = Ret fl1 ->
    flags fl1 = flags fl /\
    obj_keys (verts fl1)
    = fold_left add_key (map inset_name (map (pair i) f)) (obj_keys (verts fl)).
Proof.
  induction f as [|v f IHf]; intros fl fl1 E; cbn [foldM] in E.
  - injection E as <-. split; reflexivity.
  - destruct (at_vid vs v); [|discriminate]. cbn [defined bind] in E.
    apply IHf in E as [Efl E]. rewrite E, Efl, newV_flags. cbn [map fold_left].
    rewrite newV_keys by apply (inset_name_facts (i, v)).
    split; reflexivity.
Qed.

Lemma inset_vertices_keys vs n d1 d2 (rows : list (N * (list vid * (vec * vec)))) :
  forall fl fl',
    foldM (inset_vertices vs n d1 d2) rows fl = Ret fl' ->
    flags fl' = flags fl /\
    obj_keys (verts fl')
    = fold_left add_key (map inset_name (inset_pairs n rows)) (obj_keys (verts fl)).
Proof.
  induction rows as [|[i [f [ni ci]]] rows IH]; intros fl fl' H; cbn [foldM] in H.
  - injection H as <-. split; reflexivity.
  - destruct (inset_vertices vs n d1 d2 fl (i, (f, (ni, ci)))) as [fl1|] eqn:E;
      [|discriminate].
    cbn [bind] in H. apply IH in H as [Hfl H].
    rewrite inset_pairs_cons, map_app, fold_left_app, H, Hfl.
    unfold inset_vertices in E. fold (picked n f) in E.
    destruct (picked n f); [|injection E as <-; split; reflexivity].
    apply inset_corner_keys in E as [Efl E]. now rewrite E, Efl.
Qed.

Lemma inset_face_verts n st row : verts (fst (inset_face n st row)) = verts (fst st).
Proof.
  destruct row as [i f]. unfold inset_face.
  set (F := fun (st : polyflag * bool * string) (v : vid) => _).
  assert (H : forall s v, verts (fst (fst (F s v))) = verts (fst (fst s))).
  { intros [[fl0 b0] v1] v. unfold F.
    destruct (N.eqb (len f) n || N.eqb n 0); reflexivity. }
  pose proof (fold_left_invariant
                (fun s => verts (fst (fst s)) = verts (fst st)) F f
                (fun s v Hs => eq_trans (H s v) Hs)
                (fst st, snd st, ("v" ++ show_vid (last f None))%string) eq_refl) as Hf.
  destruct (fold_left F f _) as [[fl1 b1] w]. exact Hf.
Qed.

Lemma inset_faces_verts n rows : forall st,
  verts (fst (fold_left (inset_face n) rows st)) = verts (fst st).
Proof.
  induction rows as [|row rows IH]; intro st; [reflexivity|].
  cbn [fold_left]. now rewrite IH, inset_face_verts.
Qed.

Lemma inset_pairs_count n (fs : list (list vid)) (ncs : list (vec * vec)) :
  List.length ncs = List.length fs ->
  forall start,
    List.length (inset_pairs n (numbered_from start (combine fs ncs)))
    = list_sum (map (@List.length vid) (filter (picked n) fs)).
Proof.
  revert ncs. induction fs as [|f fs IH]; intros [|nc ncs] Hlen start;
    try discriminate; [reflexivity|].
  cbn [combine filter]. rewrite numbered_from_cons, inset_pairs_cons.
  rewrite length_app, (IH ncs) by (cbn in Hlen; lia).
  destruct (picked n f); cbn [map List.length]; [|reflexivity].
  now rewrite list_sum_cons, length_map.
Qed.

Lemma inset_pairs_nodup n (fs : list (list vid)) (ncs : list (vec * vec)) :
  (forall f, In f fs -> NoDup f) ->
  forall start,
    NoDup (inset_pairs n (numbered_from start (combine fs ncs))) /\
    forall iv, In iv (inset_pairs n (numbered_from start (combine fs ncs))) ->
               N.of_nat start <= fst iv.
Proof.
  intro Hfs. revert ncs. induction fs as [|f fs IH]; intros ncs start.
  - split; [constructor | intros iv []].
  - destruct ncs as [|nc ncs]; [split; [constructor | intros iv []]|].
    cbn [combine]. rewrite numbered_from_cons, inset_pairs_cons.
    destruct (IH (fun g Hg => Hfs g (or_intror Hg)) ncs (S start)) as [Hnd Hlow].
    destruct (picked n f).
    + split.
      * apply NoDup_app_parts. repeat split; [|exact Hnd|].
        -- apply NoDup_map_inj; [now intros a b [= ->] | apply Hfs; now left].
        -- intros iv Hiv Hin. apply in_map_iff in Hiv as (v & <- & _).
           apply Hlow in Hin. cbn [fst] in Hin. lia.
      * intros iv Hiv. apply in_app_or in Hiv as [Hiv|Hiv].
        -- apply in_map_iff in Hiv as (v & <- & _). cbn [fst]. lia.
        -- apply Hlow in Hiv. lia.
    + cbn [app]. split; [exact Hnd|]. intros iv Hiv. apply Hlow in Hiv. lia.
Qed.

(** The count that [insetN] adds: the sizes of the picked faces. *)
Definition picked_sides (n : N) (p : polyhedron) : nat :=
  list_sum (map (@List.length vid) (filter (picked n) (faces p))).

(** X19. On a polyhedron whose faces visit no vertex twice, [insetN],
    when it returns, returns the vertices of its argument and one more
    for every vertex of every face that the selector picks (the faces of
    [n] sides, all faces when [n] is 0 or absent). *)
Theorem inset_adds_one_vertex_per_picked_corner p n d1 d2 q log :
  (forall f, In f (faces p) -> NoDup f) ->
  insetN p n d1 d2 = Ret (q, log) ->
  List.length (vertices q) = (List.length (vertices p) + picked_sides (default_n n) p)%nat.
Proof.
  intros Hfs H. unfold insetN in H.
  destruct (normals p) as [ns|] eqn:Hns; [|discriminate]. cbn [bind] in H.
  destruct (centers p) as [cs|] eqn:Hcs; [|discriminate]. cbn [bind] in H.
  destruct (foldM _ _ (old_vertices _ p new_polyflag)) as [fl|] eqn:E; [|discriminate].
  cbn [bind] in H.
  pose proof (inset_faces_verts (default_n n) (indexed (faces p)) (fl, false)) as Hv.
  destruct (fold_left (inset_face (default_n n)) _ _) as [fl2 found].
  cbn [fst] in Hv. unfold assemble in H.
  pose proof (topoly_vertices fl2) as Ht.
  destruct (topoly fl2) as [q0 l]. cbn [fst] in Ht.
  apply ret_pair_inv in H as [-> _]. cbn [set_name vertices].
  rewrite Ht, length_map, Hv, <- (length_map fst). fold (obj_keys (verts fl)).
  apply inset_vertices_keys in E as [_ E]. rewrite E, old_vertices_keys.
  rewrite indexed_numbered.
  assert (Hlen : List.length (combine ns cs) = List.length (faces p)).
  { unfold normals in Hns. unfold centers in Hcs.
    apply mapM_length in Hns, Hcs. rewrite length_combine. lia. }
  destruct (inset_pairs_nodup (default_n n) (faces p) (combine ns cs) Hfs 0) as [Hnd _].
  rewrite add_keys_fresh.
  - rewrite length_app, !length_map, (inset_pairs_count _ _ _ Hlen).
    unfold range, len. now rewrite length_map, length_seq, Nat2N.id.
  - apply NoDup_app_parts. repeat split.
    + apply NoDup_map_inj.
      * intros a b Hab. apply vname_inj in Hab. now injection Hab.
      * unfold range. apply NoDup_map_inj; [apply Nat2N.inj | apply seq_NoDup].
    + apply NoDup_map_inj; [intros a b; apply inset_name_facts | exact Hnd].
    + intros k Hk Hk'. apply in_map_iff in Hk as (i & <- & _).
      apply in_map_iff in Hk' as (iv & Eiv & _).
      now apply (proj1 (proj2 (inset_name_facts iv)) (Some i)).
Qed.

Lemma inset_adds_one_vertex_per_picked_corner_witness :
  exists q log,
    insetN cube (Some 4) None None = Ret (q, log) /\
    List.length (vertices q) = (List.length (vertices cube) + picked_sides 4 cube)%nat.
Proof.
  assert (Hcube : forall f, In f (faces cube) -> NoDup f).
  { intros f Hf.
    assert (H : forallb distinct (faces cube) = true) by (vm_compute; reflexivity).
    rewrite forallb_forall in H. now apply distinct_NoDup, H. }
  destruct (insetN cube (Some 4) None None) as [[q log]|err] eqn:E;
    [|vm_compute in E; discriminate].
  exists q, log. split; [reflexivity|].
  exact (inset_adds_one_vertex_per_picked_corner cube (Some 4) None None q log Hcube E).
Defined.

(** ** Vertices that are named by their number *)

(** Property order: the names that are array indices come first, by
    increasing number, whenever they are declared. *)
Fixpoint increasing (l : list N) : Prop :=
  match l with
  | [] => True
  | x :: r => (forall y, In y r -> x < y) /\ increasing r
  end.

Section IndexKeys.
Context {V : Type}.

(** An object, as its numbered part followed by its other properties. *)
Definition numbered_part (idx : list (N * V)) : obj V :=
  map (fun e => (show (fst e), snd e)) idx.

Definition laid_out (idx : list (N * V)) (plain : obj V) : Prop :=
  increasing (map fst idx) /\
  (forall m, In m (map fst idx) -> m < 4294967295) /\
  (forall k, In k (obj_keys plain) -> array_index k = None).

Fixpoint put (m : N) (v : V) (idx : list (N * V)) : list (N * V) :=
  match idx with
  | [] => [(m, v)]
  | (m', v') :: rest => if m <? m' then (m, v) :: idx else (m', v') :: put m v rest
  end.

Lemma put_keys m v idx x : In x (map fst (put m v idx)) <-> x = m \/ In x (map fst idx).
Proof.
  induction idx as [|[m' v'] idx IH]; cbn [put map fst In]; [intuition|].
  destruct (m <? m'); cbn [map fst In]; [intuition|]. rewrite IH. intuition.
Qed.

Lemma put_entries m v idx e : In e (put m v idx) <-> e = (m, v) \/ In e idx.
Proof.
  induction idx as [|[m' v'] idx IH]; cbn [put In]; [intuition|].
  destruct (m <? m'); cbn [In]; [intuition|]. rewrite IH. intuition.
Qed.

Lemma put_increasing m v idx :
  ~ In m (map fst idx) -> increasing (map fst idx) -> increasing (map fst (put m v idx)).
Proof.
  induction idx as [|[m' v'] idx IH]; cbn [put map fst increasing In]; intros Hm Hinc.
  - split; [intros y [] | exact I].
  - destruct Hinc as [Hlow Hinc]. destruct (N.ltb_spec m m') as [Hlt|Hge].
    + cbn [map fst increasing]. repeat split; auto.
      intros y [<-|Hy]; [exact Hlt|]. specialize (Hlow y Hy). lia.
    + cbn [map fst increasing]. split; [|apply IH; tauto].
      intros y Hy. apply put_keys in Hy as [->|Hy]; [|now apply Hlow].
      assert (m <> m') by (intro; subst; apply Hm; now left). lia.
Qed.

Lemma obj_get_numbered idx plain m :
  laid_out idx plain -> m < 4294967295 ->
  ~ In m (map fst idx) -> obj_get (numbered_part idx ++ plain) (show m) = None.
Proof.
  intros (_ & _ & Hplain) Hm Hnot. apply obj_get_absent.
  unfold obj_keys, numbered_part. rewrite map_app, map_map. cbn [fst].
  intro Hin. apply in_app_or in Hin as [Hin|Hin].
  - apply in_map_iff in Hin as (e & E & He). apply show_inj in E.
    apply Hnot. apply in_map_iff. exists e. split; [exact E | exact He].
  - apply Hplain in Hin. rewrite array_index_show in Hin.
    apply N.ltb_lt in Hm. rewrite Hm in Hin. discriminate.
Qed.

(** A new array index goes to its place among the array indices. *)
Lemma obj_set_numbered idx plain m v :
  laid_out idx plain -> m < 4294967295 -> ~ In m (map fst idx) ->
  obj_set (show m) v (numbered_part idx ++ plain) = numbered_part (put m v idx) ++ plain.
Proof.
  intros (Hinc & Hbound & Hplain) Hm. induction idx as [|[m' v'] idx IH]; intro Hnot.
  - cbn [numbered_part map app put]. destruct plain as [|[k' w] plain].
    + reflexivity.
    + cbn [obj_set].
      assert (Hk' : array_index k' = None) by (apply Hplain; now left).
      destruct (String.eqb_spec (show m) k') as [<-|_].
      * rewrite array_index_show in Hk'. apply N.ltb_lt in Hm. rewrite Hm in Hk'. discriminate.
      * unfold key_before. rewrite array_index_show, Hk'.
        apply N.ltb_lt in Hm. rewrite Hm. reflexivity.
  - cbn [numbered_part map app put obj_set fst snd].
    assert (Hm' : m' < 4294967295) by (apply Hbound; now left).
    assert (Hne : m <> m') by (intro; subst; apply Hnot; now left).
    destruct (String.eqb_spec (show m) (show m')) as [E|_]; [apply show_inj in E; tauto|].
    unfold key_before. rewrite !array_index_show.
    apply N.ltb_lt in Hm, Hm'. rewrite Hm, Hm'.
    destruct (m <? m'); [reflexivity|].
    cbn [numbered_part map app fst snd]. f_equal.
    apply IH.
    + now destruct Hinc.
    + intros x Hx. apply Hbound. now right.
    + intro Hin. apply Hnot. now right.
Qed.

Lemma put_laid_out idx plain m v :
  laid_out idx plain -> m < 4294967295 -> ~ In m (map fst idx) ->
  laid_out (put m v idx) plain.
Proof.
  intros (Hinc & Hbound & Hplain) Hm Hnot. repeat split; [|intros x Hx|exact Hplain].
  - now apply put_increasing.
  - apply put_keys in Hx as [->|Hx]; [exact Hm | now apply Hbound].
Qed.

(** A name that is no array index goes to the end. *)
Lemma obj_set_after idx plain k v :
  laid_out idx plain -> array_index k = None ->
  obj_get (numbered_part idx ++ plain) k = None ->
  obj_set k v (numbered_part idx ++ plain) = numbered_part idx ++ (plain ++ [(k, v)])
  /\ laid_out idx (plain ++ [(k, v)]).
Proof.
  intros (Hinc & Hbound & Hplain) Hk Hget. split.
  - rewrite app_assoc. apply obj_set_append; [now apply obj_get_none_absent|].
    intros k' _. now apply key_before_plain.
  - repeat split; auto. intros k' Hk'. unfold obj_keys in Hk'. rewrite map_app in Hk'.
    apply in_app_or in Hk' as [Hk'|[<-|[]]]; [now apply Hplain | exact Hk].
Qed.

(** The numbers [0 .. n-1], in increasing order, are [range n]. *)
Lemma increasing_range (l : list N) : forall (k : nat) a,
  increasing l -> (forall x, In x l <-> a <= x < a + N.of_nat k) ->
  l = map N.of_nat (seq (N.to_nat a) k).
Proof.
  intros k. revert l. induction k as [|k IH]; intros l a Hinc Hl.
  - destruct l as [|x l]; [reflexivity|]. exfalso.
    assert (H : a <= x < a + N.of_nat 0) by (apply Hl; now left). lia.
  - destruct l as [|x l].
    + exfalso. assert (H : In a []) by (apply Hl; lia). destruct H.
    + destruct Hinc as [Hlow Hinc].
      assert (Hx : x = a).
      { assert (Ha : In a (x :: l)) by (apply Hl; lia).
        destruct Ha as [Ha|Ha]; [exact Ha|].
        specialize (Hlow a Ha).
        assert (H : a <= x < a + N.of_nat (S k)) by (apply Hl; now left). lia. }
      subst x. cbn [seq map]. rewrite N2Nat.id. f_equal.
      replace (S (N.to_nat a)) with (N.to_nat (a + 1)) by lia.
      apply IH; [exact Hinc|]. intro y. split.
      * intro Hy. specialize (Hlow y Hy).
        assert (H : a <= y < a + N.of_nat (S k)) by (apply Hl; now right). lia.
      * intro Hy.
        assert (H : In y (a :: l)) by (apply Hl; lia).
        destruct H as [<-|H]; [lia | exact H].
Qed.
End IndexKeys.

Lemma underscore_not_index s t : array_index (s ++ "_" ++ t)%string = None.
Proof.
  unfold array_index.
  assert (H : NilEmpty.uint_of_string (s ++ "_" ++ t)%string = None).
  { induction s as [|c s IH]; simpl.
    - destruct (NilEmpty.uint_of_string t); reflexivity.
    - simpl in IH. rewrite IH. reflexivity. }
  now rewrite H.
Qed.

(** A loop that records what it has gone through. *)
Lemma foldM_grows {A S} (I : list A -> S -> Prop) (body : S -> A -> res S) l :
  (forall done s a s', I done s -> body s a = Ret s' -> I (done ++ [a]) s') ->
  forall done s s', I done s -> foldM body l s = Ret s' -> I (done ++ l) s'.
Proof.
  intro Hbody. induction l as [|a l IH]; intros done s s' Hs H; cbn [foldM] in H.
  - injection H as <-. now rewrite app_nil_r.
  - destruct (body s a) as [s1|e] eqn:E; [|discriminate]. cbn [bind] in H.
    replace (done ++ a :: l) with ((done ++ [a]) ++ l) by now rewrite <- app_assoc.
    eapply IH; [|exact H]. eapply Hbody; eassumption.
Qed.

Definition declared (v : vid) (fl : polyflag) : Prop :=
  In (show_vid v) (obj_keys (verts fl)).

Lemma newV_declared K c fl v : declared v fl -> declared v (newV K c fl).
Proof.
  unfold declared, newV. destruct (obj_get (verts fl) (to_key K)); [tauto|].
  cbn [verts]. apply obj_set_keys_grow.
Qed.

Lemma newV_declares K c fl v : to_key K = show_vid v -> declared v (newV K c fl).
Proof.
  unfold declared, newV. intros <-.
  destruct (obj_get (verts fl) (to_key K)) eqn:E.
  - destruct (in_dec string_dec (to_key K) (obj_keys (verts fl))) as [Hin|Hnot]; [exact Hin|].
    apply obj_get_absent in Hnot. congruence.
  - cbn [verts]. unfold obj_keys.
    apply (in_map fst _ (to_key K, (0, c))). apply obj_set_in.
Qed.

Section OldVertices.
(** The vertices of the argument, fewer than [2^32 - 1], and what the
    operator does to the position of an old vertex. *)
Variable vs : list vec.
Variable g : vec -> vec.
Hypothesis few : len vs < 4294967295.

(** The vertices declared under a number are old vertices, each under
    its own index and at [g] of its old position. *)
Definition old_first (o : obj (N * vec)) : Prop :=
  exists idx plain,
    o = numbered_part idx ++ plain /\ laid_out idx plain /\
    forall m val, In (m, val) idx ->
      exists p, nth_error vs (N.to_nat m) = Some p /\ val = (0, g p).

Lemma newV_other K c fl :
  array_index (to_key K) = None -> old_first (verts fl) -> old_first (verts (newV K c fl)).
Proof.
  intros HK (idx & plain & Ho & Hlaid & Hval). unfold newV.
  destruct (obj_get (verts fl) (to_key K)) eqn:E.
  - exists idx, plain. auto.
  - cbn [verts]. rewrite Ho in E |- *.
    destruct (obj_set_after idx plain (to_key K) (0, c) Hlaid HK E) as [-> Hlaid'].
    exists idx, (plain ++ [(to_key K, (0, c))]). auto.
Qed.

Lemma newV_old K m p fl :
  to_key K = show m -> nth_error vs (N.to_nat m) = Some p ->
  old_first (verts fl) -> old_first (verts (newV K (g p) fl)).
Proof.
  intros HK Hp (idx & plain & Ho & Hlaid & Hval). unfold newV. rewrite HK.
  assert (Hm : m < 4294967295).
  { assert (N.to_nat m < List.length vs)%nat by (apply nth_error_Some; congruence).
    unfold len in few. lia. }
  destruct (obj_get (verts fl) (show m)) eqn:E.
  - exists idx, plain. auto.
  - cbn [verts]. rewrite Ho in E |- *.
    assert (Hnot : ~ In m (map fst idx)).
    { intro Hin. apply obj_get_none_absent in E. apply E.
      unfold obj_keys, numbered_part. rewrite map_app, map_map. cbn [fst].
      apply in_or_app. left. rewrite <- (map_map fst show). now apply in_map. }
    rewrite (obj_set_numbered idx plain m (0, g p) Hlaid Hm Hnot).
    exists (put m (0, g p) idx), plain. repeat split.
    + now apply put_increasing; [|apply Hlaid].
    + intros x Hx. apply put_keys in Hx as [->|Hx]; [exact Hm|].
      now apply (proj1 (proj2 Hlaid)).
    + apply Hlaid.
    + intros m' val Hin. apply put_entries in Hin as [Hin|Hin]; [|now apply Hval].
      injection Hin as -> ->. now exists p.
Qed.

(** When every old vertex has been declared, the vertices start with
    the old ones, in their order. *)
Lemma old_first_all fl :
  old_first (verts fl) ->
  (forall m, m < len vs -> declared (Some m) fl) ->
  firstn (List.length vs) (vertices (fst (topoly fl))) = map g vs.
Proof.
  intros (idx & plain & Ho & (Hinc & Hbound & Hplain) & Hval) Hall.
  rewrite topoly_vertices, Ho, map_app.
  assert (Hkeys : map fst idx = map N.of_nat (seq 0 (List.length vs))).
  { apply (increasing_range _ _ 0); [exact Hinc|]. intro x. split.
    - intro Hx. apply in_map_iff in Hx as ([m val] & <- & Hin). cbn [fst].
      destruct (Hval m val Hin) as (p & Hp & _).
      assert (N.to_nat m < List.length vs)%nat by (apply nth_error_Some; congruence). lia.
    - intros [_ Hx]. assert (Hd : declared (Some x) fl) by (apply Hall; unfold len; lia).
      unfold declared in Hd. rewrite Ho in Hd. unfold obj_keys in Hd. rewrite map_app in Hd.
      apply in_app_or in Hd as [Hd|Hd].
      + unfold numbered_part in Hd. rewrite map_map in Hd. cbn [fst] in Hd.
        apply in_map_iff in Hd as (e & E & He). apply show_inj in E. subst x.
        now apply in_map.
      + apply Hplain in Hd. cbn [show_vid] in Hd. rewrite array_index_show in Hd.
        assert (Hlt : x < 4294967295) by (unfold len in few; lia).
        apply N.ltb_lt in Hlt. rewrite Hlt in Hd. discriminate. }
  assert (Hvals : map (fun e => snd (snd e)) (numbered_part idx) = map g vs).
  { unfold numbered_part. rewrite map_map. cbn [snd].
    apply nth_error_ext. intro n.
    rewrite !nth_error_map.
    destruct (nth_error idx n) as [[m val]|] eqn:En.
    - assert (Hm : nth_error (map fst idx) n = Some m) by (rewrite nth_error_map, En; reflexivity).
      rewrite Hkeys, nth_error_map in Hm.
      destruct (nth_error (seq 0 (List.length vs)) n) as [j|] eqn:Ej; [|discriminate].
      injection Hm as <-.
      assert (Hn : (n < List.length vs)%nat).
      { assert (Hs : (n < List.length (seq 0 (List.length vs)))%nat)
          by (apply nth_error_Some; congruence).
        now rewrite length_seq in Hs. }
      rewrite nth_error_seq in Ej.
      replace (n <? List.length vs)%nat with true in Ej by (symmetry; now apply Nat.ltb_lt).
      injection Ej as <-. cbn [option_map snd].
      destruct (Hval _ _ (nth_error_In _ _ En)) as (p & Hp & ->).
      rewrite Nat2N.id in Hp. cbn [Nat.add] in Hp. rewrite Hp. reflexivity.
    - cbn [option_map]. apply nth_error_None in En.
      assert (Hlen : List.length idx = List.length vs).
      { rewrite <- (length_map fst idx), Hkeys, length_map, length_seq. reflexivity. }
      destruct (nth_error vs n) eqn:Ev; [|reflexivity].
      exfalso.
      assert (n < List.length vs)%nat by (apply nth_error_Some; congruence). lia. }
  rewrite Hvals.
  rewrite <- (length_map g vs). rewrite firstn_app, Nat.sub_diag, firstn_all.
  cbn [firstn]. apply app_nil_r.
Qed.
End OldVertices.

Lemma indexed_covers {A} (l : list A) x : In x l -> exists i, In (i, x) (indexed l).
Proof.
  intro Hx. rewrite indexed_numbered. rewrite <- (numbered_from_snd l 0) in Hx.
  apply in_map_iff in Hx as ([i y] & E & Hin). cbn [snd] in E. subst y. now exists i.
Qed.

Lemma combine_covers {A B} (l : list A) (r : list B) x :
  List.length r = List.length l -> In x l -> exists y, In (x, y) (combine l r).
Proof.
  revert r. induction l as [|a l IH]; intros r Hlen Hx; [destruct Hx|].
  destruct r as [|b r]; [discriminate|]. cbn [combine In].
  destruct Hx as [->|Hx]; [exists b; now left|].
  destruct (IH r) as (y & Hy); [now injection Hlen | exact Hx |]. exists y. now right.
Qed.

(** Every vertex is on some face. *)
Definition every_vertex_used (p : polyhedron) : Prop :=
  forall m, m < len (vertices p) -> exists f, In f (faces p) /\ In (Some m) f.

(** The distance that [chamfer] works with. *)
Definition chamfer_dist (dist : option float) : float :=
  if falsy dist then 0.5%float else default_arg dist 0.5%float.

Lemma chamfer_face_old vs dist (few : len vs < 4294967295) fl row fl' :
  chamfer_face vs dist fl row = Ret fl' ->
  old_first vs (mult (1 + dist)%float) (verts fl) ->
  old_first vs (mult (1 + dist)%float) (verts fl') /\
  (forall v, declared v fl \/ In v (fst (snd row)) -> declared v fl').
Proof.
  destruct row as [i [f normal_i]]. unfold chamfer_face. intros H Hold.
  match type of H with
  | (r <- foldM ?body f ?s0 ;; _) = _ =>
      destruct (foldM body f s0) as [r|e] eqn:E; [|discriminate];
      pose proof (foldM_grows
        (fun done (st : polyflag * vid * string) =>
           old_first vs (mult (1 + dist)%float) (verts (fst (fst st))) /\
           forall v, declared v fl \/ In v done -> declared v (fst (fst st)))
        body f) as Hloop
  end.
  cbn [bind] in H. injection H as <-. cbn [fst snd].
  apply (Hloop) with (done := []) in E; [exact E| |].
  - clear E Hloop. intros done [[t v1] v1new] v2 s' [Ht Hdecl] Hstep.
    destruct v2 as [m|]; [|discriminate]. cbn [at_vid] in Hstep.
    destruct (nth_error vs (N.to_nat m)) as [p2|] eqn:Hp; [|discriminate].
    cbn [defined bind] in Hstep. injection Hstep as <-. cbn [fst snd verts newFlag].
    split.
    + apply newV_other; [apply underscore_not_index|].
      now apply (newV_old vs _ few (of_vid (Some m)) m p2).
    + intros v Hv. unfold declared. cbn [verts newFlag].
      change (declared v (newV (JStr (show i ++ "_" ++ show_vid (Some m))%string)
                               (add p2 (mult (dist * 1.5)%float normal_i))
                               (newV (of_vid (Some m)) (mult (1 + dist)%float p2) t))).
      apply newV_declared.
      destruct Hv as [Hv|Hv]; [apply newV_declared; apply Hdecl; now left|].
      apply in_app_or in Hv as [Hv|[<-|[]]]; [apply newV_declared; apply Hdecl; now right|].
      now apply newV_declares.
  - cbn [fst]. split; [exact Hold|]. intros v [Hv|[]]. exact Hv.
Qed.

(** X20. [chamfer] keeps the old vertices, under their own indices, and
    moves each of them away from the origin by the factor [1 + dist]:
    when the polyhedron has fewer than [2^32 - 1] vertices and every one
    of them is on some face, the first vertices of the result are the
    old ones times [1 + dist], in the old order.  The new vertices come
    after them. *)
Theorem chamfer_keeps_the_old_vertices p dist q log :
  len (vertices p) < 4294967295 ->
  every_vertex_used p ->
  chamfer p dist = Ret (q, log) ->
  firstn (List.length (vertices p)) (vertices q)
  = map (mult (1 + chamfer_dist dist)%float) (vertices p).
Proof.
  intros few Hused H. unfold chamfer in H. fold (chamfer_dist dist) in H.
  set (d := chamfer_dist dist) in *.
  destruct (normals p) as [ns|] eqn:Hns; [|discriminate]. cbn [bind] in H.
  destruct (foldM _ _ new_polyflag) as [fl|] eqn:Hfl; [|discriminate]. cbn [bind] in H.
  unfold assemble in H.
  pose proof (old_first_all (vertices p) (mult (1 + d)%float) few fl) as Hall.
  destruct (topoly fl) as [newpoly l]. cbn [fst] in Hall.
  apply ret_pair_inv in H as [Hq _]. subst q. cbn [set_name vertices].
  pose proof (foldM_grows
    (fun done fl =>
       old_first (vertices p) (mult (1 + d)%float) (verts fl) /\
       forall row v, In row done -> In v (fst (snd row)) -> declared v fl)
    (chamfer_face (vertices p) d) (indexed (combine (faces p) ns))) as Hloop.
  apply Hloop with (done := []) in Hfl.
  - destruct Hfl as [Hold Hdecl]. apply Hall; [exact Hold|].
    intros m Hm. destruct (Hused m Hm) as (f & Hf & Hin).
    destruct (combine_covers (faces p) ns f) as (n & Hn);
      [now apply mapM_length in Hns | exact Hf |].
    destruct (indexed_covers _ _ Hn) as (i & Hi).
    apply (Hdecl (i, (f, n)) (Some m) Hi Hin).
  - clear Hfl Hloop. intros done t row t' [Hold Hdecl] Hstep.
    destruct (chamfer_face_old _ _ few _ _ _ Hstep Hold) as [Hold' Hgrow].
    split; [exact Hold'|]. intros row' v Hrow Hv. apply Hgrow.
    apply in_app_or in Hrow as [Hrow|[<-|[]]]; [left; now apply (Hdecl row') | now right].
  - split; [|intros row v []].
    exists [], []. split; [reflexivity|]. split; [|intros m val []].
    repeat split; [intros m [] | intros k []].
Qed.

Definition every_vertex_used_b (p : polyhedron) : bool :=
  forallb (fun m => existsb (fun f => existsb (vid_eqb (Some m)) f) (faces p))
          (range (len (vertices p))).

Lemma every_vertex_used_b_sound p : every_vertex_used_b p = true -> every_vertex_used p.
Proof.
  unfold every_vertex_used_b. intros H m Hm. rewrite forallb_forall in H.
  assert (Hin : In m (range (len (vertices p)))).
  { unfold range. apply in_map_iff. exists (N.to_nat m). split; [lia|].
    apply in_seq. lia. }
  specialize (H m Hin).
  destruct (proj1 (existsb_exists _ _) H) as (f & Hf & Hex).
  destruct (proj1 (existsb_exists _ _) Hex) as (v & Hv & E).
  exists f. split; [exact Hf|].
  destruct v as [n|]; [|discriminate]. cbn [vid_eqb] in E. apply N.eqb_eq in E. now subst n.
Qed.

Lemma chamfer_keeps_the_old_vertices_witness :
  exists q log,
    chamfer cube None = Ret (q, log) /\
    firstn 8 (vertices q) = map (mult (1 + 0.5)%float) (vertices cube).
Proof.
  destruct (chamfer cube None) as [[q log]|e] eqn:E; [|vm_compute in E; discriminate].
  exists q, log. split; [reflexivity|].
  apply (chamfer_keeps_the_old_vertices cube None q log).
  - vm_compute. reflexivity.
  - apply every_vertex_used_b_sound. vm_compute. reflexivity.
  - exact E.
Defined.

Lemma slice2_last {A} (a b : option A) (l : list (option A)) :
  snd (slice2 (a :: b :: l)) = last (a :: b :: l) None.
Proof.
  destruct (exists_last (l := a :: b :: l)) as (l' & z & E); [discriminate|].
  rewrite E. rewrite last_last. unfold slice2. rewrite rev_app_distr. cbn [List.rev app].
  destruct l' as [|y l']; [discriminate|].
  destruct (exists_last (l := y :: l')) as (l2 & w & E2); [discriminate|].
  rewrite E2, rev_app_distr. reflexivity.
Qed.

Lemma quinto_face_old vs (few : len vs < 4294967295) fl row fl' :
  quinto_face vs fl row = Ret fl' ->
  old_first vs (fun x => x) (verts fl) ->
  old_first vs (fun x => x) (verts fl') /\
  (forall v, declared v fl \/ In v (snd row) -> declared v fl').
Proof.
  destruct row as [i f]. unfold quinto_face. intros H Hold.
  destruct (mapM _ f) as [coords|]; [|discriminate]. cbn [bind] in H.
  destruct (slice2 f) as [v1 v2] eqn:Hslice.
  match type of H with
  | (r <- foldM ?body f ?s0 ;; _) = _ =>
      destruct (foldM body f s0) as [r|e] eqn:E; [|discriminate];
      pose proof (foldM_grows
        (fun done (st : polyflag * vid * vid) =>
           old_first vs (fun x => x) (verts (fst (fst st))) /\
           snd st = last (v2 :: done) None /\
           forall v, declared v fl \/ In v (removelast (v2 :: done)) ->
                     declared v (fst (fst st)))
        body f) as Hloop
  end.
  cbn [bind] in H. injection H as <-. cbn [fst snd].
  assert (Hend : old_first vs (fun x => x) (verts (fst (fst r))) /\
                 snd r = last (v2 :: [] ++ f) None /\
                 forall v, declared v fl \/ In v (removelast (v2 :: [] ++ f)) ->
                           declared v (fst (fst r))).
  { apply (fun Hb Hi => Hloop Hb [] (fl, v1, v2) r Hi E).
    - clear E Hloop. intros done [[t w1] w2] v3 s' (Ht & Hlast & Hdecl) Hstep.
      cbn [fst snd] in *.
      destruct (at_vid vs w1) as [a|]; [|discriminate]. cbn [defined bind] in Hstep.
      destruct w2 as [m|]; [|discriminate]. cbn [at_vid] in Hstep.
      destruct (nth_error vs (N.to_nat m)) as [b|] eqn:Hb; [|discriminate].
      cbn [bind] in Hstep. injection Hstep as <-. cbn [fst snd verts newFlag].
      set (inner := ("inner_" ++ show i ++ "_" ++ midName w1 (Some m))%string).
      set (t1 := newV (JStr (midName w1 (Some m))) (midpoint a b) t).
      set (t2 := newV (JStr inner) (midpoint (midpoint a b) (calcCentroid coords)) t1).
      change (show_vid (Some m)) with (show m).
      repeat split.
      + apply (newV_old vs (fun x => x) few (JStr (show m)) m b); [reflexivity | exact Hb |].
        apply newV_other; [apply (underscore_not_index "inner")|].
        apply newV_other; [apply (mid_name_not_index (w1, Some m)) | exact Ht].
      + change (v2 :: done ++ [v3]) with ((v2 :: done) ++ [v3]). now rewrite last_last.
      + intros v Hv.
        change (declared v (newV (JStr (show m)) b t2)).
        assert (Hkeep : declared v t -> declared v (newV (JStr (show m)) b t2)).
        { intro Hd. now repeat apply newV_declared. }
        destruct Hv as [Hv|Hv]; [apply Hkeep, Hdecl; now left|].
        change (v2 :: done ++ [v3]) with ((v2 :: done) ++ [v3]) in Hv.
        rewrite removelast_last in Hv.
        rewrite (app_removelast_last None (l := v2 :: done)) in Hv by discriminate.
        apply in_app_or in Hv as [Hv|[Hv|[]]]; [apply Hkeep, Hdecl; now right|].
        rewrite <- Hlast in Hv. subst v. now apply newV_declares.
    - cbn [fst snd last removelast]. repeat split; [exact Hold|].
      intros v [Hv|[]]. exact Hv. }
  cbn [app] in Hend. destruct Hend as (Hold' & _ & Hdecl). split; [exact Hold'|].
  intros v [Hv|Hv]; [apply Hdecl; now left|].
  destruct f as [|x [|y f]].
  - destruct Hv.
  - (* a face of one vertex: the loop reads [vertices[undefined]] *)
    exfalso. cbn in Hslice. injection Hslice as <- <-. cbn [foldM] in E.
    destruct (at_vid vs x); cbn [defined at_vid bind] in E; discriminate.
  - apply Hdecl. right.
    assert (Hv2 : v2 = last (x :: y :: f) None).
    { pose proof (slice2_last x y f) as Hs. unfold vid in *. rewrite Hslice in Hs.
      exact Hs. }
    rewrite Hv2. 
    assert (Hne : x :: y :: f <> []) by discriminate.
    change (removelast (last (x :: y :: f) None :: x :: y :: f))
      with (last (x :: y :: f) None :: removelast (x :: y :: f)).
    rewrite (app_removelast_last None Hne) in Hv.
    apply in_app_or in Hv as [Hv|[Hv|[]]]; [now right | now left].
Qed.

(** X21. [quinto] keeps the old vertices where they are, under their own
    indices: when the polyhedron has fewer than [2^32 - 1] vertices and
    every one of them is on some face, the first vertices of the result
    are the old ones, in the old order.  The edge midpoints and the
    inner points come after them. *)
Theorem quinto_keeps_the_old_vertices p q log :
  len (vertices p) < 4294967295 ->
  every_vertex_used p ->
  quinto p = Ret (q, log) ->
  firstn (List.length (vertices p)) (vertices q) = vertices p.
Proof.
  intros few Hused H. unfold quinto in H.
  destruct (foldM _ _ new_polyflag) as [fl|] eqn:Hfl; [|discriminate]. cbn [bind] in H.
  unfold assemble in H.
  pose proof (old_first_all (vertices p) (fun x => x) few fl) as Hall.
  destruct (topoly fl) as [newpoly l]. cbn [fst] in Hall.
  apply ret_pair_inv in H as [Hq _]. subst q. cbn [set_name vertices].
  rewrite map_id in Hall.
  pose proof (foldM_grows
    (fun done fl =>
       old_first (vertices p) (fun x => x) (verts fl) /\
       forall row v, In row done -> In v (snd row) -> declared v fl)
    (quinto_face (vertices p)) (indexed (faces p))) as Hloop.
  apply Hloop with (done := []) in Hfl.
  - destruct Hfl as [Hold Hdecl]. apply Hall; [exact Hold|].
    intros m Hm. destruct (Hused m Hm) as (f & Hf & Hin).
    destruct (indexed_covers _ _ Hf) as (i & Hi).
    apply (Hdecl (i, f) (Some m) Hi Hin).
  - clear Hfl Hloop. intros done t row t' [Hold Hdecl] Hstep.
    destruct (quinto_face_old _ few _ _ _ Hstep Hold) as [Hold' Hgrow].
    split; [exact Hold'|]. intros row' v Hrow Hv. apply Hgrow.
    apply in_app_or in Hrow as [Hrow|[<-|[]]]; [left; now apply (Hdecl row') | now right].
  - split; [|intros row v []].
    exists [], []. split; [reflexivity|]. split; [|intros m val []].
    repeat split; [intros m [] | intros k []].
Qed.

Lemma quinto_keeps_the_old_vertices_witness :
  exists q log,
    quinto cube = Ret (q, log) /\ firstn 8 (vertices q) = vertices cube.
Proof.
  destruct (quinto cube) as [[q log]|e] eqn:E; [|vm_compute in E; discriminate].
  exists q, log. split; [reflexivity|].
  apply (quinto_keeps_the_old_vertices cube q log).
  - vm_compute. reflexivity.
  - apply every_vertex_used_b_sound. vm_compute. reflexivity.
  - exact E.
Defined.

(** ** The operators that begin with the old vertices *)

(** An object that only got new properties at its end. *)
Definition grows {V} (o o' : obj V) : Prop := exists extra, o' = o ++ extra.

Lemma grows_refl {V} (o : obj V) : grows o o.
Proof. exists []. now rewrite app_nil_r. Qed.

Lemma grows_trans {V} (o1 o2 o3 : obj V) : grows o1 o2 -> grows o2 o3 -> grows o1 o3.
Proof. intros [e1 ->] [e2 ->]. exists (e1 ++ e2). now rewrite app_assoc. Qed.

Lemma newV_grows base K c fl :
  array_index (to_key K) = None ->
  grows base (verts fl) -> grows base (verts (newV K c fl)).
Proof.
  intros HK Hb. apply (grows_trans _ _ _ Hb). rewrite (newV_plain fl K c HK).
  destruct (obj_get (verts fl) (to_key K)); [apply grows_refl|].
  now exists [(to_key K, (0, c))].
Qed.

Lemma old_vertices_verts g p :
  verts (old_vertices g p new_polyflag)
  = old_names (indexed (map g (vertices p))).
Proof.
  unfold old_vertices.
  assert (H : forall (rows : list (N * vec)) fl,
             fold_left (fun fl '(i, xyz) => newV (JStr ("v" ++ show i)) (g xyz) fl) rows fl
             = fold_left (fun fl '(i, xyz) => newV (JStr ("v" ++ show i)) xyz fl)
                         (map (fun row => (fst row, g (snd row))) rows) fl).
  { induction rows as [|[i xyz] rows IH]; intro fl; [reflexivity|].
    cbn [fold_left map fst snd]. apply IH. }
  rewrite H, !indexed_numbered, <- numbered_from_map.
  rewrite (old_vertices_from (map g (vertices p)) 0 new_polyflag); [reflexivity|].
  intros k [].
Qed.

Lemma starts_with_old g p fl :
  grows (verts (old_vertices g p new_polyflag)) (verts fl) ->
  firstn (List.length (vertices p)) (vertices (fst (topoly fl))) = map g (vertices p).
Proof.
  intros [extra E]. rewrite topoly_vertices, E, old_vertices_verts, map_app.
  assert (Hold : map (fun e : string * (N * vec) => snd (snd e))
                     (old_names (indexed (map g (vertices p))))
                 = map g (vertices p)).
  { unfold old_names. rewrite map_map. cbn [snd].
    rewrite indexed_numbered. apply numbered_from_snd. }
  rewrite Hold, <- (length_map g (vertices p)).
  rewrite firstn_app, Nat.sub_diag, firstn_all. cbn [firstn]. apply app_nil_r.
Qed.

(** The first computation of a sequence that returned has returned. *)
Ltac first_returned H r E :=
  match type of H with
  | bind ?m _ = Ret _ => destruct m as [r|] eqn:E; [|discriminate]; cbn [bind] in H
  end.

Section Grows.
Variable base : obj (N * vec).
Variable vs : list vec.

Lemma gyro_face_grows fl row fl' :
  gyro_face vs fl row = Ret fl' -> grows base (verts fl) -> grows base (verts fl').
Proof.
  destruct row as [i f]. unfold gyro_face. destruct (slice2 f) as [v1 v2]. intros H Hb.
  first_returned H r E. injection H as <-. revert E.
  apply foldM_preserves with (P := fun st : polyflag * vid * vid =>
                                     grows base (verts (fst (fst st)))); [|exact Hb].
  clear. intros [[t w1] w2] v s' Ht Hstep. cbn [fst] in Ht.
  destruct (at_vid vs w1); [|discriminate]. cbn [defined bind] in Hstep.
  destruct (at_vid vs w2); [|discriminate]. cbn [defined bind] in Hstep.
  injection Hstep as <-. cbn [fst verts newFlag].
  apply newV_grows; [apply tilde_not_index | exact Ht].
Qed.

Lemma propellor_face_grows fl row fl' :
  propellor_face vs fl row = Ret fl' -> grows base (verts fl) -> grows base (verts fl').
Proof.
  destruct row as [i f]. unfold propellor_face. destruct (slice2 f) as [v1 v2]. intros H Hb.
  first_returned H r E. injection H as <-. revert E.
  apply foldM_preserves with (P := fun st : polyflag * vid * vid =>
                                     grows base (verts (fst (fst st)))); [|exact Hb].
  clear. intros [[t w1] w2] v s' Ht Hstep. cbn [fst] in Ht.
  destruct (at_vid vs w1); [|discriminate]. cbn [defined bind] in Hstep.
  destruct (at_vid vs w2); [|discriminate]. cbn [defined bind] in Hstep.
  injection Hstep as <-. cbn [fst verts newFlag].
  apply newV_grows; [apply tilde_not_index | exact Ht].
Qed.

Lemma whirl_face_grows fl row fl' :
  whirl_face vs fl row = Ret fl' -> grows base (verts fl) -> grows base (verts fl').
Proof.
  destruct row as [i [f center_i]]. unfold whirl_face.
  destruct (slice2 f) as [v1 v2]. intros H Hb.
  first_returned H r E. injection H as <-. revert E.
  apply foldM_preserves with (P := fun st : polyflag * vid * vid =>
                                     grows base (verts (fst (fst st)))); [|exact Hb].
  clear. intros [[t w1] w2] v s' Ht Hstep. cbn [fst] in Ht.
  destruct (at_vid vs w1); [|discriminate]. cbn [defined bind] in Hstep.
  destruct (at_vid vs w2); [|discriminate]. cbn [defined bind] in Hstep.
  injection Hstep as <-. cbn [fst verts newFlag].
  apply newV_grows; [apply (tilde_not_index ("center" ++ show i))|].
  apply newV_grows; [apply tilde_not_index | exact Ht].
Qed.

Lemma inset_vertices_grows n d1 d2 fl row fl' :
  inset_vertices vs n d1 d2 fl row = Ret fl' ->
  grows base (verts fl) -> grows base (verts fl').
Proof.
  destruct row as [i [f [normal_i center_i]]]. unfold inset_vertices. intros H Hb.
  destruct (N.eqb (len f) n || N.eqb n 0); [|now injection H as <-].
  revert H. apply foldM_preserves with (P := fun t => grows base (verts t)); [|exact Hb].
  clear. intros t v t' Ht Hstep.
  destruct (at_vid vs v); [|discriminate]. cbn [defined bind] in Hstep.
  injection Hstep as <-.
  apply newV_grows; [apply (inset_name_facts (i, v)) | exact Ht].
Qed.

Lemma perspectiva1_face_grows fl row fl' :
  perspectiva1_face vs fl row = Ret fl' -> grows base (verts fl) -> grows base (verts fl').
Proof.
  destruct row as [i [f center_i]]. unfold perspectiva1_face. intros H Hb.
  first_returned H r E. injection H as <-. revert E.
  apply foldM_preserves
    with (P := fun st : polyflag * (string * string) * (option vec * option vec) =>
                 grows base (verts (fst (fst st)))); [|exact Hb].
  clear. intros [[t [w1 w2]] [vert1 vert2]] v s' Ht Hstep. cbn [fst] in Ht.
  destruct vert1; [|discriminate]. cbn [defined bind] in Hstep.
  destruct vert2; [|discriminate]. cbn [defined bind] in Hstep.
  injection Hstep as <-. cbn [fst verts newFlag].
  apply newV_grows; [apply tilde_not_index | exact Ht].
Qed.
End Grows.

(** X22. The operators that first declare the old vertices keep them
    first: when [gyro], [propellor] or [whirl] returns, the first
    vertices of the result are the vertices of the argument, each made
    of length one, in their order; when [insetN] or [perspectiva1]
    returns, they are the vertices of the argument as they were.  A
    vertex keeps its index under these operators. *)
Theorem old_vertices_stay_first p :
  (forall q log, gyro p = Ret (q, log) ->
     firstn (List.length (vertices p)) (vertices q) = map unit (vertices p)) /\
  (forall q log, propellor p = Ret (q, log) ->
     firstn (List.length (vertices p)) (vertices q) = map unit (vertices p)) /\
  (forall n q log, whirl p n = Ret (q, log) ->
     firstn (List.length (vertices p)) (vertices q) = map unit (vertices p)) /\
  (forall n d1 d2 q log, insetN p n d1 d2 = Ret (q, log) ->
     firstn (List.length (vertices p)) (vertices q) = vertices p) /\
  (forall q log, perspectiva1 p = Ret (q, log) ->
     firstn (List.length (vertices p)) (vertices q) = vertices p).
Proof.
  assert (Hend : forall g fl nm log0 q log,
             grows (verts (old_vertices g p new_polyflag)) (verts fl) ->
             assemble fl nm log0 = Ret (q, log) ->
             firstn (List.length (vertices p)) (vertices q) = map g (vertices p)).
  { intros g fl nm log0 q log Hg H. unfold assemble in H.
    pose proof (starts_with_old g p fl Hg) as Hs.
    destruct (topoly fl) as [q0 l]. cbn [fst] in Hs.
    apply ret_pair_inv in H as [Hq _]. subst q. exact Hs. }
  repeat split.
  - intros q log H. unfold gyro in H.
    destruct (centers p) as [cs|]; [|discriminate]. cbn [bind] in H.
    destruct (foldM _ (indexed (faces p)) _) as [fl|] eqn:E; [|discriminate].
    cbn [bind] in H. apply (Hend unit _ _ _ _ _) in H; [exact H|].
    revert E. apply foldM_preserves
      with (P := fun t => grows (verts (old_vertices unit p new_polyflag)) (verts t)).
    + intros t row t' Ht Hstep. exact (gyro_face_grows _ _ _ _ _ Hstep Ht).
    + apply fold_left_invariant
        with (P := fun t => grows (verts (old_vertices unit p new_polyflag)) (verts t));
        [|apply grows_refl].
      intros t [i c] Ht. apply newV_grows; [apply (center_name_facts i) | exact Ht].
  - intros q log H. unfold propellor in H.
    destruct (foldM _ (indexed (faces p)) _) as [fl|] eqn:E; [|discriminate].
    cbn [bind] in H. apply (Hend unit _ _ _ _ _) in H; [exact H|].
    revert E. apply foldM_preserves
      with (P := fun t => grows (verts (old_vertices unit p new_polyflag)) (verts t));
      [|apply grows_refl].
    intros t row t' Ht Hstep. exact (propellor_face_grows _ _ _ _ _ Hstep Ht).
  - intros n q log H. unfold whirl in H.
    destruct (centers p) as [cs|]; [|discriminate]. cbn [bind] in H.
    destruct (foldM _ _ _) as [fl|] eqn:E; [|discriminate].
    cbn [bind] in H. apply (Hend unit _ _ _ _ _) in H; [exact H|].
    revert E. apply foldM_preserves
      with (P := fun t => grows (verts (old_vertices unit p new_polyflag)) (verts t));
      [|apply grows_refl].
    intros t row t' Ht Hstep. exact (whirl_face_grows _ _ _ _ _ Hstep Ht).
  - intros n d1 d2 q log H. unfold insetN in H.
    destruct (normals p) as [ns|]; [|discriminate]. cbn [bind] in H.
    destruct (centers p) as [cs|]; [|discriminate]. cbn [bind] in H.
    destruct (foldM _ _ _) as [fl|] eqn:E; [|discriminate]. cbn [bind] in H.
    pose proof (inset_faces_verts (default_n n) (indexed (faces p)) (fl, false)) as Hv.
    destruct (fold_left (inset_face (default_n n)) _ _) as [fl2 found].
    cbn [fst] in Hv.
    apply (Hend (fun xyz => xyz) _ _ _ _ _) in H; [now rewrite map_id in H|].
    rewrite Hv. revert E. apply foldM_preserves
      with (P := fun t => grows (verts (old_vertices (fun xyz => xyz) p new_polyflag))
                                (verts t));
      [|apply grows_refl].
    intros t row t' Ht Hstep. exact (inset_vertices_grows _ _ _ _ _ _ _ _ Hstep Ht).
  - intros q log H. unfold perspectiva1 in H.
    destruct (centers p) as [cs|]; [|discriminate]. cbn [bind] in H.
    destruct (foldM _ _ _) as [fl|] eqn:E; [|discriminate]. cbn [bind] in H.
    apply (Hend (fun xyz => xyz) _ _ _ _ _) in H; [now rewrite map_id in H|].
    revert E. apply foldM_preserves
      with (P := fun t => grows (verts (old_vertices (fun xyz => xyz) p new_polyflag))
                                (verts t));
      [|apply grows_refl].
    intros t row t' Ht Hstep. exact (perspectiva1_face_grows _ _ _ _ _ Hstep Ht).
Qed.

Lemma old_vertices_stay_first_witness :
  exists q log,
    whirl cube None = Ret (q, log) /\
    firstn 8 (vertices q) = map unit (vertices cube).
Proof.
  destruct (whirl cube None) as [[q log]|e] eqn:E; [|vm_compute in E; discriminate].
  exists q, log. split; [reflexivity|].
  exact (proj1 (proj2 (proj2 (old_vertices_stay_first cube))) None q log E).
Defined.

(** ** The vertices of [hollow] *)

Lemma head_not_index c s :
  (forall d, uint_of_char c (Some d) = None) -> array_index (String c s) = None.
Proof.
  intro Hc. unfold array_index. cbn [NilEmpty.uint_of_string].
  destruct (NilEmpty.uint_of_string s) as [d|]; [rewrite Hc|]; reflexivity.
Qed.

(** Lists of names that are declared one group after the other. *)
Lemma NoDup_flat_map {A B} (F : A -> list B) (l : list A) :
  NoDup l ->
  (forall x, In x l -> NoDup (F x)) ->
  (forall x y z, In x l -> In y l -> In z (F x) -> In z (F y) -> x = y) ->
  NoDup (flat_map F l).
Proof.
  induction l as [|a l IH]; intros Hnd HF Hsep; cbn [flat_map]; [constructor|].
  apply NoDup_cons_iff in Hnd as [Ha Hnd].
  apply NoDup_app_parts. repeat split.
  - apply HF. now left.
  - apply IH; [exact Hnd | |].
    + intros x Hx. apply HF. now right.
    + intros x y z Hx Hy. apply Hsep; now right.
  - intros z Hz Hin. apply in_flat_map in Hin as (y & Hy & Hzy).
    assert (E : a = y) by (apply (Hsep a y z); auto; [now left | now right]).
    subst y. contradiction.
Qed.

Lemma NoDup_map_eq {A B} (g : A -> B) (l : list A) x y :
  NoDup (map g l) -> In x l -> In y l -> g x = g y -> x = y.
Proof.
  induction l as [|a l IH]; cbn [map In]; [tauto|]. intros Hnd Hx Hy E.
  apply NoDup_cons_iff in Hnd as [Ha Hnd].
  destruct Hx as [->|Hx], Hy as [->|Hy]; auto.
  - exfalso. apply Ha. rewrite E. now apply in_map.
  - exfalso. apply Ha. rewrite <- E. now apply in_map.
Qed.

Lemma NoDup_map_back {A B} (g : A -> B) (l : list A) : NoDup (map g l) -> NoDup l.
Proof.
  induction l as [|a l IH]; cbn [map]; intro H; [constructor|].
  apply NoDup_cons_iff in H as [Ha H]. constructor; [|now apply IH].
  intro Hin. apply Ha. now apply in_map.
Qed.

Lemma flat_map_pairs_length {A B} (F : A -> list B) (l : list A) :
  (forall x, List.length (F x) = 2%nat) ->
  List.length (flat_map F l) = (2 * List.length l)%nat.
Proof.
  intro HF. induction l as [|a l IH]; [reflexivity|].
  cbn [flat_map List.length]. rewrite length_app, HF, IH. lia.
Qed.

Definition down_name (i : N) : string := ("downv" ++ show i)%string.

Definition fin_name (iv : N * vid) : string :=
  ("fin" ++ show (fst iv) ++ "v" ++ show_vid (snd iv))%string.

Definition findown_name (iv : N * vid) : string :=
  ("findown" ++ show (fst iv) ++ "v" ++ show_vid (snd iv))%string.

(** The two copies of an old vertex, and of a corner of a face. *)
Definition old_pair (i : N) : list string := [vname (Some i); down_name i].

Definition fin_pair (iv : N * vid) : list string := [fin_name iv; findown_name iv].

Lemma d_no_digit d' : NilEmpty.uint_of_string (String "d" EmptyString) = Some d' -> False.
Proof. discriminate. Qed.

Lemma corner_split i v j w :
  (show i ++ "v" ++ show_vid v = show j ++ "v" ++ show_vid w)%string -> (i, v) = (j, w).
Proof.
  intro H. apply sep_split in H; try (apply show_sep_free, v_no_digit).
  destruct H as [H1 H2]. apply show_inj in H1. apply show_vid_inj in H2. congruence.
Qed.

Lemma no_leading_d i s t : (show i ++ "v" ++ s)%string <> ("down" ++ t)%string.
Proof.
  pose proof (show_sep_free "d" i d_no_digit) as Hd.
  destruct (show i) as [|c r]; cbn [append]; [discriminate|].
  intros [= -> _]. cbn [sep_free] in Hd. rewrite Ascii.eqb_refl in Hd. discriminate.
Qed.

Lemma hollow_name_facts :
  (forall i, array_index (down_name i) = None) /\
  (forall iv, array_index (fin_name iv) = None) /\
  (forall iv, array_index (findown_name iv) = None) /\
  (forall i j, In (down_name i) (old_pair j) -> i = j) /\
  (forall i j, In (vname (Some i)) (old_pair j) -> i = j) /\
  (forall iv jw, In (fin_name iv) (fin_pair jw) -> iv = jw) /\
  (forall iv jw, In (findown_name iv) (fin_pair jw) -> iv = jw) /\
  (forall i k jw, In k (old_pair i) -> ~ In k (fin_pair jw)).
Proof.
  repeat split.
  - intro i. apply head_not_index. reflexivity.
  - intro iv. apply head_not_index. reflexivity.
  - intro iv. apply head_not_index. reflexivity.
  - intros i j [H|[H|[]]]; [discriminate|].
    unfold down_name in H. cbn [append] in H. injection H as H. symmetry. now apply show_inj.
  - intros i j [H|[H|[]]]; [|discriminate].
    apply vname_inj in H. now injection H as ->.
  - intros [i v] [j w] [H|[H|[]]]; unfold fin_name, findown_name in H;
      cbn [append fst snd] in H; injection H as H.
    + symmetry. now apply corner_split.
    + exfalso. symmetry in H. revert H. apply no_leading_d.
  - intros [i v] [j w] [H|[H|[]]]; unfold fin_name, findown_name in H;
      cbn [append fst snd] in H; injection H as H.
    + exfalso. revert H. apply no_leading_d.
    + symmetry. now apply corner_split.
  - intros i k jw [<-|[<-|[]]] [H|[H|[]]]; discriminate.
Qed.

Lemma hollow_old_keys (dualnormals : list vec) (thickness : float) (rows : list (N * vec)) :
  forall fl fl',
    foldM (fun fl '(i, p) =>
             let fl := newV (JStr ("v" ++ show i)) p fl in
             dn <- defined (nth_error dualnormals (N.to_nat i)) ;;
             Ret (newV (JStr ("downv" ++ show i))
                       (add p (mult (-1 * thickness)%float dn)) fl))
          rows fl = Ret fl' ->
    obj_keys (verts fl')
    = fold_left add_key (flat_map old_pair (map fst rows)) (obj_keys (verts fl)).
Proof.
  induction rows as [|[i p] rows IH]; intros fl fl' H; cbn [foldM] in H.
  - now injection H as <-.
  - destruct (nth_error dualnormals (N.to_nat i)); [|discriminate].
    cbn [defined bind] in H. apply IH in H. rewrite H.
    cbn [map fst flat_map old_pair app fold_left].
    rewrite (newV_keys _ (JStr ("downv" ++ show i))) by apply hollow_name_facts.
    rewrite (newV_keys _ (JStr ("v" ++ show i))) by apply (vname_not_index (Some i)).
    reflexivity.
Qed.

Lemma hollow_vertices_keys vs d t (rows : list (N * (list vid * (vec * vec)))) :
  forall fl fl',
    foldM (hollow_vertices vs d t) rows fl = Ret fl' ->
    obj_keys (verts fl')
    = fold_left add_key (flat_map fin_pair (inset_pairs 0 rows)) (obj_keys (verts fl)).
Proof.
  induction rows as [|[i [f [ni ci]]] rows IH]; intros fl fl' H; cbn [foldM] in H.
  - now injection H as <-.
  - destruct (hollow_vertices vs d t fl (i, (f, (ni, ci)))) as [fl1|] eqn:E; [|discriminate].
    cbn [bind] in H. apply IH in H. rewrite H, inset_pairs_cons.
    replace (picked 0 f) with true by (unfold picked; now rewrite orb_true_r).
    rewrite flat_map_app, fold_left_app. f_equal.
    clear H IH. unfold hollow_vertices in E. revert fl fl1 E.
    induction f as [|v f IHf]; intros fl fl1 E; cbn [foldM] in E.
    + now injection E as <-.
    + destruct (at_vid vs v); [|discriminate]. cbn [defined bind] in E.
      apply IHf in E. rewrite E. cbn [map flat_map fin_pair app fold_left].
      rewrite (newV_keys _ (JStr ("findown" ++ show i ++ "v" ++ show_vid v)))
        by apply (proj1 (proj2 (proj2 hollow_name_facts)) (i, v)).
      rewrite (newV_keys _ (JStr ("fin" ++ show i ++ "v" ++ show_vid v)))
        by apply (proj1 (proj2 hollow_name_facts) (i, v)).
      reflexivity.
Qed.

Lemma hollow_face_verts fl row : verts (hollow_face fl row) = verts fl.
Proof.
  destruct row as [i f]. unfold hollow_face.
  match goal with
  | |- verts (fst (fold_left ?F f ?s)) = _ =>
      apply (fold_left_invariant (fun st : polyflag * string => verts (fst st) = verts fl) F f)
  end; [|reflexivity].
  intros [t v1] v Ht. exact Ht.
Qed.

Lemma sides_sum p : sides p = list_sum (map (@List.length vid) (faces p)).
Proof.
  unfold sides, directed_edges. induction (faces p) as [|f fs IH]; [reflexivity|].
  cbn [map List.concat]. rewrite length_app, list_sum_cons, IH. f_equal.
  unfold faceToEdges. rewrite <- (length_map snd (edges_from (last f None) f)).
  now rewrite (proj1 (edges_from_ends (last f None) f)).
Qed.

(** X23. On a polyhedron whose faces visit no vertex twice, [hollow],
    when it returns, returns two vertices for every vertex of its
    argument and two for every corner of every face: the outer and the
    inner shell. *)
Theorem hollow_doubles_vertices_and_corners p inset_dist thickness q log :
  (forall f, In f (faces p) -> NoDup f) ->
  hollow p inset_dist thickness = Ret (q, log) ->
  List.length (vertices q) = (2 * List.length (vertices p) + 2 * sides p)%nat.
Proof.
  intros Hfs H. unfold hollow in H.
  first_returned H d Hd. first_returned H dns Hdns.
  first_returned H ns Hns. first_returned H cs Hcs.
  first_returned H fl1 E1. first_returned H fl2 E2.
  assert (Hv : verts (fold_left hollow_face (indexed (faces p)) fl2) = verts fl2).
  { apply (fold_left_invariant (fun t => verts t = verts fl2)); [|reflexivity].
    intros t row Ht. now rewrite hollow_face_verts. }
  unfold assemble in H.
  pose proof (topoly_vertices (fold_left hollow_face (indexed (faces p)) fl2)) as Ht.
  destruct (topoly _) as [q0 l]. cbn [fst] in Ht.
  apply ret_pair_inv in H as [Hq _]. subst q. cbn [set_name vertices].
  rewrite Ht, length_map, Hv, <- (length_map fst). fold (obj_keys (verts fl2)).
  apply hollow_vertices_keys in E2. apply hollow_old_keys in E1.
  rewrite E2, E1. cbn [verts new_polyflag obj_keys map fold_left].
  rewrite (indexed_numbered (vertices p)), numbered_from_fst.
  set (olds := map N.of_nat (seq 0 (List.length (vertices p)))).
  set (corners := inset_pairs 0 (indexed (combine (faces p) (combine ns cs)))).
  assert (Holds : NoDup (flat_map old_pair olds)).
  { apply NoDup_flat_map.
    - apply NoDup_map_inj; [apply Nat2N.inj | apply seq_NoDup].
    - intros i _. unfold old_pair. repeat constructor; [|intros []].
      intros [H|[]]. discriminate.
    - intros i j z _ _ [<-|[<-|[]]] Hz; now apply hollow_name_facts in Hz. }
  assert (Hlen : List.length (combine ns cs) = List.length (faces p)).
  { unfold normals in Hns. unfold centers in Hcs.
    apply mapM_length in Hns, Hcs. rewrite length_combine. lia. }
  assert (Hcorners : NoDup (flat_map fin_pair corners)).
  { apply NoDup_flat_map.
    - unfold corners. rewrite indexed_numbered. now apply inset_pairs_nodup.
    - intros iv _. unfold fin_pair. repeat constructor; [|intros []].
      intros [H|[]]. unfold fin_name, findown_name in H. cbn [append] in H.
      injection H as H. symmetry in H. revert H. apply no_leading_d.
    - intros iv jw z _ _ [<-|[<-|[]]] Hz; now apply hollow_name_facts in Hz. }
  rewrite (add_keys_fresh (flat_map old_pair olds) []) by exact Holds.
  cbn [app]. rewrite add_keys_fresh.
  - rewrite length_app, !(flat_map_pairs_length _ _) by reflexivity.
    unfold olds, corners. rewrite length_map, length_seq.
    rewrite indexed_numbered, (inset_pairs_count 0 _ _ Hlen), sides_sum.
    assert (Hall : forall fs : list (list vid), filter (picked 0) fs = fs).
    { induction fs as [|f fs IH]; [reflexivity|]. cbn [filter].
      replace (picked 0 f) with true by (unfold picked; now rewrite orb_true_r).
      now rewrite IH. }
    now rewrite Hall.
  - apply NoDup_app_parts. repeat split; [exact Holds | exact Hcorners |].
    intros k Hk Hk'. apply in_flat_map in Hk as (i & _ & Hi).
    apply in_flat_map in Hk' as (jw & _ & Hjw).
    now apply (proj2 (proj2 (proj2 (proj2 (proj2 (proj2 (proj2 hollow_name_facts)))))) i k jw).
Qed.

Lemma hollow_doubles_vertices_and_corners_witness :
  exists q log,
    hollow cube None None = Ret (q, log) /\
    List.length (vertices q) = (2 * List.length (vertices cube) + 2 * sides cube)%nat.
Proof.
  assert (Hcube : forall f, In f (faces cube) -> NoDup f).
  { intros f Hf.
    assert (H : forallb distinct (faces cube) = true) by (vm_compute; reflexivity).
    rewrite forallb_forall in H. now apply distinct_NoDup, H. }
  destruct (hollow cube None None) as [[q log]|err] eqn:E;
    [|vm_compute in E; discriminate].
  exists q, log. split; [reflexivity|].
  exact (hollow_doubles_vertices_and_corners cube None None q log Hcube E).
Defined.

(** ** The vertices of [perspectiva1] and [whirl] *)

(** The stellated point of [perspectiva1] on the side from [v1] to [v2]. *)
Definition stella_name (e : vid * vid) : string :=
  (vname (fst e) ++ "~" ++ vname (snd e))%string.

Lemma vname_tilde_free x : tilde_free (vname x) = true.
Proof. unfold vname. cbn [append tilde_free]. apply show_vid_tilde_free. Qed.

Lemma tilde_free_no_tilde s s1 s2 : tilde_free s = true -> s <> (s1 ++ String "~" s2)%string.
Proof.
  intros Hf H. rewrite H in Hf. clear H.
  induction s1 as [|c s1 IH]; cbn [append tilde_free] in Hf; [discriminate|].
  apply andb_prop in Hf as [_ Hf]. now apply IH.
Qed.

Lemma stella_name_inj e e' : stella_name e = stella_name e' -> e = e'.
Proof.
  unfold stella_name. intro H.
  apply tilde_split in H; try apply vname_tilde_free.
  destruct H as [H1 H2]. apply vname_inj in H1, H2.
  destruct e, e'; cbn [fst snd] in *. congruence.
Qed.

Lemma perspectiva1_inner_keys (vs : list vec) (i : N) (center_i : vec) (l : list vid) :
  forall fl a b r,
    foldM
      (fun (st : polyflag * (string * string) * (option vec * option vec)) v =>
         let '(fl, (v1, v2), (vert1, vert2)) := st in
         let v3 := "v" ++ show_vid v in
         let vert3 := at_vid vs v in
         let v12 := v1 ++ "~" ++ v2 in
         let v21 := v2 ++ "~" ++ v1 in
         let v23 := v2 ++ "~" ++ v3 in
         a <- defined vert1 ;;
         b <- defined vert2 ;;
         let fl := newV (JStr v12) (midpoint (midpoint a b) center_i) fl in
         let fl := newFlag (JStr ("in" ++ show i)) (JStr v12) (JStr v23) fl in
         let fl := newFlag (JStr ("f" ++ show i ++ v2)) (JStr v23) (JStr v12) fl in
         let fl := newFlag (JStr ("f" ++ show i ++ v2)) (JStr v12) (JStr v2) fl in
         let fl := newFlag (JStr ("f" ++ show i ++ v2)) (JStr v2) (JStr v23) fl in
         let fl := newFlag (JStr ("f" ++ v12)) (JStr v1) (JStr v21) fl in
         let fl := newFlag (JStr ("f" ++ v12)) (JStr v21) (JStr v12) fl in
         let fl := newFlag (JStr ("f" ++ v12)) (JStr v12) (JStr v1) fl in
         Ret (fl, (v2, v3), (vert2, vert3)))%string
      l (fl, (vname a, vname b), (at_vid vs a, at_vid vs b)) = Ret r ->
    obj_keys (verts (fst (fst r)))
    = fold_left add_key (map stella_name (removelast (edges_from a (b :: l))))
                (obj_keys (verts fl)).
Proof.
  induction l as [|v3 l IH]; intros fl a b r H.
  - cbn [foldM] in H. injection H as <-. reflexivity.
  - cbn [foldM] in H.
    change (removelast (edges_from a (b :: v3 :: l)))
      with ((a, b) :: removelast (edges_from b (v3 :: l))).
    destruct (at_vid vs a) as [pa|]; [|discriminate]. cbn [defined bind] in H.
    destruct (at_vid vs b) as [pb|] eqn:Eb; [|discriminate]. cbn [defined bind] in H.
    rewrite <- Eb in H.
    apply (IH _ b v3) in H. rewrite H. cbn [verts newFlag map fold_left].
    rewrite newV_keys by apply tilde_not_index. reflexivity.
Qed.

Lemma ends_slice2 (f : list vid) :
  List.length f <> 1%nat -> (penultimate f, last f None) = slice2 f.
Proof.
  intro Hlen. destruct f as [|a [|b f]]; [reflexivity | now contradiction Hlen |].
  destruct (exists_last (l := a :: b :: f)) as (l' & z & E); [discriminate|].
  rewrite E. destruct l' as [|y l'] using rev_ind; [discriminate|].
  unfold penultimate, slice2. rewrite !last_last, !rev_app_distr. reflexivity.
Qed.

Lemma perspectiva1_face_keys vs fl i f c fl' :
  List.length f <> 1%nat ->
  perspectiva1_face vs fl (i, (f, c)) = Ret fl' ->
  obj_keys (verts fl')
  = fold_left add_key (map stella_name (visited f)) (obj_keys (verts fl)).
Proof.
  intros Hlen H. unfold perspectiva1_face in H. first_returned H r E.
  injection H as <-. unfold visited. rewrite <- (ends_slice2 f Hlen).
  exact (perspectiva1_inner_keys vs i c f fl (penultimate f) (last f None) r E).
Qed.

Lemma perspectiva1_faces_keys vs (fs : list (list vid)) (cs : list vec) :
  (forall f, In f fs -> List.length f <> 1%nat) ->
  forall start fl fl',
    foldM (perspectiva1_face vs) (numbered_from start (combine fs cs)) fl = Ret fl' ->
    exists done,
      obj_keys (verts fl') = fold_left add_key (map stella_name done) (obj_keys (verts fl)) /\
      (List.length cs = List.length fs -> done = List.concat (map visited fs)) /\
      incl done (List.concat (map visited fs)).
Proof.
  intro Hfs. revert cs. induction fs as [|f fs IH]; intros cs start fl fl' H.
  - cbn [combine numbered_from] in H. injection H as <-. exists []. repeat split.
    intros e [].
  - destruct cs as [|c cs].
    + injection H as <-. exists []. repeat split; [discriminate | intros e []].
    + cbn [combine] in H. rewrite numbered_from_cons in H. cbn [foldM] in H.
      first_returned H fl1 E.
      apply perspectiva1_face_keys in E; [|apply Hfs; now left].
      destruct (IH (fun g Hg => Hfs g (or_intror Hg)) cs (S start) fl1 fl' H)
        as (done & Hkeys & Hall & Hincl).
      exists (visited f ++ done). cbn [map List.concat]. repeat split.
      * now rewrite map_app, fold_left_app, <- E.
      * intro Hlen. rewrite Hall; [reflexivity | now injection Hlen].
      * apply incl_app_app; [apply incl_refl | exact Hincl].
Qed.

(** X24. On a polyhedron where no directed edge is a side twice and no
    face has a single vertex, [perspectiva1], when it returns, returns
    one vertex for every vertex and one for every side of every face of
    its argument. *)
Theorem perspectiva1_vertex_count p q log :
  well_oriented p ->
  perspectiva1 p = Ret (q, log) ->
  List.length (vertices q) = (List.length (vertices p) + sides p)%nat.
Proof.
  intros [Hfs Hnd] H. unfold perspectiva1 in H.
  first_returned H cs Hcs. first_returned H fl E.
  unfold assemble in H. pose proof (topoly_vertices fl) as Ht.
  destruct (topoly fl) as [q0 l]. cbn [fst] in Ht.
  apply ret_pair_inv in H as [Hq _]. subst q. cbn [set_name vertices].
  rewrite Ht, length_map, <- (length_map fst). fold (obj_keys (verts fl)).
  rewrite indexed_numbered in E.
  apply (perspectiva1_faces_keys _ _ _ Hfs) in E as (done & Hkeys & Hall & _).
  rewrite Hall in Hkeys by (unfold centers in Hcs; now apply mapM_length in Hcs).
  rewrite Hkeys, old_vertices_keys, add_keys_fresh.
  - rewrite length_app, !length_map, concat_length_sum.
    unfold range, len, sides, directed_edges.
    now rewrite length_map, length_seq, Nat2N.id.
  - apply NoDup_app_parts. repeat split.
    + apply NoDup_map_inj.
      * intros a b Hab. apply vname_inj in Hab. now injection Hab.
      * unfold range. apply NoDup_map_inj; [apply Nat2N.inj | apply seq_NoDup].
    + apply NoDup_map_inj; [apply stella_name_inj|].
      now apply visited_all_different.
    + intros k Hk Hk'. apply in_map_iff in Hk as (i & <- & _).
      apply in_map_iff in Hk' as (e & Ee & _). symmetry in Ee. revert Ee.
      apply tilde_free_no_tilde, vname_tilde_free.
Qed.

Lemma perspectiva1_vertex_count_witness :
  exists q log,
    perspectiva1 cube = Ret (q, log) /\
    List.length (vertices q) = (List.length (vertices cube) + sides cube)%nat.
Proof.
  assert (Hcube : well_oriented cube)
    by (apply well_oriented_b_sound; vm_compute; reflexivity).
  destruct (perspectiva1 cube) as [[q log]|err] eqn:E; [|vm_compute in E; discriminate].
  exists q, log. split; [reflexivity|].
  exact (perspectiva1_vertex_count cube q log Hcube E).
Defined.

(** The point of [whirl] that face [i] gets next to its vertex [v]. *)
Definition wcenter_name (iv : N * vid) : string :=
  ("center" ++ show (fst iv) ++ "~" ++ show_vid (snd iv))%string.

(** The two vertices that [whirl] declares at a side [e] of face [i]. *)
Definition whirl_pair (ie : N * (vid * vid)) : list string :=
  [tilde_name (snd ie); wcenter_name (fst ie, fst (snd ie))].

Lemma wcenter_name_facts iv :
  (array_index (wcenter_name iv) = None) /\
  (forall jw, wcenter_name iv = wcenter_name jw -> iv = jw) /\
  (forall e, tilde_name e <> wcenter_name iv) /\
  (forall x, vname x <> wcenter_name iv).
Proof.
  destruct iv as [i v]. unfold wcenter_name. cbn [fst snd]. repeat split.
  - apply head_not_index. reflexivity.
  - intros [j w] H. cbn [append fst snd] in H. injection H as H.
    apply tilde_split in H; try apply (show_vid_tilde_free (Some _)).
    destruct H as [H1 H2]. apply show_inj in H1. apply show_vid_inj in H2. congruence.
  - intros [a b] H. unfold tilde_name, tilde in H. cbn [fst snd] in H.
    change ("center" ++ show i ++ "~" ++ show_vid v)%string
      with (("center" ++ show i) ++ String "~" (show_vid v))%string in H.
    apply tilde_split in H;
      [|apply show_vid_tilde_free
       |cbn [append tilde_free]; apply (show_vid_tilde_free (Some i))].
    destruct H as [H _]. destruct a as [n|]; cbn [show_vid] in H; [|discriminate].
    pose proof (show_digits n) as Hn. rewrite H in Hn.
    cbn [append NilEmpty.uint_of_string] in Hn.
    destruct (NilEmpty.uint_of_string (show i)); discriminate.
  - intros x H. unfold vname in H. cbn [append] in H. discriminate.
Qed.

Lemma whirl_inner_keys (vs : list vec) (i : N) (center_i : vec) (l : list vid) :
  forall fl v1 v2 r,
    foldM
      (fun (st : polyflag * vid * vid) v =>
         let '(fl, v1, v2) := st in
         let v3 := v in
         a <- defined (at_vid vs v1) ;;
         b <- defined (at_vid vs v2) ;;
         let v1_2 := oneThird a b in
         let fl := newV (JStr (tilde v1 v2)) v1_2 fl in
         let cv1name := JStr ("center" ++ show i ++ "~" ++ show_vid v1) in
         let cv2name := JStr ("center" ++ show i ++ "~" ++ show_vid v2) in
         let fl := newV cv1name (unit (oneThird center_i v1_2)) fl in
         let fname := JStr (show i ++ "f" ++ show_vid v1) in
         let fl := newFlag fname cv1name (JStr (tilde v1 v2)) fl in
         let fl := newFlag fname (JStr (tilde v1 v2)) (JStr (tilde v2 v1)) fl in
         let fl := newFlag fname (JStr (tilde v2 v1)) (JStr ("v" ++ show_vid v2)) fl in
         let fl := newFlag fname (JStr ("v" ++ show_vid v2)) (JStr (tilde v2 v3)) fl in
         let fl := newFlag fname (JStr (tilde v2 v3)) cv2name fl in
         let fl := newFlag fname cv2name cv1name fl in
         let fl := newFlag (JStr ("c" ++ show i)) cv1name cv2name fl in
         Ret (fl, v2, v3))%string
      l (fl, v1, v2) = Ret r ->
    obj_keys (verts (fst (fst r)))
    = fold_left add_key
        (flat_map whirl_pair (map (pair i) (removelast (edges_from v1 (v2 :: l)))))
        (obj_keys (verts fl)).
Proof.
  induction l as [|v3 l IH]; intros fl v1 v2 r H.
  - cbn [foldM] in H. injection H as <-. reflexivity.
  - cbn [foldM] in H.
    change (removelast (edges_from v1 (v2 :: v3 :: l)))
      with ((v1, v2) :: removelast (edges_from v2 (v3 :: l))).
    destruct (at_vid vs v1); [|discriminate]. cbn [defined bind] in H.
    destruct (at_vid vs v2); [|discriminate]. cbn [defined bind] in H.
    apply IH in H. rewrite H.
    cbn [verts newFlag map flat_map whirl_pair app fold_left fst snd].
    rewrite (newV_keys _ (JStr ("center" ++ show i ++ "~" ++ show_vid v1)))
      by apply (wcenter_name_facts (i, v1)).
    rewrite newV_keys by apply (tilde_name_not_index (v1, v2)). reflexivity.
Qed.

(** The sides of the faces, each with the number of its face. *)
Definition numbered_sides (start : nat) (fs : list (list vid)) : list (N * (vid * vid)) :=
  flat_map (fun row : N * list vid => map (pair (fst row)) (visited (snd row)))
           (numbered_from start fs).

Lemma whirl_faces_keys vs (fs : list (list vid)) : forall (cs : list vec) start fl fl',
  List.length cs = List.length fs ->
  foldM (whirl_face vs) (numbered_from start (combine fs cs)) fl = Ret fl' ->
  obj_keys (verts fl')
  = fold_left add_key (flat_map whirl_pair (numbered_sides start fs)) (obj_keys (verts fl)).
Proof.
  induction fs as [|f fs IH]; intros [|c cs] start fl fl' Hlen H; try discriminate.
  - injection H as <-. reflexivity.
  - cbn [combine] in H. rewrite numbered_from_cons in H. cbn [foldM] in H.
    first_returned H fl1 E. apply IH in H; [|now injection Hlen].
    unfold numbered_sides in *. rewrite numbered_from_cons. cbn [flat_map fst snd].
    rewrite flat_map_app, fold_left_app, H. f_equal.
    unfold whirl_face in E. unfold visited. destruct (slice2 f) as [v1 v2].
    first_returned E r Er. injection E as <-.
    exact (whirl_inner_keys vs _ c f fl v1 v2 r Er).
Qed.

Lemma numbered_sides_facts (fs : list (list vid)) :
  forall start,
    map snd (numbered_sides start fs) = List.concat (map visited fs) /\
    (forall ie, In ie (numbered_sides start fs) -> N.of_nat start <= fst ie) /\
    (forall g : vid * vid -> vid,
       (forall f, In f fs -> NoDup (map g (visited f))) ->
       NoDup (map (fun ie : N * (vid * vid) => (fst ie, g (snd ie)))
                  (numbered_sides start fs))).
Proof.
  induction fs as [|f fs IH]; intro start.
  - repeat split; [intros ie [] | intros; constructor].
  - destruct (IH (S start)) as (Hsnd & Hlow & Hnd).
    unfold numbered_sides in *. rewrite numbered_from_cons. cbn [flat_map fst snd].
    repeat split.
    + rewrite map_app, Hsnd, map_map. cbn [snd map List.concat]. now rewrite map_id.
    + intros ie Hie. apply in_app_or in Hie as [Hie|Hie].
      * apply in_map_iff in Hie as (e & <- & _). cbn [fst]. lia.
      * apply Hlow in Hie. lia.
    + intros g Hfs. rewrite map_app. apply NoDup_app_parts. repeat split.
      * rewrite map_map. cbn [fst snd].
        rewrite <- (map_map g (pair (N.of_nat start))).
        apply NoDup_map_inj; [now intros a b [= ->] | apply Hfs; now left].
      * apply Hnd. intros f' Hf'. apply Hfs. now right.
      * intros k Hk Hk'. apply in_map_iff in Hk as (ie & <- & Hie).
        apply in_map_iff in Hie as (e & <- & _).
        apply in_map_iff in Hk' as (ie' & E & Hie'). apply Hlow in Hie'.
        cbn [fst snd] in E. injection E as E _. lia.
Qed.

(** The loops start every side at another vertex of the face. *)
Lemma visited_starts (f : list vid) :
  List.length f <> 1%nat -> NoDup f -> NoDup (map fst (visited f)).
Proof.
  intros Hlen Hnd. destruct f as [|a [|b f]]; [constructor | now contradiction Hlen |].
  destruct (visited_shape (a :: b :: f)) as (x & R & Hv & He); [cbn [List.length]; lia|].
  rewrite Hv. cbn [map].
  assert (Hrot : NoDup (map fst R ++ [fst x])).
  { replace (map fst R ++ [fst x]) with (map fst (R ++ [x])) by (now rewrite map_app).
    rewrite <- He. unfold faceToEdges.
    rewrite (proj2 (edges_from_ends _ _)).
    destruct (exists_last (l := a :: b :: f)) as (l' & z & E); [discriminate|].
    rewrite E, last_last.
    change (z :: l' ++ [z]) with ((z :: l') ++ [z]). rewrite removelast_last.
    rewrite E in Hnd. apply NoDup_app_parts in Hnd as (Hl' & _ & Hz).
    constructor; [|exact Hl']. intro Hin. apply (Hz z Hin). now left. }
  apply NoDup_app_parts in Hrot as (HR & _ & Hx).
  constructor; [|exact HR]. intro Hin. apply (Hx _ Hin). now left.
Qed.

(** X25. On a polyhedron where no directed edge is a side twice, and no
    face has a single vertex or visits a vertex twice, [whirl], when it
    returns, returns one vertex for every vertex of its argument and two
    for every side of every face. *)
Theorem whirl_vertex_count p n q log :
  well_oriented p ->
  (forall f, In f (faces p) -> NoDup f) ->
  whirl p n = Ret (q, log) ->
  List.length (vertices q) = (List.length (vertices p) + 2 * sides p)%nat.
Proof.
  intros [Hfs Hnd] Hsimple H. unfold whirl in H.
  first_returned H cs Hcs. first_returned H fl E.
  unfold assemble in H. pose proof (topoly_vertices fl) as Ht.
  destruct (topoly fl) as [q0 l]. cbn [fst] in Ht.
  apply ret_pair_inv in H as [Hq _]. subst q. cbn [set_name vertices].
  rewrite Ht, length_map, <- (length_map fst). fold (obj_keys (verts fl)).
  rewrite indexed_numbered in E.
  apply whirl_faces_keys in E; [|unfold centers in Hcs; now apply mapM_length in Hcs].
  destruct (numbered_sides_facts (faces p) 0) as (Hsnd & _ & Hcorner).
  assert (Hsides : NoDup (map snd (numbered_sides 0 (faces p)))).
  { rewrite Hsnd. now apply visited_all_different. }
  assert (Hcorners : NoDup (map (fun ie : N * (vid * vid) => (fst ie, fst (snd ie)))
                                (numbered_sides 0 (faces p)))).
  { apply (Hcorner fst). intros f Hf.
    apply visited_starts; [now apply Hfs | now apply Hsimple]. }
  rewrite E, old_vertices_keys, add_keys_fresh.
  - rewrite length_app, (flat_map_pairs_length whirl_pair) by reflexivity.
    rewrite <- (length_map snd (numbered_sides 0 (faces p))), Hsnd, concat_length_sum.
    unfold range, len, sides, directed_edges.
    now rewrite !length_map, length_seq, Nat2N.id.
  - apply NoDup_app_parts. repeat split.
    + apply NoDup_map_inj.
      * intros a b Hab. apply vname_inj in Hab. now injection Hab.
      * unfold range. apply NoDup_map_inj; [apply Nat2N.inj | apply seq_NoDup].
    + apply NoDup_flat_map.
      * exact (NoDup_map_back _ _ Hsides).
      * intros ie _. unfold whirl_pair. repeat constructor; [|intros []].
        intros [Hk|[]]. symmetry in Hk. revert Hk. apply wcenter_name_facts.
      * intros x y z Hx Hy [<-|[<-|[]]] [Hz|[Hz|[]]].
        -- apply tilde_name_inj in Hz. symmetry in Hz.
           exact (NoDup_map_eq snd _ x y Hsides Hx Hy Hz).
        -- exfalso. symmetry in Hz. revert Hz. apply wcenter_name_facts.
        -- exfalso. revert Hz. apply wcenter_name_facts.
        -- apply wcenter_name_facts in Hz. symmetry in Hz.
           exact (NoDup_map_eq _ _ x y Hcorners Hx Hy Hz).
    + intros k Hk Hk'. apply in_map_iff in Hk as (i & <- & _).
      apply in_flat_map in Hk' as (ie & _ & [Hz|[Hz|[]]]).
      * symmetry in Hz. revert Hz. apply vname_no_tilde.
      * symmetry in Hz. revert Hz. apply wcenter_name_facts.
Qed.

Lemma whirl_vertex_count_witness :
  exists q log,
    whirl cube None = Ret (q, log) /\
    List.length (vertices q) = (List.length (vertices cube) + 2 * sides cube)%nat.
Proof.
  assert (Hcube : well_oriented cube)
    by (apply well_oriented_b_sound; vm_compute; reflexivity).
  assert (Hsimple : forall f, In f (faces cube) -> NoDup f).
  { intros f Hf.
    assert (H : forallb distinct (faces cube) = true) by (vm_compute; reflexivity).
    rewrite forallb_forall in H. now apply distinct_NoDup, H. }
  destruct (whirl cube None) as [[q log]|err] eqn:E; [|vm_compute in E; discriminate].
  exists q, log. split; [reflexivity|].
  exact (whirl_vertex_count cube None q log Hcube Hsimple E).
Defined.

(** ** The vertices of [canonicalXYZ] and [adjustXYZ] *)

Lemma reciprocal_lengths q vs :
  reciprocalN q = Ret vs \/ reciprocalC q = Ret vs ->
  List.length vs = List.length (faces q).
Proof.
  intros [H|H].
  - unfold reciprocalN in H. now apply mapM_length in H.
  - unfold reciprocalC in H. destruct (centers q) as [cs|] eqn:Hcs; [|discriminate].
    cbn [bind] in H. injection H as <-.
    assert (Hkeep : forall (l acc : list vec),
               fold_left (fun (centers : list vec) c =>
                            let c := mult (1.0 / dot c c) c in centers) l acc = acc).
    { induction l as [|c l IH]; intro acc; [reflexivity | apply IH]. }
    rewrite Hkeep. unfold centers in Hcs. now apply mapM_length in Hcs.
Qed.

Lemma reciprocate_lengths (recip : polyhedron -> res (list vec)) :
  (forall q vs, recip q = Ret vs -> List.length vs = List.length (faces q)) ->
  forall count poly d q,
    reciprocate recip (S count) poly d = Ret q ->
    exists d0, d = Ret d0 /\ List.length (vertices q) = List.length (faces d0).
Proof.
  intros Hrecip count. induction count as [|count IH]; intros poly d q H.
  - cbn [reciprocate] in H.
    destruct (recip poly) as [dv|]; [|discriminate]. cbn [bind] in H.
    destruct d as [d0|]; [|discriminate]. cbn [bind] in H.
    destruct (recip (set_vertices dv d0)) as [pv|] eqn:Epv; [|discriminate].
    cbn [bind] in H. injection H as <-. exists d0. split; [reflexivity|].
    apply Hrecip in Epv. exact Epv.
  - remember (S count) as k eqn:Ek. cbn [reciprocate] in H.
    destruct (recip poly) as [dv|]; [|discriminate]. cbn [bind] in H.
    destruct d as [d0|]; [|discriminate]. cbn [bind] in H.
    destruct (recip (set_vertices dv d0)) as [pv|]; [|discriminate].
    cbn [bind] in H. subst k. apply IH in H as (d1 & E & Hlen).
    injection E as <-. exists d0. split; [reflexivity | exact Hlen].
Qed.

(** X26. [canonicalXYZ] and [adjustXYZ] give the polyhedron the
    reciprocals of its dual: when one of them returns after at least one
    round, the dual was computed and the result has one vertex for every
    face of the dual (not for every vertex of the argument); with a
    negative number of rounds the vertices are those of the argument. *)
Theorem reciprocal_relaxation_vertex_count p n q log :
  canonicalXYZ p n = Ret (q, log) \/ adjustXYZ p n = Ret (q, log) ->
  if (0 <? default_iterations n)%Z
  then exists d l, dual p = Ret (d, l) /\
                   List.length (vertices q) = List.length (faces d)
  else vertices q = vertices p.
Proof.
  assert (Hgen : forall recip banner,
             (forall q vs, recip q = Ret vs -> List.length vs = List.length (faces q)) ->
             reciprocal_relaxation recip banner p n = Ret (q, log) ->
             if (0 <? default_iterations n)%Z
             then exists d l, dual p = Ret (d, l) /\
                              List.length (vertices q) = List.length (faces d)
             else vertices q = vertices p).
  { intros recip banner Hrecip H. unfold reciprocal_relaxation in H.
    destruct (Z.ltb_spec 0 (default_iterations n)) as [Hpos|Hneg].
    - destruct (Z.to_nat (default_iterations n)) as [|count] eqn:Ecount; [lia|].
      destruct (dual p) as [[d l]|[]] eqn:Hd; try discriminate;
        first_returned H r E; apply ret_pair_inv in H as [Hq _]; subst q;
        apply (reciprocate_lengths recip Hrecip) in E as (d0 & Ed & Hlen);
        try discriminate.
      injection Ed as <-. exists d, l. split; [reflexivity | exact Hlen].
    - replace (Z.to_nat (default_iterations n)) with 0%nat in H by lia.
      cbn [reciprocate] in H.
      destruct (dual p) as [[d l]|[]]; try discriminate;
        cbn [bind] in H; apply ret_pair_inv in H as [Hq _]; now subst q. }
  intros [H|H].
  - apply (Hgen reciprocalN _) in H; [exact H|].
    intros q0 vs0 E. apply reciprocal_lengths. now left.
  - apply (Hgen reciprocalC _) in H; [exact H|].
    intros q0 vs0 E. apply reciprocal_lengths. now right.
Qed.

Lemma reciprocal_relaxation_vertex_count_witness :
  exists q log d l,
    adjustXYZ cube None = Ret (q, log) /\ dual cube = Ret (d, l) /\
    List.length (vertices q) = List.length (faces d).
Proof.
  destruct (adjustXYZ cube None) as [[q log]|e] eqn:E; [|vm_compute in E; discriminate].
  destruct (reciprocal_relaxation_vertex_count cube None q log (or_intror E))
    as (d & l & Hd & Hlen).
  exists q, log, d, l. repeat split; assumption.
Defined.

(** ** The faces of [gyro], [propellor] and [whirl] *)

Lemma sep_not_index c s t :
  (forall d, uint_of_char c (Some d) = None) -> array_index (s ++ String c t) = None.
Proof.
  intro Hc. unfold array_index.
  assert (H : NilEmpty.uint_of_string (s ++ String c t) = None).
  { induction s as [|a s IH]; cbn [append NilEmpty.uint_of_string].
    - destruct (NilEmpty.uint_of_string t) as [d|]; [apply Hc | reflexivity].
    - now rewrite IH. }
  now rewrite H.
Qed.

(** A face name that is no array index goes to the end of the names. *)
Lemma obj_set_plain_add {V} k (v : V) (o : obj V) :
  array_index k = None -> obj_keys (obj_set k v o) = add_key (obj_keys o) k.
Proof.
  intro Hk. unfold add_key, obj_keys.
  induction o as [|[k0 v0] o IH]; cbn [obj_set map fst existsb]; [reflexivity|].
  destruct (String.eqb_spec k k0) as [->|Hne]; cbn [orb map fst]; [reflexivity|].
  rewrite (key_before_plain k k0 Hk). cbn [map fst]. rewrite IH.
  now destruct (existsb (String.eqb k) (map fst o)).
Qed.

Definition face_names (fl : polyflag) : list string := obj_keys (flags fl).

Lemma newFlag_names F a b fl :
  array_index (to_key F) = None ->
  face_names (newFlag F a b fl) = add_key (face_names fl) (to_key F).
Proof. intro HF. unfold face_names, newFlag. cbn [flags]. now apply obj_set_plain_add. Qed.

Lemma newV_names K c fl : face_names (newV K c fl) = face_names fl.
Proof. unfold face_names. now rewrite newV_flags. Qed.

Lemma add_key_again ks k : add_key (add_key ks k) k = add_key ks k.
Proof.
  unfold add_key. destruct (existsb (String.eqb k) ks) eqn:E.
  - now rewrite E.
  - rewrite existsb_app. cbn [existsb]. now rewrite String.eqb_refl, E.
Qed.

Lemma topoly_faces_count fl :
  List.length (faces (fst (topoly fl))) = List.length (face_names fl).
Proof.
  unfold topoly.
  destruct (topoly_loop_outcomes
              (map (fun '(k, (ctr, _)) => (k, ctr)) (number_vertices (verts fl)))
              (flags fl) [] JUndef []) as (outs & v' & Hfold & Hall).
  rewrite Hfold. cbn [fst faces app]. apply Forall2_length in Hall.
  unfold face_names, obj_keys. now rewrite !length_map.
Qed.

(** The number of names is the number of different names declared. *)
Lemma add_keys_count ks L :
  NoDup L -> (forall k, In k ks <-> In k L) ->
  List.length (fold_left add_key ks []) = List.length L.
Proof.
  intros HL Hsame.
  assert (Hnd : NoDup (fold_left add_key ks [])) by (apply add_keys_nodup; constructor).
  assert (Hin : forall k, In k (fold_left add_key ks []) <-> In k L).
  { intro k. rewrite add_keys_in. cbn [In]. rewrite <- Hsame. tauto. }
  apply Nat.le_antisymm; apply NoDup_incl_length; auto; intros k Hk; now apply Hin.
Qed.

(** The face that [gyro], [propellor] and [whirl] name after a face and
    one of its vertices. *)
Definition corner_face (iv : N * vid) : string :=
  (show (fst iv) ++ "f" ++ show_vid (snd iv))%string.

Lemma f_no_digit d' : NilEmpty.uint_of_string (String "f" EmptyString) = Some d' -> False.
Proof. discriminate. Qed.

Lemma corner_face_facts iv :
  (array_index (corner_face iv) = None) /\
  (forall jw, corner_face iv = corner_face jw -> iv = jw) /\
  (forall c s, sep_free c "0123456789f" = true -> corner_face iv <> String c s).
Proof.
  destruct iv as [i v]. unfold corner_face. cbn [fst snd]. repeat split.
  - apply sep_not_index. reflexivity.
  - intros [j w] H. cbn [fst snd] in H.
    apply sep_split in H; try (apply show_sep_free, f_no_digit).
    destruct H as [H1 H2]. apply show_inj in H1. apply show_vid_inj in H2. congruence.
  - intros c s Hc H.
    assert (Hfree : sep_free c (show i) = true).
    { apply show_sep_free. intros d' Hd.
      cbn [NilEmpty.uint_of_string] in Hd. unfold uint_of_char in Hd.
      destruct c as [[] [] [] [] [] [] [] []]; cbn in Hd, Hc; discriminate. }
    destruct (show i) as [|a r] eqn:Ei; cbn [append] in H.
    + injection H as <- _. discriminate.
    + injection H as -> _. cbn [sep_free] in Hfree.
      rewrite Ascii.eqb_refl in Hfree. discriminate.
Qed.

Lemma old_vertices_names g p : face_names (old_vertices g p new_polyflag) = [].
Proof.
  unfold old_vertices.
  apply (fold_left_invariant (fun t => face_names t = [])); [|reflexivity].
  intros t [i xyz] Ht. now rewrite newV_names.
Qed.

(** Every face with a side has its number among the numbered sides. *)
Lemma numbered_sides_faces (fs : list (list vid)) :
  (forall f, In f fs -> f <> []) ->
  forall start i,
    In i (map fst (numbered_sides start fs))
    <-> In i (map N.of_nat (seq start (List.length fs))).
Proof.
  intro Hfs. induction fs as [|f fs IH]; intros start i; [reflexivity|].
  unfold numbered_sides in *. rewrite numbered_from_cons.
  cbn [flat_map fst snd List.length seq map In].
  rewrite map_app, in_app_iff, map_map. cbn [fst].
  rewrite (IH (fun g Hg => Hfs g (or_intror Hg)) (S start) i).
  assert (Hne : visited f <> []).
  { intro E. apply (f_equal (@List.length (vid * vid))) in E.
    rewrite visited_length in E. destruct f; [|discriminate].
    now apply (Hfs []); [left|]. }
  split; intros [H|H]; auto.
  - apply in_map_iff in H as (e & <- & _). now left.
  - left. destruct (visited f) as [|e r]; [contradiction|]. now left.
Qed.

(** The loops end every side at another vertex of the face. *)
Lemma visited_ends (f : list vid) :
  List.length f <> 1%nat -> NoDup f -> NoDup (map snd (visited f)).
Proof.
  intros Hlen Hnd. destruct f as [|a [|b f]]; [constructor | now contradiction Hlen |].
  destruct (visited_shape (a :: b :: f)) as (x & R & Hv & He); [cbn [List.length]; lia|].
  rewrite Hv. cbn [map].
  assert (Hrot : NoDup (map snd R ++ [snd x])).
  { replace (map snd R ++ [snd x]) with (map snd (R ++ [x])) by (now rewrite map_app).
    rewrite <- He. unfold faceToEdges. now rewrite (proj1 (edges_from_ends _ _)). }
  apply NoDup_app_parts in Hrot as (HR & _ & Hx).
  constructor; [|exact HR]. intro Hin. apply (Hx _ Hin). now left.
Qed.

(** The names of the faces that a loop over the faces declares, when the
    loop over the sides of face [i] declares the names [G (i, e)]. *)
Lemma rows_names (face_step : polyflag -> N * list vid -> res polyflag)
    (G : N * (vid * vid) -> list string) (fs : list (list vid)) :
  (forall fl i f fl', face_step fl (i, f) = Ret fl' ->
     face_names fl'
     = fold_left add_key (flat_map G (map (pair i) (visited f))) (face_names fl)) ->
  forall start fl fl',
    foldM face_step (numbered_from start fs) fl = Ret fl' ->
    face_names fl'
    = fold_left add_key (flat_map G (numbered_sides start fs)) (face_names fl).
Proof.
  intro Hstep. induction fs as [|f fs IH]; intros start fl fl' H.
  - injection H as <-. reflexivity.
  - rewrite numbered_from_cons in H. cbn [foldM] in H. first_returned H fl1 E.
    apply IH in H. apply Hstep in E.
    unfold numbered_sides in *. rewrite numbered_from_cons. cbn [flat_map fst snd].
    now rewrite flat_map_app, fold_left_app, <- E.
Qed.

Lemma gyro_face_names vs fl i f fl' :
  gyro_face vs fl (i, f) = Ret fl' ->
  face_names fl'
  = fold_left add_key
      (flat_map (fun ie : N * (vid * vid) => [corner_face (fst ie, fst (snd ie))])
                (map (pair i) (visited f)))
      (face_names fl).
Proof.
  unfold gyro_face, visited. destruct (slice2 f) as [v1 v2]. intro H.
  first_returned H r E. injection H as <-. revert fl v1 v2 r E.
  induction f as [|v3 l IH]; intros fl v1 v2 r H.
  - cbn [foldM] in H. injection H as <-. reflexivity.
  - cbn [foldM] in H.
    change (removelast (edges_from v1 (v2 :: v3 :: l)))
      with ((v1, v2) :: removelast (edges_from v2 (v3 :: l))).
    destruct (at_vid vs v1); [|discriminate]. cbn [defined bind] in H.
    destruct (at_vid vs v2); [|discriminate]. cbn [defined bind] in H.
    apply IH in H. rewrite H. cbn [map flat_map app fold_left fst snd]. f_equal.
    rewrite !newFlag_names by apply (corner_face_facts (i, v1)).
    rewrite newV_names. cbn [to_key]. fold (corner_face (i, v1)).
    now rewrite !add_key_again.
Qed.

Lemma propellor_face_names vs fl i f fl' :
  propellor_face vs fl (i, f) = Ret fl' ->
  face_names fl'
  = fold_left add_key
      (flat_map (fun ie : N * (vid * vid) =>
                   [vname (Some (fst ie)); corner_face (fst ie, snd (snd ie))])
                (map (pair i) (visited f)))
      (face_names fl).
Proof.
  unfold propellor_face, visited. destruct (slice2 f) as [v1 v2]. intro H.
  first_returned H r E. injection H as <-. revert fl v1 v2 r E.
  induction f as [|v3 l IH]; intros fl v1 v2 r H.
  - cbn [foldM] in H. injection H as <-. reflexivity.
  - cbn [foldM] in H.
    change (removelast (edges_from v1 (v2 :: v3 :: l)))
      with ((v1, v2) :: removelast (edges_from v2 (v3 :: l))).
    destruct (at_vid vs v1); [|discriminate]. cbn [defined bind] in H.
    destruct (at_vid vs v2); [|discriminate]. cbn [defined bind] in H.
    apply IH in H. rewrite H. cbn [map flat_map app fold_left fst snd]. f_equal.
    rewrite !(newFlag_names (JStr (show i ++ "f" ++ show_vid v2)))
      by apply (corner_face_facts (i, v2)).
    rewrite (newFlag_names (JStr ("v" ++ show i))) by apply (vname_not_index (Some i)).
    rewrite newV_names. cbn [to_key].
    fold (corner_face (i, v2)). fold (vname (Some i)).
    now rewrite !add_key_again.
Qed.

Definition cface_name (i : N) : string := ("c" ++ show i)%string.

Lemma whirl_rows_names vs (fs : list (list vid)) : forall (cs : list vec) start fl fl',
  List.length cs = List.length fs ->
  foldM (whirl_face vs) (numbered_from start (combine fs cs)) fl = Ret fl' ->
  face_names fl'
  = fold_left add_key
      (flat_map (fun ie : N * (vid * vid) =>
                   [corner_face (fst ie, fst (snd ie)); cface_name (fst ie)])
                (numbered_sides start fs))
      (face_names fl).
Proof.
  induction fs as [|f fs IH]; intros [|c cs] start fl fl' Hlen H; try discriminate.
  - injection H as <-. reflexivity.
  - cbn [combine] in H. rewrite numbered_from_cons in H. cbn [foldM] in H.
    first_returned H fl1 E. apply IH in H; [|now injection Hlen].
    unfold numbered_sides in *. rewrite numbered_from_cons. cbn [flat_map fst snd].
    rewrite flat_map_app, fold_left_app, H. f_equal.
    clear H IH Hlen. unfold whirl_face in E. unfold visited.
    destruct (slice2 f) as [v1 v2].
    first_returned E r Er. injection E as <-. revert fl v1 v2 r Er.
    generalize (N.of_nat start). intro i.
    induction f as [|v3 l IH]; intros fl v1 v2 r H.
    + cbn [foldM] in H. injection H as <-. reflexivity.
    + cbn [foldM] in H.
      change (removelast (edges_from v1 (v2 :: v3 :: l)))
        with ((v1, v2) :: removelast (edges_from v2 (v3 :: l))).
      destruct (at_vid vs v1); [|discriminate]. cbn [defined bind] in H.
      destruct (at_vid vs v2); [|discriminate]. cbn [defined bind] in H.
      apply IH in H. rewrite H. cbn [map flat_map app fold_left fst snd]. f_equal.
      rewrite (newFlag_names (JStr ("c" ++ show i))) by (apply head_not_index; reflexivity).
      rewrite !(newFlag_names (JStr (show i ++ "f" ++ show_vid v1)))
        by apply (corner_face_facts (i, v1)).
      rewrite !newV_names. cbn [to_key].
      fold (corner_face (i, v1)). fold (cface_name i).
      now rewrite !add_key_again.
Qed.

(** Every face has at least two entries, all different. *)
Definition proper_faces (p : polyhedron) : Prop :=
  forall f, In f (faces p) -> (2 <= List.length f)%nat /\ NoDup f.

(** X27. On a polyhedron whose faces have each at least two entries, all
    different, with [F] faces and [S] sides of faces in all: [gyro],
    when it returns, returns [S] faces, one for every corner of every
    face; [propellor] and [whirl] return [F + S] faces, the old faces
    turned and one more for every corner. *)
Theorem gyro_propellor_whirl_face_counts p :
  proper_faces p ->
  (forall q log, gyro p = Ret (q, log) -> List.length (faces q) = sides p) /\
  (forall q log, propellor p = Ret (q, log) ->
     List.length (faces q) = (List.length (faces p) + sides p)%nat) /\
  (forall n q log, whirl p n = Ret (q, log) ->
     List.length (faces q) = (List.length (faces p) + sides p)%nat).
Proof.
  intro Hp.
  set (items := numbered_sides 0 (faces p)).
  destruct (numbered_sides_facts (faces p) 0) as (Hsnd & _ & Hcorner).
  fold items in Hsnd, Hcorner.
  assert (Hitems : List.length items = sides p).
  { rewrite <- (length_map snd items), Hsnd, concat_length_sum. reflexivity. }
  assert (Hfirst : NoDup (map corner_face
                            (map (fun ie : N * (vid * vid) => (fst ie, fst (snd ie))) items))).
  { apply NoDup_map_inj; [intros a b; apply corner_face_facts|].
    apply (Hcorner fst). intros f Hf. destruct (Hp f Hf) as [Hlen Hnd].
    apply visited_starts; [lia | exact Hnd]. }
  assert (Hsecond : NoDup (map corner_face
                             (map (fun ie : N * (vid * vid) => (fst ie, snd (snd ie))) items))).
  { apply NoDup_map_inj; [intros a b; apply corner_face_facts|].
    apply (Hcorner snd). intros f Hf. destruct (Hp f Hf) as [Hlen Hnd].
    apply visited_ends; [lia | exact Hnd]. }
  assert (Hnum : forall i, In i (map fst items) <-> In i (range (len (faces p)))).
  { intro i. unfold items. rewrite numbered_sides_faces.
    - unfold range, len. now rewrite Nat2N.id.
    - intros f Hf E. destruct (Hp f Hf) as [Hlen _]. subst f. cbn in Hlen. lia. }
  assert (Hrange : forall (h : N -> string),
             (forall a b, h a = h b -> a = b) ->
             NoDup (map h (range (len (faces p)))) /\
             List.length (map h (range (len (faces p)))) = List.length (faces p)).
  { intros h Hh. split.
    - apply NoDup_map_inj; [exact Hh|]. unfold range.
      apply NoDup_map_inj; [apply Nat2N.inj | apply seq_NoDup].
    - unfold range, len. now rewrite !length_map, length_seq, Nat2N.id. }
  assert (Hend : forall fl nm log0 q log,
             assemble fl nm log0 = Ret (q, log) ->
             List.length (faces q) = List.length (face_names fl)).
  { intros fl nm log0 q log H. unfold assemble in H.
    pose proof (topoly_faces_count fl) as Hc.
    destruct (topoly fl) as [q0 l]. cbn [fst] in Hc.
    apply ret_pair_inv in H as [Hq _]. subst q. exact Hc. }
  assert (Hpair : forall (h : N -> string) (g : vid * vid -> vid) ks,
             (forall a b, h a = h b -> a = b) ->
             (forall i jw, h i <> corner_face jw) ->
             NoDup (map corner_face
                        (map (fun ie : N * (vid * vid) => (fst ie, g (snd ie))) items)) ->
             (forall k, In k ks <->
                        In k (map h (map fst items)) \/
                        In k (map corner_face
                                (map (fun ie : N * (vid * vid) => (fst ie, g (snd ie)))
                                     items))) ->
             List.length (fold_left add_key ks [])
             = (List.length (faces p) + sides p)%nat).
  { intros h g ks Hh Hsep Hnd Hks.
    destruct (Hrange h Hh) as [Hnd1 Hlen1].
    rewrite (add_keys_count ks
               (map h (range (len (faces p)))
                ++ map corner_face
                     (map (fun ie : N * (vid * vid) => (fst ie, g (snd ie))) items))).
    - now rewrite length_app, Hlen1, !length_map, Hitems.
    - apply NoDup_app_parts. repeat split; [exact Hnd1 | exact Hnd |].
      intros k Hk Hk'. apply in_map_iff in Hk as (i & <- & _).
      apply in_map_iff in Hk' as (jw & E & _). symmetry in E. now apply Hsep in E.
    - intro k. rewrite Hks, in_app_iff. split; intros [H|H]; auto; left.
      + apply in_map_iff in H as (i & <- & Hi). apply in_map, Hnum, Hi.
      + apply in_map_iff in H as (i & <- & Hi). apply in_map, Hnum, Hi. }
  repeat split.
  - intros q log H. unfold gyro in H.
    first_returned H cs Hcs. first_returned H fl E.
    rewrite (Hend _ _ _ _ _ H). rewrite indexed_numbered in E.
    apply (rows_names _ _ _ (gyro_face_names (vertices p))) in E. rewrite E.
    assert (Hinit : face_names
                      (fold_left (fun fl '(i, c) => newV (JStr ("center" ++ show i)) (unit c) fl)
                                 (indexed cs) (old_vertices unit p new_polyflag)) = []).
    { apply (fold_left_invariant (fun t => face_names t = []));
        [|apply old_vertices_names].
      intros t [i c] Ht. now rewrite newV_names. }
    rewrite Hinit. fold items.
    rewrite (add_keys_count _ _ Hfirst).
    + now rewrite !length_map.
    + intro k. rewrite in_flat_map. split.
      * intros (ie & Hie & [<-|[]]). apply in_map.
        now apply (in_map (fun ie : N * (vid * vid) => (fst ie, fst (snd ie)))).
      * intro Hk. apply in_map_iff in Hk as (iv & <- & Hiv).
        apply in_map_iff in Hiv as (ie & <- & Hie). exists ie. split; [exact Hie | now left].
  - intros q log H. unfold propellor in H. first_returned H fl E.
    rewrite (Hend _ _ _ _ _ H). rewrite indexed_numbered in E.
    apply (rows_names _ _ _ (propellor_face_names (vertices p))) in E.
    rewrite E, old_vertices_names. fold items.
    apply (Hpair (fun i => vname (Some i)) snd).
    + intros a b Hab. apply vname_inj in Hab. now injection Hab.
    + intros i jw E'. symmetry in E'. revert E'. apply corner_face_facts. reflexivity.
    + exact Hsecond.
    + intro k. rewrite in_flat_map. split.
      * intros (ie & Hie & [<-|[<-|[]]]).
        -- left. rewrite map_map. now apply (in_map (fun x => vname (Some (fst x)))).
        -- right. apply in_map.
           now apply (in_map (fun ie : N * (vid * vid) => (fst ie, snd (snd ie)))).
      * intros [Hk|Hk].
        -- rewrite map_map in Hk. apply in_map_iff in Hk as (ie & <- & Hie).
           exists ie. split; [exact Hie | now left].
        -- apply in_map_iff in Hk as (iv & <- & Hiv).
           apply in_map_iff in Hiv as (ie & <- & Hie).
           exists ie. split; [exact Hie | right; now left].
  - intros n q log H. unfold whirl in H.
    first_returned H cs Hcs. first_returned H fl E.
    rewrite (Hend _ _ _ _ _ H). rewrite indexed_numbered in E.
    apply whirl_rows_names in E; [|unfold centers in Hcs; now apply mapM_length in Hcs].
    rewrite E, old_vertices_names. fold items.
    apply (Hpair cface_name fst).
    + intros a b Hab. unfold cface_name in Hab. cbn [append] in Hab.
      injection Hab as Hab. now apply show_inj.
    + intros i jw E'. symmetry in E'. revert E'. apply corner_face_facts. reflexivity.
    + exact Hfirst.
    + intro k. rewrite in_flat_map. split.
      * intros (ie & Hie & [<-|[<-|[]]]).
        -- right. apply in_map.
           now apply (in_map (fun ie : N * (vid * vid) => (fst ie, fst (snd ie)))).
        -- left. rewrite map_map. now apply (in_map (fun x => cface_name (fst x))).
      * intros [Hk|Hk].
        -- rewrite map_map in Hk. apply in_map_iff in Hk as (ie & <- & Hie).
           exists ie. split; [exact Hie | right; now left].
        -- apply in_map_iff in Hk as (iv & <- & Hiv).
           apply in_map_iff in Hiv as (ie & <- & Hie).
           exists ie. split; [exact Hie | now left].
Qed.

Definition proper_faces_b (p : polyhedron) : bool :=
  forallb (fun f : list vid => (2 <=? List.length f)%nat && distinct f) (faces p).

Lemma proper_faces_b_sound p : proper_faces_b p = true -> proper_faces p.
Proof.
  unfold proper_faces_b. intros H f Hf. rewrite forallb_forall in H.
  specialize (H f Hf). apply andb_prop in H as [Hlen Hd]. split.
  - now apply Nat.leb_le.
  - now apply distinct_NoDup.
Qed.

Lemma gyro_propellor_whirl_face_counts_witness :
  exists q log, gyro cube = Ret (q, log) /\ List.length (faces q) = sides cube.
Proof.
  assert (Hcube : proper_faces cube)
    by (apply proper_faces_b_sound; vm_compute; reflexivity).
  destruct (gyro cube) as [[q log]|err] eqn:E; [|vm_compute in E; discriminate].
  exists q, log. split; [reflexivity|].
  exact (proj1 (gyro_propellor_whirl_face_counts cube Hcube) q log E).
Defined.

(** ** The faces of [perspectiva1] *)

Lemma show_nonempty i : show i <> EmptyString.
Proof.
  intro E. pose proof (show_digits i) as Hd. rewrite E in Hd.
  cbn [NilEmpty.uint_of_string] in Hd. injection Hd as Hd.
  destruct i as [|p]; [discriminate|]. cbn [N.to_uint] in Hd.
  now apply (DecimalPos.Unsigned.to_uint_nonnil p).
Qed.

Definition in_name (i : N) : string := ("in" ++ show i)%string.

Definition fstella_name (e : vid * vid) : string := ("f" ++ stella_name e)%string.

(** The three faces that [perspectiva1] names at a side [e] of face [i]. *)
Definition stella_faces (ie : N * (vid * vid)) : list string :=
  [in_name (fst ie); inset_name (fst ie, snd (snd ie)); fstella_name (snd ie)].

Lemma stella_faces_facts :
  (forall i, array_index (in_name i) = None) /\
  (forall e, array_index (fstella_name e) = None) /\
  (forall i j, in_name i = in_name j -> i = j) /\
  (forall e e', fstella_name e = fstella_name e' -> e = e') /\
  (forall i jw, in_name i <> inset_name jw) /\
  (forall i e, in_name i <> fstella_name e) /\
  (forall iv e, inset_name iv <> fstella_name e).
Proof.
  repeat split.
  - intro i. apply head_not_index. reflexivity.
  - intro e. apply head_not_index. reflexivity.
  - intros i j H. unfold in_name in H. cbn [append] in H. injection H as H.
    now apply show_inj.
  - intros e e' H.
    change (String "f" (stella_name e) = String "f" (stella_name e')) in H.
    injection H as H. apply tilde_split in H; try apply show_vid_tilde_free.
    destruct H as [H1 H2]. apply show_vid_inj in H1. apply vname_inj in H2.
    destruct e, e'; cbn [fst snd] in *. congruence.
  - intros i jw H. discriminate.
  - intros i e H. discriminate.
  - intros [i v] e H. unfold inset_name, fstella_name, stella_name, vname in H.
    cbn [append fst snd] in H. injection H as H.
    pose proof (show_sep_free "v" i v_no_digit) as Hv.
    destruct (show i) as [|a r] eqn:Ei; [now apply (show_nonempty i)|].
    cbn [append] in H. injection H as -> _. cbn [sep_free] in Hv.
    rewrite Ascii.eqb_refl in Hv. discriminate.
Qed.

Lemma perspectiva1_face_names vs fl i f c fl' :
  List.length f <> 1%nat ->
  perspectiva1_face vs fl (i, (f, c)) = Ret fl' ->
  face_names fl'
  = fold_left add_key (flat_map stella_faces (map (pair i) (visited f))) (face_names fl).
Proof.
  intros Hlen H. unfold perspectiva1_face in H. first_returned H r E.
  injection H as <-. unfold visited. rewrite <- (ends_slice2 f Hlen).
  revert fl r E. generalize (penultimate f), (last f None).
  clear Hlen. induction f as [|v3 l IH]; intros a b fl r H.
  - cbn [foldM] in H. injection H as <-. reflexivity.
  - cbn [foldM] in H.
    change (removelast (edges_from a (b :: v3 :: l)))
      with ((a, b) :: removelast (edges_from b (v3 :: l))).
    destruct (at_vid vs a) as [pa|]; [|discriminate]. cbn [defined bind] in H.
    destruct (at_vid vs b) as [pb|] eqn:Eb; [|discriminate]. cbn [defined bind] in H.
    rewrite <- Eb in H. apply (IH b v3) in H. rewrite H.
    cbn [map flat_map stella_faces app fold_left fst snd]. f_equal.
    rewrite !(newFlag_names (JStr ("f" ++ ("v" ++ show_vid a) ++ "~" ++ "v" ++ show_vid b)))
      by apply (proj1 (proj2 stella_faces_facts) (a, b)).
    rewrite !(newFlag_names (JStr ("f" ++ show i ++ "v" ++ show_vid b)))
      by apply (inset_name_facts (i, b)).
    rewrite (newFlag_names (JStr ("in" ++ show i))) by apply stella_faces_facts.
    rewrite newV_names. cbn [to_key].
    change ("f" ++ ("v" ++ show_vid a) ++ "~" ++ "v" ++ show_vid b)%string
      with (fstella_name (a, b)).
    change ("f" ++ show i ++ "v" ++ show_vid b)%string with (inset_name (i, b)).
    fold (in_name i).
    now rewrite !add_key_again.
Qed.

Lemma perspectiva1_rows_names vs (fs : list (list vid)) :
  (forall f, In f fs -> List.length f <> 1%nat) ->
  forall (cs : list vec) start fl fl',
    List.length cs = List.length fs ->
    foldM (perspectiva1_face vs) (numbered_from start (combine fs cs)) fl = Ret fl' ->
    face_names fl'
    = fold_left add_key (flat_map stella_faces (numbered_sides start fs)) (face_names fl).
Proof.
  intro Hfs. induction fs as [|f fs IH]; intros [|c cs] start fl fl' Hlen H;
    try discriminate.
  - injection H as <-. reflexivity.
  - cbn [combine] in H. rewrite numbered_from_cons in H. cbn [foldM] in H.
    first_returned H fl1 E.
    apply (IH (fun g Hg => Hfs g (or_intror Hg))) in H; [|now injection Hlen].
    apply perspectiva1_face_names in E; [|apply Hfs; now left].
    unfold numbered_sides in *. rewrite numbered_from_cons. cbn [flat_map fst snd].
    now rewrite flat_map_app, fold_left_app, <- E.
Qed.

(** X28. On a polyhedron whose faces have each at least two entries, all
    different, and where no directed edge is a side twice, with [F]
    faces and [S] sides in all, [perspectiva1], when it returns, returns
    [F + 2 S] faces: the inset faces and two triangles for every side. *)
Theorem perspectiva1_face_count p q log :
  proper_faces p -> NoDup (directed_edges p) ->
  perspectiva1 p = Ret (q, log) ->
  List.length (faces q) = (List.length (faces p) + 2 * sides p)%nat.
Proof.
  intros Hp Hnd H. unfold perspectiva1 in H.
  first_returned H cs Hcs. first_returned H fl E.
  unfold assemble in H. pose proof (topoly_faces_count fl) as Hc.
  destruct (topoly fl) as [q0 l]. cbn [fst] in Hc.
  apply ret_pair_inv in H as [Hq _]. subst q. cbn [set_name faces]. rewrite Hc.
  assert (Hlens : forall f, In f (faces p) -> List.length f <> 1%nat).
  { intros f Hf. destruct (Hp f Hf). lia. }
  rewrite indexed_numbered in E.
  apply (perspectiva1_rows_names _ _ Hlens) in E;
    [|unfold centers in Hcs; now apply mapM_length in Hcs].
  rewrite E, old_vertices_names.
  set (items := numbered_sides 0 (faces p)).
  destruct (numbered_sides_facts (faces p) 0) as (Hsnd & _ & Hcorner).
  fold items in Hsnd, Hcorner.
  assert (Hitems : List.length items = sides p).
  { rewrite <- (length_map snd items), Hsnd, concat_length_sum. reflexivity. }
  assert (Hnum : forall i, In i (map fst items) <-> In i (range (len (faces p)))).
  { intro i. unfold items. rewrite numbered_sides_faces.
    - unfold range, len. now rewrite Nat2N.id.
    - intros f Hf E'. destruct (Hp f Hf) as [Hlen _]. subst f. cbn in Hlen. lia. }
  set (ins := map in_name (range (len (faces p)))).
  set (corners := map inset_name
                      (map (fun ie : N * (vid * vid) => (fst ie, snd (snd ie))) items)).
  set (stellas := map fstella_name (map snd items)).
  rewrite (add_keys_count _ (ins ++ corners ++ stellas)).
  - unfold ins, corners, stellas, range, len.
    rewrite !length_app, !length_map, length_seq, Nat2N.id, Hitems. lia.
  - apply NoDup_app_parts. repeat split; [| apply NoDup_app_parts; repeat split | ].
    + apply NoDup_map_inj; [apply stella_faces_facts|]. unfold range.
      apply NoDup_map_inj; [apply Nat2N.inj | apply seq_NoDup].
    + apply NoDup_map_inj; [intros a b; apply inset_name_facts|].
      apply (Hcorner snd). intros f Hf. destruct (Hp f Hf) as [Hlen Hf'].
      apply visited_ends; [lia | exact Hf'].
    + apply NoDup_map_inj; [apply stella_faces_facts|].
      rewrite Hsnd. now apply visited_all_different.
    + intros k Hk Hk'. apply in_map_iff in Hk as (iv & <- & _).
      apply in_map_iff in Hk' as (e & Ee & _). symmetry in Ee. revert Ee.
      apply stella_faces_facts.
    + intros k Hk Hk'. apply in_map_iff in Hk as (i & <- & _).
      apply in_app_or in Hk' as [Hk'|Hk']; apply in_map_iff in Hk' as (x & Ex & _);
        symmetry in Ex; revert Ex; apply stella_faces_facts.
  - intro k. rewrite in_flat_map, !in_app_iff. split.
    + intros (ie & Hie & [<-|[<-|[<-|[]]]]).
      * left. apply in_map, Hnum. now apply in_map.
      * right. left. apply in_map.
        now apply (in_map (fun ie : N * (vid * vid) => (fst ie, snd (snd ie)))).
      * right. right. apply in_map. now apply in_map.
    + intros [Hk|[Hk|Hk]].
      * apply in_map_iff in Hk as (i & <- & Hi). apply Hnum in Hi.
        apply in_map_iff in Hi as (ie & <- & Hie). exists ie. split; [exact Hie | now left].
      * apply in_map_iff in Hk as (iv & <- & Hiv).
        apply in_map_iff in Hiv as (ie & <- & Hie).
        exists ie. split; [exact Hie | right; now left].
      * apply in_map_iff in Hk as (e & <- & He).
        apply in_map_iff in He as (ie & <- & Hie).
        exists ie. split; [exact Hie | right; right; now left].
Qed.

Lemma perspectiva1_face_count_witness :
  exists q log,
    perspectiva1 cube = Ret (q, log) /\
    List.length (faces q) = (List.length (faces cube) + 2 * sides cube)%nat.
Proof.
  assert (Hcube : proper_faces cube)
    by (apply proper_faces_b_sound; vm_compute; reflexivity).
  assert (Hnd : NoDup (directed_edges cube))
    by (apply distinct_edges_NoDup; vm_compute; reflexivity).
  destruct (perspectiva1 cube) as [[q log]|err] eqn:E; [|vm_compute in E; discriminate].
  exists q, log. split; [reflexivity|].
  exact (perspectiva1_face_count cube q log Hcube Hnd E).
Defined.

(** ** The faces of [quinto] *)

(** Names declared once per face and once per corner of a face. *)
Lemma faces_and_corners_count (fs : list (list vid))
    (h : N -> string) (cn : N * vid -> string) (g : vid * vid -> vid)
    (G : N * (vid * vid) -> list string) :
  (forall f, In f fs -> f <> [] /\ NoDup (map g (visited f))) ->
  (forall a b, h a = h b -> a = b) ->
  (forall a b, cn a = cn b -> a = b) ->
  (forall i jw, h i <> cn jw) ->
  (forall ie k, In k (G ie) <-> k = h (fst ie) \/ k = cn (fst ie, g (snd ie))) ->
  List.length (fold_left add_key (flat_map G (numbered_sides 0 fs)) [])
  = (List.length fs + List.length (List.concat (map visited fs)))%nat.
Proof.
  intros Hfs Hh Hcn Hsep HG.
  set (items := numbered_sides 0 fs).
  destruct (numbered_sides_facts fs 0) as (Hsnd & _ & Hcorner). fold items in Hsnd, Hcorner.
  set (per_face := map h (map N.of_nat (seq 0 (List.length fs)))).
  set (per_corner := map cn (map (fun ie : N * (vid * vid) => (fst ie, g (snd ie))) items)).
  rewrite (add_keys_count _ (per_face ++ per_corner)).
  - unfold per_face, per_corner.
    rewrite length_app, !length_map, length_seq.
    now rewrite <- (length_map snd items), Hsnd.
  - apply NoDup_app_parts. repeat split.
    + apply NoDup_map_inj; [exact Hh|].
      apply NoDup_map_inj; [apply Nat2N.inj | apply seq_NoDup].
    + apply NoDup_map_inj; [exact Hcn|]. apply (Hcorner g).
      intros f Hf. now apply Hfs.
    + intros k Hk Hk'. apply in_map_iff in Hk as (i & <- & _).
      apply in_map_iff in Hk' as (jw & E & _). symmetry in E. now apply Hsep in E.
  - assert (Hnum : forall i, In i (map fst items)
                             <-> In i (map N.of_nat (seq 0 (List.length fs)))).
    { intro i. unfold items. apply numbered_sides_faces. intros f Hf. now apply Hfs. }
    intro k. rewrite in_flat_map, in_app_iff. split.
    + intros (ie & Hie & Hk). apply HG in Hk as [->| ->].
      * left. apply in_map, Hnum. now apply in_map.
      * right. apply in_map.
        now apply (in_map (fun ie : N * (vid * vid) => (fst ie, g (snd ie)))).
    + intros [Hk|Hk].
      * apply in_map_iff in Hk as (i & <- & Hi). apply Hnum in Hi.
        apply in_map_iff in Hi as (ie & <- & Hie). exists ie. split; [exact Hie|].
        apply HG. now left.
      * apply in_map_iff in Hk as (iv & <- & Hiv).
        apply in_map_iff in Hiv as (ie & <- & Hie). exists ie. split; [exact Hie|].
        apply HG. now right.
Qed.

Definition qcorner_name (iv : N * vid) : string :=
  ("f" ++ show (fst iv) ++ "_" ++ show_vid (snd iv))%string.

Definition qin_name (i : N) : string := ("f_in_" ++ show i)%string.

Lemma quinto_name_facts :
  (forall iv, array_index (qcorner_name iv) = None) /\
  (forall i, array_index (qin_name i) = None) /\
  (forall a b, qin_name a = qin_name b -> a = b) /\
  (forall a b, qcorner_name a = qcorner_name b -> a = b) /\
  (forall i jw, qin_name i <> qcorner_name jw).
Proof.
  repeat split.
  - intro iv. apply head_not_index. reflexivity.
  - intro i. apply head_not_index. reflexivity.
  - intros a b H. unfold qin_name in H. cbn [append] in H. injection H as H.
    now apply show_inj.
  - intros [i v] [j w] H. unfold qcorner_name in H. cbn [append fst snd] in H.
    injection H as H.
    apply sep_split in H; try (apply show_sep_free, underscore_no_digit).
    destruct H as [H1 H2]. apply show_inj in H1. apply show_vid_inj in H2. congruence.
  - intros i [j w] H. unfold qin_name, qcorner_name in H. cbn [append fst snd] in H.
    injection H as H. symmetry in H.
    pose proof (show_sep_free "_" j underscore_no_digit) as Hfree.
    destruct (show j) as [|a r] eqn:Ej; [now apply (show_nonempty j)|].
    cbn [append] in H. injection H as -> _. cbn [sep_free] in Hfree.
    rewrite Ascii.eqb_refl in Hfree. discriminate.
Qed.

Lemma quinto_face_names vs fl i f fl' :
  quinto_face vs fl (i, f) = Ret fl' ->
  face_names fl'
  = fold_left add_key
      (flat_map (fun ie : N * (vid * vid) =>
                   [qcorner_name (fst ie, snd (snd ie)); qin_name (fst ie)])
                (map (pair i) (visited f)))
      (face_names fl).
Proof.
  unfold quinto_face, visited. intro H. first_returned H coords Hc.
  destruct (slice2 f) as [v1 v2]. first_returned H r E. injection H as <-.
  clear Hc. revert fl v1 v2 r E.
  induction f as [|v3 l IH]; intros fl v1 v2 r H.
  - cbn [foldM] in H. injection H as <-. reflexivity.
  - cbn [foldM] in H.
    change (removelast (edges_from v1 (v2 :: v3 :: l)))
      with ((v1, v2) :: removelast (edges_from v2 (v3 :: l))).
    destruct (at_vid vs v1); [|discriminate]. cbn [defined bind] in H.
    destruct (at_vid vs v2); [|discriminate]. cbn [defined bind] in H.
    apply IH in H. rewrite H. cbn [map flat_map app fold_left fst snd]. f_equal.
    rewrite (newFlag_names (JStr ("f_in_" ++ show i))) by apply quinto_name_facts.
    rewrite !(newFlag_names (JStr ("f" ++ show i ++ "_" ++ show_vid v2)))
      by apply (proj1 quinto_name_facts (i, v2)).
    rewrite !newV_names. cbn [to_key].
    change ("f" ++ show i ++ "_" ++ show_vid v2)%string with (qcorner_name (i, v2)).
    fold (qin_name i).
    now rewrite !add_key_again.
Qed.

(** X29. On a polyhedron whose faces have each at least two entries, all
    different, with [F] faces and [S] sides in all, [quinto], when it
    returns, returns [F + S] faces: an inner face for every face and a
    pentagon for every corner. *)
Theorem quinto_face_count p q log :
  proper_faces p ->
  quinto p = Ret (q, log) ->
  List.length (faces q) = (List.length (faces p) + sides p)%nat.
Proof.
  intros Hp H. unfold quinto in H. first_returned H fl E.
  unfold assemble in H. pose proof (topoly_faces_count fl) as Hc.
  destruct (topoly fl) as [q0 l]. cbn [fst] in Hc.
  apply ret_pair_inv in H as [Hq _]. subst q. cbn [set_name faces]. rewrite Hc.
  rewrite indexed_numbered in E.
  apply (rows_names _ _ _ (quinto_face_names (vertices p))) in E.
  rewrite E. cbn [face_names flags new_polyflag obj_keys map].
  rewrite (faces_and_corners_count (faces p) qin_name qcorner_name snd).
  - now rewrite concat_length_sum.
  - intros f Hf. destruct (Hp f Hf) as [Hlen Hnd]. split.
    + intro Ef. subst f. cbn in Hlen. lia.
    + apply visited_ends; [lia | exact Hnd].
  - apply quinto_name_facts.
  - apply quinto_name_facts.
  - apply quinto_name_facts.
  - intros ie k. cbn [In]. split; [intros [<-|[<-|[]]]; auto | intros [->| ->]; auto].
Qed.

Lemma quinto_face_count_witness :
  exists q log,
    quinto cube = Ret (q, log) /\
    List.length (faces q) = (List.length (faces cube) + sides cube)%nat.
Proof.
  assert (Hcube : proper_faces cube)
    by (apply proper_faces_b_sound; vm_compute; reflexivity).
  destruct (quinto cube) as [[q log]|err] eqn:E; [|vm_compute in E; discriminate].
  exists q, log. split; [reflexivity|].
  exact (quinto_face_count cube q log Hcube E).
Defined.

(** ** The faces of [hollow] *)

(** The corners of the faces, each with the number of its face, in the
    order in which [hollow] goes through them: every vertex when it is
    the previous one. *)
Definition numbered_corners (start : nat) (fs : list (list vid)) : list (N * vid) :=
  flat_map (fun row : N * list vid => map (pair (fst row)) (map fst (faceToEdges (snd row))))
           (numbered_from start fs).

Lemma face_starts (f : list vid) : NoDup f -> NoDup (map fst (faceToEdges f)).
Proof.
  intro Hnd. unfold faceToEdges. rewrite (proj2 (edges_from_ends _ _)).
  destruct f as [|a f]; [constructor|].
  destruct (exists_last (l := a :: f)) as (l' & z & E); [discriminate|].
  rewrite E, last_last.
  change (z :: l' ++ [z]) with ((z :: l') ++ [z]). rewrite removelast_last.
  rewrite E in Hnd. apply NoDup_app_parts in Hnd as (Hl' & _ & Hz).
  constructor; [|exact Hl']. intro Hin. apply (Hz z Hin). now left.
Qed.

Lemma numbered_corners_facts (fs : list (list vid)) :
  (forall f, In f fs -> NoDup f) ->
  forall start,
    List.length (numbered_corners start fs) = list_sum (map (@List.length vid) fs) /\
    (forall iv, In iv (numbered_corners start fs) -> N.of_nat start <= fst iv) /\
    NoDup (numbered_corners start fs).
Proof.
  intro Hfs. induction fs as [|f fs IH]; intro start.
  - repeat split; [intros iv [] | constructor].
  - destruct (IH (fun g Hg => Hfs g (or_intror Hg)) (S start)) as (Hlen & Hlow & Hnd).
    unfold numbered_corners in *. rewrite numbered_from_cons. cbn [flat_map fst snd].
    repeat split.
    + rewrite length_app, Hlen, !length_map. cbn [map]. rewrite list_sum_cons. f_equal.
      unfold faceToEdges. rewrite <- (length_map snd (edges_from (last f None) f)).
      now rewrite (proj1 (edges_from_ends _ _)).
    + intros iv Hiv. apply in_app_or in Hiv as [Hiv|Hiv].
      * apply in_map_iff in Hiv as (v & <- & _). cbn [fst]. lia.
      * apply Hlow in Hiv. lia.
    + apply NoDup_app_parts. repeat split; [|exact Hnd|].
      * apply NoDup_map_inj; [now intros a b [= ->]|]. apply face_starts, Hfs. now left.
      * intros iv Hiv Hin. apply in_map_iff in Hiv as (v & <- & _).
        apply Hlow in Hin. cbn [fst] in Hin. lia.
Qed.

Definition hface_name (iv : N * vid) : string :=
  (show (fst iv) ++ "v" ++ show_vid (snd iv))%string.

(** The three faces that [hollow] names at a corner. *)
Definition hollow_faces (iv : N * vid) : list string :=
  [hface_name iv; ("sides" ++ hface_name iv)%string; ("bottom" ++ hface_name iv)%string].

Lemma hface_name_facts iv :
  (array_index (hface_name iv) = None) /\
  (forall jw, hface_name iv = hface_name jw -> iv = jw) /\
  (forall c s, sep_free c "0123456789v" = true -> hface_name iv <> String c s).
Proof.
  destruct iv as [i v]. unfold hface_name. cbn [fst snd]. repeat split.
  - apply sep_not_index. reflexivity.
  - intros [j w] H. cbn [fst snd] in H. now apply corner_split.
  - intros c s Hc H.
    assert (Hfree : sep_free c (show i) = true).
    { apply show_sep_free. intros d' Hd.
      cbn [NilEmpty.uint_of_string] in Hd. unfold uint_of_char in Hd.
      destruct c as [[] [] [] [] [] [] [] []]; cbn in Hd, Hc; discriminate. }
    destruct (show i) as [|a r] eqn:Ei; cbn [append] in H.
    + injection H as <- _. discriminate.
    + injection H as -> _. cbn [sep_free] in Hfree.
      rewrite Ascii.eqb_refl in Hfree. discriminate.
Qed.

Lemma hollow_faces_facts :
  (forall iv k, In k (hollow_faces iv) -> array_index k = None) /\
  (forall iv, NoDup (hollow_faces iv)) /\
  (forall iv jw k, In k (hollow_faces iv) -> In k (hollow_faces jw) -> iv = jw).
Proof.
  assert (Hs : forall iv jw, ("sides" ++ hface_name iv)%string <> hface_name jw).
  { intros iv jw H. symmetry in H. revert H. apply hface_name_facts. reflexivity. }
  assert (Hb : forall iv jw, ("bottom" ++ hface_name iv)%string <> hface_name jw).
  { intros iv jw H. symmetry in H. revert H. apply hface_name_facts. reflexivity. }
  assert (Hsb : forall iv jw, ("sides" ++ hface_name iv)%string
                              <> ("bottom" ++ hface_name jw)%string)
    by (intros iv jw H; discriminate).
  assert (Hsi : forall iv jw, ("sides" ++ hface_name iv = "sides" ++ hface_name jw)%string
                              -> iv = jw).
  { intros iv jw H.
    change (String "s" (String "i" (String "d" (String "e" (String "s" (hface_name iv)))))
            = String "s" (String "i" (String "d" (String "e" (String "s" (hface_name jw))))))
      in H.
    assert (H' : hface_name iv = hface_name jw) by congruence.
    now apply hface_name_facts. }
  assert (Hbi : forall iv jw, ("bottom" ++ hface_name iv = "bottom" ++ hface_name jw)%string
                              -> iv = jw).
  { intros iv jw H.
    change (String "b" (String "o" (String "t" (String "t" (String "o"
              (String "m" (hface_name iv))))))
            = String "b" (String "o" (String "t" (String "t" (String "o"
              (String "m" (hface_name jw))))))) in H.
    assert (H' : hface_name iv = hface_name jw) by congruence.
    now apply hface_name_facts. }
  repeat split.
  - intros iv k [<-|[<-|[<-|[]]]];
      [apply hface_name_facts | apply head_not_index | apply head_not_index]; reflexivity.
  - intro iv. unfold hollow_faces. repeat constructor; cbn [In].
    + intros [H|[H|[]]]; [now apply Hs in H | now apply Hb in H].
    + intros [H|[]]. symmetry in H. now apply Hsb in H.
    + intros [].
  - intros iv jw k [<-|[<-|[<-|[]]]] [H|[H|[H|[]]]].
    + symmetry in H. now apply hface_name_facts.
    + now apply Hs in H.
    + now apply Hb in H.
    + symmetry in H. now apply Hs in H.
    + symmetry in H. now apply Hsi.
    + symmetry in H. now apply Hsb in H.
    + symmetry in H. now apply Hb in H.
    + now apply Hsb in H.
    + symmetry in H. now apply Hbi.
Qed.

Lemma hollow_face_names fl i f :
  face_names (hollow_face fl (i, f))
  = fold_left add_key
      (flat_map hollow_faces (map (pair i) (map fst (faceToEdges f))))
      (face_names fl).
Proof.
  unfold hollow_face, faceToEdges. revert fl. generalize (last f None).
  induction f as [|v l IH]; intros a fl; [reflexivity|].
  cbn [fold_left edges_from map flat_map fst snd]. rewrite (IH v).
  rewrite fold_left_app. f_equal.
  assert (Hplain : forall k, In k (hollow_faces (i, a)) -> array_index k = None)
    by apply hollow_faces_facts.
  rewrite !(newFlag_names (JStr ("bottom" ++ show i ++ "v" ++ show_vid a)))
    by (apply Hplain; right; right; now left).
  rewrite !(newFlag_names (JStr ("sides" ++ show i ++ "v" ++ show_vid a)))
    by (apply Hplain; right; now left).
  rewrite !(newFlag_names (JStr (show i ++ "v" ++ show_vid a)))
    by (apply Hplain; now left).
  cbn [to_key hollow_faces fold_left]. unfold hface_name. cbn [fst snd].
  now rewrite !add_key_again.
Qed.

Lemma flat_map_triples_length {A B} (F : A -> list B) (l : list A) :
  (forall x, List.length (F x) = 3%nat) ->
  List.length (flat_map F l) = (3 * List.length l)%nat.
Proof.
  intro HF. induction l as [|a l IH]; [reflexivity|].
  cbn [flat_map List.length]. rewrite length_app, HF, IH. lia.
Qed.

(** X30. On a polyhedron whose faces visit no vertex twice, [hollow],
    when it returns, returns three faces for every side of every face of
    its argument: one on the outer shell, one on the inner shell and one
    on the wall of the hole. *)
Theorem hollow_face_count p inset_dist thickness q log :
  (forall f, In f (faces p) -> NoDup f) ->
  hollow p inset_dist thickness = Ret (q, log) ->
  List.length (faces q) = (3 * sides p)%nat.
Proof.
  intros Hfs H. unfold hollow in H.
  first_returned H d Hd. first_returned H dns Hdns.
  first_returned H ns Hns. first_returned H cs Hcs.
  first_returned H fl1 E1. first_returned H fl2 E2.
  assert (Hnone1 : face_names fl1 = []).
  { revert E1. apply foldM_preserves with (P := fun t => face_names t = []); [|reflexivity].
    intros t [i x] t' Ht Hstep.
    destruct (nth_error dns (N.to_nat i)); [|discriminate].
    cbn [defined bind] in Hstep. injection Hstep as <-. now rewrite !newV_names. }
  assert (Hnone2 : face_names fl2 = []).
  { revert E2. apply foldM_preserves with (P := fun t => face_names t = []); [|exact Hnone1].
    intros t [i [f [ni ci]]] t' Ht Hstep. unfold hollow_vertices in Hstep.
    revert Hstep. apply foldM_preserves with (P := fun t => face_names t = []); [|exact Ht].
    intros t0 v t1 Ht0 Hstep. destruct (at_vid (vertices p) v); [|discriminate].
    cbn [defined bind] in Hstep. injection Hstep as <-. now rewrite !newV_names. }
  unfold assemble in H.
  pose proof (topoly_faces_count (fold_left hollow_face (indexed (faces p)) fl2)) as Hc.
  destruct (topoly _) as [q0 l]. cbn [fst] in Hc.
  apply ret_pair_inv in H as [Hq _]. subst q. cbn [set_name faces]. rewrite Hc.
  assert (Hrows : forall (fs : list (list vid)) start fl,
             face_names (fold_left hollow_face (numbered_from start fs) fl)
             = fold_left add_key (flat_map hollow_faces (numbered_corners start fs))
                         (face_names fl)).
  { induction fs as [|f fs IH]; intros start fl; [reflexivity|].
    rewrite numbered_from_cons. cbn [fold_left]. rewrite IH, hollow_face_names.
    unfold numbered_corners. rewrite numbered_from_cons. cbn [flat_map fst snd].
    now rewrite flat_map_app, fold_left_app. }
  rewrite indexed_numbered, Hrows, Hnone2.
  destruct (numbered_corners_facts (faces p) Hfs 0) as (Hlen & _ & Hnd).
  rewrite add_keys_fresh.
  - cbn [app]. rewrite (flat_map_triples_length hollow_faces) by reflexivity.
    now rewrite Hlen, sides_sum.
  - cbn [app]. apply NoDup_flat_map; [exact Hnd | |].
    + intros iv _. apply hollow_faces_facts.
    + intros iv jw k _ _. apply hollow_faces_facts.
Qed.

Lemma hollow_face_count_witness :
  exists q log,
    hollow cube None None = Ret (q, log) /\
    List.length (faces q) = (3 * sides cube)%nat.
Proof.
  assert (Hcube : forall f, In f (faces cube) -> NoDup f).
  { intros f Hf.
    assert (H : forallb distinct (faces cube) = true) by (vm_compute; reflexivity).
    rewrite forallb_forall in H. now apply distinct_NoDup, H. }
  destruct (hollow cube None None) as [[q log]|err] eqn:E;
    [|vm_compute in E; discriminate].
  exists q, log. split; [reflexivity|].
  exact (hollow_face_count cube None None q log Hcube E).
Defined.
